(** * Kaya AI-analysis core: model rewriter, inference engine, board recognition

    A shallow embedding of the TypeScript sources of the Kaya Go study
    application, and the properties its design document states about them.

    Conventions of the embedding.
    - A JavaScript [number] that only ever holds an integer (sizes, indices,
      counters, tensor dimensions) is a [Z] or a [nat].
    - A JavaScript [number] that holds a real quantity (probabilities, pixel
      coordinates) is an exact rational [Q]; rounding of IEEE-754 doubles is
      not modelled.  Transcendental functions ([Math.exp], [Math.sqrt]) are
      parameters of the sections that use them.
    - [undefined] is [None]; an [async] function that may throw returns an
      [Outcome].
    - Objects that the source mutates in place are threaded explicitly. *)

From Stdlib Require Import ZArith QArith Qround Qabs Qpower List String Ascii.
From Stdlib Require Import Bool.
From Stdlib Require Import Lia Lqa DecimalString DecimalPos DecimalZ Permutation Sorted.
From Stdlib.Strings Require Import Byte.
Import ListNotations.

Set Warnings "-register-all".
Local Open Scope string_scope.
Local Open Scope Z_scope.

(* ================================================================== *)
(** * Part I: the programs                                             *)
(* ================================================================== *)

(** ** JavaScript preliminaries *)

Module Js.

(** Template-literal rendering of an integer-valued number. *)
Definition show_Z (z : Z) : string := NilZero.string_of_int (Z.to_int z).

Definition show_nat (n : nat) : string := show_Z (Z.of_nat n).

(** The result of awaiting a promise. *)
Inductive Outcome (A : Type) : Type :=
| Resolved (a : A)
| Rejected (msg : string).

Arguments Resolved {A} a.
Arguments Rejected {A} msg.

(** Truthiness of an optional string: [undefined] and [''] are falsy. *)
Definition truthy_string (s : option string) : bool :=
  match s with
  | Some s => negb (s =? "")%string
  | None => false
  end.

(** [a === b] where [a] is a string and [b] may be [undefined]. *)
Definition strict_eq_string (a : string) (b : option string) : bool :=
  match b with
  | Some b => (a =? b)%string
  | None => false
  end.

Definition byte_of_Z (z : Z) : byte :=
  match Byte.of_N (Z.to_N (z mod 256)) with
  | Some b => b
  | None => x00
  end.

(** [DataView.setFloat32(0, v, true)] for a value given by its IEEE-754
    binary32 fields: the 32-bit pattern, least significant byte first. *)
Definition float32_bits (sign biased_exponent fraction : Z) : Z :=
  Z.lor (Z.shiftl sign 31) (Z.lor (Z.shiftl biased_exponent 23) fraction).

Definition le_bytes (width : nat) (bits : Z) : list byte :=
  map (fun k => byte_of_Z (Z.shiftr bits (8 * Z.of_nat k))) (seq 0 width).

(** 1.0 = (-1)^0 * 2^(127-127) * 1.0 *)
Definition float32_one_le : list byte := le_bytes 4 (float32_bits 0 127 0).

(** *** Rounding to a binary floating-point format *)

(** The integer nearest to [q], a tie going to the even one. *)
Definition round_half_even (q : Q) : Z :=
  let f := Qfloor q in
  match Qcompare (q - inject_Z f) (1 # 2) with
  | Lt => f
  | Gt => f + 1
  | Eq => if Z.even f then f else f + 1
  end.

(** 2 to the power [k], for any integer [k]. *)
Definition pow2 (k : Z) : Q := (2 ^ k)%Q.

(** The exponent of the binade of a positive [a]: the greatest [e] with
    [2 ^ e <= a]. *)
Definition binade (a : Q) : Z :=
  let e := Z.log2 (Qnum a) - Z.log2 (Z.pos (Qden a)) in
  if Qle_bool (pow2 e) a then e else e - 1.

(** The number nearest to [q], ties to even, among those of the binary
    format with [prec] significant bits and least normal exponent [emin].
    The overflow of the format to an infinity is not represented: the
    numbers rounded below are far from it. *)
Definition nearest (prec emin : Z) (q : Q) : Q :=
  if Qeq_bool q 0 then 0%Q
  else
    let e := Z.max (binade (Qabs q)) emin in
    let quantum := pow2 (e - prec + 1) in
    (inject_Z (round_half_even (q / quantum)) * quantum)%Q.

(** The double nearest to a real number, and the number a [Float32Array]
    holds after the double nearest to [q] has been stored in it. *)
Definition to_double : Q -> Q := nearest 53 (-1022).

Definition to_float32 (q : Q) : Q := nearest 24 (-126) (to_double q).

(** What the properties of stored numbers need of a store: that it is
    monotone, and exact on 0 and 1. *)
Definition rounding (fround : Q -> Q) : Prop :=
  (forall a b, a <= b -> fround a <= fround b)%Q
  /\ (fround 0 == 0)%Q /\ (fround 1 == 1)%Q.

(** Own properties of [Object.prototype]: a lookup [obj[key]] on an object
    literal finds these when [key] is not an own property. *)
Definition object_prototype_keys : list string :=
  [ "constructor"; "__defineGetter__"; "__defineSetter__"; "hasOwnProperty";
    "__lookupGetter__"; "__lookupSetter__"; "isPrototypeOf";
    "propertyIsEnumerable"; "toString"; "valueOf"; "__proto__";
    "toLocaleString" ].

(** [String(Object.prototype[key])] for one of these keys, as V8 prints it:
    the members are built-in functions, printed as their source text;
    [constructor] is the function [Object], and [__proto__] reads as
    [Object.prototype] itself, an object. *)
Definition show_inherited (key : string) : string :=
  if (key =? "__proto__")%string then "[object Object]"
  else "function "
       ++ (if (key =? "constructor")%string then "Object" else key)
       ++ "() { [native code] }".

(** [a.sort(cmp)]: a stable sort; [x] goes before [y] when [cmp x y < 0]. *)
Fixpoint sort_insert {A : Type} (cmp : A -> A -> Z) (x : A) (l : list A)
  : list A :=
  match l with
  | [] => [x]
  | y :: rest =>
      if (cmp x y <? 0)%Z then x :: y :: rest
      else y :: sort_insert cmp x rest
  end.

Definition sort {A : Type} (cmp : A -> A -> Z) (a : list A) : list A :=
  fold_left (fun sorted x => sort_insert cmp x sorted) a [].

End Js.

(** ** The model rewriter (webgpu-converter.ts, webnn-converter) *)

Module Onnx.
Import Js.

(** *** The protobuf schema

    The messages of [ONNX_SCHEMA], with the fields the rewriter reads and the
    fields through which a model holds nodes. *)

(** An int64 field holds an integer once decoded; the coprocessor rewriter
    may store a property inherited from [Object.prototype] in it. *)
Inductive DimValue : Type :=
| DimInt (v : Z)
| DimObject (key : string).

Record Dimension : Type := mkDimension {
  dimValue : option DimValue;
  dimParam : option string;
  dim_denotation : string
}.

Record TensorShapeProto : Type := mkShape { dim : list Dimension }.

Record TypeProto_Tensor : Type := mkTensorType {
  elemType : Z;
  shape : option TensorShapeProto
}.

Record TypeProto : Type := mkTypeProto {
  tensorType : option TypeProto_Tensor;
  denotation : string
}.

Record ValueInfoProto : Type := mkValueInfo {
  vi_name : string;
  vi_type : option TypeProto;
  vi_docString : string
}.

Record TensorProto : Type := mkTensor {
  dims : list Z;
  dataType : Z;
  rawData : list byte;
  t_name : string
}.

(** An attribute may carry a graph ([g]) or several ([graphs]): the branches
    of an [If], the body of a [Loop].  Elements of [input] and [output] of a
    node are strings after decoding; a node built by the rewriter from
    [node.input[0]] of a node without inputs holds [undefined]. *)
Inductive AttributeProto : Type := mkAttribute {
  attr_name : string;
  attr_type : Z;
  attr_i : Z;
  attr_ints : list Z;
  attr_g : option GraphProto;
  attr_graphs : list GraphProto
}
with NodeProto : Type := mkNode {
  input : list (option string);
  output : list (option string);
  name : string;
  opType : string;
  domain : string;
  attribute : list AttributeProto;
  docString : string
}
with GraphProto : Type := mkGraph {
  node : list NodeProto;
  g_name : string;
  initializer : list TensorProto;
  g_input : list ValueInfoProto;
  g_output : list ValueInfoProto;
  valueInfo : list ValueInfoProto
}.

Record TrainingInfoProto : Type := mkTrainingInfo {
  initialization : option GraphProto;
  algorithm : option GraphProto
}.

Record FunctionProto : Type := mkFunction {
  fn_name : string;
  fn_node : list NodeProto
}.

Record ModelProto : Type := mkModel {
  irVersion : Z;
  producerName : string;
  graph : option GraphProto;
  trainingInfo : list TrainingInfoProto;
  functions : list FunctionProto
}.

(** [model.graph = g], the other fields as they are. *)
Definition with_graph (model : ModelProto) (g : GraphProto) : ModelProto :=
  mkModel (irVersion model) (producerName model) (Some g)
          (trainingInfo model) (functions model).

(** The protobufjs codec for [onnx.ModelProto]: [decode] throws on bytes that
    are not a message of the schema; [encode] gives the bytes written for a
    message all of whose strings are strings. *)
Record Codec : Type := mkCodec {
  decode : list byte -> Outcome ModelProto;
  encode : ModelProto -> list byte
}.

Definition is_string (s : option string) : bool :=
  match s with
  | Some _ => true
  | None => false
  end.

(** The strings the encoder writes for a graph, its nodes, and the graphs
    held by their attributes, are all strings. *)
Fixpoint graph_writable (g : GraphProto) : bool :=
  forallb node_writable (node g)
with node_writable (n : NodeProto) : bool :=
  forallb is_string (input n) && forallb is_string (output n)
  && forallb attribute_writable (attribute n)
with attribute_writable (a : AttributeProto) : bool :=
  match attr_g a with
  | Some g => graph_writable g
  | None => true
  end
  && forallb graph_writable (attr_graphs a).

Definition option_writable (g : option GraphProto) : bool :=
  match g with
  | Some g => graph_writable g
  | None => true
  end.

Definition model_writable (m : ModelProto) : bool :=
  option_writable (graph m)
  && forallb (fun t => option_writable (initialization t)
                       && option_writable (algorithm t))
             (trainingInfo m)
  && forallb (fun f => forallb node_writable (fn_node f)) (functions m).

(** [ModelProto.encode(model).finish()].  The encoder writes an element of a
    repeated string field with [writer.string(value)], which reads
    [value.length]: on [undefined] this is a TypeError (the text is V8's). *)
Definition ModelProto_encode (pb : Codec) (m : ModelProto)
  : Outcome (list byte) :=
  if model_writable m then Resolved (encode pb m)
  else Rejected "Cannot read properties of undefined (reading 'length')".

Definition ONNX_FLOAT : Z := 1.
Definition ONNX_FLOAT16 : Z := 10.
Definition WEBGPU_BATCH_SIZE : Z := 8.

Record ConversionResult : Type := mkResult {
  buffer : list byte;
  wasConverted : bool;
  changes : list string;
  batchSize : Z
}.

(** *** Shared helpers *)

(** [vi.type?.tensorType?.shape?.dim] *)
Definition vi_dims (vi : ValueInfoProto) : option (list Dimension) :=
  match vi_type vi with
  | Some t =>
      match tensorType t with
      | Some ten =>
          match shape ten with
          | Some s => Some (dim s)
          | None => None
          end
      | None => None
      end
  | None => None
  end.

(** The same declaration with its dimension array replaced (the source
    mutates the dimension objects in place). *)
Definition vi_with_dims (vi : ValueInfoProto) (ds : list Dimension)
  : ValueInfoProto :=
  match vi_type vi with
  | Some t =>
      match tensorType t with
      | Some ten =>
          match shape ten with
          | Some _ =>
              mkValueInfo (vi_name vi)
                (Some (mkTypeProto
                         (Some (mkTensorType (elemType ten) (Some (mkShape ds))))
                         (denotation t)))
                (vi_docString vi)
          | None => vi
          end
      | None => vi
      end
  | None => vi
  end.

(** [graph.input[0]?.type?.tensorType?.elemType === ONNX_FLOAT16] *)
Definition detect_fp16 (g : GraphProto) : bool :=
  match g_input g with
  | vi :: _ =>
      match vi_type vi with
      | Some t =>
          match tensorType t with
          | Some ten => elemType ten =? ONNX_FLOAT16
          | None => false
          end
      | None => false
      end
  | [] => false
  end.

(** [!d.dimValue] negated: a present, non-zero value. *)
Definition truthy_dimValue (v : option DimValue) : bool :=
  match v with
  | Some (DimInt z) => negb (z =? 0)
  | Some (DimObject _) => true
  | None => false
  end.

(** [Number(d.dimValue) <= 0] *)
Definition dimValue_nonpositive (v : option DimValue) : bool :=
  match v with
  | Some (DimInt z) => z <=? 0
  | _ => false
  end.

(** [String(v)], also the text of [v] in a template literal. *)
Definition show_DimValue (v : DimValue) : string :=
  match v with
  | DimInt z => show_Z z
  | DimObject key => show_inherited key
  end.

(** *** Static batch dimension, GPU profile *)

Definition makeStatic_firstDim (batchSize : Z) (d : Dimension)
  : option (Dimension * string) :=
  if truthy_string (dimParam d)
     || negb (truthy_dimValue (dimValue d))
     || dimValue_nonpositive (dimValue d)
  then
    let oldVal :=
      if truthy_string (dimParam d)
      then match dimParam d with Some s => s | None => "" end
      else if truthy_dimValue (dimValue d)
           then match dimValue d with
                | Some v => show_DimValue v
                | None => "?"
                end
           else "?" in
    Some (mkDimension (Some (DimInt batchSize)) None (dim_denotation d), oldVal)
  else None.

Definition makeStaticGPU_vi (batchSize : Z) (label : string)
    (vi : ValueInfoProto) : ValueInfoProto * list string :=
  match vi_dims vi with
  | Some (firstDim :: rest) =>
      match makeStatic_firstDim batchSize firstDim with
      | Some (d', oldVal) =>
          (vi_with_dims vi (d' :: rest),
           [label ++ " " ++ vi_name vi ++ ": batch " ++ oldVal ++ " → "
              ++ show_Z batchSize])
      | None => (vi, [])
      end
  | _ => (vi, [])
  end.

(** One call of a [makeStatic] closure: the declarations after the call and
    the messages it pushed on [changes]. *)
Fixpoint makeStatic_with (step : ValueInfoProto -> ValueInfoProto * list string)
    (valueInfos : list ValueInfoProto) : list ValueInfoProto * list string :=
  match valueInfos with
  | [] => ([], [])
  | vi :: rest =>
      let '(vi', msgs) := step vi in
      let '(rest', msgs') := makeStatic_with step rest in
      (vi' :: rest', (msgs ++ msgs')%list)
  end.

Definition makeStaticGPU (batchSize : Z) (valueInfos : list ValueInfoProto)
    (label : string) : list ValueInfoProto * list string :=
  makeStatic_with (makeStaticGPU_vi batchSize label) valueInfos.

(** *** Static dimensions, coprocessor profile *)

Inductive JsProperty : Type :=
| OwnNumber (v : Z)
| Inherited (key : string).

(** [STATIC_DIMS[name]] for the object literal
    [{ batch_size: batchSize, height: boardSize, width: boardSize }]; [None]
    is [undefined].  A name that is not an own property is looked up in
    [Object.prototype]. *)
Definition STATIC_DIMS (batchSize boardSize : Z) (name : string)
  : option JsProperty :=
  if (name =? "batch_size")%string then Some (OwnNumber batchSize)
  else if (name =? "height")%string then Some (OwnNumber boardSize)
  else if (name =? "width")%string then Some (OwnNumber boardSize)
  else if existsb (String.eqb name) object_prototype_keys
       then Some (Inherited name)
       else None.

Definition DimValue_of_property (p : JsProperty) : DimValue :=
  match p with
  | OwnNumber v => DimInt v
  | Inherited key => DimObject key
  end.

Definition makeStaticNN_dim (batchSize boardSize : Z) (label viName : string)
    (d : Dimension) : Dimension * list string :=
  let static :=
    match dimParam d with
    | Some name =>
        if truthy_string (Some name)
        then match STATIC_DIMS batchSize boardSize name with
             | Some p => Some (name, p)
             | None => None
             end
        else None
    | None => None
    end in
  match static with
  | Some (name, p) =>
      (mkDimension (Some (DimValue_of_property p)) None (dim_denotation d),
       [label ++ " " ++ viName ++ ": " ++ name ++ " → "
          ++ show_DimValue (DimValue_of_property p)])
  | None =>
      if negb (truthy_string (dimParam d))
         && (negb (truthy_dimValue (dimValue d))
             || dimValue_nonpositive (dimValue d))
      then (mkDimension (Some (DimInt 1)) None (dim_denotation d),
            [label ++ " " ++ viName ++ ": unknown → 1"])
      else (d, [])
  end.

Fixpoint makeStaticNN_dims (batchSize boardSize : Z) (label viName : string)
    (ds : list Dimension) : list Dimension * list string :=
  match ds with
  | [] => ([], [])
  | d :: rest =>
      let '(d', msgs) := makeStaticNN_dim batchSize boardSize label viName d in
      let '(rest', msgs') :=
        makeStaticNN_dims batchSize boardSize label viName rest in
      (d' :: rest', (msgs ++ msgs')%list)
  end.

Definition makeStaticNN_vi (batchSize boardSize : Z) (label : string)
    (vi : ValueInfoProto) : ValueInfoProto * list string :=
  match vi_dims vi with
  | Some (d :: rest) =>
      let '(ds', msgs) :=
        makeStaticNN_dims batchSize boardSize label (vi_name vi) (d :: rest) in
      (vi_with_dims vi ds', msgs)
  | _ => (vi, [])
  end.

Definition makeStaticNN (batchSize boardSize : Z)
    (valueInfos : list ValueInfoProto) (label : string)
  : list ValueInfoProto * list string :=
  makeStatic_with (makeStaticNN_vi batchSize boardSize label) valueInfos.

(** *** Operator decomposition *)

(** The two rewriters run the same pass under different names. *)
Record Names : Type := mkNames {
  oneName : string;
  softplusPrefix : string;
  logsoftmaxPrefix : string
}.

Definition webgpu_names : Names :=
  mkNames "__webgpu_const_one" "__sp_" "__ls_".

Definition webnn_names : Names :=
  mkNames "__webnn_const_one" "__wnsp_" "__wnls_".

(** An object literal [{ input, output, opType, attribute }]. *)
Definition new_node (ins outs : list (option string)) (op : string)
    (attrs : list AttributeProto) : NodeProto :=
  mkNode ins outs "" op "" attrs "".

(** [a[0]] of a string array. *)
Definition first (a : list (option string)) : option string :=
  match a with
  | [] => None
  | s :: _ => s
  end.

(** [[...(graph.valueInfo || []), ...(graph.input || [])].find(vi => vi.name === x)] *)
Definition find_srcVi (g : GraphProto) (x : option string)
  : option ValueInfoProto :=
  find (fun vi => strict_eq_string (vi_name vi) x)
       (valueInfo g ++ g_input g)%list.

(** [JSON.parse(JSON.stringify(t))]: a structural copy, when it does not
    throw. *)
Definition json_copy (t : TypeProto) : TypeProto := t.

(** [JSON.stringify(t)] throws.  It calls the message's [toJSON], which
    prints an int64 field that is not a number with
    [Long.prototype.toString]; on a value that is not a [Long] (the static
    pass of the coprocessor profile can store a function, or
    [Object.prototype]) this is a TypeError. *)
Definition stringify_throws (t : TypeProto) : bool :=
  match tensorType t with
  | Some ten =>
      match shape ten with
      | Some s =>
          existsb (fun d => match dimValue d with
                            | Some (DimObject _) => true
                            | _ => false
                            end)
                  (dim s)
      | None => false
      end
  | None => false
  end.

Definition new_valueInfos (g : GraphProto) (x : option string)
    (names : list string) : list ValueInfoProto :=
  match find_srcVi g x with
  | Some srcVi =>
      match vi_type srcVi with
      | Some t => map (fun n => mkValueInfo n (Some (json_copy t)) "") names
      | None => []
      end
  | None => []
  end.

(** [isFp16 ? 0x00 0x3c : setFloat32(0, 1.0, true)] *)
Definition oneBytes (isFp16 : bool) : list byte :=
  if isFp16 then [x00; x3c] else float32_one_le.

Record PassState : Type := mkPass {
  newNodes : list NodeProto;
  newValueInfos : list ValueInfoProto;
  softplusCount : nat;
  logsoftmaxCount : nat;
  needsOneConst : bool
}.

Definition softplus_nodes (one : string) (p : string) (x y : option string)
  : list NodeProto :=
  [ new_node [x] [Some (p ++ "_abs")] "Abs" [];
    new_node [Some (p ++ "_abs")] [Some (p ++ "_neg")] "Neg" [];
    new_node [Some (p ++ "_neg")] [Some (p ++ "_exp")] "Exp" [];
    new_node [Some (p ++ "_exp"); Some one] [Some (p ++ "_add1")] "Add" [];
    new_node [Some (p ++ "_add1")] [Some (p ++ "_log")] "Log" [];
    new_node [x] [Some (p ++ "_relu")] "Relu" [];
    new_node [Some (p ++ "_relu"); Some (p ++ "_log")] [y] "Add" [] ].

Definition logsoftmax_nodes (p : string) (x y : option string)
    (attrs : list AttributeProto) : list NodeProto :=
  [ new_node [x] [Some (p ++ "_sm")] "Softmax" attrs;
    new_node [Some (p ++ "_sm")] [y] "Log" [] ].

(** One iteration of [for (const node of graph.node)]. *)
Definition decompose_node (nm : Names) (g : GraphProto) (st : PassState)
    (n : NodeProto) : PassState :=
  if (opType n =? "Softplus")%string then
    let x := first (input n) in
    let y := first (output n) in
    let p := softplusPrefix nm ++ show_nat (softplusCount st) in
    let temps :=
      [p ++ "_abs"; p ++ "_neg"; p ++ "_exp"; p ++ "_add1"; p ++ "_log";
       p ++ "_relu"] in
    mkPass (newNodes st ++ softplus_nodes (oneName nm) p x y)%list
           (newValueInfos st ++ new_valueInfos g x temps)%list
           (S (softplusCount st)) (logsoftmaxCount st) true
  else if (opType n =? "LogSoftmax")%string then
    let x := first (input n) in
    let y := first (output n) in
    let p := logsoftmaxPrefix nm ++ show_nat (logsoftmaxCount st) in
    let attrs :=
      filter (fun a => (attr_name a =? "axis")%string) (attribute n) in
    let temps := [p ++ "_sm"] in
    mkPass (newNodes st ++ logsoftmax_nodes p x y attrs)%list
           (newValueInfos st ++ new_valueInfos g x temps)%list
           (softplusCount st) (S (logsoftmaxCount st)) (needsOneConst st)
  else
    mkPass (newNodes st ++ [n])%list (newValueInfos st)
           (softplusCount st) (logsoftmaxCount st) (needsOneConst st).

Definition initial_pass : PassState := mkPass [] [] 0 0 false.

Definition one_initializer (nm : Names) (isFp16 : bool) : TensorProto :=
  mkTensor [] (if isFp16 then ONNX_FLOAT16 else ONNX_FLOAT)
           (oneBytes isFp16) (oneName nm).

(** Step 2 of both rewriters: the graph after the pass and the messages
    pushed on [changes]. *)
Definition decompose (nm : Names) (isFp16 : bool) (g : GraphProto)
  : GraphProto * list string :=
  let st := fold_left (decompose_node nm g) (node g) initial_pass in
  let softplusMsg :=
    "Replaced " ++ show_nat (softplusCount st) ++ " Softplus ops" in
  let logsoftmaxMsg :=
    "Replaced " ++ show_nat (logsoftmaxCount st) ++ " LogSoftmax ops" in
  let msgs :=
    ((if (0 <? softplusCount st)%nat then [softplusMsg] else [])
     ++ (if (0 <? logsoftmaxCount st)%nat then [logsoftmaxMsg] else []))%list in
  (mkGraph (newNodes st) (g_name g)
           (if needsOneConst st
            then (initializer g ++ [one_initializer nm isFp16])%list
            else initializer g)
           (g_input g) (g_output g)
           (valueInfo g ++ newValueInfos st)%list,
   msgs).

(** The copy of the source declaration's type made for node [n] throws. *)
Definition copy_throws (g : GraphProto) (n : NodeProto) : bool :=
  ((opType n =? "Softplus") || (opType n =? "LogSoftmax"))%string
  && match find_srcVi g (first (input n)) with
     | Some srcVi =>
         match vi_type srcVi with
         | Some t => stringify_throws t
         | None => false
         end
     | None => false
     end.

(** Step 2 throws on the graph [g] that step 1 has left: some iteration of
    its loop does.  [decompose] is the outcome of the step when none does. *)
Definition decompose_throws (g : GraphProto) : bool :=
  existsb (copy_throws g) (node g).

(** *** The two rewriters *)

Record WebGPUOptions : Type := mkGPUOptions { gpu_batchSize : option Z }.

Record WebNNOptions : Type := mkNNOptions {
  nn_batchSize : option Z;
  nn_boardSize : option Z
}.

(** The graph edit of [convertModelForWebGPU], between decode and encode. *)
Definition rewriteForWebGPU (batchSize : Z) (g : GraphProto)
  : GraphProto * list string :=
  let isFp16 := detect_fp16 g in
  let '(ins, c1) := makeStaticGPU batchSize (g_input g) "input" in
  let '(outs, c2) := makeStaticGPU batchSize (g_output g) "output" in
  let '(vis, c3) := makeStaticGPU batchSize (valueInfo g) "value_info" in
  let g1 := mkGraph (node g) (g_name g) (initializer g) ins outs vis in
  let '(g2, c4) := decompose webgpu_names isFp16 g1 in
  (g2, (c1 ++ c2 ++ c3 ++ c4)%list).

Definition rewriteForWebNN (batchSize boardSize : Z) (g : GraphProto)
  : GraphProto * list string :=
  let isFp16 := detect_fp16 g in
  let '(ins, c1) := makeStaticNN batchSize boardSize (g_input g) "input" in
  let '(outs, c2) := makeStaticNN batchSize boardSize (g_output g) "output" in
  let '(vis, c3) :=
    makeStaticNN batchSize boardSize (valueInfo g) "value_info" in
  let g1 := mkGraph (node g) (g_name g) (initializer g) ins outs vis in
  let '(g2, c4) := decompose webnn_names isFp16 g1 in
  (g2, (c1 ++ c2 ++ c3 ++ c4)%list).

(** The graph as step 1 of [convertModelForWebGPU] leaves it, and as step 1
    of [convertModelForWebNN] does. *)
Definition staticForWebGPU (batchSize : Z) (g : GraphProto) : GraphProto :=
  mkGraph (node g) (g_name g) (initializer g)
          (fst (makeStaticGPU batchSize (g_input g) "input"))
          (fst (makeStaticGPU batchSize (g_output g) "output"))
          (fst (makeStaticGPU batchSize (valueInfo g) "value_info")).

Definition staticForWebNN (batchSize boardSize : Z) (g : GraphProto)
  : GraphProto :=
  mkGraph (node g) (g_name g) (initializer g)
          (fst (makeStaticNN batchSize boardSize (g_input g) "input"))
          (fst (makeStaticNN batchSize boardSize (g_output g) "output"))
          (fst (makeStaticNN batchSize boardSize (valueInfo g) "value_info")).

(** Encode back, and build the result. *)
Definition finish (pb : Codec) (model : ModelProto) (batchSize : Z)
    (r : GraphProto * list string) : Outcome ConversionResult :=
  let '(g', changes) := r in
  match ModelProto_encode pb (with_graph model g') with
  | Rejected msg => Rejected msg
  | Resolved encoded =>
      Resolved (mkResult encoded (0 <? List.length changes)%nat changes
                         batchSize)
  end.

(** The two places where the edit of a decoded model can throw are the copy
    of a declaration's type in the loop of step 2 and the final encoding;
    what the edit produces otherwise is [rewriteForWebGPU]. *)
Definition convertModelForWebGPU (pb : Codec) (modelBuffer : list byte)
    (options : option WebGPUOptions) : Outcome ConversionResult :=
  let batchSize :=
    match options with
    | Some (mkGPUOptions (Some b)) => b
    | _ => WEBGPU_BATCH_SIZE
    end in
  match decode pb modelBuffer with
  | Rejected msg => Rejected msg
  | Resolved model =>
      match graph model with
      | None => Rejected "Model has no graph"
      | Some g =>
          if decompose_throws (staticForWebGPU batchSize g)
          then Rejected "this.isZero is not a function"
          else finish pb model batchSize (rewriteForWebGPU batchSize g)
      end
  end.

Definition convertModelForWebNN (pb : Codec) (modelBuffer : list byte)
    (options : option WebNNOptions) : Outcome ConversionResult :=
  let batchSize :=
    match options with
    | Some (mkNNOptions (Some b) _) => b
    | _ => 1
    end in
  let boardSize :=
    match options with
    | Some (mkNNOptions _ (Some s)) => s
    | _ => 19
    end in
  match decode pb modelBuffer with
  | Rejected msg => Rejected msg
  | Resolved model =>
      match graph model with
      | None => Rejected "Model has no graph"
      | Some g =>
          if decompose_throws (staticForWebNN batchSize boardSize g)
          then Rejected "this.isZero is not a function"
          else finish pb model batchSize
                      (rewriteForWebNN batchSize boardSize g)
      end
  end.

(** The call site in the engine context:
    [try { r = await convert(buffer); if (r.wasConverted) buffer = r.buffer }
     catch { /* keep the original model */ }];
    the buffer handed to the engine and the auto-converted flag. *)
Definition autoConvert (conversion : Outcome ConversionResult)
    (buffer0 : list byte) : list byte * bool :=
  match conversion with
  | Resolved r => if wasConverted r then (buffer r, true) else (buffer0, false)
  | Rejected _ => (buffer0, false)
  end.

End Onnx.

(** *** What a rewritten node list must look like

    The design document's description of the decomposition pass, stated
    independently of the rewriter: a symbolic reading of a straight-line
    node list, and the shape of a decomposed list. *)

Module OnnxSpec.
Import Js Onnx.

(** The expression a tensor name denotes. *)
Inductive Expr : Type :=
| Tensor (name : string)
| Undefined
| Apply (op : string) (args : list Expr).

Definition Env : Type := string -> Expr.

Definition bind (env : Env) (y : string) (e : Expr) : Env :=
  fun s => if (s =? y)%string then e else env s.

Definition read (env : Env) (i : option string) : Expr :=
  match i with
  | Some s => env s
  | None => Undefined
  end.

(** Executing a node binds its first output to its operator applied to the
    current values of its inputs. *)
Definition run_node (env : Env) (n : NodeProto) : Env :=
  match first (output n) with
  | Some y => bind env y (Apply (opType n) (map (read env) (input n)))
  | None => env
  end.

Definition run_nodes (ns : list NodeProto) (env : Env) : Env :=
  fold_left run_node ns env.

(** relu(x) + log(1 + exp(-abs(x))), with the constant read from [one]. *)
Definition stable_softplus (x one : string) : Expr :=
  Apply "Add"
    [ Apply "Relu" [Tensor x];
      Apply "Log"
        [ Apply "Add"
            [ Apply "Exp" [Apply "Neg" [Apply "Abs" [Tensor x]]];
              Tensor one ] ] ].

Definition log_of_softmax (x : string) : Expr :=
  Apply "Log" [Apply "Softmax" [Tensor x]].

(** The names a node list writes. *)
Definition written (ns : list NodeProto) : list (option string) :=
  flat_map output ns.

(** The intermediate tensors of an expansion: what its nodes write, the last
    one apart. *)
Definition intermediates (ns : list NodeProto) : list (option string) :=
  written (removelast ns).

(** The input [x] of the replaced node is not the name of an intermediate
    tensor of its expansion; with such a name the expansion would read its
    own intermediate result where it means [x]. *)
Definition fresh_for (x : string) (ns : list NodeProto) : Prop :=
  ~ In (Some x) (intermediates ns).

(** Seven nodes that stand for [y = Softplus(x)]: their operators, and the
    expression they leave in [y] when the intermediate names are fresh for
    [x]. *)
Definition SoftplusExpansion (one : string) (n : NodeProto)
    (seven : list NodeProto) : Prop :=
  map opType seven = ["Abs"; "Neg"; "Exp"; "Add"; "Log"; "Relu"; "Add"]
  /\ forall x y,
       first (input n) = Some x ->
       first (output n) = Some y ->
       fresh_for x seven ->
       run_nodes seven Tensor y = stable_softplus x one.

(** Two nodes that stand for [y = LogSoftmax(x)], keeping the axis. *)
Definition LogSoftmaxExpansion (n : NodeProto) (two : list NodeProto) : Prop :=
  map opType two = ["Softmax"; "Log"]
  /\ map attribute two
     = [filter (fun a => (attr_name a =? "axis")%string) (attribute n); []]
  /\ forall x y,
       first (input n) = Some x ->
       first (output n) = Some y ->
       fresh_for x two ->
       run_nodes two Tensor y = log_of_softmax x.

Definition is_softplus (n : NodeProto) : bool := (opType n =? "Softplus")%string.
Definition is_logsoftmax (n : NodeProto) : bool :=
  (opType n =? "LogSoftmax")%string.

(** [Decomposed one ns out]: [out] is the node list [ns] with every Softplus
    node of the list replaced by a seven-node expansion, every LogSoftmax
    node of the list by a two-node expansion, and every other node kept as
    it is (with the graphs its attributes hold), in order. *)
Inductive Decomposed (one : string) : list NodeProto -> list NodeProto -> Prop :=
| Decomposed_nil : Decomposed one [] []
| Decomposed_softplus n seven rest out :
    is_softplus n = true ->
    SoftplusExpansion one n seven ->
    Decomposed one rest out ->
    Decomposed one (n :: rest) (seven ++ out)
| Decomposed_logsoftmax n two rest out :
    is_softplus n = false ->
    is_logsoftmax n = true ->
    LogSoftmaxExpansion n two ->
    Decomposed one rest out ->
    Decomposed one (n :: rest) (two ++ out)
| Decomposed_keep n rest out :
    is_softplus n = false ->
    is_logsoftmax n = false ->
    Decomposed one rest out ->
    Decomposed one (n :: rest) (n :: out).

(** The constant the rewriter adds: a scalar 1 in the model's element type. *)
Definition is_constant_one (isFp16 : bool) (one : string) (t : TensorProto)
  : Prop :=
  t_name t = one
  /\ dims t = []
  /\ (if isFp16
      then dataType t = 10 /\ rawData t = [x00; x3c]
      else dataType t = 1 /\ rawData t = [x00; x00; x80; x3f]).

(** The first input's element type is 16-bit half (ONNX code 10). *)
Definition first_input_is_half (g : GraphProto) : bool :=
  match g_input g with
  | vi :: _ =>
      match vi_type vi with
      | Some t =>
          match tensorType t with
          | Some ten => elemType ten =? 10
          | None => false
          end
      | None => false
      end
  | [] => false
  end.

(** A node that is neither of the two unsupported operators. *)
Definition neither (n : NodeProto) : Prop :=
  is_softplus n = false /\ is_logsoftmax n = false.

(** The outcome of the decomposition pass on graph [g]. *)
Definition decomposition_ok (nm : Names) (g g' : GraphProto) : Prop :=
  Forall neither (node g')
  /\ Decomposed (oneName nm) (node g) (node g')
  /\ (if existsb is_softplus (node g)
      then exists c,
          initializer g' = (initializer g ++ [c])%list
          /\ is_constant_one (first_input_is_half g) (oneName nm) c
      else initializer g' = initializer g).

(** The file a rewriter returns is the encoding of [model] with its graph
    replaced by [g']. *)
Definition encodes (pb : Codec) (r : ConversionResult) (model : ModelProto)
    (g' : GraphProto) : Prop :=
  buffer r = encode pb (with_graph model g').

(** The batch and board sizes a rewriter runs with. *)
Definition gpu_batch (options : option WebGPUOptions) : Z :=
  match options with
  | Some (mkGPUOptions (Some b)) => b
  | _ => WEBGPU_BATCH_SIZE
  end.

Definition nn_batch (options : option WebNNOptions) : Z :=
  match options with
  | Some (mkNNOptions (Some b) _) => b
  | _ => 1
  end.

Definition nn_board (options : option WebNNOptions) : Z :=
  match options with
  | Some (mkNNOptions _ (Some s)) => s
  | _ => 19
  end.

(** The nodes the pass replaces: the Softplus and LogSoftmax nodes of the
    node list of the graph. *)
Definition replaced (g : GraphProto) : list NodeProto :=
  filter (fun n => is_softplus n || is_logsoftmax n) (node g).

(** The node has a first input and a first output. *)
Definition has_ends (n : NodeProto) : bool :=
  is_string (first (input n)) && is_string (first (output n)).

(** All operators of a graph, those of the graphs held by attributes
    included. *)
Fixpoint operators (g : GraphProto) : list string :=
  flat_map node_operators (node g)
with node_operators (n : NodeProto) : list string :=
  opType n :: flat_map attribute_operators (attribute n)
with attribute_operators (a : AttributeProto) : list string :=
  (match attr_g a with
   | Some g => operators g
   | None => []
   end
   ++ flat_map operators (attr_graphs a))%list.

(** A declaration as the decoder produces it: the values of its dimensions
    are integers. *)
Definition integer_dims (vi : ValueInfoProto) : Prop :=
  forall ds, vi_dims vi = Some ds ->
             Forall (fun d => forall key, dimValue d <> Some (DimObject key)) ds.

(** A model as the decoder produces it: every string is a string and every
    dimension value an integer. *)
Definition as_decoded (model : ModelProto) : Prop :=
  model_writable model = true
  /\ forall g, graph model = Some g ->
               Forall integer_dims (g_input g)
               /\ Forall integer_dims (valueInfo g).

(** No dimension of the declaration is named after a member of
    [Object.prototype]. *)
Definition plain_names (vi : ValueInfoProto) : Prop :=
  forall ds, vi_dims vi = Some ds ->
             Forall (fun d => forall name, dimParam d = Some name ->
                                           ~ In name object_prototype_keys) ds.

(** [buf] does not parse as a model: the decoder throws, or the decoded
    message has no graph. *)
Definition parse_fails (pb : Codec) (buf : list byte) : Prop :=
  (exists msg, decode pb buf = Rejected msg)
  \/ (exists model, decode pb buf = Resolved model /\ graph model = None).




(** The dimension [d] with its name removed and the member [key] of
    [Object.prototype] as its value. *)
Definition inherited (key : string) (d : Dimension) : Dimension :=
  mkDimension (Some (DimObject key)) None (dim_denotation d).



End OnnxSpec.

(** *** A small model to run the rewriters on *)

Module OnnxSample.
Import Js Onnx.

Definition dyn (n : string) : Dimension := mkDimension None (Some n) "".
Definition fixed (v : Z) : Dimension := mkDimension (Some (DimInt v)) None "".

Definition decl (n : string) (elem : Z) (ds : list Dimension) : ValueInfoProto :=
  mkValueInfo n (Some (mkTypeProto (Some (mkTensorType elem (Some (mkShape ds)))) "")) "".

Definition sample_graph : GraphProto :=
  mkGraph
    [ mkNode [Some "bin_input"] [Some "h"] "conv0" "Conv" "" [] "";
      mkNode [Some "h"] [Some "s"] "act0" "Softplus" "" [] "";
      mkNode [Some "s"] [Some "policy"] "out0" "LogSoftmax" ""
             [mkAttribute "axis" 2 1 [] None []] "" ]
    "katago" []
    [ decl "bin_input" 1
        [dyn "batch_size"; fixed 22; dyn "height"; dyn "width"] ]
    [ decl "policy" 1 [dyn "batch_size"; dyn "moves"] ]
    [ decl "h" 1 [dyn "batch_size"; dyn "channels"; dyn "height"; dyn "width"] ].

Definition sample_model : ModelProto :=
  mkModel 8 "pytorch" (Some sample_graph) [] [].

Definition sample_bytes : list byte := [x08; x08].

(** A graph whose [If] node holds a Softplus node in a branch. *)
Definition branch_graph : GraphProto :=
  mkGraph [ mkNode [Some "h"] [Some "t"] "act1" "Softplus" "" [] "" ]
          "then" [] [] [ decl "t" 1 [fixed 1] ] [].

Definition nested_graph : GraphProto :=
  mkGraph
    [ mkNode [Some "c"] [Some "s"] "if0" "If" ""
             [mkAttribute "then_branch" 5 0 [] (Some branch_graph) []] "";
      mkNode [Some "s"] [Some "policy"] "out0" "LogSoftmax" ""
             [mkAttribute "axis" 2 1 [] None []] "" ]
    "nested" []
    [ decl "c" 9 [fixed 1] ]
    [ decl "policy" 1 [fixed 1; fixed 82] ]
    [].

Definition nested_model : ModelProto :=
  mkModel 8 "pytorch" (Some nested_graph) [] [].

Definition nested_bytes : list byte := [x08; x09].

(** A graph with a Softplus node that has no input. *)
Definition bare_graph : GraphProto :=
  mkGraph [ mkNode [] [Some "s"] "act0" "Softplus" "" [] "" ]
          "bare" [] [] [ decl "s" 1 [fixed 1] ] [].

Definition bare_model : ModelProto := mkModel 8 "pytorch" (Some bare_graph) [] [].

Definition bare_bytes : list byte := [x08; x0a].

(** A graph whose Softplus node reads a tensor that is named like an
    intermediate tensor of its own expansion. *)
Definition stale_node : NodeProto :=
  mkNode [Some "__sp_0_abs"] [Some "y"] "act0" "Softplus" "" [] "".

(** A graph with a dimension named [constructor] on the declaration that the
    Softplus node reads. *)
Definition named_graph : GraphProto :=
  mkGraph [ mkNode [Some "h"] [Some "s"] "act0" "Softplus" "" [] "" ]
          "named" []
          [ decl "h" 1 [dyn "constructor"; fixed 22] ]
          [ decl "s" 1 [dyn "constructor"; fixed 22] ]
          [].

Definition named_model : ModelProto :=
  mkModel 8 "pytorch" (Some named_graph) [] [].

Definition named_bytes : list byte := [x08; x0b].

(** A stand-in for the protobufjs codec: it knows the sample buffers, reads
    the empty buffer as the message without fields, and rejects the rest; it
    writes a model as the list of the operators of its graph. *)
Definition sample_codec : Codec :=
  mkCodec
    (fun buf =>
       match buf with
       | [] => Resolved (mkModel 0 "" None [] [])
       | [x08; x08] => Resolved sample_model
       | [x08; x09] => Resolved nested_model
       | [x08; x0a] => Resolved bare_model
       | [x08; x0b] => Resolved named_model
       | _ => Rejected "index out of range"
       end)
    (fun m =>
       match graph m with
       | Some g => list_byte_of_string (String.concat " " (OnnxSpec.operators g))
       | None => []
       end).

End OnnxSample.

(** ** The inference engine (onnx-engine) *)

Module Engine.
Import Js.

Local Open Scope Q_scope.

(** [Sign]: 1 Black, -1 White, 0 empty. *)
Definition Sign : Type := Z.
Definition SignMap : Type := list (list Sign).

Record KoInfo : Type := mkKo { ko_sign : Sign; ko_vertex : Z * Z }.

(** Modelled from the spec: class [GoBoard] of package [@kaya/goboard], whose
    source is not part of this development.  A position is a signed grid with
    an optional ko-forbidden vertex (the side that is forbidden and the
    coordinate); [new GoBoard(signMap)] has no ko restriction, [width] is the
    length of a row and [get([x, y])] is the grid cell, [null] off the
    board. *)
Record GoBoard : Type := mkBoard {
  signMap : SignMap;
  _koInfo : option KoInfo
}.

Definition new_GoBoard (m : SignMap) : GoBoard := mkBoard m None.

Definition width (b : GoBoard) : Z :=
  match signMap b with
  | [] => 0%Z
  | row :: _ => Z.of_nat (List.length row)
  end.

Definition index {A : Type} (l : list A) (i : Z) : option A :=
  if (0 <=? i)%Z then nth_error l (Z.to_nat i) else None.

(** A coordinate is [None] when the source computed it as [NaN]. *)
Definition get (b : GoBoard) (v : Z * option Z) : option Sign :=
  match snd v with
  | Some y =>
      match index (signMap b) y with
      | Some row => index row (fst v)
      | None => None
      end
  | None => None
  end.

(** History entry [{ color, x, y }]; a pass has [x = -1]. *)
Record Move : Type := mkMove { color : Sign; mx : Z; my : option Z }.

Record MoveSuggestion : Type := mkSuggestion {
  move : string;
  probability : Q
}.

(** ['B'] and ['W']. *)
Inductive Turn : Type := TurnB | TurnW.

Record AnalysisResult : Type := mkAnalysis {
  moveSuggestions : list MoveSuggestion;
  winRate : Q;
  scoreLead : Q;
  currentTurn : Turn;
  visits : option nat;
  ownership : option (list Q)
}.

Record EngineAnalysisOptions : Type := mkOptions {
  opt_komi : option Q;
  nextToPlay : option string;
  history : option (list Move);
  koInfo : option KoInfo;
  numVisits : option nat
}.

(** The output tensors of one run of the network, with their dimensions. *)
Record RawOutputs : Type := mkRaw {
  policy : list Q;
  policyDims : list Z;
  value : list Q;
  valueDims : list Z;
  miscvalue : list Q;
  miscvalueDims : list Z;
  raw_ownership : option (list Q)
}.

(** What the engine takes from its environment: whether the session has been
    created, the floating-point library,
    the tensor runtime (featurisation and [session.run], which may throw),
    the rules of the game ([board.makeMove], which throws on an illegal
    move), and the decoding of the policy head into at most ten suggestions,
    which none of the properties below depends on. *)
Record Environment : Type := mkEnvironment {
  session : bool;
  exp : Q -> Q;
  sqrt : Q -> Q;
  infer : GoBoard -> Sign -> Q -> list Move -> Z -> Outcome RawOutputs;
  makeMove : GoBoard -> Sign -> Z * option Z -> option GoBoard;
  decodePolicy : list Q -> Z -> list MoveSuggestion
}.

(** *** Small library functions *)

Definition Qltb (a b : Q) : bool := negb (Qle_bool b a).

(** [a.subarray(from, to)] on a typed array. *)
Definition subarray {A : Type} (a : list A) (from to : Z) : list A :=
  firstn (Z.to_nat to - Z.to_nat from) (skipn (Z.to_nat from) a).

(** [a[i]] on a typed array that is long enough; 0 past its end, where the
    source reads [undefined]. *)
Definition at_ (a : list Q) (i : nat) : Q := nth i a 0.

Definition letters : list ascii :=
  list_ascii_of_string "ABCDEFGHJKLMNOPQRST".

(** [`${letters[i]}`] *)
Definition letter_at (i : Z) : string :=
  match index letters i with
  | Some c => String c ""
  | None => "undefined"
  end.

Fixpoint indexOf_from (c : ascii) (l : list ascii) (i : Z) : Z :=
  match l with
  | [] => (-1)%Z
  | d :: rest => if Ascii.eqb c d then i else indexOf_from c rest (i + 1)%Z
  end.

Definition toUpperCase (c : ascii) : ascii :=
  let n := nat_of_ascii c in
  if ((97 <=? n) && (n <=? 122))%nat then ascii_of_nat (n - 32) else c.

Definition is_whitespace (c : ascii) : bool :=
  let n := nat_of_ascii c in
  ((n =? 32) || ((9 <=? n) && (n <=? 13)))%nat.

Definition digit_of (c : ascii) : option Z :=
  let n := nat_of_ascii c in
  if ((48 <=? n) && (n <=? 57))%nat then Some (Z.of_nat (n - 48)) else None.

Fixpoint skip_whitespace (s : string) : string :=
  match s with
  | String c rest => if is_whitespace c then skip_whitespace rest else s
  | EmptyString => s
  end.

Fixpoint parse_digits (s : string) (acc : option Z) : option Z :=
  match s with
  | String c rest =>
      match digit_of c with
      | Some d =>
          parse_digits rest
            (Some (10 * match acc with Some a => a | None => 0 end + d)%Z)
      | None => acc
      end
  | EmptyString => acc
  end.

(** [parseInt(s, 10)] on an ASCII string; [None] is [NaN]. *)
Definition parseInt (s : string) : option Z :=
  match skip_whitespace s with
  | String "-" rest => option_map Z.opp (parse_digits rest None)
  | String "+" rest => parse_digits rest None
  | t => parse_digits t None
  end.

(** Parse a GTP move string to board [x, y]; [None] for a pass or a string
    that is not a vertex. *)
Definition _parseMoveStr (m : string) (size : Z) : option (Z * option Z) :=
  match m with
  | EmptyString => None
  | String c rest =>
      if (m =? "PASS")%string then None
      else
        let x := indexOf_from (toUpperCase c) letters 0 in
        let y := option_map (fun n => (size - n)%Z) (parseInt rest) in
        if (x <? 0)%Z
           || match y with
              | Some y => (y <? 0)%Z || (size <=? y)%Z
              | None => false
              end
        then None
        else Some (x, y)
  end.

(** The GTP string of the ko-forbidden vertex, or [None] if no ko applies
    to [pla]. *)
Definition _getKoVertex (board : GoBoard) (pla : Sign) (size : Z)
  : option string :=
  match _koInfo board with
  | None => None
  | Some ko =>
      if negb (ko_sign ko =? pla)%Z || (fst (ko_vertex ko) =? -1)%Z
      then None
      else Some (letter_at (fst (ko_vertex ko))
                   ++ show_Z (size - snd (ko_vertex ko)))%string
  end.

(** Remove the ko-forbidden move from the suggestions and renormalise. *)
Definition _filterKoMoves (result : AnalysisResult) (board : GoBoard)
    (pla : Sign) (size : Z) : AnalysisResult :=
  match _getKoVertex board pla size with
  | None => result
  | Some koMove =>
      if negb (truthy_string (Some koMove)) then result
      else
        let filtered :=
          filter (fun s => negb (move s =? koMove)%string)
                 (moveSuggestions result) in
        let total := fold_left (fun sum s => sum + probability s) filtered 0 in
        let filtered' :=
          if Qltb 0 total
          then map (fun s => mkSuggestion (move s) (probability s / total))
                   filtered
          else filtered in
        mkAnalysis filtered' (winRate result) (scoreLead result)
                   (currentTurn result) (visits result) (ownership result)
  end.

(** *** Decoding the network outputs *)

Section Decoding.
Variable env : Environment.

Definition turn_of (pla : Sign) : Turn :=
  if (pla =? 1)%Z then TurnB else TurnW.

(** The body of the loop of [processBatchResults] for batch item [b]. *)
Definition decodeItem (results : RawOutputs) (pla : Sign) (size : Z) (b : nat)
  : AnalysisResult :=
  let bz := Z.of_nat b in
  let numPolicyHeads :=
    if (List.length (policyDims results) =? 3)%nat
    then nth 1 (policyDims results) 0%Z else 1%Z in
  let numMoves :=
    if (List.length (policyDims results) =? 3)%nat
    then nth 2 (policyDims results) 0%Z
    else nth 1 (policyDims results) 0%Z in
  let policyStride := (numPolicyHeads * numMoves)%Z in
  let valueStride :=
    if (1 <? List.length (valueDims results))%nat
    then nth 1 (valueDims results) 0%Z else 3%Z in
  let miscvalueStride :=
    if (1 <? List.length (miscvalueDims results))%nat
    then nth 1 (miscvalueDims results) 0%Z else 10%Z in
  let ownershipStride := (size * size)%Z in
  let policy :=
    subarray (policy results) (bz * policyStride) (bz * policyStride + numMoves) in
  let value :=
    subarray (value results) (bz * valueStride) ((bz + 1) * valueStride) in
  let miscvalue :=
    subarray (miscvalue results) (bz * miscvalueStride)
             ((bz + 1) * miscvalueStride) in
  let ownership :=
    option_map
      (fun data =>
         subarray data (bz * ownershipStride) ((bz + 1) * ownershipStride))
      (raw_ownership results) in
  let expValue :=
    (exp env (at_ value 0), exp env (at_ value 1), exp env (at_ value 2)) in
  let sumValue := fst (fst expValue) + snd (fst expValue) + snd expValue in
  let winrateCurrentPlayer := fst (fst expValue) / sumValue in
  let blackWinrate :=
    if (pla =? 1)%Z then winrateCurrentPlayer else 1 - winrateCurrentPlayer in
  let leadCurrentPlayer := at_ miscvalue 2 * 20 in
  let blackLead := leadCurrentPlayer * inject_Z pla in
  mkAnalysis (decodePolicy env policy size)
             blackWinrate blackLead (turn_of pla) None
             (option_map (map (fun v => v * inject_Z pla)) ownership).

(** [processBatchResults]; its callers pass one sign per batch item. *)
Definition processBatchResults (results : RawOutputs) (plas : list Sign)
    (size : Z) (batchSize : nat) : list AnalysisResult :=
  map (fun bp => decodeItem results (snd bp) size (fst bp))
      (combine (seq 0 batchSize) plas).

Definition processResults (results : RawOutputs) (pla : Sign) (size : Z)
  : AnalysisResult :=
  decodeItem results pla size 0.

(** [_evaluateSingle] and [_evaluateSingleBuffered]: one run of the network
    on a position, decoded and ko-filtered. *)
Definition _evaluateSingle (board : GoBoard) (nextPla : Sign) (komi : Q)
    (hist : list Move) (size : Z) : Outcome AnalysisResult :=
  match infer env board nextPla komi hist size with
  | Rejected msg => Rejected msg
  | Resolved results =>
      Resolved (_filterKoMoves (processResults results nextPla size)
                               board nextPla size)
  end.

End Decoding.

(** *** Monte-Carlo tree search *)

(** [children] is a JavaScript [Map]: keys in insertion order. *)
Inductive MCTSNode : Type := mkMCTSNode {
  N : nat;
  W : Q;
  P : Q;
  children : option (list (string * MCTSNode));
  expanded : bool
}.

(** [m.set(k, v)] *)
Fixpoint map_set {V : Type} (m : list (string * V)) (k : string) (v : V)
  : list (string * V) :=
  match m with
  | [] => [(k, v)]
  | (k', v') :: rest =>
      if (k' =? k)%string then (k', v) :: rest
      else (k', v') :: map_set rest k v
  end.

Definition Q_of_nat (n : nat) : Q := inject_Z (Z.of_nat n).

(** [hist.slice(-4)] *)
Definition last4 (hist : list Move) : list Move :=
  skipn (List.length hist - 4) hist.

(** [len >= 2 && hist[len - 1].x < 0 && hist[len - 2].x < 0] *)
Definition two_passes (hist : list Move) : bool :=
  match rev hist with
  | a :: b :: _ => (mx a <? 0)%Z && (mx b <? 0)%Z
  | _ => false
  end.

Definition flip (pla : Sign) : Sign := if (pla =? 1)%Z then (-1)%Z else 1%Z.

(** Create the children of [node] from the policy, skipping occupied and
    ko-forbidden intersections. *)
Definition _expandNode (node : MCTSNode) (eval_ : AnalysisResult)
    (board : GoBoard) (pla : Sign) (size : Z) : MCTSNode :=
  let koVertex := _getKoVertex board pla size in
  let skipped (m : string) : bool :=
    if negb (m =? "PASS")%string then
      if truthy_string koVertex && strict_eq_string m koVertex then true
      else match _parseMoveStr m size with
           | None => true
           | Some parsed =>
               match get board parsed with
               | Some 0%Z => false
               | _ => true
               end
           end
    else false in
  let children :=
    fold_left
      (fun ch suggestion =>
         if skipped (move suggestion) then ch
         else map_set ch (move suggestion)
                (mkMCTSNode 0 0 (probability suggestion) None false))
      (moveSuggestions eval_) [] in
  mkMCTSNode (N node) (W node) (P node) (Some children) true.

Section Search.
Variable env : Environment.
Variable komi : Q.
Variable size : Z.

Definition CPUCT : Q := 3 # 2.

(** [q + u] for one child. *)
Definition puct (pla : Sign) (parentN : nat) (child : MCTSNode) : Q :=
  let q :=
    if (0 <? N child)%nat
    then if (pla =? 1)%Z
         then W child / Q_of_nat (N child)
         else 1 - W child / Q_of_nat (N child)
    else 0 in
  let u :=
    (CPUCT * P child * sqrt env (Q_of_nat (Nat.max parentN 1)))
    / (1 + Q_of_nat (N child)) in
  q + u.

(** The PUCT loop: position and key of the first child with the greatest
    score; [bestScore] starts at minus infinity ([None]). *)
Definition select_best (pla : Sign) (parentN : nat)
    (ch : list (string * MCTSNode)) : option (nat * string) :=
  snd
    (fold_left
       (fun best ic =>
          let score := puct pla parentN (snd (snd ic)) in
          let better :=
            match fst best with
            | None => true
            | Some bestScore => Qltb bestScore score
            end in
          if better then (Some score, Some (fst ic, fst (snd ic))) else best)
       (combine (seq 0 (List.length ch)) ch)
       (None, None)).

(** One turn of the selection loop at [node]: stop here, or step into the
    child at a position with a new board and history. *)
Inductive Descent : Type :=
| Stop
| Into (position : nat) (newBoard : GoBoard) (newHist : list Move).

Definition descend (node : MCTSNode) (board : GoBoard) (pla : Sign)
    (hist : list Move) : Descent :=
  match children node with
  | None => Stop
  | Some ch =>
      if negb (expanded node) || (List.length ch =? 0)%nat then Stop
      else if two_passes hist then Stop
      else
        match select_best pla (N node) ch with
        | None => Stop
        | Some (i, bestMove) =>
            if (bestMove =? "PASS")%string
            then Into i (new_GoBoard (signMap board))
                      (last4 hist ++ [mkMove pla (-1) (Some (-1)%Z)])%list
            else
              match _parseMoveStr bestMove size with
              | None => Stop
              | Some parsed =>
                  match makeMove env board pla parsed with
                  | None => Stop
                  | Some newBoard =>
                      Into i newBoard
                           (last4 hist
                              ++ [mkMove pla (fst parsed) (snd parsed)])%list
                  end
              end
        end
  end.

(** One iteration of the search below [node]: selection down to a leaf,
    expansion and evaluation of the leaf, and the backup of its value into
    every node of the path.  Returns the updated subtree, the value, and the
    evaluation when it was [node] itself that was evaluated. *)
Fixpoint visit (node : MCTSNode) (board : GoBoard) (pla : Sign)
    (hist : list Move) {struct node}
  : Outcome (MCTSNode * Q * option AnalysisResult) :=
  match node with
  | mkMCTSNode n w p ch ex =>
      let below :=
        match descend node board pla hist, ch with
        | Into i newBoard newHist, Some l =>
            (fix into (l : list (string * MCTSNode)) (i : nat) {struct l}
               : option (Outcome (list (string * MCTSNode) * Q)) :=
               match l with
               | [] => None
               | (k, c) :: rest =>
                   match i with
                   | O =>
                       Some
                         match visit c newBoard (flip pla) newHist with
                         | Resolved (c', v, _) => Resolved ((k, c') :: rest, v)
                         | Rejected msg => Rejected msg
                         end
                   | S i' =>
                       match into rest i' with
                       | Some (Resolved (rest', v)) =>
                           Some (Resolved ((k, c) :: rest', v))
                       | other => other
                       end
                   end
               end) l i
        | _, _ => None
        end in
      match below with
      | Some (Resolved (l', v)) =>
          Resolved (mkMCTSNode (S n) (w + v) p (Some l') ex, v, None)
      | Some (Rejected msg) => Rejected msg
      | None =>
          if negb ex then
            match _evaluateSingle env board pla komi hist size with
            | Rejected msg => Rejected msg
            | Resolved leafEval =>
                let node' := _expandNode node leafEval board pla size in
                let v := winRate leafEval in
                Resolved (mkMCTSNode (S (N node')) (W node' + v) (P node')
                                     (children node') (expanded node'),
                          v, Some leafEval)
            end
          else
            let v := if (0 <? n)%nat then w / Q_of_nat n else 1 # 2 in
            Resolved (mkMCTSNode (S n) (w + v) p ch ex, v, None)
      end
  end.

(** [for (let v = 0; v < numVisits; v++)] *)
Fixpoint search (iterations : nat) (rootBoard : GoBoard) (nextPla : Sign)
    (hist : list Move) (root : MCTSNode) (rootEval : option AnalysisResult)
  : Outcome (MCTSNode * option AnalysisResult) :=
  match iterations with
  | O => Resolved (root, rootEval)
  | S rest =>
      match visit root rootBoard nextPla hist with
      | Rejected msg => Rejected msg
      | Resolved (root', _, evaluated) =>
          search rest rootBoard nextPla hist root'
                 match evaluated with
                 | Some leafEval => Some leafEval
                 | None => rootEval
                 end
      end
  end.

Definition root0 : MCTSNode := mkMCTSNode 0 0 1 None false.

Definition suggestions_of (root : MCTSNode) : list MoveSuggestion :=
  match children root with
  | Some ch =>
      if (0 <? List.length ch)%nat then
        let totalChildVisits := fold_left (fun s c => (s + N (snd c))%nat) ch 0%nat in
        let sorted :=
          sort (fun a b => (Z.of_nat (N (snd b)) - Z.of_nat (N (snd a)))%Z) ch in
        map (fun mc =>
               mkSuggestion (fst mc)
                 (if (0 <? totalChildVisits)%nat
                  then Q_of_nat (N (snd mc)) / Q_of_nat totalChildVisits
                  else P (snd mc)))
            (firstn 10 sorted)
      else []
  | None => []
  end.

(** Run PUCT MCTS search from the given position. *)
Definition _runMCTS (rootBoard : GoBoard) (nextPla : Sign) (hist : list Move)
    (numVisits : nat) : Outcome AnalysisResult :=
  match search numVisits rootBoard nextPla hist root0 None with
  | Rejected msg => Rejected msg
  | Resolved (root, rootEval) =>
      match
        match rootEval with
        | Some e => Resolved e
        | None => _evaluateSingle env rootBoard nextPla komi hist size
        end
      with
      | Rejected msg => Rejected msg
      | Resolved rootEval =>
          let winRate :=
            if (0 <? N root)%nat then W root / Q_of_nat (N root)
            else winRate rootEval in
          Resolved
            (mkAnalysis (suggestions_of root) winRate (scoreLead rootEval)
                        (turn_of nextPla) (Some (N root)) (ownership rootEval))
      end
  end.

End Search.

(** *** [analyzePosition] *)

(** [if (s === 1) blackStones++; else if (s === -1) whiteStones++;] on the
    pair of counters. *)
Definition tally (counts : nat * nat) (s : option Sign) : nat * nat :=
  match s with
  | Some 1%Z => (S (fst counts), snd counts)
  | Some (-1)%Z => (fst counts, S (snd counts))
  | _ => counts
  end.

(** The counting loop over [board.get([x, y])]. *)
Definition count_stones (board : GoBoard) (size : Z) : nat * nat :=
  fold_left
    (fun counts y =>
       fold_left
         (fun counts x =>
            tally counts (get board (Z.of_nat x, Some (Z.of_nat y))))
         (seq 0 (Z.to_nat size)) counts)
    (seq 0 (Z.to_nat size)) (0%nat, 0%nat).

(** Determine current player. *)
Definition nextPla_of (options : EngineAnalysisOptions) (board : GoBoard)
    (size : Z) : Sign :=
  if truthy_string (nextToPlay options)
  then if strict_eq_string "W" (nextToPlay options) then (-1)%Z else 1%Z
  else
    let counts := count_stones board size in
    if (fst counts =? snd counts)%nat then 1%Z else (-1)%Z.

Definition analyzePosition (env : Environment) (m : SignMap)
    (options : EngineAnalysisOptions) : Outcome AnalysisResult :=
  if negb (session env) then Rejected "Engine not initialized"
  else
    let board := new_GoBoard m in
    let size := width board in
    let nextPla := nextPla_of options board size in
    let komi := match opt_komi options with Some k => k | None => 75 # 10 end in
    let hist := match history options with Some h => h | None => [] end in
    let numVisits := match numVisits options with Some n => n | None => 1%nat end in
    let board :=
      match koInfo options with
      | Some ko =>
          if negb (ko_sign ko =? 0)%Z
          then mkBoard (signMap board) (Some (mkKo (ko_sign ko) (ko_vertex ko)))
          else board
      | None => board
      end in
    if (1 <? numVisits)%nat
    then _runMCTS env komi size board nextPla hist numVisits
    else _evaluateSingle env board nextPla komi hist size.

End Engine.

(** *** Notions used to state the engine's properties *)

Module EngineSpec.
Import Js Engine.

Local Open Scope Q_scope.

(** The sum of the probabilities of a suggestion list. *)
Definition total_probability (l : list MoveSuggestion) : Q :=
  fold_left (fun sum s => sum + probability s) l 0.

(** The suggestions whose coordinate is not [ko]. *)
Definition survivors (ko : string) (l : list MoveSuggestion)
  : list MoveSuggestion :=
  filter (fun s => negb (move s =? ko)%string) l.

Definition in_unit_range (v : Q) : Prop := -(1) <= v /\ v <= 1.

(** A square grid: as many cells in every row as there are rows. *)
Definition square (m : SignMap) : Prop :=
  Forall (fun row => List.length row = List.length m) m.

Definition stones (s : Sign) (m : SignMap) : nat :=
  count_occ Z.eq_dec (List.concat m) s.

(** The side to move as the specification words it: when [nextToPlay] is
    present, ['W'] is White and any other value Black; when it is absent,
    Black if the grid holds as many black as white stones and White
    otherwise. *)
Definition side_to_move (nextToPlay : option string) (m : SignMap) : Sign :=
  match nextToPlay with
  | Some s => if (s =? "W")%string then (-1)%Z else 1%Z
  | None => if (stones 1%Z m =? stones (-1)%Z m)%nat then 1%Z else (-1)%Z
  end.

(** The same rule with the empty string counted as absent. *)
Definition side_in_effect (nextToPlay : option string) (m : SignMap) : Sign :=
  match nextToPlay with
  | Some "" => side_to_move None m
  | other => side_to_move other m
  end.

(** The position, komi, history and number of visits an analysis of grid [m]
    runs with: the defaults of the options filled in, the ko restriction of
    the options put on the board. *)
Definition komi_of (options : EngineAnalysisOptions) : Q :=
  match opt_komi options with Some k => k | None => 75 # 10 end.

Definition history_of (options : EngineAnalysisOptions) : list Move :=
  match history options with Some h => h | None => [] end.

Definition visits_of (options : EngineAnalysisOptions) : nat :=
  match numVisits options with Some n => n | None => 1%nat end.

Definition board_of (m : SignMap) (options : EngineAnalysisOptions) : GoBoard :=
  match koInfo options with
  | Some ko =>
      if negb (ko_sign ko =? 0)%Z
      then mkBoard m (Some (mkKo (ko_sign ko) (ko_vertex ko)))
      else new_GoBoard m
  | None => new_GoBoard m
  end.

(** Every run of the network succeeds. *)
Definition inference_succeeds (env : Environment) : Prop :=
  forall board pla komi hist size,
    exists raw, infer env board pla komi hist size = Resolved raw.

(** The frame conversions of output decoding for the side [pla], on the
    heads [raw] of a single position. *)
Definition black_frame (env : Environment) (raw : RawOutputs) (pla : Sign)
    (size : Z) (r : AnalysisResult) (single : bool) : Prop :=
  scoreLead r = at_ (subarray (miscvalue raw) 0
                       (if (1 <? List.length (miscvalueDims raw))%nat
                        then nth 1 (miscvalueDims raw) 0%Z else 10%Z)) 2
                * 20 * inject_Z pla
  /\ ownership r
     = option_map
         (fun data =>
            map (fun v => v * inject_Z pla) (subarray data 0 (size * size)))
         (raw_ownership raw)
  /\ (single = true ->
      winRate r
      = let v := subarray (value raw) 0
                   (if (1 <? List.length (valueDims raw))%nat
                    then nth 1 (valueDims raw) 0%Z else 3%Z) in
        let w := exp env (at_ v 0)
                 / (exp env (at_ v 0) + exp env (at_ v 1) + exp env (at_ v 2)) in
        if (pla =? 1)%Z then w else 1 - w).

End EngineSpec.

(** *** A small environment to run the engine in *)

Module EngineSample.
Import Js Engine.

Local Open Scope Q_scope.

Definition empty_row : list Sign := [0; 0; 0; 0; 0; 0; 0; 0; 0]%Z.

(** A 9x9 position with a single black stone at C7. *)
Definition sample_board : SignMap :=
  [ empty_row; empty_row; [0; 0; 1; 0; 0; 0; 0; 0; 0]%Z; empty_row; empty_row;
    empty_row; empty_row; empty_row; empty_row ].

Definition replace_at {A : Type} (i : nat) (x : A) (l : list A) : list A :=
  firstn i l ++ x :: skipn (S i) l.

(** A stand-in for the rules: a stone may be put on an empty intersection of
    the board, nothing is captured. *)
Definition sample_makeMove (b : GoBoard) (pla : Sign) (v : Z * option Z)
  : option GoBoard :=
  match get b v, snd v with
  | Some 0%Z, Some y =>
      let row := nth (Z.to_nat y) (signMap b) [] in
      Some (mkBoard
              (replace_at (Z.to_nat y) (replace_at (Z.to_nat (fst v)) pla row)
                          (signMap b))
              None)
  | _, _ => None
  end.

(** A stand-in for the network: the same three candidate moves and the same
    heads for every position. *)
Definition sample_raw : RawOutputs :=
  mkRaw [] [1; 82]%Z [0; 0; 0] [1; 3]%Z [0; 0; 1 # 4; 0] [1; 4]%Z
        (Some (repeat (1 # 2) 81)).

(** Rational stand-ins for [Math.exp] and [Math.sqrt]. *)
Definition sample_exp (x : Q) : Q :=
  1 + x + x * x / 2 + x * x * x / 6 + x * x * x * x / 24.

Definition sample_sqrt (x : Q) : Q :=
  inject_Z (Z.sqrt (Qfloor (x * 1000000))) / 1000.

(** Heads with ownership values outside [-1, 1], for a 2x2 grid. *)
Definition loud_raw : RawOutputs :=
  mkRaw [] [1; 5]%Z [0; 0; 0] [1; 3]%Z [0; 0; 0] [1; 3]%Z
        (Some [2; 0; 0; -(3)]).

Definition sample_env : Environment :=
  mkEnvironment true sample_exp sample_sqrt
    (fun _ _ _ _ _ => Resolved sample_raw)
    sample_makeMove
    (fun _ _ =>
       [ mkSuggestion "C7" (1 # 2); mkSuggestion "D4" (1 # 4);
         mkSuggestion "PASS" (1 # 8); mkSuggestion "E5" (1 # 8) ]).

Definition sample_options (n : nat) : EngineAnalysisOptions :=
  mkOptions None None None None (Some n).

End EngineSample.

(** ** Board recognition: the position-file emitter (sgf) *)

Module Sgf.
Import Js.

Inductive StoneColor : Type := black | white.

(** A detected stone: column [x] and row [y], 0-indexed. *)
Record DetectedStone : Type := mkStone {
  x : Z;
  y : Z;
  color : StoneColor
}.

Definition ALPHA : list ascii :=
  list_ascii_of_string "abcdefghijklmnopqrstuvwxyz".

(** [ALPHA[i]] *)
Definition ALPHA_at (i : Z) : option ascii :=
  if (0 <=? i)%Z then nth_error ALPHA (Z.to_nat i) else None.

(** [ALPHA[col] + ALPHA[row]]: string concatenation, where [undefined]
    prints as "undefined" next to a string and the sum of two [undefined] is
    [NaN]. *)
Definition coord (col row : Z) : string :=
  match ALPHA_at col, ALPHA_at row with
  | Some c, Some r => String c (String r "")
  | Some c, None => String c "undefined"
  | None, Some r => "undefined" ++ String r ""
  | None, None => "NaN"
  end.

Definition is_color (c : StoneColor) (s : DetectedStone) : bool :=
  match c, color s with
  | black, black => true
  | white, white => true
  | _, _ => false
  end.

(** [stones.map(s => `[${coord(s.x, s.y)}]`)] *)
Definition entries (l : list DetectedStone) : list string :=
  map (fun s => "[" ++ coord (x s) (y s) ++ "]") l.

(** [a.join('')] *)
Definition join (a : list string) : string :=
  fold_right String.append "" a.

Definition newline : string := String (ascii_of_nat 10) "".

(** Build an SGF string representing a static board position (no moves). *)
Definition buildSGF (boardSize : Z) (stones : list DetectedStone) : string :=
  let black_ := filter (is_color black) stones in
  let white_ := filter (is_color white) stones in
  let props0 :=
    "GM[1]FF[4]SZ[" ++ show_Z boardSize ++ "]AP[Kaya Board Recognition]" in
  let props1 :=
    if (0 <? List.length black_)%nat
    then props0 ++ "AB" ++ join (entries black_)
    else props0 in
  let props2 :=
    if (0 <? List.length white_)%nat
    then props1 ++ "AW" ++ join (entries white_)
    else props1 in
  "(;" ++ props2 ++ newline ++ ")".

End Sgf.

(** *** Notions used to state the emitter's properties *)

Module SgfSpec.
Import Js Sgf.

(** [needle] starts at the head of [hay]. *)
Fixpoint starts_with (needle hay : string) : bool :=
  match needle, hay with
  | EmptyString, _ => true
  | String a n, String b h => Ascii.eqb a b && starts_with n h
  | String _ _, EmptyString => false
  end.

(** The number of positions of [hay] at which [needle] occurs. *)
Fixpoint occurrences (needle hay : string) : nat :=
  match hay with
  | EmptyString => if starts_with needle "" then 1 else 0
  | String _ rest =>
      ((if starts_with needle hay then 1 else 0) + occurrences needle rest)%nat
  end.

(** [c] occurs in [s]. *)
Fixpoint mentions (c : ascii) (s : string) : bool :=
  match s with
  | EmptyString => false
  | String d rest => Ascii.eqb c d || mentions c rest
  end.

(** The coordinate of the position-record format: column letter then row
    letter, counted from 'a'. *)
Definition letter (i : Z) : ascii := ascii_of_nat (97 + Z.to_nat i).

Definition sgf_coord (col row : Z) : string :=
  String (letter col) (String (letter row) "").

(** [c] is not a character of decimal notation. *)
Definition not_decimal (c : ascii) : Prop :=
  mentions c "-0123456789" = false.

Definition on_board (s : DetectedStone) : Prop :=
  (0 <= x s < 19)%Z /\ (0 <= y s < 19)%Z.

(** The property block of a colour: nothing for an empty list. *)
Definition block (tag : string) (l : list DetectedStone) : string :=
  if (0 <? List.length l)%nat then tag ++ join (entries l) else "".

(** The stones of colour [c] at column [col] and row [row]. *)
Definition stones_at (c : StoneColor) (col row : Z) (l : list DetectedStone)
  : nat :=
  List.length
    (filter (fun s => is_color c s && (x s =? col)%Z && (y s =? row)%Z) l).

End SgfSpec.

(** ** Board recognition: homography and perspective warp (perspective) *)

Module Perspective.

(** The numbers of the warp are IEEE-754 doubles.  The warp is modelled over
    any implementation of the operations it uses, so that what is proved of
    it holds whatever these operations return, [NaN] and infinities
    included. *)
Record Arith : Type := mkArith {
  num : Type;
  of_Z : Z -> num;
  nan : num;
  add : num -> num -> num;
  sub : num -> num -> num;
  mul : num -> num -> num;
  div : num -> num -> num;
  neg : num -> num;
  abs : num -> num;
  floor : num -> num;
  round : num -> num;
  max : num -> num -> num;
  min : num -> num -> num;
  ltb : num -> num -> bool;
  geb : num -> num -> bool;
  epsilon : num;
  to_index : num -> option nat;
  to_uint8_clamped : num -> Z
}.

Section Warp.
Variable A : Arith.

Notation "a + b" := (add A a b).
Notation "a - b" := (sub A a b).
Notation "a * b" := (mul A a b).
Notation "a / b" := (div A a b).
Notation "- a" := (neg A a).
Notation "a < b" := (ltb A a b).
Notation "a > b" := (ltb A b a).
Notation "a >= b" := (geb A a b).
Notation "# z" := (of_Z A z) (at level 1, format "# z").

Definition Point : Type := (num A * num A)%type.

(** [TL, TR, BR, BL] *)
Definition BoardCorners : Type := (Point * Point * Point * Point)%type.

Definition corner_list (c : BoardCorners) : list Point :=
  let '(tl, tr, br, bl) := c in [tl; tr; br; bl].

(** Raw RGBA image. *)
Record RawImage : Type := mkImage {
  data : list Z;
  width : Z;
  height : Z
}.

(** [row[k]] and [M[r][k]] inside the loops of the solver, where the indices
    are in range; [NaN] stands for an arithmetic use of [undefined]. *)
Definition cell (row : list (num A)) (k : nat) : num A := nth k row (nan A).

Definition entry (M : list (list (num A))) (r k : nat) : num A :=
  cell (nth r M []) k.

(** *** Homography computation (Direct Linear Transform, 4-point) *)

(** The partial-pivot scan: the first row from [col] on with the greatest
    absolute value in column [col]. *)
Definition pivot_row (M : list (list (num A))) (n col : nat) : nat :=
  fold_left
    (fun maxRow row =>
       if abs A (entry M row col) > abs A (entry M maxRow col)
       then row else maxRow)
    (seq (S col) (n - S col)) col.

(** [[M[i], M[j]] = [M[j], M[i]]] *)
Definition swap_rows (M : list (list (num A))) (i j : nat)
  : list (list (num A)) :=
  map (fun r => if (r =? i)%nat then nth j M []
                else if (r =? j)%nat then nth i M []
                else nth r M [])
      (seq 0 (List.length M)).

(** [for (k = col; k <= n; k++) M[row][k] -= f * M[col][k]] *)
Definition eliminate_row (n col : nat) (pivot row : list (num A))
  : list (num A) :=
  let f := cell row col / cell pivot col in
  map (fun k =>
         if ((col <=? k) && (k <=? n))%nat
         then cell row k - f * cell pivot k
         else cell row k)
      (seq 0 (List.length row)).

Definition eliminate (M : list (list (num A))) (n col : nat)
  : list (list (num A)) :=
  map (fun r =>
         if (r =? col)%nat then nth r M []
         else eliminate_row n col (nth col M []) (nth r M []))
      (seq 0 (List.length M)).

Fixpoint solve_columns (M : list (list (num A))) (n : nat) (cols : list nat)
  : option (list (list (num A))) :=
  match cols with
  | [] => Some M
  | col :: rest =>
      let M1 := swap_rows M col (pivot_row M n col) in
      if abs A (entry M1 col col) < epsilon A then None
      else solve_columns (eliminate M1 n col) n rest
  end.

(** Solve the linear system [A.h = b] via Gaussian elimination with partial
    pivoting.  Returns [None] if singular. *)
Definition solveLinear (a : list (list (num A))) (b : list (num A))
  : option (list (num A)) :=
  let n := List.length a in
  let M := map (fun i => (nth i a [] ++ [cell b i])%list) (seq 0 n) in
  match solve_columns M n (seq 0 n) with
  | None => None
  | Some M' => Some (map (fun i => entry M' i n / entry M' i i) (seq 0 n))
  end.

(** The 3x3 homography (row-major, 9 elements) that maps each [src[i]] to
    [dst[i]]; [None] on failure. *)
Definition computeHomography (src dst : BoardCorners) : option (list (num A)) :=
  let rows :=
    flat_map
      (fun sd =>
         let '((sx, sy), (dx, dy)) := sd in
         [ ([sx; sy; #1; #0; #0; #0; (- dx) * sx; (- dx) * sy], dx);
           ([#0; #0; #0; sx; sy; #1; (- dy) * sx; (- dy) * sy], dy) ])
      (combine (corner_list src) (corner_list dst)) in
  match solveLinear (map fst rows) (map snd rows) with
  | None => None
  | Some h => Some (h ++ [#1])%list
  end.

(** Apply homography [H] to the point [(x, y)]. *)
Definition applyHomography (H : list (num A)) (x y : num A) : Point :=
  let h i := cell H i in
  let w := h 6%nat * x + h 7%nat * y + h 8%nat in
  ((h 0%nat * x + h 1%nat * y + h 2%nat) / w,
   (h 3%nat * x + h 4%nat * y + h 5%nat) / w).

Definition invertMatrix3 (m : list (num A)) : option (list (num A)) :=
  let m_ i := cell m i in
  let det :=
    m_ 0%nat * (m_ 4%nat * m_ 8%nat - m_ 5%nat * m_ 7%nat)
    - m_ 1%nat * (m_ 3%nat * m_ 8%nat - m_ 5%nat * m_ 6%nat)
    + m_ 2%nat * (m_ 3%nat * m_ 7%nat - m_ 4%nat * m_ 6%nat) in
  if abs A det < epsilon A then None
  else
    let inv := #1 / det in
    Some
      [ (m_ 4%nat * m_ 8%nat - m_ 5%nat * m_ 7%nat) * inv;
        (m_ 2%nat * m_ 7%nat - m_ 1%nat * m_ 8%nat) * inv;
        (m_ 1%nat * m_ 5%nat - m_ 2%nat * m_ 4%nat) * inv;
        (m_ 5%nat * m_ 6%nat - m_ 3%nat * m_ 8%nat) * inv;
        (m_ 0%nat * m_ 8%nat - m_ 2%nat * m_ 6%nat) * inv;
        (m_ 2%nat * m_ 3%nat - m_ 0%nat * m_ 5%nat) * inv;
        (m_ 3%nat * m_ 7%nat - m_ 4%nat * m_ 6%nat) * inv;
        (m_ 1%nat * m_ 6%nat - m_ 0%nat * m_ 7%nat) * inv;
        (m_ 0%nat * m_ 4%nat - m_ 1%nat * m_ 3%nat) * inv ].

(** *** Perspective warp (inverse mapping with bilinear interpolation) *)

(** [data[i]]: [None] is [undefined]. *)
Definition read (d : list Z) (i : num A) : option Z :=
  match to_index A i with
  | Some k => nth_error d k
  | None => None
  end.

(** [data[i]] used in arithmetic. *)
Definition value (d : list Z) (i : num A) : num A :=
  match read d i with
  | Some b => #b
  | None => nan A
  end.

(** [out[i] = data[j]] on clamped byte arrays. *)
Definition copied (d : list Z) (j : num A) : Z :=
  match read d j with
  | Some b => b
  | None => 0%Z
  end.

(** [out[i] = v] on a typed array: no effect past its end. *)
Fixpoint store (out : list Z) (i : nat) (v : Z) : list Z :=
  match out, i with
  | [], _ => []
  | _ :: rest, O => v :: rest
  | b :: rest, S i' => b :: store rest i' v
  end.

(** The four bytes written for one output pixel sampled at [(sx, sy)]. *)
Definition sample (img : RawImage) (sx sy : num A) : Z * Z * Z * Z :=
  let w := #(width img) in
  let h := #(height img) in
  let x0 := floor A sx in
  let y0 := floor A sy in
  let x1 := x0 + #1 in
  let y1 := y0 + #1 in
  let dx := sx - x0 in
  let dy := sy - y0 in
  if (x0 < #0) || (y0 < #0) || (x1 >= w) || (y1 >= h) then
    let cx := max A #0 (min A (w - #1) (round A sx)) in
    let cy := max A #0 (min A (h - #1) (round A sy)) in
    let si := (cy * w + cx) * #4 in
    (copied (data img) si, copied (data img) (si + #1),
     copied (data img) (si + #2), 255%Z)
  else
    let i00 := (y0 * w + x0) * #4 in
    let i10 := (y0 * w + x1) * #4 in
    let i01 := (y1 * w + x0) * #4 in
    let i11 := (y1 * w + x1) * #4 in
    let channel (c : Z) : Z :=
      to_uint8_clamped A
        (round A
           (value (data img) (i00 + #c) * (#1 - dx) * (#1 - dy)
            + value (data img) (i10 + #c) * dx * (#1 - dy)
            + value (data img) (i01 + #c) * (#1 - dx) * dy
            + value (data img) (i11 + #c) * dx * dy)) in
    (channel 0%Z, channel 1%Z, channel 2%Z, 255%Z).

Definition write_pixel (out : list Z) (outIdx : nat) (px : Z * Z * Z * Z)
  : list Z :=
  let '(r, g, b, a) := px in
  store (store (store (store out outIdx r) (S outIdx) g) (S (S outIdx)) b)
        (S (S (S outIdx))) a.

(** The source coordinates of output pixel [(ox, oy)]. *)
Definition source_of (Hinv : option (list (num A))) (img : RawImage)
    (outSize : Z) (ox oy : nat) : Point :=
  match Hinv with
  | Some h => applyHomography h #(Z.of_nat ox) #(Z.of_nat oy)
  | None =>
      ((#(Z.of_nat ox) / (#outSize - #1)) * (#(width img) - #1),
       (#(Z.of_nat oy) / (#outSize - #1)) * (#(height img) - #1))
  end.

(** The corners of the output square. *)
Definition dst_of (outSize : Z) : BoardCorners :=
  ((#0, #0), (#outSize - #1, #0), (#outSize - #1, #outSize - #1),
   (#0, #outSize - #1)).

(** [H ? invertMatrix3(H) : null] for the homography [H] that maps the image
    to the output square. *)
Definition Hinv_of (corners : BoardCorners) (outSize : Z)
  : option (list (num A)) :=
  match computeHomography corners (dst_of outSize) with
  | Some h => invertMatrix3 h
  | None => None
  end.

(** Warp the input image so that [corners] maps to a square of size
    [outSize x outSize]. *)
Definition warpPerspective (img : RawImage) (corners : BoardCorners)
    (outSize : Z) : RawImage :=
  let Hinv := Hinv_of corners outSize in
  let n := Z.to_nat outSize in
  let outData :=
    fold_left
      (fun out oy =>
         fold_left
           (fun out ox =>
              let '(sx, sy) := source_of Hinv img outSize ox oy in
              write_pixel out ((oy * n + ox) * 4) (sample img sx sy))
           (seq 0 n) out)
      (seq 0 n)
      (repeat 0%Z (Z.to_nat (outSize * outSize * 4))) in
  mkImage outData outSize outSize.

End Warp.

End Perspective.

(** *** Notions used to state the warp's properties *)

Module PerspectiveSpec.
Import Perspective.

(** An RGBA byte array read four bytes at a time. *)
Fixpoint pixels (d : list Z) : list (Z * Z * Z * Z) :=
  match d with
  | r :: g :: b :: a :: rest => (r, g, b, a) :: pixels rest
  | _ => []
  end.

Definition alpha (px : Z * Z * Z * Z) : Z := snd px.

(** The four bytes of a pixel. *)
Definition bytes (px : Z * Z * Z * Z) : list Z :=
  let '(r, g, b, a) := px in [r; g; b; a].

(** The pixels of an [n x n] image, row by row, given the pixel at each
    column [ox] and row [oy]. *)
Definition row_major {T : Type} (n : nat) (f : nat -> nat -> T) : list T :=
  flat_map (fun oy => map (fun ox => f ox oy) (seq 0 n)) (seq 0 n).

(** Axis-aligned scaling of the whole source image: output pixel [(ox, oy)]
    samples the source at [(ox / (outSize - 1) * (width - 1),
    oy / (outSize - 1) * (height - 1))]. *)
Definition scaled (A : Arith) (img : RawImage) (outSize : Z) (ox oy : nat)
  : Z * Z * Z * Z :=
  sample A img
    (mul A (div A (of_Z A (Z.of_nat ox)) (sub A (of_Z A outSize) (of_Z A 1)))
           (sub A (of_Z A (width img)) (of_Z A 1)))
    (mul A (div A (of_Z A (Z.of_nat oy)) (sub A (of_Z A outSize) (of_Z A 1)))
           (sub A (of_Z A (height img)) (of_Z A 1))).

(** The corners are degenerate for the warp: the 8-equation system is found
    singular, or the 3x3 matrix it yields is found non-invertible. *)
Definition degenerate (A : Arith) (corners : BoardCorners A) (outSize : Z)
  : Prop :=
  computeHomography A corners (dst_of A outSize) = None
  \/ exists h,
      computeHomography A corners (dst_of A outSize) = Some h
      /\ invertMatrix3 A h = None.

End PerspectiveSpec.

(** *** Exact rational arithmetic, to run the warp *)

Module PerspectiveSample.
Import Perspective.

Local Open Scope Q_scope.

(** A rational, or [None] for a value that is not a finite number. *)
Definition lift2 (f : Q -> Q -> Q) (a b : option Q) : option Q :=
  match a, b with
  | Some x, Some y => Some (Qred (f x y))
  | _, _ => None
  end.

Definition test2 (f : Q -> Q -> bool) (a b : option Q) : bool :=
  match a, b with
  | Some x, Some y => f x y
  | _, _ => false
  end.

Definition is_integer (q : Q) : bool := Qeq_bool q (inject_Z (Qfloor q)).

(** Conversion to a clamped byte: round half to even, then clamp. *)
Definition clamp_byte (q : Q) : Z :=
  let f := Qfloor q in
  let frac := q - inject_Z f in
  let rounded :=
    if Qle_bool frac (1 # 2)
    then if Qeq_bool frac (1 # 2) then (if Z.even f then f else f + 1)%Z else f
    else (f + 1)%Z in
  Z.max 0 (Z.min 255 rounded).

Definition rational : Arith :=
  mkArith (option Q)
    (fun z => Some (inject_Z z))
    None
    (lift2 Qplus) (lift2 Qminus) (lift2 Qmult)
    (fun a b =>
       match a, b with
       | Some x, Some y => if Qeq_bool y 0 then None else Some (Qred (x / y))
       | _, _ => None
       end)
    (option_map Qopp)
    (option_map Qabs)
    (option_map (fun x => inject_Z (Qfloor x)))
    (option_map (fun x => inject_Z (Qfloor (x + (1 # 2)))))
    (lift2 (fun x y => if Qle_bool x y then y else x))
    (lift2 (fun x y => if Qle_bool x y then x else y))
    (test2 (fun x y => negb (Qle_bool y x)))
    (test2 (fun x y => Qle_bool y x))
    (Some (1 # 1000000000000))
    (fun a =>
       match a with
       | Some q =>
           if is_integer q && (0 <=? Qfloor q)%Z
           then Some (Z.to_nat (Qfloor q)) else None
       | None => None
       end)
    (fun a => match a with Some q => clamp_byte q | None => 0%Z end).

Definition pt (x y : Z) : Point rational :=
  (Some (inject_Z x), Some (inject_Z y)).

(** A 2x2 image: red, green / blue, white. *)
Definition tiny : RawImage :=
  mkImage [ 255; 0; 0; 255;   0; 255; 0; 255;
            0; 0; 255; 255;   255; 255; 255; 255 ]%Z 2 2.

Definition tiny_corners : BoardCorners rational :=
  (pt 0 0, pt 1 0, pt 1 1, pt 0 1).

(** Four coincident corners. *)
Definition collapsed_corners : BoardCorners rational :=
  (pt 1 1, pt 1 1, pt 1 1, pt 1 1).

End PerspectiveSample.

(** ** Board recognition: corner ordering (corners.ts) *)

Module Corners.
Import Js.

Local Open Scope Q_scope.

(** A 2D point [[x, y]]. *)
Definition Point : Type := (Q * Q)%type.

(** [Math.atan2(y, x)] is only ever compared with another such value.  Its
    value lies in (-pi, pi]; [sector] tells where: 0 for the open lower half
    plane (negative angles), 1 for angle 0 (the positive x axis and the
    origin), 2 for the open upper half plane, 3 for angle pi (the negative
    x axis). *)
Definition sector (y x : Q) : Z :=
  match Qcompare y 0 with
  | Lt => 0%Z
  | Gt => 2%Z
  | Eq => if Qle_bool 0 x then 1%Z else 3%Z
  end.

(** The comparison of [Math.atan2(y1, x1)] with [Math.atan2(y2, x2)], in
    exact arithmetic: by sector, and inside an open half plane by the sign
    of the cross product, positive when the second direction is reached
    from the first by a counter-clockwise turn. *)
Definition atan2_compare (y1 x1 y2 x2 : Q) : comparison :=
  match Z.compare (sector y1 x1) (sector y2 x2) with
  | Eq =>
      if (sector y1 x1 =? 1)%Z || (sector y1 x1 =? 3)%Z then Eq
      else Qcompare 0 (x1 * y2 - y1 * x2)
  | c => c
  end.

(** The sign of [Math.atan2(a[1] - cy, a[0] - cx)
    - Math.atan2(b[1] - cy, b[0] - cx)]. *)
Definition by_angle (cx cy : Q) (a b : Point) : Z :=
  match atan2_compare (snd a - cy) (fst a - cx) (snd b - cy) (fst b - cx) with
  | Lt => (-1)%Z
  | Eq => 0%Z
  | Gt => 1%Z
  end.

(** The loop that looks for the point with minimum x+y; [minSum] starts at
    infinity ([None]). *)
Definition min_sum_index (sorted : list Point) : nat :=
  fst
    (fold_left
       (fun st ip =>
          let s := fst (snd ip) + snd (snd ip) in
          let smaller :=
            match snd st with
            | None => true
            | Some minSum => negb (Qle_bool minSum s)
            end in
          if smaller then (fst ip, Some s) else st)
       (combine (seq 0 (List.length sorted)) sorted)
       (0%nat, None)).

(** Corner ordering TL, TR, BR, BL.  An entry is [None] where the source
    reads past the end of [sorted]. *)
Definition orderCorners (pts : list Point) : list (option Point) :=
  let len := inject_Z (Z.of_nat (List.length pts)) in
  let cx := fold_left (fun s p => s + fst p) pts 0 / len in
  let cy := fold_left (fun s p => s + snd p) pts 0 / len in
  let sorted := sort (by_angle cx cy) pts in
  let tlIdx := min_sum_index sorted in
  map (fun i => nth_error sorted ((tlIdx + i) mod 4)%nat) (seq 0 4).

End Corners.

(** *** Notions used to state the ordering's properties *)

Module CornersSpec.
Import Corners.

Local Open Scope Q_scope.

(** Twice the signed area of the triangle [a b c]: positive when [a], [b],
    [c] make a counter-clockwise turn in the orientation of the coordinate
    system (x axis towards y axis). *)
Definition orient (a b c : Point) : Q :=
  (fst b - fst a) * (snd c - snd a) - (snd b - snd a) * (fst c - fst a).

(** A convex quadrilateral in general position, traversed counter-clockwise:
    every three consecutive corners turn counter-clockwise. *)
Definition ccw_convex (a b c d : Point) : Prop :=
  0 < orient a b c /\ 0 < orient b c d /\ 0 < orient c d a /\ 0 < orient d a b.

Definition coord_sum (p : Point) : Q := fst p + snd p.

(** The positions of a list of four. *)
Inductive Slot : Type := slot0 | slot1 | slot2 | slot3.

Definition slot_rank (s : Slot) : Z :=
  match s with
  | slot0 => 0%Z
  | slot1 => 1%Z
  | slot2 => 2%Z
  | slot3 => 3%Z
  end.

Definition by_rank (a b : Slot) : Z := (slot_rank a - slot_rank b)%Z.

Definition slot_eqb (a b : Slot) : bool := (slot_rank a =? slot_rank b)%Z.

(** The point of four in a slot. *)
Definition pick (p0 p1 p2 p3 : Point) (s : Slot) : Point :=
  match s with
  | slot0 => p0
  | slot1 => p1
  | slot2 => p2
  | slot3 => p3
  end.

(** [b] lies at a greater [atan2] angle than [a], as seen from [(cx, cy)]. *)
Definition angle_lt (cx cy : Q) (a b : Point) : Prop :=
  atan2_compare (snd a - cy) (fst a - cx) (snd b - cy) (fst b - cx) = Lt.

(** [sector], by cases. *)
Inductive SectorSpec (y x : Q) : Z -> Prop :=
| Sector_lower : y < 0 -> SectorSpec y x 0%Z
| Sector_zero : y == 0 -> 0 <= x -> SectorSpec y x 1%Z
| Sector_upper : 0 < y -> SectorSpec y x 2%Z
| Sector_pi : y == 0 -> x < 0 -> SectorSpec y x 3%Z.

(** Four points in order. *)
Definition quad : Type := (Point * Point * Point * Point)%type.

(** [r] lists the points of [q] in the same cyclic order. *)
Definition Rotation (q r : quad) : Prop :=
  let '(a, b, c, d) := q in
  r = (a, b, c, d) \/ r = (b, c, d, a) \/ r = (c, d, a, b) \/ r = (d, a, b, c).

(** Seen from [(cx, cy)], [b] is reached from [a] by a counter-clockwise
    turn of less than half a circle. *)
Definition turn (cx cy : Q) (a b : Point) : Prop :=
  0 < (fst a - cx) * (snd b - cy) - (snd a - cy) * (fst b - cx).

(** The sum of [f] over a list of points. *)
Fixpoint total (f : Point -> Q) (l : list Point) : Q :=
  match l with
  | [] => 0
  | p :: rest => f p + total f rest
  end.

End CornersSpec.

(** ** The model rewriter: the conversion check *)

Module OnnxScan.

(** [new TextEncoder().encode(s)] for an ASCII string. *)
Definition encode_ascii (s : string) : list byte := list_byte_of_string s.

(** [a !== b] negated, on array reads that may be [undefined]. *)
Definition same_byte (a b : option byte) : bool :=
  match a, b with
  | Some x, Some y => Byte.eqb x y
  | None, None => true
  | _, _ => false
  end.

(** The inner loop of [scanFor]: [match] after comparing at offset [i]. *)
Definition matches_at (bytes opBytes : list byte) (i : nat) : bool :=
  forallb (fun j => same_byte (nth_error bytes (i + j)) (nth_error opBytes j))
          (seq 0 (List.length opBytes)).

(** [for (let i = 0; i < bytes.length - opBytes.length; i++)] *)
Definition scanFor (bytes : list byte) (opName : string) : bool :=
  let opBytes := encode_ascii opName in
  existsb (matches_at bytes opBytes)
          (seq 0 (List.length bytes - List.length opBytes)).

Definition softplus_issue : string := "Has Softplus ops (unsupported on WebGPU)".
Definition logsoftmax_issue : string :=
  "Has LogSoftmax ops (unsupported on WebGPU)".

Definition checkModelNeedsConversion (modelBuffer : list byte) : list string :=
  ((if scanFor modelBuffer "Softplus" then [softplus_issue] else [])
   ++ (if scanFor modelBuffer "LogSoftmax" then [logsoftmax_issue] else []))%list.

(** [op] occurs in [bytes] and is followed by at least one more byte. *)
Definition occurs_before_end (op bytes : list byte) : Prop :=
  exists pre post, bytes = (pre ++ op ++ post)%list /\ post <> [].

End OnnxScan.

(** *** Declarations the static-dimension passes leave alone *)

Module RewriteSpec.
Import Js Onnx OnnxSpec.

(** A declaration the GPU profile's static-batch pass leaves alone: it has no
    dimensions, or its first dimension passes the test of the pass. *)
Definition settled_decl (batchSize : Z) (vi : ValueInfoProto) : Prop :=
  match vi_dims vi with
  | Some (d :: _) => makeStatic_firstDim batchSize d = None
  | _ => True
  end.

(** A dimension the coprocessor profile's pass leaves alone. *)
Definition settled_dim (batchSize boardSize : Z) (d : Dimension) : Prop :=
  forall label viName,
    makeStaticNN_dim batchSize boardSize label viName d = (d, []).

Definition settled_dims (batchSize boardSize : Z) (vi : ValueInfoProto) : Prop :=
  match vi_dims vi with
  | Some ds => Forall (settled_dim batchSize boardSize) ds
  | None => True
  end.

End RewriteSpec.

(** *** A model that needs no rewriting *)

Module RewriteSample.
Import Js Onnx OnnxSample.

Definition static_graph : GraphProto :=
  mkGraph
    [ mkNode [Some "x"] [Some "y"] "act0" "Relu" "" [] "" ]
    "tiny" []
    [ decl "x" 1 [fixed 8; fixed 22] ]
    [ decl "y" 1 [fixed 8; fixed 22] ]
    [].

Definition static_model : ModelProto :=
  mkModel 8 "pytorch" (Some static_graph) [] [].

(** A stand-in for the codec that reads every buffer as [static_model]. *)
Definition static_codec : Codec :=
  mkCodec
    (fun _ => Resolved static_model)
    (fun m =>
       match graph m with
       | Some g => map (fun _ => x0a) (node g)
       | None => []
       end).

Definition static_result : ConversionResult := mkResult [x0a] false [] 8.

End RewriteSample.

(** *** Notions used to state the properties of the search *)

Module SearchSpec.
Import Js Engine.

Local Open Scope Q_scope.

(** A move the search may try for [pla] on [board]: a pass, or a vertex
    string that reads as an empty intersection and is not the ko-forbidden
    vertex. *)
Definition legal_move (board : GoBoard) (pla : Sign) (size : Z) (m : string)
  : Prop :=
  m = "PASS"
  \/ exists parsed,
       _parseMoveStr m size = Some parsed
       /\ get board parsed = Some 0%Z
       /\ _getKoVertex board pla size <> Some m.

(** A node as [_expandNode] creates it, with prior [p]. *)
Definition fresh_child (p : Q) (c : MCTSNode) : Prop :=
  c = mkMCTSNode 0 0 p None false.

(** The sum of the visit counts of the children. *)
Definition child_visits (ch : list (string * MCTSNode)) : nat :=
  fold_left (fun s c => (s + N (snd c))%nat) ch 0%nat.

(** The share of the child visits that went to [mc], or its prior when no
    child was visited. *)
Definition visit_share (ch : list (string * MCTSNode)) (mc : string * MCTSNode)
  : MoveSuggestion :=
  mkSuggestion (fst mc)
    (if (0 <? child_visits ch)%nat
     then Q_of_nat (N (snd mc)) / Q_of_nat (child_visits ch)
     else P (snd mc)).

(** The value head of a single position holds the three logits that the
    decoder reads; from a shorter head the source reads [undefined], and its
    win rate is [NaN]. *)
Definition value_head_read (raw : RawOutputs) : Prop :=
  (3 <= List.length
          (subarray (value raw) 0
             (if (1 <? List.length (valueDims raw))%nat
              then nth 1 (valueDims raw) 0%Z else 3%Z)))%nat.

Definition value_heads_read (env : Environment) : Prop :=
  forall board pla komi hist size raw,
    infer env board pla komi hist size = Resolved raw -> value_head_read raw.

(** Every node of the tree is unvisited with no value, or holds a total
    value strictly between 0 and its visit count. *)
Fixpoint averaged (node : MCTSNode) : Prop :=
  match node with
  | mkMCTSNode n w _ ch _ =>
      ((n = 0%nat /\ w == 0) \/ (0 < w /\ w < Q_of_nat n))
      /\ match ch with
         | Some l =>
             (fix all (l : list (string * MCTSNode)) : Prop :=
                match l with
                | [] => True
                | (_, c) :: rest => averaged c /\ all rest
                end) l
         | None => True
         end
  end.

End SearchSpec.

(** *** A searched root to read suggestions from *)

Module SearchSample.
Import Js Engine.

Local Open Scope Q_scope.

Definition visited_children : list (string * MCTSNode) :=
  [ ("D4", mkMCTSNode 1 (2 # 5) (1 # 4) None true);
    ("C7", mkMCTSNode 3 (3 # 2) (1 # 2) None true);
    ("PASS", mkMCTSNode 0 0 (1 # 8) None false) ].

Definition visited_root : MCTSNode :=
  mkMCTSNode 5 (5 # 2) 1 (Some visited_children) true.

End SearchSample.

(** ** The inference engine: half-precision inputs *)

Module Half.

(** [ToUint32] and [ToInt32] of an integer-valued number. *)
Definition to_uint32 (z : Z) : Z := z mod 2 ^ 32.

Definition to_int32 (z : Z) : Z :=
  let u := to_uint32 z in
  if u <? 2 ^ 31 then u else u - 2 ^ 32.

(** [a >>> b], [a >> b], [a << b], [a & b], [a | b] *)
Definition ushr (a b : Z) : Z := Z.shiftr (to_uint32 a) (to_uint32 b mod 32).

Definition shr (a b : Z) : Z := Z.shiftr (to_int32 a) (to_uint32 b mod 32).

Definition shl (a b : Z) : Z :=
  to_int32 (Z.shiftl (to_int32 a) (to_uint32 b mod 32)).

Definition and32 (a b : Z) : Z := Z.land (to_int32 a) (to_int32 b).

Definition or32 (a b : Z) : Z := Z.lor (to_int32 a) (to_int32 b).

(** The body of the loop of [float32ToFloat16]: the half-precision pattern
    computed for the 32-bit pattern [f32] that [view.getUint32(0, true)]
    reads after [view.setFloat32(0, val, true)]. *)
Definition half_of (f32 : Z) : Z :=
  let sign := and32 (ushr f32 31) 1 in
  let exp := and32 (ushr f32 23) 255 in
  let frac := and32 f32 8388607 in
  if exp =? 0 then shl sign 15
  else if exp =? 255 then
    or32 (or32 (shl sign 15) 31744) (if frac =? 0 then 0 else 512)
  else
    let newExp := exp - 127 + 15 in
    if newExp >=? 31 then or32 (shl sign 15) 31744
    else if newExp <=? 0 then
      if newExp >=? -10 then
        let mant := shr (or32 frac 8388608) (1 - newExp + 13) in
        or32 (shl sign 15) (shr mant 10)
      else shl sign 15
    else or32 (or32 (shl sign 15) (shl newExp 10)) (shr frac 13).

(** [float16Array[i] = f16] on a [Uint16Array]. *)
Definition to_uint16 (z : Z) : Z := z mod 2 ^ 16.

(** Convert a [Float32Array], given by the bit patterns of its elements, to
    half precision. *)
Definition float32ToFloat16 (float32Array : list Z) : list Z :=
  map (fun f32 => to_uint16 (half_of f32)) float32Array.

End Half.

(** *** The fields of a half-precision number *)

Module HalfSpec.

(** The 16-bit pattern with sign bit [s], biased exponent [e] and fraction
    [m]. *)
Definition float16_bits (s e m : Z) : Z := s * 2 ^ 15 + e * 2 ^ 10 + m.

(** The half-precision exponent field for a single-precision one: zero up
    to 112, re-biased from 113 to 142, all ones above. *)
Definition half_exponent (e : Z) : Z :=
  if e <=? 112 then 0 else if 143 <=? e then 31 else e - 112.

(** The half-precision fraction field: the ten leading fraction bits in the
    range of normal halves, the quiet bit for a NaN, zero otherwise. *)
Definition half_fraction (e f : Z) : Z :=
  if e =? 255 then (if f =? 0 then 0 else 512)
  else if (113 <=? e) && (e <=? 142) then f / 2 ^ 13
  else 0.

(** The single-precision pattern of the number a normal half holds: the
    exponent re-biased by 127 - 15, the fraction padded with thirteen zero
    bits. *)
Definition widen (s e m : Z) : Z := Js.float32_bits s (e + 112) (m * 2 ^ 13).

End HalfSpec.

(** ** The inference engine: decoding the policy head *)

Module Policy.
Import Js Engine.

Local Open Scope Q_scope.

(** A suggestion as the decoder pushes it; the probability is [None] when
    the source holds [undefined] or [NaN]. *)
Record RawSuggestion : Type := mkRawSuggestion {
  raw_move : string;
  raw_probability : option Q
}.

(** Arithmetic on numbers that may be [NaN]. *)
Definition nan2 (f : Q -> Q -> Q) (a b : option Q) : option Q :=
  match a, b with
  | Some x, Some y => Some (f x y)
  | _, _ => None
  end.

(** The sign of a comparator's result; [NaN] counts as zero. *)
Definition sign_of (d : option Q) : Z :=
  match d with
  | Some d => if Qltb d 0 then (-1)%Z else if Qltb 0 d then 1%Z else 0%Z
  | None => 0%Z
  end.

Section Decode.
Variable exp : Q -> Q.
(** [probs] is a [Float32Array]: [fround q] is the number it holds after the
    store of the value that is [q] in exact arithmetic. *)
Variable fround : Q -> Q.
Variable policy : list Q.
Variable numMoves : nat.
Variable size : Z.

(** [maxLogit] after the first loop; [None] is minus infinity.  An entry
    that is [undefined] never compares greater. *)
Definition maxLogit : option Q :=
  fold_left
    (fun m i =>
       match nth_error policy i with
       | Some p =>
           match m with
           | None => Some p
           | Some q => if Qltb q p then Some p else Some q
           end
       | None => m
       end)
    (seq 0 numMoves) None.

(** [probs[i]] after [probs[i] = Math.exp(policy[i] - maxLogit)].  It is
    [NaN] when [policy[i]] is [undefined]; a defined entry below [numMoves]
    makes [maxLogit] finite. *)
Definition unnormalised (i : nat) : option Q :=
  match nth_error policy i, maxLogit with
  | Some p, Some m => Some (fround (exp (p - m)))
  | _, _ => None
  end.

(** [sumProbs += probs[i]], on the stored numbers. *)
Definition sumProbs : option Q :=
  fold_left (fun s i => nan2 Qplus s (unnormalised i)) (seq 0 numMoves) (Some 0).

(** [probs[i]] after [probs[i] /= sumProbs]; [undefined] past the end of the
    array. *)
Definition probs (i : nat) : option Q :=
  if (i <? numMoves)%nat
  then option_map fround (nan2 Qdiv (unnormalised i) sumProbs)
  else None.

(** [(a, b) => probs[b] - probs[a]] *)
Definition by_probability (a b : nat) : Z :=
  sign_of (nan2 Qminus (probs b) (probs a)).

Definition indices : list nat := sort by_probability (seq 0 numMoves).

(** The move string of policy index [idx].  On a grid of size zero the
    column is [NaN] and the row is infinite. *)
Definition moveStr (idx : nat) : string :=
  let i := Z.of_nat idx in
  if (i =? size * size)%Z then "PASS"
  else if (size =? 0)%Z then "undefined-Infinity"
  else (letter_at (Z.rem i size) ++ show_Z (size - i / size))%string.

(** The [i]-th pushed suggestion; past the end of [indices] the index is
    [undefined]. *)
Definition suggestion (i : nat) : RawSuggestion :=
  match nth_error indices i with
  | Some idx => mkRawSuggestion (moveStr idx) (probs idx)
  | None => mkRawSuggestion "undefinedNaN" None
  end.

(** [for (let i = 0; i < 10; i++)] *)
Definition topMoves : list RawSuggestion := map suggestion (seq 0 10).

End Decode.

End Policy.

(** *** Notions used to state the properties of the decoder *)

Module PolicySpec.
Import Js Engine Policy.

Local Open Scope Q_scope.

(** The suggestion for policy index [idx]. *)
Definition entry (exp fround : Q -> Q) (policy : list Q) (size : Z) (idx : nat)
  : RawSuggestion :=
  mkRawSuggestion (moveStr size idx)
                  (probs exp fround policy (List.length policy) idx).

(** The probability of an index, 0 where it is not a number. *)
Definition weight (exp fround : Q -> Q) (policy : list Q) (idx : nat) : Q :=
  match probs exp fround policy (List.length policy) idx with
  | Some q => q
  | None => 0
  end.

Fixpoint Qsum (l : list Q) : Q :=
  match l with
  | [] => 0
  | q :: rest => q + Qsum rest
  end.

End PolicySpec.

(** *** A stand-in policy *)

Module PolicySample.

Local Open Scope Q_scope.

(** Logits for a 3x3 grid and the pass move. *)
Definition logits : list Q :=
  [0; 1 # 4; 0; 1 # 2; 0; 0; 1 # 4; 0; 0; 1].

End PolicySample.

(** ** Board recognition: lines of the Hough transform (hough) *)

Module Lines.

Local Open Scope Q_scope.

Section Trigonometry.
Variable cos sin : Q -> Q.

(** Intersect two Hough lines, given by angle and distance; [None] if the
    lines are parallel. *)
Definition intersectLines (theta1 rho1 theta2 rho2 : Q) : option (Q * Q) :=
  let c1 := cos theta1 in
  let s1 := sin theta1 in
  let c2 := cos theta2 in
  let s2 := sin theta2 in
  let det := c1 * s2 - c2 * s1 in
  if Engine.Qltb (Qabs det) (1 # 10000000000) then None
  else Some ((rho1 * s2 - rho2 * s1) / det, (rho2 * c1 - rho1 * c2) / det).

End Trigonometry.

End Lines.

(** ** Board recognition: the homography over the rationals *)

Module PerspectiveExact.
Import Perspective.

Local Open Scope Q_scope.

(** The field of rationals as the arithmetic of the warp.  A read out of
    range and a division by zero give 0 here; the properties proved with it
    are about runs in which every read is in range and every divisor is
    non-zero, where it is real arithmetic. *)
Definition exact : Arith :=
  mkArith Q
    inject_Z
    0
    Qplus Qminus Qmult Qdiv Qopp Qabs
    (fun x => inject_Z (Qfloor x))
    (fun x => inject_Z (Qfloor (x + (1 # 2))))
    (fun x y => if Qle_bool x y then y else x)
    (fun x y => if Qle_bool x y then x else y)
    (fun x y => negb (Qle_bool y x))
    (fun x y => Qle_bool y x)
    (1 # 1000000000000)
    (fun q =>
       if PerspectiveSample.is_integer q && (0 <=? Qfloor q)%Z
       then Some (Z.to_nat (Qfloor q)) else None)
    PerspectiveSample.clamp_byte.

(** [sum n f] is f 0 + ... + f (n - 1). *)
Fixpoint sum (n : nat) (f : nat -> Q) : Q :=
  match n with
  | O => 0
  | S k => sum k f + f k
  end.

(** The left-hand side of equation [row] of a system in [n] unknowns at
    [x]. *)
Definition dot (n : nat) (row x : list Q) : Q :=
  sum n (fun k => nth k row 0 * nth k x 0).

(** [x] satisfies every equation of the augmented matrix [M]. *)
Definition solves (n : nat) (M : list (list Q)) (x : list Q) : Prop :=
  forall r, (r < n)%nat -> dot n (nth r M []) x == nth n (nth r M []) 0.

(** An augmented matrix of [n] equations in [n] unknowns. *)
Definition well_formed (n : nat) (M : list (list Q)) : Prop :=
  List.length M = n /\ Forall (fun row => List.length row = S n) M.

(** The state of the elimination before column [c]: in the columns already
    treated only the diagonal is left, and it is non-zero. *)
Definition reduced (n c : nat) (M : list (list Q)) : Prop :=
  well_formed n M
  /\ (forall r k, (r < n)%nat -> (k < c)%nat -> r <> k ->
                  entry exact M r k == 0)
  /\ (forall i, (i < c)%nat -> ~ entry exact M i i == 0).

(** The product of two 3x3 matrices, row-major. *)
Definition mul3 (a b : list Q) : list Q :=
  map (fun rc =>
         sum 3 (fun k => nth (3 * fst rc + k) a 0 * nth (3 * k + snd rc) b 0))
      [ (0, 0); (0, 1); (0, 2); (1, 0); (1, 1); (1, 2); (2, 0); (2, 1); (2, 2) ]%nat.

Definition identity3 : list Q := [1; 0; 0; 0; 1; 0; 0; 0; 1].

(** The projective denominator of [H] at [(x, y)]. *)
Definition denominator (H : list Q) (p : Q * Q) : Q :=
  nth 6 H 0 * fst p + nth 7 H 0 * snd p + nth 8 H 0.

Definition same_point (p q : Q * Q) : Prop :=
  fst p == fst q /\ snd p == snd q.

(** A trapezoid and the square it is mapped to. *)
Definition trapezoid : BoardCorners exact :=
  ((1, 0), (3, 0), (4, 2), (0, 2)).

Definition square4 : BoardCorners exact :=
  ((0, 0), (4, 0), (4, 4), (0, 4)).

(** A system of two equations, a singular one, and a 3x3 matrix. *)
Definition system_a : list (list Q) := [[2; 1]; [1; 3]].
Definition system_b : list Q := [5; 10].
Definition singular_a : list (list Q) := [[1; 2]; [2; 4]].
Definition matrix3 : list Q := [2; 1; -2; 0; 4; 0; 0; 1 # 2; 1].

Definition is_some {T : Type} (o : option T) : bool :=
  match o with Some _ => true | None => false end.

End PerspectiveExact.

(** ** Board recognition: peaks of the Hough accumulator *)

Module Hough.
Import Js.

Local Open Scope Z_scope.

Record HoughPeak : Type := mkHoughPeak {
  thetaIdx : Z;
  rhoIdx : Z;
  votes : option Z;        (* [None] is [undefined] *)
  theta : Q;
  rho : Q
}.

(** The values of [v] in [for (v = lo; v <= hi; v++)]. *)
Definition range (lo hi : Z) : list Z :=
  map (fun k => lo + Z.of_nat k) (seq 0 (Z.to_nat (hi - lo + 1))).

(** [(((x % numTheta) + numTheta) % numTheta)]; [%] takes the sign of the
    dividend. *)
Definition wrap (numTheta x : Z) : Z :=
  Z.rem (Z.rem x numTheta + numTheta) numTheta.

(** [suppressed[i] = 1] on a [Uint8Array]: a write outside the array is
    ignored. *)
Definition mark (suppressed : list Z) (i : Z) : list Z :=
  if 0 <=? i then Perspective.store suppressed (Z.to_nat i) 1 else suppressed.

Section Peaks.

(** [DEG] is [Math.PI / 180]; the sizes and distances are integers. *)
Variable accumulator : list Z.
Variables numTheta numRho : nat.
Variables D DEG : Q.
Variable topN : nat.
Variables minDistTheta minDistRho : Z.

(** [accumulator[b] - accumulator[a]]; the sort takes a comparator result
    NaN (an operand is [undefined]) as 0. *)
Definition by_votes (a b : nat) : Z :=
  match nth_error accumulator b, nth_error accumulator a with
  | Some vb, Some va => vb - va
  | _, _ => 0
  end.

Definition indices : list nat :=
  sort by_votes (seq 0 (numTheta * numRho)).

(** The inner loop that suppresses the neighbourhood of [(t, r)], in the row
    at distance [dt], and the outer loop over the rows. *)
Definition suppress_row (t r dt : Z) (suppressed : list Z) : list Z :=
  fold_left
    (fun s dr =>
       let nt := wrap (Z.of_nat numTheta) (t + dt) in
       let nr := r + dr in
       if (0 <=? nr) && (nr <? Z.of_nat numRho)
       then mark s (nt * Z.of_nat numRho + nr)
       else s)
    (range (- minDistRho) minDistRho) suppressed.

Definition suppress (suppressed : list Z) (t r : Z) : list Z :=
  fold_left (fun s dt => suppress_row t r dt s)
            (range (- minDistTheta) minDistTheta) suppressed.

(** [accumulator[idx] <= 0]; false for [undefined]. *)
Definition no_votes (idx : nat) : bool :=
  match nth_error accumulator idx with
  | Some v => v <=? 0
  | None => false
  end.

(** The loop over the sorted indices; it stops at the [break]. *)
Fixpoint scan (idxs : list nat) (suppressed : list Z) (peaks : list HoughPeak)
  : list HoughPeak :=
  match idxs with
  | [] => peaks
  | idx :: rest =>
      if (topN <=? List.length peaks)%nat then peaks
      else if negb (nth idx suppressed 0 =? 0) || no_votes idx
      then scan rest suppressed peaks
      else
        let t := Z.of_nat idx / Z.of_nat numRho in
        let r := Z.rem (Z.of_nat idx) (Z.of_nat numRho) in
        scan rest (suppress suppressed t r)
             (peaks ++ [mkHoughPeak t r (nth_error accumulator idx)
                                    (inject_Z t * DEG) (inject_Z r - D)])
  end.

Definition findHoughPeaks : list HoughPeak :=
  scan indices (repeat 0 (numTheta * numRho)) [].

End Peaks.

End Hough.

(** *** Notions used to state the properties of the peaks *)

Module HoughSpec.
Import Hough.

Local Open Scope Z_scope.

(** [q] lies in the suppression window of [p]: at most [minDistTheta] rows
    away, rows counted cyclically, and at most [minDistRho] columns away. *)
Definition in_window (numTheta : nat) (minDistTheta minDistRho : Z)
    (p q : HoughPeak) : Prop :=
  exists dt dr,
    - minDistTheta <= dt <= minDistTheta
    /\ - minDistRho <= dr <= minDistRho
    /\ thetaIdx q = (thetaIdx p + dt) mod Z.of_nat numTheta
    /\ rhoIdx q = rhoIdx p + dr.

(** The votes of a peak, 0 where the code has [undefined]. *)
Definition votes_of (p : HoughPeak) : Z :=
  match votes p with
  | Some v => v
  | None => 0
  end.

(** A peak is the accumulator cell it names, and that cell has votes. *)
Definition is_cell (accumulator : list Z) (numTheta numRho : nat)
    (p : HoughPeak) : Prop :=
  0 <= thetaIdx p < Z.of_nat numTheta
  /\ 0 <= rhoIdx p < Z.of_nat numRho
  /\ exists v,
       votes p = Some v /\ 0 < v
       /\ nth_error accumulator
            (Z.to_nat (thetaIdx p * Z.of_nat numRho + rhoIdx p)) = Some v.

End HoughSpec.

Module HoughSample.
Import Hough.

(** Two rows of four cells. *)
Definition accumulator : list Z := [3; 0; 5; 1; 2; 7; 0; 4].

Definition peaks : list HoughPeak :=
  findHoughPeaks accumulator 2 4 0 (1 # 60) 3 0 1.

End HoughSample.

(** ** Board recognition: medians and the three brightness clusters *)

Module Stats.
Import Js Engine.

Local Open Scope Q_scope.

(** The comparator [(a, b) => a - b]. *)
Definition ascending (a b : Q) : Z := Policy.sign_of (Some (a - b)).

(** [Math.floor(n * f)] for an array length [n] and a constant [f].  The
    constants 0.1, 0.5 and 0.9 are taken as 1/10, 1/2 and 9/10: their
    rounding as doubles is too small to move the product of an array length
    across an integer. *)
Definition part_of (n : nat) (f : Q) : nat :=
  Z.to_nat (Qfloor (inject_Z (Z.of_nat n) * f)).

(** [median]: 128 for no values, the middle of the sorted values, or the
    mean of the two middle ones. *)
Definition median (values : list Q) : Q :=
  if (List.length values =? 0)%nat then 128
  else
    let sorted := sort ascending values in
    let mid := part_of (List.length sorted) (1 # 2) in
    if Nat.even (List.length sorted)
    then (nth (mid - 1) sorted 0 + nth mid sorted 0) / 2
    else nth mid sorted 0.

(** The sums and counts of the three clusters after the loop over the
    values. *)
Record Tally : Type := mkTally {
  s0 : Q; s1 : Q; s2 : Q;
  n0 : nat; n1 : nat; n2 : nat
}.

Definition assign (c0 c1 c2 : Q) (values : list Q) : Tally :=
  fold_left
    (fun t v =>
       let d0 := Qabs (v - c0) in
       let d1 := Qabs (v - c1) in
       let d2 := Qabs (v - c2) in
       if Qle_bool d0 d1 && Qle_bool d0 d2
       then mkTally (s0 t + v) (s1 t) (s2 t) (S (n0 t)) (n1 t) (n2 t)
       else if Qle_bool d1 d2
       then mkTally (s0 t) (s1 t + v) (s2 t) (n0 t) (S (n1 t)) (n2 t)
       else mkTally (s0 t) (s1 t) (s2 t + v) (n0 t) (n1 t) (S (n2 t)))
    values (mkTally 0 0 0 0 0 0).

(** [n > 0 ? s / n : c] *)
Definition centre (s : Q) (n : nat) (c : Q) : Q :=
  if (0 <? n)%nat then s / inject_Z (Z.of_nat n) else c.

(** The iterations that are left; the [break] keeps the old centres. *)
Fixpoint iterate (values : list Q) (left : nat) (c0 c1 c2 : Q) : Q * Q * Q :=
  match left with
  | O => (c0, c1, c2)
  | S left' =>
      let t := assign c0 c1 c2 values in
      let newC0 := centre (s0 t) (n0 t) c0 in
      let newC1 := centre (s1 t) (n1 t) c1 in
      let newC2 := centre (s2 t) (n2 t) c2 in
      if Qltb (Qabs (newC0 - c0) + Qabs (newC1 - c1) + Qabs (newC2 - c2)) (1 # 2)
      then (c0, c1, c2)
      else iterate values left' newC0 newC1 newC2
  end.

(** [kmeans3].  The three indices read from [sorted] are below its length,
    so the reads never give [undefined]. *)
Definition kmeans3 (values : list Q) (maxIter : nat) : Q * Q * Q :=
  if (List.length values <? 3)%nat then (0, 0, 0)
  else
    let sorted := sort ascending values in
    let c0 := nth (part_of (List.length sorted) (1 # 10)) sorted 0 in
    let c1 := nth (part_of (List.length sorted) (1 # 2)) sorted 0 in
    let c2 := nth (part_of (List.length sorted) (9 # 10)) sorted 0 in
    let '(c0, c1, c2) := iterate values maxIter c0 c1 c2 in
    let cs := sort ascending [c0; c1; c2] in
    (nth 0 cs 0, nth 1 cs 0, nth 2 cs 0).

End Stats.

(** *** Notions used to state the properties of the statistics *)

Module StatsSpec.

Local Open Scope Q_scope.

(** How many values are at most, or at least, [m]. *)
Definition count_le (m : Q) (values : list Q) : nat :=
  List.length (filter (fun v => Qle_bool v m) values).

Definition count_ge (m : Q) (values : list Q) : nat :=
  List.length (filter (fun v => Qle_bool m v) values).

Definition within (lo hi : Q) (v : Q) : Prop := lo <= v /\ v <= hi.

End StatsSpec.

Module StatsSample.

Local Open Scope Q_scope.

(** Relative brightness of nine intersections: two dark, two light. *)
Definition brightness : list Q := [0; -40; 1; 38; -2; 0; -42; 2; 41].

End StatsSample.

(** ** Board recognition: grey levels, saturation and masks *)

Module Mask.
Import Js Engine Perspective.

Local Open Scope Z_scope.

(** [a[i] = v] on a typed array: a write outside the array is ignored. *)
Definition write (a : list Z) (i v : Z) : list Z :=
  if 0 <=? i then store a (Z.to_nat i) v else a.

(** [mask[i]] as a condition: [undefined] and 0 are falsy. *)
Definition set_at (mask : list Z) (i : Z) : bool :=
  (0 <=? i) && negb (nth (Z.to_nat i) mask 0 =? 0).

(** The pixel indices [0 .. width * height - 1]. *)
Definition pixels (img : RawImage) : list nat :=
  seq 0 (Z.to_nat (width img * height img)).

(** A channel of pixel [i]; [None] is [undefined]. *)
Definition channel (img : RawImage) (i k : nat) : option Z :=
  nth_error (data img) (i * 4 + k).

Local Open Scope Q_scope.

(** [0.299 * r + 0.587 * g + 0.114 * b]; [None] is [NaN]. *)
Definition luma (img : RawImage) (i : nat) : option Q :=
  match channel img i 0, channel img i 1, channel img i 2 with
  | Some r, Some g, Some b =>
      Some ((299 # 1000) * inject_Z r + (587 # 1000) * inject_Z g
            + (114 # 1000) * inject_Z b)
  | _, _, _ => None
  end.

Section Stored.
(** [gray] and [sat] are [Float32Array]s: what they hold after [a[i] = v] is
    the float32 nearest to the double [v].  [fround q] is the number held
    after the store of the value that is [q] in exact arithmetic (for the
    quotient of two integers: [to_float32 q]). *)
Variable fround : Q -> Q.

(** The samples of [toGrayscale(img).data]. *)
Definition toGrayscale (img : RawImage) : list (option Q) :=
  map (fun i => option_map fround (luma img i)) (pixels img).

(** [mx > 0 ? (mx - mn) / mx : 0]; with a channel [undefined] the maximum
    is [NaN] and the comparison fails. *)
Definition saturation (img : RawImage) (i : nat) : Q :=
  match channel img i 0, channel img i 1, channel img i 2 with
  | Some r, Some g, Some b =>
      let mx := Z.max (Z.max r g) b in
      let mn := Z.min (Z.min r g) b in
      if (0 <? mx)%Z then inject_Z (mx - mn) / inject_Z mx else 0
  | _, _, _ => 0
  end.

(** [sat[i] = ...] for every pixel. *)
Definition computeSaturation (img : RawImage) : list Q :=
  map (fun i => fround (saturation img i)) (pixels img).

End Stored.

(** The options of [boardMask], with their defaults. *)
Record MaskOptions : Type := mkMaskOptions {
  satThreshold : Q;
  brightMax : Q;
  brightMin : Q;
  dilateRadius : Z
}.

(** [satThreshold = 0.1, brightMax = 235, brightMin = 35, dilateRadius = 5];
    the literal [0.1] is the double nearest to one tenth. *)
Definition default_options : MaskOptions :=
  mkMaskOptions (to_double (1 # 10)) 235 35 5.

(** [sat[i] > satThreshold && gray[i] < brightMax && gray[i] > brightMin];
    [gray[i]] may be [undefined] or [NaN]. *)
Definition board_coloured (opts : MaskOptions) (sat : list Q)
    (gray : list (option Q)) (i : nat) : bool :=
  match nth_error sat i, nth_error gray i with
  | Some s, Some (Some g) =>
      Qltb (satThreshold opts) s && Qltb g (brightMax opts)
      && Qltb (brightMin opts) g
  | _, _ => false
  end.

(** The mask before dilation. *)
Definition initial_mask (fround : Q -> Q) (img : RawImage)
    (gray : list (option Q)) (opts : MaskOptions) : list Z :=
  let sat := computeSaturation fround img in
  map (fun i => if board_coloured opts sat gray i then 1%Z else 0%Z)
      (pixels img).

Local Open Scope Z_scope.

(** The loops that dilate [mask] by the square of radius [r]. *)
Definition dilate (mask : list Z) (width height r : Z) : list Z :=
  fold_left
    (fun dilated y =>
       fold_left
         (fun dilated x =>
            if set_at mask (y * width + x)
            then
              fold_left
                (fun dilated dy =>
                   let ny := y + dy in
                   if (ny <? 0) || (height <=? ny) then dilated
                   else
                     fold_left
                       (fun dilated dx =>
                          let nx := x + dx in
                          if (nx <? 0) || (width <=? nx) then dilated
                          else write dilated (ny * width + nx) 1)
                       (Hough.range (- r) r) dilated)
                (Hough.range (- r) r) dilated
            else dilated)
         (Hough.range 0 (width - 1)) dilated)
    (Hough.range 0 (height - 1))
    (repeat 0 (Z.to_nat (width * height))).

Definition boardMask (fround : Q -> Q) (img : RawImage)
    (gray : list (option Q)) (opts : MaskOptions) : list Z :=
  let mask := initial_mask fround img gray opts in
  if 0 <? dilateRadius opts
  then dilate mask (width img) (height img) (dilateRadius opts)
  else mask.

(** [allSet] for the window of [(x, y)]. *)
Definition all_set (mask : list Z) (width radius x y : Z) : bool :=
  forallb
    (fun dy =>
       forallb (fun dx => set_at mask ((y + dy) * width + (x + dx)))
               (Hough.range (- radius) radius))
    (Hough.range (- radius) radius).

(** Erode a binary mask by the given radius (square kernel). *)
Definition erodeMask (mask : list Z) (width height radius : Z) : list Z :=
  fold_left
    (fun out y =>
       fold_left
         (fun out x =>
            write out (y * width + x)
                  (if all_set mask width radius x y then 1 else 0))
         (Hough.range radius (width - radius - 1)) out)
    (Hough.range radius (height - radius - 1))
    (repeat 0 (Z.to_nat (width * height))).

End Mask.

(** *** Notions used to state the properties of the masks *)

Module MaskSpec.
Import Mask.

Local Open Scope Z_scope.

(** A sequence of array writes, index and value, in order. *)
Definition apply_writes (ws : list (Z * Z)) (out : list Z) : list Z :=
  fold_left (fun o w => write o (fst w) (snd w)) ws out.

(** The pixel [(x, y)] of a mask of the given width is set. *)
Definition is_set (mask : list Z) (width x y : Z) : Prop :=
  nth (Z.to_nat (y * width + x)) mask 0 <> 0.

Definition in_image (width height x y : Z) : Prop :=
  0 <= x < width /\ 0 <= y < height.

(** The square window of radius [r] around [(x, y)]. *)
Definition near (r x y x' y' : Z) : Prop :=
  - r <= x' - x <= r /\ - r <= y' - y <= r.

End MaskSpec.

Module MaskSample.
Import Perspective Mask.

Local Open Scope Z_scope.

(** A 5 x 5 mask with a 3 x 3 block set. *)
Definition block : list Z :=
  [0; 0; 0; 0; 0;
   0; 1; 1; 1; 0;
   0; 1; 1; 1; 0;
   0; 1; 1; 1; 0;
   0; 0; 0; 0; 0].

(** A row of three pixels: wood, white paper, black. *)
Definition strip : RawImage :=
  mkImage [200; 150; 80; 255; 250; 250; 250; 255; 10; 10; 10; 255] 3 1.

(** A row of three pixels: two of saturation one tenth, one grey. *)
Definition tenth : RawImage :=
  mkImage [200; 180; 180; 255; 250; 225; 225; 255; 100; 100; 100; 255] 3 1.

End MaskSample.

(** ** Board recognition: the quadrilateral of the board mask *)

Module Quadrilateral.
Import Js Engine Perspective Corners Mask.

Local Open Scope Z_scope.

(** The state of the scan: the four scores ([None] is the infinity a score
    starts with), the four extreme pixels and the number of boundary
    pixels. *)
Record Extremes : Type := mkExtremes {
  tlScore : option Z;
  trScore : option Z;
  brScore : option Z;
  blScore : option Z;
  tl : Z * Z;
  tr : Z * Z;
  br : Z * Z;
  bl : Z * Z;
  boundaryCount : nat
}.

Definition start : Extremes :=
  mkExtremes None None None None (0, 0) (0, 0) (0, 0) (0, 0) 0.

(** [v < score] and [v > score] against a score that may be infinite. *)
Definition below (v : Z) (score : option Z) : bool :=
  match score with
  | Some s => v <? s
  | None => true
  end.

Definition above (v : Z) (score : option Z) : bool :=
  match score with
  | Some s => s <? v
  | None => true
  end.

(** The pixel is set and one of its four neighbours is not. *)
Definition boundary (mask : list Z) (width x y : Z) : bool :=
  set_at mask (y * width + x)
  && negb (set_at mask ((y - 1) * width + x)
           && set_at mask ((y + 1) * width + x)
           && set_at mask (y * width + (x - 1))
           && set_at mask (y * width + (x + 1))).

(** The four updates for a boundary pixel. *)
Definition visit (e : Extremes) (x y : Z) : Extremes :=
  let sum := x + y in
  let diff := x - y in
  let e1 :=
    if below sum (tlScore e)
    then mkExtremes (Some sum) (trScore e) (brScore e) (blScore e)
                    (x, y) (tr e) (br e) (bl e) (S (boundaryCount e))
    else mkExtremes (tlScore e) (trScore e) (brScore e) (blScore e)
                    (tl e) (tr e) (br e) (bl e) (S (boundaryCount e)) in
  let e2 :=
    if above sum (brScore e1)
    then mkExtremes (tlScore e1) (trScore e1) (Some sum) (blScore e1)
                    (tl e1) (tr e1) (x, y) (bl e1) (boundaryCount e1)
    else e1 in
  let e3 :=
    if above diff (trScore e2)
    then mkExtremes (tlScore e2) (Some diff) (brScore e2) (blScore e2)
                    (tl e2) (x, y) (br e2) (bl e2) (boundaryCount e2)
    else e2 in
  if below diff (blScore e3)
  then mkExtremes (tlScore e3) (trScore e3) (brScore e3) (Some diff)
                  (tl e3) (tr e3) (br e3) (x, y) (boundaryCount e3)
  else e3.

(** The scan of the pixels that are not on the border of the image. *)
Definition scan (mask : list Z) (width height : Z) : Extremes :=
  fold_left
    (fun e y =>
       fold_left
         (fun e x => if boundary mask width x y then visit e x y else e)
         (Hough.range 1 (width - 2)) e)
    (Hough.range 1 (height - 2)) start.

Definition as_point (p : Z * Z) : Point := (inject_Z (fst p), inject_Z (snd p)).

Local Open Scope Q_scope.

(** The area of the triangles [tl tr br] and [tl br bl]. *)
Definition area (tl tr br bl : Point) : Q :=
  Qabs ((fst tr - fst tl) * (snd br - snd tl)
        - (fst br - fst tl) * (snd tr - snd tl)) / 2
  + Qabs ((fst br - fst tl) * (snd bl - snd tl)
          - (fst bl - fst tl) * (snd br - snd tl)) / 2.

(** [findBoardQuadrilateral]; [None] is [null].  The areas are multiples of
    one half, so that the rounding of the constant 0.05 does not change the
    comparison. *)
Definition findBoardQuadrilateral (mask : list Z) (width height : Z)
  : option (list (option Point)) :=
  let e := scan mask width height in
  if (boundaryCount e <? 20)%nat then None
  else
    let tl := as_point (tl e) in
    let tr := as_point (tr e) in
    let br := as_point (br e) in
    let bl := as_point (bl e) in
    if Qltb (area tl tr br bl) (inject_Z (width * height) * (5 # 100)) then None
    else Some (orderCorners [tl; tr; br; bl]).

(** [findBoardCorners]: the quadrilateral of the board mask of the image. *)
Definition findBoardCorners (fround : Q -> Q) (img : RawImage)
  : option (list (option Point)) :=
  let gray := toGrayscale fround img in
  let mask := boardMask fround img gray default_options in
  findBoardQuadrilateral mask (width img) (height img).

End Quadrilateral.

(** *** Notions used to state the properties of the quadrilateral *)

Module QuadrilateralSpec.
Import Corners Mask MaskSpec Quadrilateral.

Local Open Scope Z_scope.

(** A boundary pixel of the mask: set, off the border of the image, with a
    neighbour above, below, left or right that is not set. *)
Definition is_boundary (mask : list Z) (width height : Z) (p : Z * Z) : Prop :=
  1 <= fst p <= width - 2 /\ 1 <= snd p <= height - 2
  /\ boundary mask width (fst p) (snd p) = true.

Definition sum_of (p : Z * Z) : Z := fst p + snd p.
Definition diff_of (p : Z * Z) : Z := fst p - snd p.

(** The boundary pixels in the order of the scan. *)
Definition boundary_pixels (mask : list Z) (width height : Z) : list (Z * Z) :=
  flat_map
    (fun y =>
       flat_map (fun x => if boundary mask width x y then [(x, y)] else [])
                (Hough.range 1 (width - 2)))
    (Hough.range 1 (height - 2)).

End QuadrilateralSpec.

Module QuadrilateralSample.

Local Open Scope Z_scope.

(** A 12 x 12 mask with an 8 x 8 block set. *)
Definition block : list Z :=
  flat_map
    (fun y =>
       map (fun x => if (2 <=? x) && (x <=? 9) && (2 <=? y) && (y <=? 9)
                     then 1 else 0)
           (Hough.range 0 11))
    (Hough.range 0 11).

End QuadrilateralSample.

(** ** Board recognition: stones at the intersections *)

Module Stones.
Import Js Engine Corners Stats Sgf.

Local Open Scope Q_scope.

(** Grayscale image.  A sample that is missing reads as 0 here, where the
    source reads [undefined]; images with [width * height] samples have
    none missing. *)
Record GrayImage : Type := mkGray {
  gray_data : list Q;
  gray_width : Z;
  gray_height : Z
}.

(** [data[y * width + x]] for a pixel of the image. *)
Definition sample_at (data : list Q) (width x y : Z) : Q :=
  nth (Z.to_nat (y * width + x)) data 0.

(** The pixels of the disc around [(cx, cy)], in the order of the loops. *)
Definition disc (cx cy radius : Q) (width height : Z) : list (Z * Z) :=
  let r2 := radius * radius in
  let x0 := Z.max 0 (Qceiling (cx - radius)) in
  let x1 := Z.min (width - 1) (Qfloor (cx + radius)) in
  let y0 := Z.max 0 (Qceiling (cy - radius)) in
  let y1 := Z.min (height - 1) (Qfloor (cy + radius)) in
  flat_map
    (fun y =>
       flat_map
         (fun x =>
            if Qle_bool ((inject_Z x - cx) * (inject_Z x - cx)
                         + (inject_Z y - cy) * (inject_Z y - cy)) r2
            then [(x, y)] else [])
         (Hough.range x0 x1))
    (Hough.range y0 y1).

(** Sample mean brightness in a disc centred on [(cx, cy)]. *)
Definition sampleDisc (data : list Q) (cx cy radius : Q) (width height : Z)
  : Q :=
  let '(sum, count) :=
    fold_left
      (fun sc p =>
         (fst sc + sample_at data width (fst p) (snd p), S (snd sc)))
      (disc cx cy radius width height) (0, 0%nat) in
  if (0 <? count)%nat then sum / inject_Z (Z.of_nat count) else 0.

Section Sampling.

(** [Math.sqrt] and [Math.hypot]. *)
Variable sqrt : Q -> Q.
Variable hypot : Q -> Q -> Q.

(** Standard deviation of brightness in a disc. *)
Definition sampleVariance (data : list Q) (cx cy radius : Q)
    (width height : Z) : Q :=
  let '(sum, sumSq, count) :=
    fold_left
      (fun ssc p =>
         let v := sample_at data width (fst p) (snd p) in
         (fst (fst ssc) + v, snd (fst ssc) + v * v, S (snd ssc)))
      (disc cx cy radius width height) (0, 0, 0%nat) in
  if (count <? 2)%nat then 0
  else
    let mean := sum / inject_Z (Z.of_nat count) in
    let spread := sumSq / inject_Z (Z.of_nat count) - mean * mean in
    sqrt (if Qle_bool 0 spread then spread else 0).

(** The rows, or the columns, of the board. *)
Definition lines (boardSize : Z) : list Z := Hough.range 0 (boardSize - 1).

(** The sampled arrays of [sampleGrid], in row-major order.  They are
    [Float32Array]s in the source; their rounding is not modelled. *)
Record Samples : Type := mkSamples {
  brightness : list Q;
  relative : list Q;
  variances : list Q
}.

(** The centre of the intersection in column [col] and row [row]. *)
Definition centre_of (gray : GrayImage) (boardSize : Z)
    (gridCorners : option (Point * Point * Point * Point)) (cellSize : Q)
    (row col : Z) : Q * Q :=
  match gridCorners with
  | Some (tl, tr, br, bl) =>
      let u := inject_Z col / inject_Z (boardSize - 1) in
      let v := inject_Z row / inject_Z (boardSize - 1) in
      ((1 - u) * (1 - v) * fst tl + u * (1 - v) * fst tr + u * v * fst br
       + (1 - u) * v * fst bl,
       (1 - u) * (1 - v) * snd tl + u * (1 - v) * snd tr + u * v * snd br
       + (1 - u) * v * snd bl)
  | None => (inject_Z col * cellSize, inject_Z row * cellSize)
  end.

(** The brightness of the neighbours within three rows and columns, in the
    order of the loops. *)
Definition neighbours (brightness : list Q) (boardSize row col : Z) : list Q :=
  flat_map
    (fun dr =>
       flat_map
         (fun dc =>
            if ((dr =? 0) && (dc =? 0))%Z then []
            else
              let nr := (row + dr)%Z in
              let nc := (col + dc)%Z in
              if ((0 <=? nr) && (nr <? boardSize) && (0 <=? nc)
                  && (nc <? boardSize))%Z
              then [sample_at brightness boardSize nc nr]
              else [])
         (Hough.range (-3) 3))
    (Hough.range (-3) 3).

Definition sampleGrid (gray : GrayImage) (boardSize : Z)
    (gridCorners : option (Point * Point * Point * Point)) : Samples :=
  let data := gray_data gray in
  let width := gray_width gray in
  let height := gray_height gray in
  let cellSize :=
    match gridCorners with
    | Some (tl, tr, _, bl) =>
        let gridW := hypot (fst tr - fst tl) (snd tr - snd tl) in
        let gridH := hypot (fst bl - fst tl) (snd bl - snd tl) in
        (gridW + gridH) / (2 * inject_Z (boardSize - 1))
    | None => inject_Z (width - 1) / inject_Z (boardSize - 1)
    end in
  let discRadius := cellSize * (35 # 100) in
  let varRadius := cellSize * (35 # 100) in
  let cells :=
    flat_map (fun row => map (fun col => (row, col)) (lines boardSize))
             (lines boardSize) in
  let centre rc := centre_of gray boardSize gridCorners cellSize (fst rc) (snd rc) in
  let brightness :=
    map (fun rc =>
           sampleDisc data (fst (centre rc)) (snd (centre rc)) discRadius
                      width height) cells in
  let variances :=
    map (fun rc =>
           sampleVariance data (fst (centre rc)) (snd (centre rc)) varRadius
                          width height) cells in
  let relative :=
    map (fun rc =>
           let sorted :=
             sort ascending (neighbours brightness boardSize (fst rc) (snd rc)) in
           let localMedian :=
             nth (part_of (List.length sorted) (1 # 2)) sorted 0 in
           sample_at brightness boardSize (snd rc) (fst rc) - localMedian)
        cells in
  mkSamples brightness relative variances.

(** The thresholds a classifier derives from the samples. *)
Record Levels : Type := mkLevels {
  blackC : Q;
  whiteC : Q;
  blackBoundary : Q;
  whiteBoundary : Q;
  totalSpread : Q;
  hasBlack : bool;
  hasWhite : bool;
  medianVar : Q
}.

Definition levels (blackC boardC whiteC : Q) (minSpread share : Q)
    (variances : list Q) : Levels :=
  let totalSpread := whiteC - blackC in
  let sortedVar := sort ascending variances in
  mkLevels blackC whiteC ((blackC + boardC) / 2) ((boardC + whiteC) / 2)
           totalSpread
           (Qltb minSpread totalSpread
            && Qltb (totalSpread * share) (boardC - blackC))
           (Qltb minSpread totalSpread
            && Qltb (totalSpread * share) (whiteC - boardC))
           (nth (part_of (List.length sortedVar) (1 # 2)) sortedVar 0).

(** The stone, if any, that the thresholds give at [(col, row)]. *)
Definition by_levels (l : Levels) (s : Samples) (boardSize : Z) (margin : Q)
    (row col : Z) : list DetectedStone :=
  let r := sample_at (relative s) boardSize col row in
  let highVar := Qltb (medianVar l * 3) (sample_at (variances s) boardSize col row) in
  if hasBlack l && Qltb r (blackBoundary l - margin)
  then
    if negb highVar || Qltb r (blackC l * (1 # 2))
    then [mkStone col row black] else []
  else if hasWhite l && Qltb (whiteBoundary l + margin) r
  then
    if negb highVar || Qltb (whiteC l * (1 # 2)) r
    then [mkStone col row white] else []
  else [].

(** Classify all grid intersections as black stone, white stone, or empty. *)
Definition classifyIntersections (gray : GrayImage) (boardSize : Z)
    (gridCorners : option (Point * Point * Point * Point))
  : list DetectedStone :=
  let s := sampleGrid gray boardSize gridCorners in
  let '(blackC, boardC, whiteC) := kmeans3 (relative s) 20 in
  let l := levels blackC boardC whiteC 5 (15 # 100) (variances s) in
  flat_map
    (fun row =>
       flat_map
         (fun col =>
            let isEdge :=
              ((row =? 0) || (row =? boardSize - 1) || (col =? 0)
               || (col =? boardSize - 1))%Z in
            let margin := if isEdge then totalSpread l * (1 # 10) else 0 in
            by_levels l s boardSize margin row col)
         (lines boardSize))
    (lines boardSize).

(** A calibration hint: a colour, or [None] for 'empty'. *)
Record CalibrationHint : Type := mkHint {
  hint_x : Z;
  hint_y : Z;
  hint_color : option StoneColor
}.

(** The key [`${x},${y}`]. *)
Definition key (x y : Z) : string :=
  (show_Z x ++ "," ++ show_Z y)%string.

(** [hintMap.get(key)] *)
Fixpoint map_get {V : Type} (m : list (string * V)) (k : string) : option V :=
  match m with
  | [] => None
  | (k', v) :: rest => if (k' =? k)%string then Some v else map_get rest k
  end.

(** [vals.length > 0 ? vals.reduce((a, b) => a + b, 0) / vals.length : c] *)
Definition mean_or (vals : list Q) (c : Q) : Q :=
  if (0 <? List.length vals)%nat
  then fold_left Qplus vals 0 / inject_Z (Z.of_nat (List.length vals))
  else c.

(** Classify intersections using user-provided calibration hints. *)
Definition classifyWithHints (gray : GrayImage) (boardSize : Z)
    (hints : list CalibrationHint)
    (gridCorners : option (Point * Point * Point * Point))
  : list DetectedStone :=
  let s := sampleGrid gray boardSize gridCorners in
  let hintMap :=
    fold_left (fun m h => map_set m (key (hint_x h) (hint_y h)) h) hints [] in
  let value_of h := sample_at (relative s) boardSize (hint_x h) (hint_y h) in
  let vals_of c :=
    map value_of
        (filter (fun h =>
                   match hint_color h, c with
                   | Some black, Some black => true
                   | Some white, Some white => true
                   | None, None => true
                   | _, _ => false
                   end) hints) in
  let '(kmBlack, kmBoard, kmWhite) := kmeans3 (relative s) 20 in
  let blackC := mean_or (vals_of (Some black)) kmBlack in
  let boardC := mean_or (vals_of None) kmBoard in
  let whiteC := mean_or (vals_of (Some white)) kmWhite in
  let l := levels blackC boardC whiteC 2 (1 # 10) (variances s) in
  flat_map
    (fun row =>
       flat_map
         (fun col =>
            match map_get hintMap (key col row) with
            | Some hint =>
                match hint_color hint with
                | Some c => [mkStone col row c]
                | None => []
                end
            | None => by_levels l s boardSize 0 row col
            end)
         (lines boardSize))
    (lines boardSize).

End Sampling.

End Stones.

(** *** Notions used to state the properties of the stones *)

Module StonesSpec.
Import Sgf Stones.

Local Open Scope Z_scope.

(** The stone lies on an intersection of the board. *)
Definition on_grid (boardSize : Z) (s : DetectedStone) : Prop :=
  0 <= x s < boardSize /\ 0 <= y s < boardSize.

(** [s] comes before [t] in row-major order. *)
Definition row_major (s t : DetectedStone) : Prop :=
  y s < y t \/ (y s = y t /\ x s < x t).

(** The hint that counts for [(col, row)]: the last one given for it. *)
Definition hint_for (hints : list CalibrationHint) (col row : Z)
  : option CalibrationHint :=
  find (fun h => (hint_x h =? col) && (hint_y h =? row)) (rev hints).

Definition at_position (col row : Z) (s : DetectedStone) : bool :=
  (x s =? col) && (y s =? row).

(** A rule that gives at most one stone for an intersection, and there;
    and the stones it gives over the rows and columns of the board. *)
Definition one_stone (f : Z -> Z -> list DetectedStone) : Prop :=
  forall row col,
    f row col = [] \/ exists c, f row col = [mkStone col row c].

Definition over_grid (f : Z -> Z -> list DetectedStone) (boardSize : Z)
  : list DetectedStone :=
  flat_map (fun row => flat_map (fun col => f row col) (lines boardSize))
           (lines boardSize).

End StonesSpec.

Module StonesSample.
Import Stones.

Local Open Scope Q_scope.

(** A 9 x 9 image, one pixel per intersection of a 3 x 3 board every fourth
    pixel: a dark stone in the middle, a light one in a corner. *)
Definition picture : GrayImage :=
  mkGray
    (map (fun i =>
            if (i =? 40)%nat then 20
            else if (i =? 0)%nat then 240
            else 128)
         (seq 0 81))
    9 9.

(** A square root that is good enough for a sample: the identity. *)
Definition sqrt_sample (x : Q) : Q := x.
Definition hypot_sample (a b : Q) : Q := Qabs a + Qabs b.

End StonesSample.

(** ** Board recognition: the Hough transform *)

Module Transform.
Import Js Engine Mask.

Local Open Scope Z_scope.

(** [accumulator[i]++] on an [Int32Array]. *)
Definition bump (accumulator : list Z) (i : Z) : list Z :=
  write accumulator i (Half.to_int32 (nth (Z.to_nat i) accumulator 0 + 1)).

(** [Math.round]: the nearest integer, halves upwards. *)
Definition round (q : Q) : Z := Qfloor (q + (1 # 2)).

Record Accumulated : Type := mkAccumulated {
  accumulator : list Z;
  numTheta : Z;
  numRho : Z;
  D : Q
}.

Section Voting.

(** [Math.sqrt], [Math.cos], [Math.sin], and [DEG = Math.PI / 180]. *)
Variable sqrt cos sin : Q -> Q.
Variable DEG : Q.

Variable edges : list Z.
Variables width height : Z.
Variable thetaStepDeg : Q.

Local Open Scope Q_scope.

Definition diagonal : Q := sqrt (inject_Z (width * width + height * height)).

Definition rho_count : Z := (Qceiling (2 * diagonal) + 2)%Z.

Definition theta_count : Z := round (180 / thetaStepDeg).

(** [Math.round(rho + D)] for the pixel [(x, y)] and the angle of index [t],
    in coordinates centred on the image. *)
Definition rho_index (x y t : Z) : Z :=
  let theta := inject_Z t * thetaStepDeg * DEG in
  let px := inject_Z x - inject_Z width / 2 in
  let py := inject_Z y - inject_Z height / 2 in
  round (px * cos theta + py * sin theta + diagonal).

Local Open Scope Z_scope.

(** Run Hough transform on a binary edge image. *)
Definition houghTransform : Accumulated :=
  let votes :=
    fold_left
      (fun acc y =>
         fold_left
           (fun acc x =>
              if set_at edges (y * width + x)
              then
                fold_left
                  (fun acc t =>
                     let rhoIdx := rho_index x y t in
                     if (0 <=? rhoIdx) && (rhoIdx <? rho_count)
                     then bump acc (t * rho_count + rhoIdx)
                     else acc)
                  (Hough.range 0 (theta_count - 1)) acc
              else acc)
           (Hough.range 0 (width - 1)) acc)
      (Hough.range 0 (height - 1))
      (repeat 0 (Z.to_nat (theta_count * rho_count))) in
  mkAccumulated votes theta_count rho_count diagonal.

End Voting.

End Transform.

(** *** Notions used to state the properties of the transform *)

Module TransformSpec.
Import Mask Transform.

Local Open Scope Z_scope.

(** A sequence of increments, in order. *)
Definition apply_bumps (is_ : list Z) (acc : list Z) : list Z :=
  fold_left bump is_ acc.

(** The edge pixels of the image, in the order of the loops. *)
Definition edge_pixels (edges : list Z) (width height : Z) : list (Z * Z) :=
  flat_map
    (fun y =>
       flat_map (fun x => if set_at edges (y * width + x) then [(x, y)] else [])
                (Hough.range 0 (width - 1)))
    (Hough.range 0 (height - 1)).

End TransformSpec.

Module TransformSample.

Local Open Scope Q_scope.

(** A 3 x 3 edge image with a vertical line, and stand-ins for the functions
    of the angle: with [DEG = 1/90] the angles of indices 0 and 1 are 0 and
    a quarter turn. *)
Definition edges : list Z := [0; 1; 0; 0; 1; 0; 0; 1; 0]%Z.

Definition cos_sample (t : Q) : Q := 1 - t.
Definition sin_sample (t : Q) : Q := t.
Definition sqrt_sample (q : Q) : Q := inject_Z (Z.sqrt (Qceiling q) + 1).

End TransformSample.

(** ** Inference engine: the input planes *)

Module Featurize.
Import Js Engine Mask.

Local Open Scope Z_scope.

(** [set.add(v)] on a [Set<number>] kept as the list of its elements. *)
Definition set_add (s : list Z) (v : Z) : list Z :=
  if existsb (Z.eqb v) s then s else (s ++ [v])%list.

(** [a[i] = v] on a [Float32Array] of real values. *)
Fixpoint store_q (a : list Q) (i : nat) (v : Q) : list Q :=
  match a, i with
  | [], _ => []
  | _ :: rest, O => v :: rest
  | b :: rest, S i' => b :: store_q rest i' v
  end.

Definition write_q (a : list Q) (i : Z) (v : Q) : list Q :=
  if 0 <=? i then store_q a (Z.to_nat i) v else a.

Section Planes.

(** [board.getChain([x, y])] of package [@kaya/goboard], whose source is
    not part of this development: the vertices of the chain of [(x, y)]. *)
Variable getChain : GoBoard -> Z * Z -> list (Z * Z).

Variable board : GoBoard.
Variable pla : Sign.
Variable komi : Q.
Variable history : list Move.
Variable size : Z.

(** [board.signMap[y][x]]; [None] is [undefined].  On a board with [size]
    rows, as the callers pass, and for chains that stay on the board, the
    row [signMap[y]] is always there. *)
Definition sign_at (x y : Z) : option Sign := get board (x, Some y).

(** [board.signMap[y][x] === 0] *)
Definition is_empty (x y : Z) : bool :=
  match sign_at x y with
  | Some s => s =? 0
  | None => false
  end.

(** The liberties of a chain, as cell indices. *)
Definition chain_liberties (chain : list (Z * Z)) : list Z :=
  fold_left
    (fun libSet c =>
       let cx := fst c in
       let cy := snd c in
       let s1 :=
         if (0 <? cx) && is_empty (cx - 1) cy
         then set_add libSet (cy * size + (cx - 1)) else libSet in
       let s2 :=
         if (cx <? size - 1) && is_empty (cx + 1) cy
         then set_add s1 (cy * size + (cx + 1)) else s1 in
       let s3 :=
         if (0 <? cy) && is_empty cx (cy - 1)
         then set_add s2 ((cy - 1) * size + cx) else s2 in
       if (cy <? size - 1) && is_empty cx (cy + 1)
       then set_add s3 ((cy + 1) * size + cx) else s3)
    chain [].

(** The loop that fills [libertyCount], with [groupVisited]. *)
Definition liberty_counts : list Z :=
  fst
    (fold_left
       (fun st y =>
          fold_left
            (fun st x =>
               let '(libertyCount, groupVisited) := st in
               let idx := y * size + x in
               if set_at groupVisited idx then st
               else if is_empty x y then st
               else
                 let chain := getChain board (x, y) in
                 let libs := Z.min (Z.of_nat (List.length (chain_liberties chain))) 4 in
                 (fold_left (fun a c => write a (snd c * size + fst c) libs)
                            chain libertyCount,
                  fold_left (fun a c => write a (snd c * size + fst c) 1)
                            chain groupVisited))
            (Hough.range 0 (size - 1)) st)
       (Hough.range 0 (size - 1))
       (repeat 0 (Z.to_nat (size * size)), repeat 0 (Z.to_nat (size * size)))).

Variable batchIndex : Z.

Definition batchOffset : Z := batchIndex * 22 * size * size.

(** [set(c, h, w, 1.0)] *)
Definition set_plane (bin_input : list Z) (c h w : Z) : list Z :=
  write bin_input (batchOffset + c * size * size + h * size + w) 1.

Definition opp : Sign := if pla =? 1 then -1 else 1.

(** [color === s] for a cell that may be [undefined]. *)
Definition is_sign (color : option Sign) (s : Sign) : bool :=
  match color with
  | Some c => c =? s
  | None => false
  end.

(** The planes of the stones and of their liberties at [(x, y)]. *)
Definition stone_planes (bin_input : list Z) (x y : Z) : list Z :=
  let b0 := set_plane bin_input 0 y x in
  let color := sign_at x y in
  let b1 :=
    if is_sign color pla then set_plane b0 1 y x
    else if is_sign color opp then set_plane b0 2 y x
    else b0 in
  if is_sign color 0 then b1
  else
    let libs := nth (Z.to_nat (y * size + x)) liberty_counts 0 in
    let b3 := if libs =? 1 then set_plane b1 3 y x else b1 in
    let b4 := if libs =? 2 then set_plane b3 4 y x else b3 in
    if libs =? 3 then set_plane b4 5 y x else b4.

(** [koInfo && koInfo.sign === pla && koInfo.vertex[0] !== -1] *)
Definition ko_plane (bin_input : list Z) : list Z :=
  match _koInfo board with
  | Some ko =>
      if (ko_sign ko =? pla) && negb (fst (ko_vertex ko) =? -1)
      then set_plane bin_input 6 (snd (ko_vertex ko)) (fst (ko_vertex ko))
      else bin_input
  | None => bin_input
  end.

(** [history[len - moveIdx]], when [len >= moveIdx]. *)
Definition earlier (moveIdx : nat) : option Move :=
  if (moveIdx <=? List.length history)%nat
  then nth_error history (List.length history - moveIdx)
  else None.

(** [setHistory(moveIdx, featureIdx)]; a coordinate [NaN] fails the tests. *)
Definition setHistory (bin_input : list Z) (moveIdx : nat) (featureIdx : Z)
  : list Z :=
  match earlier moveIdx with
  | Some m =>
      match my m with
      | Some y =>
          if (0 <=? mx m) && (mx m <? size) && (0 <=? y) && (y <? size)
          then set_plane bin_input featureIdx y (mx m)
          else bin_input
      | None => bin_input
      end
  | None => bin_input
  end.

(** [if (len >= k && history[len - k].x < 0) setGlobal(k - 1, 1.0)] *)
Definition pass_flag (global_input : list Q) (k : nat) : list Q :=
  match earlier k with
  | Some m =>
      if mx m <? 0
      then write_q global_input (batchIndex * 19 + Z.of_nat k - 1) 1
      else global_input
  | None => global_input
  end.

Definition featurizeToBuffer (bin_input : list Z) (global_input : list Q)
  : list Z * list Q :=
  let b :=
    fold_left
      (fun b y =>
         fold_left (fun b x => stone_planes b x y) (Hough.range 0 (size - 1)) b)
      (Hough.range 0 (size - 1)) bin_input in
  let b := ko_plane b in
  let b := setHistory b 1 9 in
  let b := setHistory b 2 10 in
  let b := setHistory b 3 11 in
  let b := setHistory b 4 12 in
  let b := setHistory b 5 13 in
  let g := pass_flag global_input 1 in
  let g := pass_flag g 2 in
  let g := pass_flag g 3 in
  let g := pass_flag g 4 in
  let g := pass_flag g 5 in
  (b, write_q g (batchIndex * 19 + 5) (komi / 20)%Q).

End Planes.

(** [featurize]: fresh buffers for one position. *)
Definition featurize (getChain : GoBoard -> Z * Z -> list (Z * Z))
    (board : GoBoard) (pla : Sign) (komi : Q) (history : list Move) (size : Z)
  : list Z * list Q :=
  featurizeToBuffer getChain board pla komi history size 0
                    (repeat 0 (Z.to_nat (22 * size * size))) (repeat 0%Q 19).

End Featurize.

(** *** Notions used to state the properties of the planes *)

Module FeaturizeSpec.
Import Engine Featurize.

Local Open Scope Z_scope.

(** The cell of plane [c] at column [x] and row [y]. *)
Definition plane_at (bin_input : list Z) (size c x y : Z) : Z :=
  nth (Z.to_nat (c * size * size + y * size + x)) bin_input 0.

(** The ko vertex, if there is one, is on the board. *)
Definition ko_on_board (board : GoBoard) (size : Z) : Prop :=
  match _koInfo board with
  | Some ko =>
      0 <= fst (ko_vertex ko) < size /\ 0 <= snd (ko_vertex ko) < size
  | None => True
  end.

Definition indicator (b : bool) : Z := if b then 1 else 0.

Definition on_board (size : Z) (v : Z * Z) : Prop :=
  0 <= fst v < size /\ 0 <= snd v < size.

(** The writes to [bin_input], index and value, in order: those of the
    stone at [(x, y)], of the ko and of a move of the history. *)
Section Writes.
Variable getChain : GoBoard -> Z * Z -> list (Z * Z).
Variable board : GoBoard.
Variable pla : Sign.
Variable history : list Move.
Variable size : Z.
Variable batchIndex : Z.

Definition cell (c h w : Z) : Z * Z :=
  (batchOffset size batchIndex + c * size * size + h * size + w, 1).

Definition stone_writes (x y : Z) : list (Z * Z) :=
  let color := sign_at board x y in
  let libs := nth (Z.to_nat (y * size + x)) (liberty_counts getChain board size) 0 in
  ([cell 0 y x]
   ++ (if is_sign color pla then [cell 1 y x]
       else if is_sign color (opp pla) then [cell 2 y x]
       else [])
   ++ (if is_sign color 0 then []
       else
         (if libs =? 1 then [cell 3 y x] else [])
         ++ (if libs =? 2 then [cell 4 y x] else [])
         ++ (if libs =? 3 then [cell 5 y x] else [])))%list.

Definition ko_writes : list (Z * Z) :=
  match _koInfo board with
  | Some ko =>
      if (ko_sign ko =? pla) && negb (fst (ko_vertex ko) =? -1)
      then [cell 6 (snd (ko_vertex ko)) (fst (ko_vertex ko))]
      else []
  | None => []
  end.

Definition history_writes (moveIdx : nat) (featureIdx : Z) : list (Z * Z) :=
  match earlier history moveIdx with
  | Some m =>
      match my m with
      | Some y =>
          if (0 <=? mx m) && (mx m <? size) && (0 <=? y) && (y <? size)
          then [cell featureIdx y (mx m)]
          else []
      | None => []
      end
  | None => []
  end.

Definition bin_writes : list (Z * Z) :=
  (flat_map (fun y => flat_map (fun x => stone_writes x y)
                               (Hough.range 0 (size - 1)))
            (Hough.range 0 (size - 1))
   ++ ko_writes
   ++ history_writes 1 9 ++ history_writes 2 10 ++ history_writes 3 11
   ++ history_writes 4 12 ++ history_writes 5 13)%list.

End Writes.

End FeaturizeSpec.

Module FeaturizeSample.
Import Engine.

Local Open Scope Z_scope.

(** A 3 x 3 position: Black in a corner, White in the middle. *)
Definition position : GoBoard :=
  new_GoBoard [[1; 0; 0]; [0; -1; 0]; [0; 0; 0]].

(** Chains of single stones. *)
Definition single (b : GoBoard) (v : Z * Z) : list (Z * Z) := [v].

End FeaturizeSample.

(* ================================================================== *)
(** * Part II: the properties                                          *)
(* ================================================================== *)

(** ** Loops over lists *)

Module ListFacts.

Lemma fold_left_map_seq {A B : Type} (f : B -> A -> B) (h : nat -> A)
    (l : list nat) (b : B) :
  fold_left f (map h l) b = fold_left (fun b i => f b (h i)) l b.
Proof. revert b. induction l as [|i l IH]; intros b; cbn; [reflexivity|apply IH]. Qed.

Lemma fold_left_pointwise {A B : Type} (f g : B -> A -> B) (l : list A) (b : B) :
  (forall b x, f b x = g b x) -> fold_left f l b = fold_left g l b.
Proof.
  intros H. revert b. induction l as [|x l IH]; intros b; cbn;
    [reflexivity|]. rewrite H. apply IH.
Qed.

(** A loop over the indices of a list that only looks at the element is a
    loop over its elements. *)
Lemma fold_indices {A B : Type} (g : B -> option A -> B) (l : list A) (b : B) :
  fold_left (fun b i => g b (nth_error l i)) (seq 0 (List.length l)) b
  = fold_left (fun b x => g b (Some x)) l b.
Proof.
  revert b. induction l as [|x l IH]; intros b; [reflexivity|].
  cbn [List.length seq fold_left nth_error].
  rewrite <- seq_shift.
  rewrite (fold_left_map_seq (fun b i => g b (nth_error (x :: l) i)) S).
  cbn [nth_error]. apply IH.
Qed.

End ListFacts.

(** ** Rounding to a floating-point format *)

Module RoundingFacts.
Import Js.
Local Open Scope Q_scope.

(** *** The nearest integer *)

Ltac order_of H :=
  first [apply Qeq_alt in H | apply Qlt_alt in H | apply Qgt_alt in H].

Lemma round_half_even_cases (q : Q) :
  (round_half_even q = Qfloor q /\ q - inject_Z (Qfloor q) <= 1 # 2)
  \/ (round_half_even q = (Qfloor q + 1)%Z /\ 1 # 2 <= q - inject_Z (Qfloor q)).
Proof.
  unfold round_half_even.
  destruct (Qcompare (q - inject_Z (Qfloor q)) (1 # 2)) eqn:E.
  - apply Qeq_alt in E.
    destruct (Z.even (Qfloor q)); [left|right]; (split; [reflexivity|]);
      rewrite E; apply Qle_refl.
  - apply Qlt_alt in E. left. split; [reflexivity|]. now apply Qlt_le_weak.
  - apply Qgt_alt in E. right. split; [reflexivity|]. now apply Qlt_le_weak.
Qed.

Lemma round_half_even_Z (z : Z) : round_half_even (inject_Z z) = z.
Proof.
  unfold round_half_even. rewrite Qfloor_Z.
  assert (E : Qcompare (inject_Z z - inject_Z z) (1 # 2) = Lt).
  { apply Qlt_alt. setoid_replace (inject_Z z - inject_Z z) with 0 by ring.
    reflexivity. }
  now rewrite E.
Qed.

Lemma inject_Z_succ (z : Z) : inject_Z (z + 1) == inject_Z z + 1.
Proof. rewrite inject_Z_plus. reflexivity. Qed.

Lemma inject_Z_pred (z : Z) : inject_Z (z - 1) == inject_Z z - 1.
Proof. unfold Z.sub. rewrite inject_Z_plus. reflexivity. Qed.

Lemma round_half_even_monotone (a b : Q) :
  a <= b -> (round_half_even a <= round_half_even b)%Z.
Proof.
  intros Hab. pose proof (Qfloor_resp_le a b Hab) as Hf.
  destruct (Z.eq_dec (Qfloor a) (Qfloor b)) as [E|E].
  - unfold round_half_even. rewrite <- E.
    destruct (Qcompare (a - inject_Z (Qfloor a)) (1 # 2)) eqn:Ea;
      destruct (Qcompare (b - inject_Z (Qfloor a)) (1 # 2)) eqn:Eb;
      try (destruct (Z.even (Qfloor a))); try lia;
      order_of Ea; order_of Eb; exfalso; lra.
  - destruct (round_half_even_cases a) as [[-> _]|[-> _]];
      destruct (round_half_even_cases b) as [[-> _]|[-> _]]; lia.
Qed.

Lemma round_half_even_proper (a b : Q) :
  a == b -> round_half_even a = round_half_even b.
Proof.
  intros E. apply Z.le_antisymm; apply round_half_even_monotone; rewrite E;
    apply Qle_refl.
Qed.

Lemma Qfloor_spec (q : Q) (z : Z) :
  inject_Z z <= q -> q < inject_Z z + 1 -> Qfloor q = z.
Proof.
  intros Hlo Hhi. pose proof (Qfloor_le q) as H1. pose proof (Qlt_floor q) as H2.
  rewrite inject_Z_succ in H2.
  assert (A : (z < Qfloor q + 1)%Z).
  { rewrite Zlt_Qlt, inject_Z_succ. lra. }
  assert (B : (Qfloor q < z + 1)%Z).
  { rewrite Zlt_Qlt, inject_Z_succ. lra. }
  lia.
Qed.

Lemma round_half_even_opp (q : Q) :
  round_half_even (- q) = (- round_half_even q)%Z.
Proof.
  pose proof (Qfloor_le q) as H1. pose proof (Qlt_floor q) as H2.
  rewrite inject_Z_succ in H2.
  destruct (Qeq_dec q (inject_Z (Qfloor q))) as [E|E].
  - rewrite (round_half_even_proper q _ E).
    assert (E' : - q == inject_Z (- Qfloor q)).
    { rewrite inject_Z_opp. now rewrite <- E. }
    rewrite (round_half_even_proper _ _ E'), !round_half_even_Z. reflexivity.
  - assert (Hf : Qfloor (- q) = (- Qfloor q - 1)%Z).
    { apply Qfloor_spec.
      - rewrite inject_Z_pred, inject_Z_opp. lra.
      - rewrite inject_Z_pred, inject_Z_opp.
        assert (inject_Z (Qfloor q) < q).
        { apply Qle_lteq in H1. destruct H1 as [H1|H1]; [exact H1|].
          elim E. now symmetry. }
        lra. }
    unfold round_half_even. rewrite Hf.
    assert (Hr : - q - inject_Z (- Qfloor q - 1) == 1 - (q - inject_Z (Qfloor q))).
    { rewrite inject_Z_pred, inject_Z_opp. ring. }
    destruct (Qcompare (q - inject_Z (Qfloor q)) (1 # 2)) eqn:Ea;
      destruct (Qcompare (- q - inject_Z (- Qfloor q - 1)) (1 # 2)) eqn:Eb;
      order_of Ea; order_of Eb;
      rewrite Hr in Eb; try (exfalso; lra); try lia.
    replace (- Qfloor q - 1)%Z with (- (Qfloor q + 1))%Z by lia.
    rewrite Z.even_opp, Z.even_add. cbn [Z.even].
    destruct (Z.even (Qfloor q)); cbn; lia.
Qed.

(** *** Powers of two and binades *)

Lemma two_nonzero : ~ 2 == 0.
Proof. discriminate. Qed.

Lemma pow2_pos (k : Z) : 0 < pow2 k.
Proof. apply Qpower_0_lt. reflexivity. Qed.

Lemma pow2_add (a b : Z) : pow2 (a + b) == pow2 a * pow2 b.
Proof. apply Qpower_plus, two_nonzero. Qed.

Lemma pow2_succ (k : Z) : pow2 (k + 1) == 2 * pow2 k.
Proof. rewrite pow2_add. unfold pow2 at 2. cbn. ring. Qed.

Lemma pow2_monotone (a b : Z) : (a <= b)%Z -> pow2 a <= pow2 b.
Proof. intros H. apply Qpower_le_compat_l; [exact H|discriminate]. Qed.

Lemma pow2_lt_inv (a b : Z) : pow2 a < pow2 b -> (a < b)%Z.
Proof. intros H. apply (Qpower_lt_compat_l_inv 2); [exact H|reflexivity]. Qed.

Lemma pow2_Z (k : Z) : (0 <= k)%Z -> pow2 k == inject_Z (2 ^ k).
Proof. intros H. unfold pow2. now rewrite Zpower_Qpower. Qed.

Lemma positive_numerator (a : Q) : 0 < a -> (0 < Qnum a)%Z.
Proof. unfold Qlt. cbn. lia. Qed.

(** The binade of a positive number holds it. *)
Lemma binade_spec (a : Q) :
  0 < a -> pow2 (binade a) <= a /\ a < pow2 (binade a + 1).
Proof.
  intros Ha. pose proof (positive_numerator a Ha) as Hn.
  destruct a as [n d]. cbn [Qnum] in Hn. unfold binade. cbn [Qnum Qden].
  set (ln := Z.log2 n). set (ld := Z.log2 (Z.pos d)).
  assert (Hln : (0 <= ln)%Z) by apply Z.log2_nonneg.
  assert (Hld : (0 <= ld)%Z) by apply Z.log2_nonneg.
  destruct (Z.log2_spec n Hn) as [Hn1 Hn2]. fold ln in Hn1, Hn2.
  destruct (Z.log2_spec (Z.pos d) eq_refl) as [Hd1 Hd2]. fold ld in Hd1, Hd2.
  rewrite <- Z.add_1_r in Hn2, Hd2.
  assert (En : n # d == inject_Z n / inject_Z (Z.pos d)) by apply Qmake_Qdiv.
  set (N := inject_Z n) in *. set (D := inject_Z (Z.pos d)) in *.
  assert (HN1 : pow2 ln <= N).
  { rewrite pow2_Z by exact Hln. unfold N. now rewrite <- Zle_Qle. }
  assert (HN2 : N < 2 * pow2 ln).
  { rewrite <- pow2_succ, pow2_Z by lia. unfold N. now rewrite <- Zlt_Qlt. }
  assert (HD1 : pow2 ld <= D).
  { rewrite pow2_Z by exact Hld. unfold D. now rewrite <- Zle_Qle. }
  assert (HD2 : D < 2 * pow2 ld).
  { rewrite <- pow2_succ, pow2_Z by lia. unfold D. now rewrite <- Zlt_Qlt. }
  pose proof (pow2_pos ln) as Pn. pose proof (pow2_pos ld) as Pd.
  assert (HD : 0 < D) by lra.
  assert (E0 : pow2 (ln - ld) == pow2 ln / pow2 ld).
  { apply Qpower_minus, two_nonzero. }
  assert (Hup : n # d < pow2 (ln - ld + 1)).
  { rewrite pow2_succ, E0, En.
    apply Qlt_shift_div_r; [exact HD|].
    setoid_replace (2 * (pow2 ln / pow2 ld) * D)
      with ((2 * pow2 ln * D) / pow2 ld) by (field; lra).
    apply Qlt_shift_div_l; [exact Pd|]. nra. }
  assert (Hlo : pow2 (ln - ld - 1) <= n # d).
  { assert (E1 : pow2 (ln - ld - 1) == pow2 ln / (2 * pow2 ld)).
    { replace (ln - ld - 1)%Z with (ln - (ld + 1))%Z by lia.
      unfold pow2 at 1. rewrite Qpower_minus by apply two_nonzero.
      fold (pow2 ln). fold (pow2 (ld + 1)). now rewrite pow2_succ. }
    rewrite E1, En.
    apply Qle_shift_div_l; [exact HD|].
    setoid_replace (pow2 ln / (2 * pow2 ld) * D)
      with ((pow2 ln * D) / (2 * pow2 ld)) by (field; lra).
    apply Qle_shift_div_r; [lra|]. nra. }
  destruct (Qle_bool (pow2 (ln - ld)) (n # d)) eqn:E.
  - apply Qle_bool_iff in E. split; [exact E|exact Hup].
  - split; [exact Hlo|].
    replace (ln - ld - 1 + 1)%Z with (ln - ld)%Z by lia.
    apply Qnot_le_lt. intros H. apply Qle_bool_iff in H. congruence.
Qed.

Lemma binade_monotone (a b : Q) :
  0 < a -> a <= b -> (binade a <= binade b)%Z.
Proof.
  intros Ha Hab. destruct (binade_spec a Ha) as [La _].
  destruct (binade_spec b) as [_ Ub]; [lra|].
  assert (H : pow2 (binade a) < pow2 (binade b + 1)) by lra.
  apply pow2_lt_inv in H. lia.
Qed.

(** *** Rounding to a format *)

Section Format.
Variables prec emin : Z.
Hypothesis prec_positive : (1 <= prec)%Z.

Let ulp (a : Q) : Q := pow2 (Z.max (binade a) emin - prec + 1).

Lemma Qabs_positive (q : Q) : 0 < q -> Qabs q = q.
Proof.
  intros H. pose proof (positive_numerator q H) as Hn.
  destruct q as [[|p|p] d]; cbn in *; try lia. reflexivity.
Qed.

Lemma nearest_positive (q : Q) :
  0 < q ->
  nearest prec emin q = inject_Z (round_half_even (q / ulp q)) * ulp q.
Proof.
  intros H. unfold nearest.
  assert (E : Qeq_bool q 0 = false).
  { destruct (Qeq_bool q 0) eqn:E; [|reflexivity].
    apply Qeq_bool_iff in E. rewrite E in H. discriminate H. }
  rewrite E, (Qabs_positive q H). reflexivity.
Qed.

Lemma scaled_le (a b u : Q) : 0 < u -> a <= b -> a / u <= b / u.
Proof.
  intros Hu Hab. unfold Qdiv. apply Qmult_le_compat_r; [exact Hab|].
  apply Qlt_le_weak. now apply Qinv_lt_0_compat.
Qed.

Lemma rounded_le (x y : Z) (u : Q) :
  0 < u -> (x <= y)%Z -> inject_Z x * u <= inject_Z y * u.
Proof.
  intros Hu Hxy. apply Qmult_le_compat_r; [|now apply Qlt_le_weak].
  now rewrite <- Zle_Qle.
Qed.

Lemma nearest_positive_monotone (a b : Q) :
  0 < a -> a <= b -> nearest prec emin a <= nearest prec emin b.
Proof.
  intros Ha Hab. assert (Hb : 0 < b) by lra.
  rewrite (nearest_positive a Ha), (nearest_positive b Hb).
  pose proof (binade_monotone a b Ha Hab) as Hbin.
  destruct (binade_spec a Ha) as [_ Ua]. destruct (binade_spec b Hb) as [Lb _].
  unfold ulp.
  set (ea := Z.max (binade a) emin). set (eb := Z.max (binade b) emin).
  assert (Hea : (ea <= eb)%Z) by (unfold ea, eb; lia).
  pose proof (pow2_pos (ea - prec + 1)) as Pa.
  pose proof (pow2_pos (eb - prec + 1)) as Pb.
  destruct (Z.eq_dec ea eb) as [E|E].
  - rewrite <- E. apply rounded_le; [exact Pa|].
    apply round_half_even_monotone. now apply scaled_le.
  - assert (Hlt : (ea + 1 <= eb)%Z) by lia.
    assert (Heb : eb = binade b) by (unfold ea, eb in *; lia).
    apply Qle_trans with (pow2 (ea + 1)); [|apply Qle_trans with (pow2 eb)].
    + assert (Ep : pow2 (ea + 1) == inject_Z (2 ^ prec) * pow2 (ea - prec + 1)).
      { rewrite <- pow2_Z by lia. rewrite <- pow2_add.
        replace (prec + (ea - prec + 1))%Z with (ea + 1)%Z by lia.
        reflexivity. }
      rewrite Ep. apply rounded_le; [exact Pa|].
      rewrite <- (round_half_even_Z (2 ^ prec)).
      apply round_half_even_monotone.
      apply Qle_shift_div_r; [exact Pa|]. rewrite <- Ep.
      apply Qlt_le_weak. apply Qlt_le_trans with (pow2 (binade a + 1));
        [exact Ua|]. apply pow2_monotone. unfold ea. lia.
    + now apply pow2_monotone.
    + assert (Ep : pow2 eb == inject_Z (2 ^ (prec - 1)) * pow2 (eb - prec + 1)).
      { rewrite <- pow2_Z by lia. rewrite <- pow2_add.
        replace (prec - 1 + (eb - prec + 1))%Z with eb by lia.
        reflexivity. }
      rewrite Ep at 1. apply rounded_le; [exact Pb|].
      rewrite <- (round_half_even_Z (2 ^ (prec - 1))) at 1.
      apply round_half_even_monotone.
      apply Qle_shift_div_l; [exact Pb|]. rewrite <- Ep. now rewrite Heb.
Qed.

Lemma Qabs_opp_eq (q : Q) : Qabs (- q) = Qabs q.
Proof. destruct q as [[|p|p] d]; reflexivity. Qed.

Lemma nearest_opp (q : Q) : nearest prec emin (- q) == - nearest prec emin q.
Proof.
  unfold nearest. rewrite Qabs_opp_eq.
  assert (E : Qeq_bool (- q) 0 = Qeq_bool q 0).
  { destruct (Qeq_bool q 0) eqn:E1.
    - apply Qeq_bool_iff in E1. apply Qeq_bool_iff. rewrite E1. reflexivity.
    - destruct (Qeq_bool (- q) 0) eqn:E2; [|reflexivity].
      apply Qeq_bool_iff in E2.
      assert (E3 : q == 0) by (rewrite <- (Qopp_involutive q), E2; reflexivity).
      apply Qeq_bool_iff in E3. congruence. }
  rewrite E. destruct (Qeq_bool q 0); [reflexivity|]. cbv zeta.
  set (u := pow2 _).
  assert (Eq : - q / u == - (q / u)) by (unfold Qdiv; ring).
  rewrite (round_half_even_proper _ _ Eq), round_half_even_opp, inject_Z_opp.
  ring.
Qed.

Lemma nearest_zero (q : Q) : q == 0 -> nearest prec emin q = 0.
Proof.
  intros E. unfold nearest. apply Qeq_bool_iff in E. now rewrite E.
Qed.

Lemma nearest_nonneg (q : Q) : 0 <= q -> 0 <= nearest prec emin q.
Proof.
  intros H. apply Qle_lteq in H. destruct H as [H|H].
  - rewrite (nearest_positive q H).
    apply Qmult_le_0_compat; [|apply Qlt_le_weak, pow2_pos].
    change 0 with (inject_Z 0). rewrite <- Zle_Qle.
    rewrite <- (round_half_even_Z 0). apply round_half_even_monotone.
    apply Qle_shift_div_l; [apply pow2_pos|].
    change (inject_Z 0) with 0. rewrite Qmult_0_l. now apply Qlt_le_weak.
  - rewrite (nearest_zero q); [apply Qle_refl|now symmetry].
Qed.

Lemma nearest_nonpos (q : Q) : q <= 0 -> nearest prec emin q <= 0.
Proof.
  intros H.
  assert (H1 : 0 <= nearest prec emin (- q)) by (apply nearest_nonneg; lra).
  rewrite nearest_opp in H1. lra.
Qed.

(** Rounding to nearest never reverses an order. *)
Lemma nearest_monotone (a b : Q) :
  a <= b -> nearest prec emin a <= nearest prec emin b.
Proof.
  intros Hab. destruct (Qlt_le_dec 0 a) as [Ha|Ha].
  - now apply nearest_positive_monotone.
  - destruct (Qlt_le_dec b 0) as [Hb|Hb].
    + assert (H : nearest prec emin (- b) <= nearest prec emin (- a)).
      { apply nearest_positive_monotone; lra. }
      rewrite !nearest_opp in H. lra.
    + apply Qle_trans with 0; [now apply nearest_nonpos|now apply nearest_nonneg].
Qed.

End Format.

Lemma to_float32_monotone (a b : Q) : a <= b -> to_float32 a <= to_float32 b.
Proof.
  intros H. unfold to_float32, to_double.
  apply nearest_monotone; [lia|]. apply nearest_monotone; [lia|exact H].
Qed.

Lemma to_float32_exact :
  to_float32 0 == 0 /\ to_float32 1 == 1 /\ to_float32 255 == 255.
Proof. repeat split; vm_compute; reflexivity. Qed.

(** The float32 store is a rounding, and so is a store that does not
    round. *)
Lemma float32_rounding : rounding to_float32.
Proof.
  split; [exact to_float32_monotone|].
  split; apply to_float32_exact.
Qed.

Lemma exact_rounding : rounding (fun q => q).
Proof. split; [intros a b H; exact H|]. split; reflexivity. Qed.

Lemma rounding_proper (fround : Q -> Q) (a b : Q) :
  rounding fround -> a == b -> fround a == fround b.
Proof.
  intros (Hmono & _) Hab. apply Qle_antisym; apply Hmono; rewrite Hab; lra.
Qed.

(** One tenth, one third and 2^24 + 1 as a float32, and one tenth as a
    double. *)
Example float32_values :
  Qred (to_float32 (1 # 10)) = 13421773 # 134217728
  /\ Qred (to_float32 (1 # 3)) = 11184811 # 33554432
  /\ Qred (to_float32 16777217) = 16777216
  /\ Qred (to_double (1 # 10)) = 3602879701896397 # 36028797018963968.
Proof. vm_compute. repeat split; reflexivity. Qed.

End RoundingFacts.

(** ** The model rewriter *)

Module OnnxFacts.
Import Js Onnx OnnxSpec.

Lemma append_eqb_prefix (p a b : string) :
  (p ++ a =? p ++ b)%string = (a =? b)%string.
Proof.
  induction p as [|c p IH]; simpl; [reflexivity|].
  rewrite Ascii.eqb_refl. exact IH.
Qed.

Lemma bind_same (env : Env) (y : string) (e : Expr) : bind env y e y = e.
Proof. unfold bind. now rewrite String.eqb_refl. Qed.

Lemma bind_other (env : Env) (y s : string) (e : Expr) :
  (s =? y)%string = false -> bind env y e s = env s.
Proof. unfold bind. now intros ->. Qed.

(** A name outside [written] differs from each written name. *)
Lemma not_written_cons (x : string) (o : option string) (l : list (option string)) :
  ~ In (Some x) (o :: l) ->
  (forall s, o = Some s -> (x =? s)%string = false) /\ ~ In (Some x) l.
Proof.
  intros H. split.
  - intros s ->. apply String.eqb_neq. intros ->. apply H. now left.
  - intros Hin. apply H. now right.
Qed.

(** The generated names differ from the constant's name: already their
    third or fourth character does. *)
Lemma one_not_temp (nm : Names) (k : string) (suffix : string) :
  nm = webgpu_names \/ nm = webnn_names ->
  (oneName nm =? (softplusPrefix nm ++ k) ++ suffix)%string = false.
Proof. intros [-> | ->]; reflexivity. Qed.

Ltac lookup :=
  repeat first
    [ rewrite bind_same
    | rewrite bind_other
        by (first [ assumption
                  | rewrite append_eqb_prefix; reflexivity
                  | apply one_not_temp; assumption ]) ].

Lemma softplus_nodes_expansion (nm : Names) (k : nat) (n : NodeProto) :
  nm = webgpu_names \/ nm = webnn_names ->
  SoftplusExpansion (oneName nm) n
    (softplus_nodes (oneName nm) (softplusPrefix nm ++ show_nat k)
       (first (input n)) (first (output n))).
Proof.
  intros Hnm. split; [reflexivity|].
  intros x y Hx Hy Hfresh. rewrite Hx, Hy in *.
  set (p := softplusPrefix nm ++ show_nat k) in *.
  cbn [softplus_nodes firstn written flat_map output new_node app] in Hfresh.
  repeat (apply not_written_cons in Hfresh;
          destruct Hfresh as [?Hne Hfresh]).
  repeat match goal with
         | H : forall s, Some ?t = Some s -> _ |- _ =>
             specialize (H t eq_refl)
         end.
  unfold run_nodes, softplus_nodes, stable_softplus.
  cbn [fold_left run_node first output input opType new_node map read].
  lookup. reflexivity.
Qed.

Lemma sm_not_written (p x : string) :
  ~ In (Some x) (written (firstn 1 (logsoftmax_nodes p (Some x) None []))) ->
  (x =? p ++ "_sm")%string = false.
Proof.
  cbn. intros H. apply String.eqb_neq. intros ->. apply H. now left.
Qed.

Lemma logsoftmax_nodes_expansion (p : string) (n : NodeProto) :
  LogSoftmaxExpansion n
    (logsoftmax_nodes p (first (input n)) (first (output n))
       (filter (fun a => (attr_name a =? "axis")%string) (attribute n))).
Proof.
  split; [reflexivity|]. split; [reflexivity|].
  intros x y Hx Hy Hfresh. rewrite Hx, Hy in *.
  assert (Hne : (x =? p ++ "_sm")%string = false).
  { apply sm_not_written. exact Hfresh. }
  unfold run_nodes, logsoftmax_nodes, log_of_softmax.
  cbn [fold_left run_node first output input opType new_node map read].
  lookup. reflexivity.
Qed.

Lemma new_nodes_neither (one p : string) (x y : option string)
    (attrs : list AttributeProto) :
  Forall neither (softplus_nodes one p x y)
  /\ Forall neither (logsoftmax_nodes p x y attrs).
Proof. split; repeat constructor. Qed.

(** The loop over [graph.node], from any intermediate state. *)
Lemma decompose_fold (nm : Names) (g : GraphProto) :
  nm = webgpu_names \/ nm = webnn_names ->
  forall nodes st,
    let st' := fold_left (decompose_node nm g) nodes st in
    exists out,
      newNodes st' = (newNodes st ++ out)%list
      /\ Decomposed (oneName nm) nodes out
      /\ Forall neither out
      /\ needsOneConst st' = needsOneConst st || existsb is_softplus nodes.
Proof.
  intros Hnm nodes. induction nodes as [|n rest IH]; intros st; cbn zeta.
  - exists []. cbn. rewrite app_nil_r, orb_false_r.
    repeat split; constructor.
  - cbn [fold_left existsb].
    specialize (IH (decompose_node nm g st n)). cbn zeta in IH.
    destruct IH as (out & Hn & Hd & Hf & Hc).
    unfold decompose_node in Hn, Hc |- *. fold (is_softplus n) in *.
    fold (is_logsoftmax n) in *.
    destruct (is_softplus n) eqn:Hsp.
    + cbn [newNodes needsOneConst] in Hn, Hc.
      eexists (_ ++ out)%list. rewrite Hn, Hc, <- app_assoc.
      split; [reflexivity|]. split; [|split].
      * apply Decomposed_softplus; [exact Hsp| |exact Hd].
        apply softplus_nodes_expansion. exact Hnm.
      * apply Forall_app. split; [|exact Hf]. apply new_nodes_neither. exact [].
      * now rewrite orb_true_r.
    + destruct (is_logsoftmax n) eqn:Hls.
      * cbn [newNodes needsOneConst] in Hn, Hc.
        eexists (_ ++ out)%list. rewrite Hn, Hc, <- app_assoc.
        split; [reflexivity|]. split; [|split].
        -- apply Decomposed_logsoftmax; [exact Hsp|exact Hls| |exact Hd].
           apply logsoftmax_nodes_expansion.
        -- apply Forall_app. split; [|exact Hf].
           apply (new_nodes_neither "" _ _ _ _).
        -- reflexivity.
      * cbn [newNodes needsOneConst] in Hn, Hc.
        exists (n :: out). rewrite Hn, Hc, <- app_assoc.
        split; [reflexivity|]. split; [|split].
        -- now apply Decomposed_keep.
        -- constructor; [now split|exact Hf].
        -- reflexivity.
Qed.

Lemma float32_one_le_bytes : float32_one_le = [x00; x00; x80; x3f].
Proof. reflexivity. Qed.

Lemma one_initializer_ok (nm : Names) (isFp16 : bool) :
  is_constant_one isFp16 (oneName nm) (one_initializer nm isFp16).
Proof. destruct isFp16; repeat split. Qed.

(** The pass on a graph whose declarations were already made static. *)
Lemma decompose_ok (nm : Names) (g g1 : GraphProto) :
  nm = webgpu_names \/ nm = webnn_names ->
  node g1 = node g -> initializer g1 = initializer g ->
  decomposition_ok nm g (fst (decompose nm (detect_fp16 g) g1)).
Proof.
  intros Hnm Hnode Hinit. unfold decompose. cbn [fst].
  destruct (decompose_fold nm g1 Hnm (node g1) initial_pass)
    as (out & Hn & Hd & Hf & Hc).
  cbn zeta in Hn, Hc. cbn [initial_pass newNodes needsOneConst app orb] in Hn, Hc.
  unfold decomposition_ok. cbn [node initializer].
  rewrite Hn, Hc, Hnode in *. rewrite Hinit.
  split; [exact Hf|]. split; [exact Hd|].
  destruct (existsb is_softplus (node g)).
  - eexists. split; [reflexivity|]. apply one_initializer_ok.
  - reflexivity.
Qed.

Lemma rewriteForWebGPU_decomposition (b : Z) (g : GraphProto) :
  decomposition_ok webgpu_names g (fst (rewriteForWebGPU b g)).
Proof.
  unfold rewriteForWebGPU.
  destruct (makeStaticGPU b (g_input g) "input") as [ins c1].
  destruct (makeStaticGPU b (g_output g) "output") as [outs c2].
  destruct (makeStaticGPU b (valueInfo g) "value_info") as [vis c3].
  set (g1 := mkGraph _ _ _ _ _ _).
  pose proof (decompose_ok webgpu_names g g1 (or_introl eq_refl) eq_refl eq_refl) as H.
  destruct (decompose webgpu_names (detect_fp16 g) g1) as [g2 c4]. exact H.
Qed.

Lemma rewriteForWebNN_decomposition (b s : Z) (g : GraphProto) :
  decomposition_ok webnn_names g (fst (rewriteForWebNN b s g)).
Proof.
  unfold rewriteForWebNN.
  destruct (makeStaticNN b s (g_input g) "input") as [ins c1].
  destruct (makeStaticNN b s (g_output g) "output") as [outs c2].
  destruct (makeStaticNN b s (valueInfo g) "value_info") as [vis c3].
  set (g1 := mkGraph _ _ _ _ _ _).
  pose proof (decompose_ok webnn_names g g1 (or_intror eq_refl) eq_refl eq_refl) as H.
  destruct (decompose webnn_names (detect_fp16 g) g1) as [g2 c4]. exact H.
Qed.

(** The graph that step 2 works on is the graph that step 1 has left. *)
Lemma rewriteForWebGPU_steps (b : Z) (g : GraphProto) :
  fst (rewriteForWebGPU b g)
  = fst (decompose webgpu_names (detect_fp16 g) (staticForWebGPU b g)).
Proof.
  unfold rewriteForWebGPU, staticForWebGPU.
  destruct (makeStaticGPU b (g_input g) "input") as [ins c1].
  destruct (makeStaticGPU b (g_output g) "output") as [outs c2].
  destruct (makeStaticGPU b (valueInfo g) "value_info") as [vis c3].
  cbn [fst]. now destruct (decompose _ _ _).
Qed.

Lemma rewriteForWebNN_steps (b s : Z) (g : GraphProto) :
  fst (rewriteForWebNN b s g)
  = fst (decompose webnn_names (detect_fp16 g) (staticForWebNN b s g)).
Proof.
  unfold rewriteForWebNN, staticForWebNN.
  destruct (makeStaticNN b s (g_input g) "input") as [ins c1].
  destruct (makeStaticNN b s (g_output g) "output") as [outs c2].
  destruct (makeStaticNN b s (valueInfo g) "value_info") as [vis c3].
  cbn [fst]. now destruct (decompose _ _ _).
Qed.

(** *** What the encoder accepts *)

Lemma node_writable_eq (n : NodeProto) :
  node_writable n
  = forallb is_string (input n) && forallb is_string (output n)
    && forallb attribute_writable (attribute n).
Proof. destruct n; reflexivity. Qed.

Lemma graph_writable_eq (g : GraphProto) :
  graph_writable g = forallb node_writable (node g).
Proof. destruct g; reflexivity. Qed.

Lemma softplus_nodes_writable (one p : string) (x y : option string) :
  forallb node_writable (softplus_nodes one p x y) = is_string x && is_string y.
Proof. destruct x, y; reflexivity. Qed.

Lemma filter_writable (f : AttributeProto -> bool) (l : list AttributeProto) :
  forallb attribute_writable l = true ->
  forallb attribute_writable (filter f l) = true.
Proof.
  induction l as [|a l IH]; cbn [forallb filter]; [reflexivity|].
  intros H. apply andb_true_iff in H. destruct H as [Ha Hl].
  destruct (f a); cbn [forallb]; [rewrite Ha|]; now apply IH.
Qed.

Lemma logsoftmax_nodes_writable (p : string) (x y : option string)
    (attrs : list AttributeProto) :
  forallb attribute_writable attrs = true ->
  forallb node_writable (logsoftmax_nodes p x y attrs)
  = is_string x && is_string y.
Proof.
  intros H. unfold logsoftmax_nodes. cbn [forallb].
  rewrite !node_writable_eq. cbn [new_node input output attribute forallb].
  rewrite H. destruct x, y; reflexivity.
Qed.

(** The nodes the loop has pushed can all be written exactly when every
    node it replaced had a first input and a first output. *)
Lemma decompose_fold_writable (nm : Names) (g : GraphProto)
    (nodes : list NodeProto) :
  forallb node_writable nodes = true ->
  forall st,
    forallb node_writable (newNodes (fold_left (decompose_node nm g) nodes st))
    = forallb node_writable (newNodes st)
      && forallb has_ends
           (filter (fun n => is_softplus n || is_logsoftmax n) nodes).
Proof.
  induction nodes as [|n rest IH]; intros Hw st; cbn [fold_left filter forallb].
  - now rewrite andb_true_r.
  - cbn [forallb] in Hw. apply andb_true_iff in Hw. destruct Hw as [Hn Hrest].
    rewrite (IH Hrest). unfold decompose_node.
    fold (is_softplus n). fold (is_logsoftmax n).
    destruct (is_softplus n) eqn:Hsp; cbn [orb].
    + cbn [newNodes forallb]. rewrite forallb_app, softplus_nodes_writable.
      unfold has_ends at 1. now rewrite <- andb_assoc.
    + destruct (is_logsoftmax n) eqn:Hls.
      * cbn [newNodes forallb]. rewrite forallb_app.
        rewrite logsoftmax_nodes_writable.
        -- unfold has_ends at 1. now rewrite <- andb_assoc.
        -- apply filter_writable. rewrite node_writable_eq in Hn.
           now apply andb_true_iff in Hn.
      * cbn [newNodes]. rewrite forallb_app. cbn [forallb].
        now rewrite Hn, !andb_true_r.
Qed.

Lemma decompose_writable (nm : Names) (isFp16 : bool) (g g1 : GraphProto) :
  node g1 = node g ->
  forallb node_writable (node g) = true ->
  graph_writable (fst (decompose nm isFp16 g1)) = forallb has_ends (replaced g).
Proof.
  intros Hnode Hw. unfold decompose, replaced. cbn [fst].
  rewrite graph_writable_eq. cbn [node]. rewrite Hnode.
  now rewrite (decompose_fold_writable nm g1 (node g) Hw initial_pass).
Qed.

Lemma rewriteForWebGPU_writable (b : Z) (g : GraphProto) :
  forallb node_writable (node g) = true ->
  graph_writable (fst (rewriteForWebGPU b g)) = forallb has_ends (replaced g).
Proof.
  intros Hw. unfold rewriteForWebGPU.
  destruct (makeStaticGPU b (g_input g) "input") as [ins c1].
  destruct (makeStaticGPU b (g_output g) "output") as [outs c2].
  destruct (makeStaticGPU b (valueInfo g) "value_info") as [vis c3].
  set (g1 := mkGraph _ _ _ _ _ _).
  pose proof (decompose_writable webgpu_names (detect_fp16 g) g g1 eq_refl Hw)
    as H.
  destruct (decompose webgpu_names (detect_fp16 g) g1) as [g2 c4]. exact H.
Qed.

Lemma rewriteForWebNN_writable (b s : Z) (g : GraphProto) :
  forallb node_writable (node g) = true ->
  graph_writable (fst (rewriteForWebNN b s g)) = forallb has_ends (replaced g).
Proof.
  intros Hw. unfold rewriteForWebNN.
  destruct (makeStaticNN b s (g_input g) "input") as [ins c1].
  destruct (makeStaticNN b s (g_output g) "output") as [outs c2].
  destruct (makeStaticNN b s (valueInfo g) "value_info") as [vis c3].
  set (g1 := mkGraph _ _ _ _ _ _).
  pose proof (decompose_writable webnn_names (detect_fp16 g) g g1 eq_refl Hw)
    as H.
  destruct (decompose webnn_names (detect_fp16 g) g1) as [g2 c4]. exact H.
Qed.

(** The last step: the encoder throws when a string of the edited graph is
    [undefined], and the result holds the encoding otherwise. *)
Lemma finish_outcome (pb : Codec) (model : ModelProto) (g : GraphProto) (b : Z)
    (r : GraphProto * list string) :
  graph model = Some g -> model_writable model = true ->
  finish pb model b r
  = if graph_writable (fst r)
    then Resolved (mkResult (encode pb (with_graph model (fst r)))
                            (0 <? List.length (snd r))%nat (snd r) b)
    else Rejected "Cannot read properties of undefined (reading 'length')".
Proof.
  intros Hg Hw. destruct r as [g' c]. cbn [fst snd].
  unfold finish, ModelProto_encode, model_writable in *.
  cbn [with_graph graph trainingInfo functions option_writable].
  rewrite Hg in Hw. cbn [option_writable] in Hw.
  rewrite <- andb_assoc in Hw. apply andb_true_iff in Hw. destruct Hw as [_ Hrest].
  rewrite <- andb_assoc, Hrest, andb_true_r.
  destruct (graph_writable g'); reflexivity.
Qed.

(** *** The copies of step 2 *)

Lemma existsb_none {A : Type} (f : A -> bool) (l : list A) :
  (forall x, In x l -> f x = false) -> existsb f l = false.
Proof.
  intros H. destruct (existsb f l) eqn:E; [|reflexivity].
  apply existsb_exists in E. destruct E as (x & Hx & Hf).
  rewrite (H x Hx) in Hf. discriminate.
Qed.

Lemma integer_dims_copy (vi : ValueInfoProto) (t : TypeProto) :
  integer_dims vi -> vi_type vi = Some t -> stringify_throws t = false.
Proof.
  unfold integer_dims, vi_dims, stringify_throws. intros H Ht. rewrite Ht in H.
  destruct (tensorType t) as [ten|]; [|reflexivity].
  destruct (shape ten) as [sh|]; [|reflexivity].
  specialize (H (dim sh) eq_refl). apply existsb_none. intros d Hd.
  rewrite Forall_forall in H. specialize (H d Hd).
  destruct (dimValue d) as [[v|key]|]; try reflexivity.
  now elim (H key).
Qed.

(** No copy throws on a graph whose declarations hold integers only. *)
Lemma decompose_no_throw (g : GraphProto) :
  Forall integer_dims (valueInfo g) -> Forall integer_dims (g_input g) ->
  decompose_throws g = false.
Proof.
  intros Hv Hi. unfold decompose_throws. apply existsb_none. intros n _.
  unfold copy_throws, find_srcVi.
  destruct (find _ _) as [srcVi|] eqn:Hfind; [|apply andb_false_r].
  apply find_some in Hfind. destruct Hfind as [Hin _].
  destruct (vi_type srcVi) as [t|] eqn:Ht; [|apply andb_false_r].
  rewrite (integer_dims_copy srcVi t); [apply andb_false_r| |exact Ht].
  apply in_app_or in Hin. rewrite Forall_forall in Hv, Hi.
  destruct Hin; auto.
Qed.

Lemma makeStatic_with_preserves
    (step : ValueInfoProto -> ValueInfoProto * list string)
    (P R : ValueInfoProto -> Prop) (l : list ValueInfoProto) :
  (forall vi, P vi -> R (fst (step vi))) ->
  Forall P l -> Forall R (fst (makeStatic_with step l)).
Proof.
  intros H. induction 1 as [|vi rest Hvi _ IH]; cbn; [constructor|].
  specialize (H vi Hvi). destruct (step vi) as [vi' msgs].
  destruct (makeStatic_with step rest) as [rest' msgs']. cbn in *.
  now constructor.
Qed.

Lemma vi_with_dims_dims (vi : ValueInfoProto) (ds ds' : list Dimension) :
  vi_dims vi = Some ds ->
  vi_dims (vi_with_dims vi ds') = Some ds'
  /\ vi_name (vi_with_dims vi ds') = vi_name vi.
Proof.
  unfold vi_dims, vi_with_dims.
  destruct (vi_type vi) as [t|]; [|discriminate].
  destruct (tensorType t) as [ten|]; [|discriminate].
  destruct (shape ten); [|discriminate].
  intros _. split; reflexivity.
Qed.

Lemma makeStaticGPU_vi_integer (b : Z) (label : string) (vi : ValueInfoProto) :
  integer_dims vi -> integer_dims (fst (makeStaticGPU_vi b label vi)).
Proof.
  intros H. unfold makeStaticGPU_vi.
  destruct (vi_dims vi) as [[|d rest]|] eqn:Hds; try exact H.
  destruct (makeStatic_firstDim b d) as [[d' old]|] eqn:Hd; [|exact H].
  cbn [fst]. intros ds Eds.
  rewrite (proj1 (vi_with_dims_dims vi _ (d' :: rest) Hds)) in Eds.
  injection Eds as <-. specialize (H _ Hds).
  inversion H as [|? ? _ Hrest]; subst. constructor; [|exact Hrest].
  unfold makeStatic_firstDim in Hd.
  destruct (_ || _ || _); [|discriminate]. injection Hd as <- _.
  intros key. discriminate.
Qed.

Lemma staticForWebGPU_no_throw (b : Z) (g : GraphProto) :
  Forall integer_dims (g_input g) -> Forall integer_dims (valueInfo g) ->
  decompose_throws (staticForWebGPU b g) = false.
Proof.
  intros Hi Hv. apply decompose_no_throw; unfold staticForWebGPU;
    cbn [valueInfo g_input]; unfold makeStaticGPU;
    (eapply makeStatic_with_preserves; [|eassumption]);
    intros vi; apply makeStaticGPU_vi_integer.
Qed.

Lemma in_prototype_keys (name : string) :
  existsb (String.eqb name) object_prototype_keys = true
  <-> In name object_prototype_keys.
Proof.
  rewrite existsb_exists. split.
  - intros (k & Hk & Heq). apply String.eqb_eq in Heq. now subst.
  - intros H. exists name. split; [exact H|apply String.eqb_refl].
Qed.

Lemma makeStaticNN_dim_integer (b s : Z) (label viName : string) (d : Dimension) :
  (forall key, dimValue d <> Some (DimObject key)) ->
  (forall name, dimParam d = Some name -> ~ In name object_prototype_keys) ->
  forall key,
    dimValue (fst (makeStaticNN_dim b s label viName d)) <> Some (DimObject key).
Proof.
  intros Hint Hplain key. unfold makeStaticNN_dim.
  destruct (dimParam d) as [name|] eqn:Hp.
  - destruct (truthy_string (Some name)).
    + unfold STATIC_DIMS.
      destruct (name =? "batch_size")%string; [discriminate|].
      destruct (name =? "height")%string; [discriminate|].
      destruct (name =? "width")%string; [discriminate|].
      destruct (existsb (String.eqb name) object_prototype_keys) eqn:E.
      * apply in_prototype_keys in E. now elim (Hplain name eq_refl).
      * destruct (_ && _); [discriminate|apply Hint].
    + destruct (_ && _); [discriminate|apply Hint].
  - destruct (_ && _); [discriminate|apply Hint].
Qed.

Lemma makeStaticNN_dims_integer (b s : Z) (label viName : string)
    (ds : list Dimension) :
  Forall (fun d => forall key, dimValue d <> Some (DimObject key)) ds ->
  Forall (fun d => forall name, dimParam d = Some name ->
                                ~ In name object_prototype_keys) ds ->
  Forall (fun d => forall key, dimValue d <> Some (DimObject key))
         (fst (makeStaticNN_dims b s label viName ds)).
Proof.
  induction 1 as [|d ds Hd _ IH]; intros Hplain; cbn [makeStaticNN_dims];
    [constructor|].
  inversion Hplain as [|? ? Hpd Hprest]; subst.
  pose proof (makeStaticNN_dim_integer b s label viName d Hd Hpd) as H1.
  specialize (IH Hprest).
  destruct (makeStaticNN_dim b s label viName d) as [d' m].
  destruct (makeStaticNN_dims b s label viName ds) as [ds' m'].
  constructor; assumption.
Qed.

Lemma makeStaticNN_vi_integer (b s : Z) (label : string) (vi : ValueInfoProto) :
  integer_dims vi /\ plain_names vi ->
  integer_dims (fst (makeStaticNN_vi b s label vi)).
Proof.
  intros [Hint Hplain]. unfold makeStaticNN_vi.
  destruct (vi_dims vi) as [[|d rest]|] eqn:Hds; try exact Hint.
  pose proof (makeStaticNN_dims_integer b s label (vi_name vi) (d :: rest)
                (Hint _ Hds) (Hplain _ Hds)) as H.
  destruct (makeStaticNN_dims b s label (vi_name vi) (d :: rest)) as [ds' m].
  cbn [fst] in *. intros ds Eds.
  rewrite (proj1 (vi_with_dims_dims vi _ ds' Hds)) in Eds.
  now injection Eds as <-.
Qed.

Lemma Forall_both {A : Type} (P R : A -> Prop) (l : list A) :
  Forall P l -> Forall R l -> Forall (fun x => P x /\ R x) l.
Proof.
  induction 1 as [|x l Hx _ IH]; intros HR; [constructor|].
  inversion HR; subst. constructor; auto.
Qed.

(** Without a dimension named after a member of [Object.prototype], the
    static pass of the coprocessor profile stores integers only, and no copy
    of step 2 throws. *)
Lemma staticForWebNN_no_throw (b s : Z) (g : GraphProto) :
  Forall integer_dims (g_input g) -> Forall integer_dims (valueInfo g) ->
  Forall plain_names (g_input g) -> Forall plain_names (valueInfo g) ->
  decompose_throws (staticForWebNN b s g) = false.
Proof.
  intros Hi Hv Pi Pv. apply decompose_no_throw; unfold staticForWebNN;
    cbn [valueInfo g_input]; unfold makeStaticNN.
  - apply (makeStatic_with_preserves _ _ _ _
             (makeStaticNN_vi_integer b s "value_info")).
    now apply Forall_both.
  - apply (makeStatic_with_preserves _ _ _ _
             (makeStaticNN_vi_integer b s "input")).
    now apply Forall_both.
Qed.

Lemma decoded_graph (model : ModelProto) (g : GraphProto) :
  as_decoded model -> graph model = Some g ->
  model_writable model = true
  /\ forallb node_writable (node g) = true
  /\ Forall integer_dims (g_input g) /\ Forall integer_dims (valueInfo g).
Proof.
  intros [Hw Hd] Hg. split; [exact Hw|]. split; [|exact (Hd g Hg)].
  unfold model_writable in Hw. rewrite Hg in Hw. cbn [option_writable] in Hw.
  rewrite <- andb_assoc in Hw. apply andb_true_iff in Hw.
  now rewrite <- graph_writable_eq.
Qed.

(** C1, as stated, fails: the pass does not remove every Softplus node.  It
    walks the node list of the graph and nothing below it.  The model
    [OnnxSample.nested_model] has a Softplus node in the branch of an [If]
    node; the rewriter resolves with the encoding of a graph in which that
    node is still present (only the LogSoftmax node of the list was
    replaced), and the file it returns is still reported as holding a
    Softplus operator.  Nor does it always produce a graph: the model
    [OnnxSample.bare_model] decodes with a graph whose Softplus node has no
    input, and the rewriter rejects. *)
Lemma nested_softplus_is_kept :
  decode OnnxSample.sample_codec OnnxSample.nested_bytes
  = Resolved OnnxSample.nested_model
  /\ exists r g',
       convertModelForWebGPU OnnxSample.sample_codec OnnxSample.nested_bytes None
       = Resolved r
       /\ encodes OnnxSample.sample_codec r OnnxSample.nested_model g'
       /\ operators g' = ["If"; "Softplus"; "Softmax"; "Log"]
       /\ In "Softplus" (operators g')
       /\ changes r = ["Replaced 1 LogSoftmax ops"]
       /\ In OnnxScan.softplus_issue
             (OnnxScan.checkModelNeedsConversion (buffer r))
       /\ decode OnnxSample.sample_codec OnnxSample.bare_bytes
          = Resolved OnnxSample.bare_model
       /\ graph OnnxSample.bare_model = Some OnnxSample.bare_graph
       /\ convertModelForWebGPU OnnxSample.sample_codec OnnxSample.bare_bytes None
          = Rejected "Cannot read properties of undefined (reading 'length')".
Proof.
  split; [reflexivity|].
  eexists. exists (fst (rewriteForWebGPU 8 OnnxSample.nested_graph)).
  split; [vm_compute; reflexivity|].
  split; [reflexivity|]. split; [reflexivity|].
  split; [vm_compute; auto|]. split; [reflexivity|].
  split; [vm_compute; auto|].
  split; [reflexivity|]. split; reflexivity.
Qed.

(** C1, amended.  Operator decomposition.  For a model that decodes with a
    graph [g] (every string a string, every dimension value an integer), and
    for each of the two rewriters:

    the pass edits the node list of [g] and nothing below it (graphs held by
    attributes, model functions and training graphs are encoded as they
    were).  In the edited graph [g'] no node of the list is a Softplus or a
    LogSoftmax; the list is that of [g], in order, with every Softplus node
    replaced by seven nodes Abs, Neg, Exp, Add, Log, Relu, Add, which leave
    relu(x) + log(exp(-abs(x)) + one) in the node's first output [y] when its
    first input [x] is not the name of one of the six intermediate tensors
    the seven nodes write; and with every LogSoftmax node replaced by Softmax
    then Log, the Softmax carrying the node's attributes named [axis], which
    leave log(softmax(x)) in [y] when [x] is not the name of the intermediate
    tensor.  When the list of [g] has a Softplus node exactly one initializer
    is appended, a scalar named for the rewriter whose raw data is 00 3C for
    a half-precision model and 00 00 80 3F otherwise.

    The rewriter resolves with the encoding of the model with graph [g']
    exactly when every replaced node has a first input and a first output
    and no copy of a declaration throws; otherwise it rejects (a replaced
    node without input or output leaves [undefined] in a generated node,
    which the encoder cannot write).  No copy throws in the GPU profile, nor
    in the coprocessor profile when no dimension of an input or value-info
    declaration is named after a member of [Object.prototype]. *)
Theorem decomposition_pass_correct
    (pb : Codec) (buf : list byte) (model : ModelProto) (g : GraphProto) :
  decode pb buf = Resolved model ->
  graph model = Some g ->
  as_decoded model ->
  (forall options,
      let g' := fst (rewriteForWebGPU (gpu_batch options) g) in
      decomposition_ok webgpu_names g g'
      /\ if forallb has_ends (replaced g)
         then exists r,
             convertModelForWebGPU pb buf options = Resolved r
             /\ encodes pb r model g'
         else exists msg, convertModelForWebGPU pb buf options = Rejected msg)
  /\ (forall options,
      let g1 := staticForWebNN (nn_batch options) (nn_board options) g in
      let g' := fst (rewriteForWebNN (nn_batch options) (nn_board options) g) in
      decomposition_ok webnn_names g g'
      /\ (if forallb has_ends (replaced g) && negb (decompose_throws g1)
          then exists r,
              convertModelForWebNN pb buf options = Resolved r
              /\ encodes pb r model g'
          else exists msg, convertModelForWebNN pb buf options = Rejected msg)
      /\ (Forall plain_names (g_input g) -> Forall plain_names (valueInfo g) ->
          decompose_throws g1 = false)).
Proof.
  intros Hdec Hg Hdecoded.
  destruct (decoded_graph model g Hdecoded Hg) as (Hw & Hnodes & Hi & Hv).
  split; intros options.
  - cbv zeta. split; [apply rewriteForWebGPU_decomposition|].
    unfold convertModelForWebGPU. rewrite Hdec, Hg.
    fold (gpu_batch options).
    rewrite (staticForWebGPU_no_throw _ g Hi Hv).
    rewrite (finish_outcome pb model g _ _ Hg Hw).
    rewrite (rewriteForWebGPU_writable _ g Hnodes).
    destruct (forallb has_ends (replaced g)); eexists;
      [split; reflexivity|reflexivity].
  - cbv zeta. split; [apply rewriteForWebNN_decomposition|]. split.
    + unfold convertModelForWebNN. rewrite Hdec, Hg.
      fold (nn_batch options). fold (nn_board options).
      destruct (decompose_throws _).
      * rewrite andb_false_r. eexists. reflexivity.
      * rewrite andb_true_r.
        rewrite (finish_outcome pb model g _ _ Hg Hw).
        rewrite (rewriteForWebNN_writable _ _ g Hnodes).
        destruct (forallb has_ends (replaced g)); eexists;
          [split; reflexivity|reflexivity].
    + intros Pi Pv. now apply staticForWebNN_no_throw.
Qed.

Lemma sample_model_decoded : as_decoded OnnxSample.sample_model.
Proof.
  split; [reflexivity|]. intros g [= <-].
  split; repeat (apply Forall_cons; [|try apply Forall_nil]);
    intros ds [= <-];
    repeat (apply Forall_cons; [intros key; discriminate|]); apply Forall_nil.
Qed.

Lemma decomposition_pass_correct_witness :
  (forall options,
      let g' := fst (rewriteForWebGPU (gpu_batch options) OnnxSample.sample_graph) in
      decomposition_ok webgpu_names OnnxSample.sample_graph g'
      /\ exists r,
           convertModelForWebGPU OnnxSample.sample_codec OnnxSample.sample_bytes
                                 options = Resolved r
           /\ encodes OnnxSample.sample_codec r OnnxSample.sample_model g')
  /\ (forall options,
      let g' :=
        fst (rewriteForWebNN (nn_batch options) (nn_board options)
                             OnnxSample.sample_graph) in
      decomposition_ok webnn_names OnnxSample.sample_graph g'
      /\ exists r,
           convertModelForWebNN OnnxSample.sample_codec OnnxSample.sample_bytes
                                options = Resolved r
           /\ encodes OnnxSample.sample_codec r OnnxSample.sample_model g').
Proof.
  destruct (decomposition_pass_correct OnnxSample.sample_codec
              OnnxSample.sample_bytes OnnxSample.sample_model
              OnnxSample.sample_graph eq_refl eq_refl sample_model_decoded)
    as [Hgpu Hnn].
  split; intros options.
  - exact (Hgpu options).
  - destruct (Hnn options) as (Hok & Hout & Hplain). split; [exact Hok|].
    rewrite Hplain in Hout; [exact Hout| |];
      repeat (apply Forall_cons; [|try apply Forall_nil]);
      intros ds [= <-];
      repeat (apply Forall_cons;
              [intros name [= <-]; cbn; intuition discriminate
              |try apply Forall_nil]);
      try (apply Forall_cons; [intros name; discriminate|]);
      repeat (apply Forall_cons;
              [intros name [= <-]; cbn; intuition discriminate
              |try apply Forall_nil]).
Defined.

Example sample_rewritten_ops :
  map opType (node (fst (rewriteForWebGPU 8 OnnxSample.sample_graph)))
  = ["Conv"; "Abs"; "Neg"; "Exp"; "Add"; "Log"; "Relu"; "Add"; "Softmax"; "Log"].
Proof. reflexivity. Qed.

Example sample_rewritten_changes :
  snd (rewriteForWebNN 1 19 OnnxSample.sample_graph)
  = [ "input bin_input: batch_size → 1"; "input bin_input: height → 19";
      "input bin_input: width → 19"; "output policy: batch_size → 1";
      "value_info h: batch_size → 1"; "value_info h: height → 19";
      "value_info h: width → 19"; "Replaced 1 Softplus ops";
      "Replaced 1 LogSoftmax ops" ].
Proof. reflexivity. Qed.

(** A Softplus node without input makes the rewriter reject: the first of
    the seven nodes holds [undefined] as its input.  The caller keeps the
    original file. *)
Example bare_softplus_rejects :
  convertModelForWebGPU OnnxSample.sample_codec OnnxSample.bare_bytes None
  = Rejected "Cannot read properties of undefined (reading 'length')"
  /\ input (hd OnnxSample.stale_node
               (node (fst (rewriteForWebGPU 8 OnnxSample.bare_graph))))
     = [None]
  /\ autoConvert
       (convertModelForWebGPU OnnxSample.sample_codec OnnxSample.bare_bytes None)
       OnnxSample.bare_bytes
     = (OnnxSample.bare_bytes, false).
Proof. repeat split. Qed.

(** A Softplus node that reads a tensor named like the first intermediate
    tensor of its expansion: the Relu of the expansion reads the absolute
    value instead. *)
Example stale_name_is_read :
  let seven :=
    softplus_nodes "__webgpu_const_one" "__sp_0"
                   (first (input OnnxSample.stale_node))
                   (first (output OnnxSample.stale_node)) in
  ~ fresh_for "__sp_0_abs" seven
  /\ run_nodes seven Tensor "y"
     = Apply "Add"
         [ Apply "Relu" [Apply "Abs" [Tensor "__sp_0_abs"]];
           Apply "Log"
             [ Apply "Add"
                 [ Apply "Exp"
                     [Apply "Neg" [Apply "Abs" [Tensor "__sp_0_abs"]]];
                   Tensor "__webgpu_const_one" ] ] ]
  /\ run_nodes seven Tensor "y"
     <> stable_softplus "__sp_0_abs" "__webgpu_const_one".
Proof.
  cbv zeta. split; [|split].
  - intros H. apply H. now left.
  - reflexivity.
  - discriminate.
Qed.

(** In the coprocessor profile a dimension named [constructor] receives the
    function [Object] as its value; the copy of the declaration then throws,
    and the rewriter rejects. *)
Example inherited_name_rejects :
  decompose_throws (staticForWebNN 1 19 OnnxSample.named_graph) = true
  /\ convertModelForWebNN OnnxSample.sample_codec OnnxSample.named_bytes None
     = Rejected "this.isZero is not a function"
  /\ exists r,
       convertModelForWebGPU OnnxSample.sample_codec OnnxSample.named_bytes None
       = Resolved r.
Proof. split; [reflexivity|]. split; [reflexivity|]. eexists. reflexivity. Qed.

(** C2, as stated, fails: the rewriters do not hand back the original bytes
    when parsing fails.  The empty buffer decodes to a message without a
    graph, and both rewriters reject with "Model has no graph". *)
Lemma parse_failure_is_not_swallowed :
  ~ (forall pb buf options,
        parse_fails pb buf ->
        exists r,
          convertModelForWebGPU pb buf options = Resolved r
          /\ buffer r = buf /\ wasConverted r = false).
Proof.
  intros H.
  destruct (H OnnxSample.sample_codec [] None) as (r & Hr & _).
  - right. eexists. split; reflexivity.
  - discriminate Hr.
Qed.

(** C2, amended.  On a buffer that does not parse (the decoder throws, or the
    decoded message has no graph) both rewriters reject: the decoder's error
    is propagated, a missing graph raises "Model has no graph".  It is the
    loading call site that catches the rejection and keeps the original
    bytes, with the converted flag false. *)
Theorem parse_failure_rejects
    (pb : Codec) (buf : list byte) (gpu : option WebGPUOptions)
    (nn : option WebNNOptions) :
  parse_fails pb buf ->
  (exists msg, convertModelForWebGPU pb buf gpu = Rejected msg)
  /\ (exists msg, convertModelForWebNN pb buf nn = Rejected msg)
  /\ autoConvert (convertModelForWebGPU pb buf gpu) buf = (buf, false)
  /\ autoConvert (convertModelForWebNN pb buf nn) buf = (buf, false).
Proof.
  unfold convertModelForWebGPU, convertModelForWebNN.
  intros [[msg H] | (model & H & Hg)]; rewrite H; [|rewrite Hg];
    (split; [eexists; reflexivity|]);
    (split; [eexists; reflexivity|]); split; reflexivity.
Qed.

Lemma parse_failure_rejects_witness :
  (exists msg,
        convertModelForWebGPU OnnxSample.sample_codec [xff] None = Rejected msg)
  /\ (exists msg,
        convertModelForWebNN OnnxSample.sample_codec [xff] None = Rejected msg)
  /\ autoConvert (convertModelForWebGPU OnnxSample.sample_codec [xff] None) [xff]
     = ([xff], false)
  /\ autoConvert (convertModelForWebNN OnnxSample.sample_codec [xff] None) [xff]
     = ([xff], false).
Proof.
  apply (parse_failure_rejects OnnxSample.sample_codec [xff] None None).
  left. exists "index out of range". reflexivity.
Defined.

(** *** The static-dimension pass of the coprocessor profile *)









(** The pass on the sample graphs: the option names become numbers, the name
    [channels] stays, and the name [constructor] is replaced by the function
    [Object], which the change log prints as its source text. *)
Example static_dimension_pass_examples :
  option_map vi_dims
    (nth_error (g_input (fst (rewriteForWebNN 1 19 OnnxSample.sample_graph))) 0)
  = Some (Some [ OnnxSample.fixed 1; OnnxSample.fixed 22;
                 OnnxSample.fixed 19; OnnxSample.fixed 19 ])
  /\ fst (makeStaticNN_dim 1 19 "input" "h" (OnnxSample.dyn "constructor"))
     = inherited "constructor" (OnnxSample.dyn "constructor")
  /\ snd (makeStaticNN_dim 1 19 "input" "h" (OnnxSample.dyn "constructor"))
     = ["input h: constructor → function Object() { [native code] }"]
  /\ snd (makeStaticNN_dim 1 19 "input" "h" (OnnxSample.dyn "__proto__"))
     = ["input h: __proto__ → [object Object]"]
  /\ makeStaticNN_dim 1 19 "input" "h"
       (inherited "constructor" (OnnxSample.dyn "constructor"))
     = (inherited "constructor" (OnnxSample.dyn "constructor"), []).
Proof. repeat split. Qed.

End OnnxFacts.

(** ** The inference engine *)

Module EngineFacts.
Import Js Engine EngineSpec ListFacts.

Local Open Scope Q_scope.

(** *** Search *)

Lemma node_induction (Pn : MCTSNode -> Prop) :
  (forall n w p ch ex,
      match ch with
      | Some l => Forall (fun kc => Pn (snd kc)) l
      | None => True
      end ->
      Pn (mkMCTSNode n w p ch ex)) ->
  forall node, Pn node.
Proof.
  intros step. fix IH 1. intros [n w p ch ex]. apply step.
  destruct ch as [l|]; [|exact I].
  revert l. fix IHl 1. intros [|[k c] rest]; constructor.
  - exact (IH c).
  - apply IHl.
Qed.

Lemma evaluateSingle_completes (env : Environment) (board : GoBoard)
    (pla : Sign) (komi : Q) (hist : list Move) (size : Z) :
  inference_succeeds env ->
  exists e, _evaluateSingle env board pla komi hist size = Resolved e.
Proof.
  intros Hinf. unfold _evaluateSingle.
  destruct (Hinf board pla komi hist size) as [raw ->]. eexists. reflexivity.
Qed.

Section SearchFacts.
Variable env : Environment.
Variable komi : Q.
Variable size : Z.

(** The backup of one iteration adds one visit to the node it started from,
    wherever the selection stopped. *)
Lemma visit_counts_once (node node' : MCTSNode) (board : GoBoard) (pla : Sign)
    (hist : list Move) (v : Q) (e : option AnalysisResult) :
  visit env komi size node board pla hist = Resolved (node', v, e) ->
  N node' = S (N node).
Proof.
  destruct node as [n w p ch ex]. cbn [visit].
  match goal with
  | |- context [match ?b with Some _ => _ | None => _ end] => destruct b as [[[l' v']|msg]|]
  end.
  - intros [= <- _ _]. reflexivity.
  - discriminate.
  - destruct (negb ex).
    + destruct (_evaluateSingle _ _ _ _ _ _); [|discriminate].
      intros [= <- _ _]. reflexivity.
    + intros [= <- _ _]. reflexivity.
Qed.

Lemma search_counts (iterations : nat) :
  forall (board : GoBoard) (pla : Sign) (hist : list Move)
         (root root' : MCTSNode) (rootEval rootEval' : option AnalysisResult),
    search env komi size iterations board pla hist root rootEval
    = Resolved (root', rootEval') ->
    N root' = (iterations + N root)%nat.
Proof.
  induction iterations as [|k IH]; intros board pla hist root root' re re';
    cbn [search].
  - intros [= <- _]. reflexivity.
  - destruct (visit env komi size root board pla hist) as [[[r1 v] e]|msg] eqn:Hv;
      [|discriminate].
    intros H. apply IH in H. apply visit_counts_once in Hv. lia.
Qed.

(** The result of a search reports the visit count of the root that the
    iterations built. *)
Lemma runMCTS_root (board : GoBoard) (pla : Sign) (hist : list Move)
    (numVisits : nat) (r : AnalysisResult) :
  _runMCTS env komi size board pla hist numVisits = Resolved r ->
  exists root rootEval,
    search env komi size numVisits board pla hist root0 None
    = Resolved (root, rootEval)
    /\ N root = numVisits
    /\ visits r = Some (N root)
    /\ moveSuggestions r = suggestions_of root.
Proof.
  unfold _runMCTS.
  destruct (search _ _ _ _ _ _ _ _ _) as [[root re]|msg] eqn:Hs; [|discriminate].
  pose proof (search_counts _ _ _ _ _ _ _ _ Hs) as Hn. cbn [root0 N] in Hn.
  destruct (match re with Some e => _ | None => _ end); [|discriminate].
  intros [= <-]. exists root, re. cbn [visits moveSuggestions].
  split; [reflexivity|]. split; [lia|]. split; reflexivity.
Qed.

Lemma runMCTS_visits (board : GoBoard) (pla : Sign) (hist : list Move)
    (numVisits : nat) (r : AnalysisResult) :
  _runMCTS env komi size board pla hist numVisits = Resolved r ->
  visits r = Some numVisits.
Proof.
  intros H. destruct (runMCTS_root _ _ _ _ _ H) as (root & re & _ & Hn & Hv & _).
  now rewrite Hv, Hn.
Qed.

(** When every run of the network succeeds, an iteration completes wherever
    it starts. *)
Lemma visit_completes :
  inference_succeeds env ->
  forall node board pla hist,
    exists node' v e,
      visit env komi size node board pla hist = Resolved (node', v, e).
Proof.
  intros Hinf.
  apply (node_induction
           (fun node =>
              forall board pla hist,
                exists node' v e,
                  visit env komi size node board pla hist
                  = Resolved (node', v, e))).
  intros n w p ch ex IHch board pla hist. cbn [visit].
  match goal with
  | |- context [match ?b with Some _ => _ | None => _ end] =>
      assert (Hbelow : match b with
                       | Some (Rejected _) => False
                       | _ => True
                       end);
      [|destruct b as [[[l' v']|msg]|]]
  end.
  - destruct (descend env size (mkMCTSNode n w p ch ex) board pla hist)
      as [|i newBoard newHist]; [exact I|].
    destruct ch as [l|]; [|exact I].
    revert i. induction l as [|[k c] rest IHl]; intros i; [exact I|].
    inversion IHch as [|? ? IHc IHrest]; subst.
    destruct i as [|i].
    + cbn [snd] in IHc.
      destruct (IHc newBoard (flip pla) newHist) as (c' & vc & ec & ->).
      exact I.
    + specialize (IHl IHrest i).
      match goal with
      | |- match match ?b with Some _ => _ | None => _ end with _ => _ end =>
          destruct b as [[[rest' vr]|msg]|]
      end; exact IHl.
  - do 3 eexists. reflexivity.
  - contradiction.
  - destruct (negb ex).
    + destruct (evaluateSingle_completes env board pla komi hist size Hinf)
        as [leafEval ->].
      do 3 eexists. reflexivity.
    + do 3 eexists. reflexivity.
Qed.

Lemma search_completes (iterations : nat) :
  inference_succeeds env ->
  forall board pla hist root rootEval,
    exists root' rootEval',
      search env komi size iterations board pla hist root rootEval
      = Resolved (root', rootEval').
Proof.
  intros Hinf.
  induction iterations as [|k IH]; intros board pla hist root re; cbn [search].
  - do 2 eexists. reflexivity.
  - destruct (visit_completes Hinf root board pla hist) as (r1 & v & e & ->).
    apply IH.
Qed.

Lemma runMCTS_completes (board : GoBoard) (pla : Sign) (hist : list Move)
    (numVisits : nat) :
  inference_succeeds env ->
  exists r, _runMCTS env komi size board pla hist numVisits = Resolved r.
Proof.
  intros Hinf. unfold _runMCTS.
  destruct (search_completes numVisits Hinf board pla hist root0 None)
    as (root & re & ->).
  destruct re as [e|].
  - eexists. reflexivity.
  - destruct (evaluateSingle_completes env board pla komi hist size Hinf)
      as [e ->].
    eexists. reflexivity.
Qed.

End SearchFacts.

(** [analyzePosition] with the defaults of the options spelled out. *)
Lemma analyzePosition_unfold (env : Environment) (m : SignMap)
    (options : EngineAnalysisOptions) :
  analyzePosition env m options
  = if negb (session env) then Rejected "Engine not initialized"
    else
      let size := width (new_GoBoard m) in
      let pla := nextPla_of options (new_GoBoard m) size in
      if (1 <? visits_of options)%nat
      then _runMCTS env (komi_of options) size (board_of m options) pla
                    (history_of options) (visits_of options)
      else _evaluateSingle env (board_of m options) pla (komi_of options)
                           (history_of options) size.
Proof.
  unfold analyzePosition, board_of, komi_of, history_of, visits_of.
  destruct (negb (session env)); [reflexivity|].
  destruct (koInfo options) as [ko|]; [|reflexivity].
  destruct (negb (ko_sign ko =? 0)%Z); reflexivity.
Qed.

(** With a session, an analysis completes when every run of the network
    does. *)
Lemma analyzePosition_completes (env : Environment) (m : SignMap)
    (options : EngineAnalysisOptions) :
  session env = true -> inference_succeeds env ->
  exists r, analyzePosition env m options = Resolved r.
Proof.
  intros Hs Hinf. rewrite analyzePosition_unfold, Hs. cbn [negb].
  cbv zeta. destruct (1 <? visits_of options)%nat.
  - now apply runMCTS_completes.
  - now apply evaluateSingle_completes.
Qed.

(** C4.  MCTS monotonicity.  In an analysis of any grid with any options
    asking for [numVisits > 1]:
    every iteration of the search, from whatever node, board, side and
    history it starts and wherever its selection stops (an unexpanded leaf, a
    two-pass terminal, a move that cannot be parsed or applied), returns the
    node with its visit count raised by exactly one;
    so a search of [k] iterations raises the root's count by [k];
    a completed analysis is the outcome of [numVisits] iterations from the
    fresh root, on the board, side, komi and history of the options, and the
    [visits] it reports is the visit count of the root these iterations built,
    which is [numVisits];
    and the analysis does complete whenever the session exists and every run
    of the network succeeds. *)
Theorem mcts_root_visits (env : Environment) (m : SignMap)
    (options : EngineAnalysisOptions) (n : nat) :
  numVisits options = Some n -> (1 < n)%nat ->
  let size := width (new_GoBoard m) in
  let pla := nextPla_of options (new_GoBoard m) size in
  let komi := komi_of options in
  let hist := history_of options in
  let board := board_of m options in
  (forall node b p h node' v e,
      visit env komi size node b p h = Resolved (node', v, e) ->
      N node' = S (N node))
  /\ (forall k root rootEval root' rootEval',
         search env komi size k board pla hist root rootEval
         = Resolved (root', rootEval') ->
         N root' = (k + N root)%nat)
  /\ (forall r,
         analyzePosition env m options = Resolved r ->
         exists root rootEval,
           search env komi size n board pla hist root0 None
           = Resolved (root, rootEval)
           /\ N root = n
           /\ visits r = Some (N root)
           /\ moveSuggestions r = suggestions_of root)
  /\ (session env = true -> inference_succeeds env ->
      exists r,
        analyzePosition env m options = Resolved r /\ visits r = Some n).
Proof.
  intros Hn Hgt size pla komi hist board.
  assert (Hrun : analyzePosition env m options
                 = if negb (session env) then Rejected "Engine not initialized"
                   else _runMCTS env komi size board pla hist n).
  { rewrite analyzePosition_unfold. unfold visits_of. rewrite Hn.
    apply Nat.ltb_lt in Hgt. cbv zeta. now rewrite Hgt. }
  split; [|split; [|split]].
  - intros node b p h node' v e. apply visit_counts_once.
  - intros k root re root' re'. apply search_counts.
  - intros r. rewrite Hrun. destruct (negb (session env)); [discriminate|].
    apply runMCTS_root.
  - intros Hs Hinf. rewrite Hrun, Hs. cbn [negb].
    destruct (runMCTS_completes env komi size board pla hist n Hinf) as [r Hr].
    exists r. split; [exact Hr|]. exact (runMCTS_visits _ _ _ _ _ _ _ _ Hr).
Qed.

Lemma sample_inference_succeeds : inference_succeeds EngineSample.sample_env.
Proof. intros board pla komi hist size. eexists. reflexivity. Qed.

Lemma mcts_root_visits_witness :
  (forall r,
      analyzePosition EngineSample.sample_env EngineSample.sample_board
        (EngineSample.sample_options 6) = Resolved r ->
      exists root rootEval,
        search EngineSample.sample_env (75 # 10) 9 6
          (new_GoBoard EngineSample.sample_board) (-1)%Z [] root0 None
        = Resolved (root, rootEval)
        /\ N root = 6%nat
        /\ visits r = Some (N root)
        /\ moveSuggestions r = suggestions_of root)
  /\ exists r,
       analyzePosition EngineSample.sample_env EngineSample.sample_board
         (EngineSample.sample_options 6) = Resolved r
       /\ visits r = Some 6%nat.
Proof.
  destruct (mcts_root_visits EngineSample.sample_env EngineSample.sample_board
              (EngineSample.sample_options 6) 6 eq_refl ltac:(lia))
    as (_ & _ & Hroot & Hdone).
  split.
  - exact Hroot.
  - exact (Hdone eq_refl sample_inference_succeeds).
Defined.

Example search_of_six_iterations :
  option_map (fun r => (visits r, map move (moveSuggestions r)))
    match analyzePosition EngineSample.sample_env EngineSample.sample_board
            (EngineSample.sample_options 6) with
    | Resolved r => Some r
    | Rejected _ => None
    end
  = Some (Some 6%nat, ["D4"; "PASS"; "E5"]%string).
Proof. vm_compute. reflexivity. Qed.

(** *** The ko filter *)

Lemma sum_from (l : list MoveSuggestion) (acc : Q) :
  fold_left (fun sum s => sum + probability s) l acc
  == acc + total_probability l.
Proof.
  unfold total_probability. revert acc.
  induction l as [|s l IH]; intros acc; cbn [fold_left].
  - ring.
  - rewrite (IH (acc + probability s)), (IH (0 + probability s)). ring.
Qed.

Lemma sum_scaled (t : Q) (l : list MoveSuggestion) :
  total_probability
    (map (fun s => mkSuggestion (move s) (probability s / t)) l)
  == total_probability l / t.
Proof.
  induction l as [|s l IH].
  - unfold total_probability. cbn. unfold Qdiv. ring.
  - unfold total_probability in *. cbn [map fold_left probability].
    rewrite sum_from, (sum_from l (0 + probability s)).
    unfold total_probability. rewrite IH. unfold Qdiv. ring.
Qed.

Lemma Qltb_lt (a b : Q) : Qltb a b = true <-> a < b.
Proof.
  unfold Qltb. rewrite negb_true_iff. split.
  - intros H. apply Qnot_le_lt. intros Hle. apply Qle_bool_iff in Hle. congruence.
  - intros H. destruct (Qle_bool b a) eqn:E; [|reflexivity].
    apply Qle_bool_iff in E. exfalso. exact (Qlt_not_le _ _ H E).
Qed.

Lemma letter_at_truthy (i : Z) (rest : string) :
  truthy_string (Some (letter_at i ++ rest)%string) = true.
Proof. unfold letter_at. destruct (index letters i); reflexivity. Qed.

Lemma getKoVertex_truthy (board : GoBoard) (pla : Sign) (size : Z) (ko : string) :
  _getKoVertex board pla size = Some ko -> truthy_string (Some ko) = true.
Proof.
  unfold _getKoVertex. destruct (_koInfo board) as [k|]; [|discriminate].
  destruct (_ || _); [discriminate|]. intros [= <-]. apply letter_at_truthy.
Qed.

(** C5, as stated, fails: a surviving suggestion does not make the remaining
    probabilities sum to 1.  With the ko at D4 for Black and the suggestions
    D4 with probability 1 and E5 with probability 0, E5 survives, the total
    is not positive, nothing is renormalised and the sum stays 0. *)
Lemma ko_survivor_with_zero_total :
  let board := mkBoard EngineSample.sample_board (Some (mkKo 1%Z (3, 5)%Z)) in
  let result :=
    mkAnalysis [mkSuggestion "D4" 1; mkSuggestion "E5" 0] (1 # 2) 0 TurnB None None in
  _getKoVertex board 1%Z 9%Z = Some "D4"%string
  /\ moveSuggestions (_filterKoMoves result board 1%Z 9%Z) = [mkSuggestion "E5" 0]
  /\ ~ total_probability (moveSuggestions (_filterKoMoves result board 1%Z 9%Z)) == 1.
Proof.
  cbv zeta. split; [reflexivity|]. split; [reflexivity|].
  vm_compute. discriminate.
Qed.

(** C5, amended.  When a ko vertex applies to the side to move, the filter
    removes exactly the suggestions whose coordinate equals it, in order;
    whenever the total of the surviving probabilities is positive each
    survivor's probability is divided by that total, so the remaining
    probabilities sum to 1 (exactly, in exact arithmetic), and otherwise the
    survivors are left as they are.  When no ko vertex applies the result is
    returned unchanged. *)
Theorem ko_filter_renormalises (result : AnalysisResult) (board : GoBoard)
    (pla : Sign) (size : Z) :
  match _getKoVertex board pla size with
  | None => _filterKoMoves result board pla size = result
  | Some ko =>
      let kept := survivors ko (moveSuggestions result) in
      let out := moveSuggestions (_filterKoMoves result board pla size) in
      map move out = map move kept
      /\ (0 < total_probability kept ->
          total_probability out == 1
          /\ Forall2 (fun s s' =>
                        probability s' == probability s / total_probability kept)
                     kept out)
      /\ (~ 0 < total_probability kept -> out = kept)
  end.
Proof.
  destruct (_getKoVertex board pla size) as [ko|] eqn:Hko.
  - pose proof (getKoVertex_truthy _ _ _ _ Hko) as Ht.
    unfold _filterKoMoves. rewrite Hko, Ht. cbn [negb moveSuggestions].
    fold (survivors ko (moveSuggestions result)).
    set (kept := survivors ko (moveSuggestions result)).
    fold (total_probability kept).
    destruct (Qltb 0 (total_probability kept)) eqn:Hpos.
    + apply Qltb_lt in Hpos. split; [|split].
      * rewrite map_map. reflexivity.
      * intros _. split.
        -- rewrite sum_scaled. field. intros E. rewrite E in Hpos.
           exact (Qlt_irrefl _ Hpos).
        -- generalize (total_probability kept) as t. intros t.
           clearbody kept. clear.
           induction kept; cbn; constructor; [reflexivity|assumption].
      * intros Hn. contradiction.
    + split; [reflexivity|]. split; [|reflexivity].
      intros H. apply Qltb_lt in H. congruence.
  - unfold _filterKoMoves. rewrite Hko. reflexivity.
Qed.

Example ko_filter_example :
  let board := mkBoard EngineSample.sample_board (Some (mkKo 1%Z (3, 5)%Z)) in
  let result :=
    mkAnalysis [mkSuggestion "D4" (1 # 2); mkSuggestion "E5" (1 # 4);
                mkSuggestion "PASS" (1 # 8)] (1 # 2) 0 TurnB None None in
  map (fun s => (move s, Qred (probability s)))
      (moveSuggestions (_filterKoMoves result board 1%Z 9%Z))
  = [("E5"%string, 2 # 3); ("PASS"%string, 1 # 3)].
Proof. reflexivity. Qed.

(** *** Ownership *)

Lemma flip_keeps_unit_range (pla : Sign) (v : Q) :
  pla = 1%Z \/ pla = (-1)%Z ->
  (in_unit_range (v * inject_Z pla) <-> in_unit_range v).
Proof.
  unfold in_unit_range. intros [-> | ->].
  - setoid_replace (v * inject_Z 1) with v by ring. tauto.
  - setoid_replace (v * inject_Z (-1)) with (- v) by ring.
    split; intros [H1 H2]; split; lra.
Qed.

Lemma subarray_length {A : Type} (data : list A) (stride : Z) (b : nat) :
  (0 <= stride)%Z ->
  (Z.of_nat (S b) * stride <= Z.of_nat (List.length data))%Z ->
  List.length (subarray data (Z.of_nat b * stride) ((Z.of_nat b + 1) * stride))
  = Z.to_nat stride.
Proof.
  intros Hs Hlen. unfold subarray. rewrite length_firstn, length_skipn.
  assert (E : (Z.of_nat b + 1 = Z.of_nat (S b))%Z) by lia. rewrite E.
  assert (0 <= Z.of_nat b * stride)%Z by (apply Z.mul_nonneg_nonneg; lia).
  assert (Z.of_nat (S b) * stride = Z.of_nat b * stride + stride)%Z by lia.
  lia.
Qed.

(** C6, as stated, fails: nothing is clamped.  With the ownership head
    emitting 2 and -3 the decoded result carries 2 and -3. *)
Lemma ownership_out_of_range :
  ownership (processResults EngineSample.sample_env EngineSample.loud_raw 1%Z 2%Z)
  = Some [2; 0; 0; -(3)]
  /\ ~ in_unit_range 2.
Proof.
  split; [reflexivity|]. unfold in_unit_range. intros [_ H]. revert H.
  apply Qlt_not_le. reflexivity.
Qed.

(** C6, amended.  In output decoding, when the ownership head is present the
    result's ownership is the item's slice of the head (its boardSize^2
    values when the head is long enough) with every value multiplied by the
    current player's sign, +1 for Black and -1 for White; nothing is clamped,
    so an entry lies in [-1,1] exactly when the raw value does.  When the
    head is absent the result has no ownership. *)
Theorem ownership_is_sign_flipped (env : Environment) (results : RawOutputs)
    (pla : Sign) (size : Z) (b : nat) :
  pla = 1%Z \/ pla = (-1)%Z ->
  match raw_ownership results with
  | None => ownership (decodeItem env results pla size b) = None
  | Some data =>
      let raw :=
        subarray data (Z.of_nat b * (size * size))
                 ((Z.of_nat b + 1) * (size * size)) in
      exists own,
        ownership (decodeItem env results pla size b) = Some own
        /\ List.length own = List.length raw
        /\ ((Z.of_nat (S b) * (size * size) <= Z.of_nat (List.length data))%Z ->
            List.length own = Z.to_nat (size * size))
        /\ forall i, (i < List.length raw)%nat ->
             nth i own 0 = nth i raw 0 * inject_Z pla
             /\ (in_unit_range (nth i own 0) <-> in_unit_range (nth i raw 0))
  end.
Proof.
  intros Hpla. unfold decodeItem. cbn [ownership].
  destruct (raw_ownership results) as [data|]; [|reflexivity].
  cbn [option_map]. eexists. split; [reflexivity|].
  split; [apply length_map|]. split.
  - intros Hlen. rewrite length_map. apply subarray_length; [|exact Hlen].
    apply Z.square_nonneg.
  - intros i Hi.
    set (raw := subarray data _ _) in *.
    assert (E : nth i (map (fun v => v * inject_Z pla) raw) 0
                = nth i raw 0 * inject_Z pla).
    { rewrite (nth_indep _ 0 (0 * inject_Z pla)) by (now rewrite length_map).
      apply (map_nth (fun v => v * inject_Z pla)). }
    rewrite E. split; [reflexivity|]. apply flip_keeps_unit_range. exact Hpla.
Qed.

Lemma ownership_is_sign_flipped_witness :
  exists own,
    ownership (decodeItem EngineSample.sample_env EngineSample.sample_raw (-1)%Z 9%Z 0%nat)
    = Some own
    /\ List.length own = 81%nat.
Proof.
  destruct (ownership_is_sign_flipped EngineSample.sample_env
              EngineSample.sample_raw (-1)%Z 9%Z 0%nat (or_intror eq_refl))
    as (own & Hown & _ & Hlen & _).
  exists own. split; [exact Hown|]. apply Hlen. vm_compute. discriminate.
Defined.

(** *** The side to move *)

Lemma tally_row (row : list Sign) (counts : nat * nat) :
  fold_left (fun c s => tally c (Some s)) row counts
  = ((fst counts + count_occ Z.eq_dec row 1%Z)%nat,
     (snd counts + count_occ Z.eq_dec row (-1)%Z)%nat).
Proof.
  revert counts. induction row as [|s row IH]; intros [b w].
  - cbn. f_equal; lia.
  - cbn [fold_left]. rewrite IH. cbn [count_occ].
    destruct s as [|[q|q|]|[q|q|]]; cbn [tally fst snd];
      repeat match goal with
             | |- context [Z.eq_dec ?a ?b] =>
                 destruct (Z.eq_dec a b); try discriminate
             end;
      f_equal; lia.
Qed.

Lemma get_cell (m : SignMap) (x y : nat) :
  get (new_GoBoard m) (Z.of_nat x, Some (Z.of_nat y))
  = match nth_error m y with
    | Some row => nth_error row x
    | None => None
    end.
Proof.
  unfold get, index. cbn [snd fst new_GoBoard signMap].
  assert (Hy : (0 <=? Z.of_nat y)%Z = true) by (apply Z.leb_le; lia).
  assert (Hx : (0 <=? Z.of_nat x)%Z = true) by (apply Z.leb_le; lia).
  rewrite Hy, Hx, !Nat2Z.id. reflexivity.
Qed.

Lemma count_rows (n : nat) (m : SignMap) (counts : nat * nat) :
  Forall (fun row => List.length row = n) m ->
  fold_left
    (fun c row =>
       fold_left (fun c x => tally c (nth_error row x)) (seq 0 n) c)
    m counts
  = ((fst counts + count_occ Z.eq_dec (List.concat m) 1%Z)%nat,
     (snd counts + count_occ Z.eq_dec (List.concat m) (-1)%Z)%nat).
Proof.
  intros H. revert counts. induction H as [|row m Hrow _ IH]; intros [b w].
  - cbn. f_equal; lia.
  - cbn [fold_left List.concat]. rewrite IH. subst n.
    rewrite (fold_indices tally row), tally_row.
    cbn [fst snd]. rewrite !count_occ_app.
    f_equal; symmetry; apply Nat.add_assoc.
Qed.

Lemma square_width (m : SignMap) :
  square m -> Z.to_nat (width (new_GoBoard m)) = List.length m.
Proof.
  unfold square, width. cbn [new_GoBoard signMap].
  destruct m as [|row m]; [reflexivity|].
  intros H. inversion H as [|? ? Hrow _]. rewrite Nat2Z.id. exact Hrow.
Qed.

(** On a square grid the counting loop counts the stones of the grid. *)
Lemma count_stones_square (m : SignMap) :
  square m ->
  count_stones (new_GoBoard m) (width (new_GoBoard m))
  = (stones 1%Z m, stones (-1)%Z m).
Proof.
  intros Hsq. unfold count_stones, stones. rewrite (square_width m Hsq).
  set (n := List.length m).
  transitivity
    (fold_left
       (fun c y =>
          (fun c orow =>
             fold_left
               (fun c x =>
                  tally c match orow with
                          | Some row => nth_error row x
                          | None => None
                          end)
               (seq 0 n) c) c (nth_error m y))
       (seq 0 (List.length m)) (0%nat, 0%nat)).
  - fold n. apply fold_left_pointwise. intros c y.
    apply fold_left_pointwise. intros c' x. now rewrite get_cell.
  - rewrite (fold_indices
               (fun c orow =>
                  fold_left
                    (fun c x =>
                       tally c match orow with
                               | Some row => nth_error row x
                               | None => None
                               end)
                    (seq 0 n) c) m).
    rewrite (count_rows n m (0%nat, 0%nat) Hsq). reflexivity.
Qed.

Lemma nextPla_of_square (options : EngineAnalysisOptions) (m : SignMap) :
  square m ->
  nextPla_of options (new_GoBoard m) (width (new_GoBoard m))
  = side_in_effect (nextToPlay options) m.
Proof.
  intros Hsq. unfold nextPla_of, side_in_effect, side_to_move.
  rewrite (count_stones_square m Hsq). cbn [fst snd].
  destruct (nextToPlay options) as [s|]; [|reflexivity].
  cbn [truthy_string strict_eq_string].
  rewrite (String.eqb_sym "W" s).
  destruct s as [|c s]; reflexivity.
Qed.

Lemma filterKo_fields (result : AnalysisResult) (board : GoBoard) (pla : Sign)
    (size : Z) :
  let r := _filterKoMoves result board pla size in
  currentTurn r = currentTurn result /\ winRate r = winRate result
  /\ scoreLead r = scoreLead result /\ ownership r = ownership result.
Proof.
  unfold _filterKoMoves. destruct (_getKoVertex board pla size);
    [destruct (negb _)|]; repeat split.
Qed.

Lemma decodeItem_black_frame (env : Environment) (raw : RawOutputs)
    (pla : Sign) (size : Z) :
  black_frame env raw pla size (decodeItem env raw pla size 0) true
  /\ currentTurn (decodeItem env raw pla size 0) = turn_of pla.
Proof.
  unfold black_frame, decodeItem.
  cbn [scoreLead ownership winRate currentTurn Z.of_nat].
  rewrite !Z.mul_0_l, !Z.add_0_l, !Z.mul_1_l.
  repeat split.
  destruct (raw_ownership raw); reflexivity.
Qed.

Lemma evaluateSingle_black_frame (env : Environment) (board : GoBoard)
    (pla : Sign) (komi : Q) (hist : list Move) (size : Z) (e : AnalysisResult) :
  _evaluateSingle env board pla komi hist size = Resolved e ->
  currentTurn e = turn_of pla
  /\ exists raw,
       infer env board pla komi hist size = Resolved raw
       /\ black_frame env raw pla size e true.
Proof.
  unfold _evaluateSingle, processResults.
  destruct (infer env board pla komi hist size) as [raw|msg] eqn:Hraw;
    [|discriminate].
  intros [= <-].
  destruct (filterKo_fields (decodeItem env raw pla size 0) board pla size)
    as (Ht & Hw & Hs & Ho).
  destruct (decodeItem_black_frame env raw pla size) as ((Fs & Fo & Fw) & Ft).
  split; [congruence|]. exists raw. split; [reflexivity|].
  unfold black_frame. rewrite Hs, Ho, Hw. auto.
Qed.

Section RootEvaluation.
Variable env : Environment.
Variable komi : Q.
Variable size : Z.

(** The evaluation an iteration hands back is the evaluation of the position
    it started from. *)
Lemma visit_evaluated (node node' : MCTSNode) (board : GoBoard) (pla : Sign)
    (hist : list Move) (v : Q) (e : AnalysisResult) :
  visit env komi size node board pla hist = Resolved (node', v, Some e) ->
  _evaluateSingle env board pla komi hist size = Resolved e.
Proof.
  destruct node as [n w p ch ex]. cbn [visit].
  match goal with
  | |- context [match ?b with Some _ => _ | None => _ end] =>
      destruct b as [[[l' v']|msg]|]
  end; try discriminate.
  destruct (negb ex); [|discriminate].
  destruct (_evaluateSingle _ _ _ _ _ _); [|discriminate].
  now intros [= _ _ <-].
Qed.

Lemma search_rootEval (iterations : nat) (board : GoBoard) (pla : Sign)
    (hist : list Move) :
  forall (root root' : MCTSNode) (rootEval rootEval' : option AnalysisResult)
         (e : AnalysisResult),
    (forall e0, rootEval = Some e0 ->
                _evaluateSingle env board pla komi hist size = Resolved e0) ->
    search env komi size iterations board pla hist root rootEval
    = Resolved (root', rootEval') ->
    rootEval' = Some e ->
    _evaluateSingle env board pla komi hist size = Resolved e.
Proof.
  induction iterations as [|k IH]; intros root root' re re' e Hinv;
    cbn [search].
  - intros [= _ <-]. apply Hinv.
  - destruct (visit env komi size root board pla hist) as [[[r1 v] ev]|msg] eqn:Hv;
      [|discriminate].
    apply IH. intros e0 He0. destruct ev as [leafEval|].
    + injection He0 as <-. exact (visit_evaluated _ _ _ _ _ _ _ Hv).
    + now apply Hinv.
Qed.

Lemma runMCTS_black_frame (board : GoBoard) (pla : Sign) (hist : list Move)
    (numVisits : nat) (r : AnalysisResult) :
  _runMCTS env komi size board pla hist numVisits = Resolved r ->
  currentTurn r = turn_of pla
  /\ exists raw,
       infer env board pla komi hist size = Resolved raw
       /\ black_frame env raw pla size r false.
Proof.
  unfold _runMCTS.
  destruct (search _ _ _ _ _ _ _ _ _) as [[root re]|msg] eqn:Hs; [|discriminate].
  assert (He : forall e, match re with
                         | Some e0 => Resolved e0
                         | None => _evaluateSingle env board pla komi hist size
                         end = Resolved e ->
                         _evaluateSingle env board pla komi hist size = Resolved e).
  { intros e. destruct re as [e0|]; [|auto]. intros [= <-].
    apply (search_rootEval numVisits board pla hist root0 root None (Some e0));
      [discriminate|exact Hs|reflexivity]. }
  destruct (match re with Some e0 => _ | None => _ end) as [e|msg]; [|discriminate].
  specialize (He e eq_refl). intros [= <-]. cbn [currentTurn].
  split; [reflexivity|].
  destruct (evaluateSingle_black_frame env board pla komi hist size e He)
    as (_ & raw & Hraw & Fs & Fo & _).
  exists raw. split; [exact Hraw|]. unfold black_frame.
  cbn [scoreLead ownership]. repeat split; try assumption. discriminate.
Qed.

End RootEvaluation.

(** C10, as stated, fails: a value of [nextToPlay] other than ['W'] does not
    always select Black.  The empty string is a value, and falsy: with it the
    side is counted from the grid, and on a grid with one black stone and no
    white stone the analysis runs, and reports, for White. *)
Lemma empty_nextToPlay_is_counted :
  let options := mkOptions None (Some "") None None None in
  side_to_move (nextToPlay options) EngineSample.sample_board = 1%Z
  /\ nextPla_of options (new_GoBoard EngineSample.sample_board)
                (width (new_GoBoard EngineSample.sample_board))
     = (-1)%Z
  /\ exists r,
       analyzePosition EngineSample.sample_env EngineSample.sample_board options
       = Resolved r
       /\ currentTurn r = TurnW.
Proof.
  cbv zeta. split; [reflexivity|]. split; [reflexivity|].
  eexists. split; [vm_compute; reflexivity|reflexivity].
Qed.

(** C10, amended.  The side to move.  On a square grid, when [nextToPlay] is
    absent or the empty string the side to move is Black if the grid holds as
    many black as white stones and White otherwise; when it is a non-empty
    string, ['W'] selects White and any other value Black.  A completed
    analysis reports that side as [currentTurn], and its score lead and
    ownership (and, for a single visit, its win rate) are those of the
    network's heads for the position of the options and that side, converted
    to Black's frame with that side's sign.  The analysis completes whenever
    the session exists and every run of the network succeeds. *)
Theorem side_to_move_inferred (env : Environment) (m : SignMap)
    (options : EngineAnalysisOptions) :
  square m ->
  let pla := side_in_effect (nextToPlay options) m in
  let size := width (new_GoBoard m) in
  let reports (r : AnalysisResult) : Prop :=
    currentTurn r = (if (pla =? 1)%Z then TurnB else TurnW)
    /\ exists raw,
         infer env (board_of m options) pla (komi_of options)
               (history_of options) size = Resolved raw
         /\ black_frame env raw pla size r
              (negb (1 <? visits_of options)%nat) in
  nextPla_of options (new_GoBoard m) size = pla
  /\ (forall r, analyzePosition env m options = Resolved r -> reports r)
  /\ (session env = true -> inference_succeeds env ->
      exists r, analyzePosition env m options = Resolved r /\ reports r).
Proof.
  intros Hsq pla size reports.
  pose proof (nextPla_of_square options m Hsq) as Hpla.
  fold size in Hpla. fold pla in Hpla.
  assert (Hreports : forall r,
             analyzePosition env m options = Resolved r -> reports r).
  { intros r. rewrite analyzePosition_unfold.
    destruct (negb (session env)); [discriminate|].
    cbv zeta. fold size. rewrite Hpla.
    destruct (1 <? visits_of options)%nat; intros H.
    - exact (runMCTS_black_frame env _ size _ pla _ _ r H).
    - exact (evaluateSingle_black_frame env _ pla _ _ size r H). }
  split; [exact Hpla|]. split; [exact Hreports|].
  intros Hs Hinf.
  destruct (analyzePosition_completes env m options Hs Hinf) as [r Hr].
  exists r. split; [exact Hr|]. now apply Hreports.
Qed.

Lemma sample_board_square : square EngineSample.sample_board.
Proof. repeat constructor. Qed.

Lemma side_to_move_inferred_witness :
  nextPla_of (EngineSample.sample_options 1) (new_GoBoard EngineSample.sample_board) 9
  = (-1)%Z
  /\ exists r,
       analyzePosition EngineSample.sample_env EngineSample.sample_board
         (EngineSample.sample_options 1) = Resolved r
       /\ currentTurn r = TurnW
       /\ exists raw,
            infer EngineSample.sample_env (new_GoBoard EngineSample.sample_board)
                  (-1)%Z (75 # 10) [] 9 = Resolved raw
            /\ black_frame EngineSample.sample_env raw (-1)%Z 9 r true.
Proof.
  destruct (side_to_move_inferred EngineSample.sample_env
              EngineSample.sample_board (EngineSample.sample_options 1)
              sample_board_square) as (H1 & _ & H3).
  split; [exact H1|].
  exact (H3 eq_refl sample_inference_succeeds).
Defined.

Example black_to_move_on_balanced_grid :
  side_in_effect None [[1; -1]; [0; 0]]%Z = 1%Z
  /\ side_in_effect None [[1; 0]; [0; 0]]%Z = (-1)%Z
  /\ side_in_effect (Some "") [[1; 0]; [0; 0]]%Z = (-1)%Z
  /\ side_in_effect (Some "W") [[1; -1]; [0; 0]]%Z = (-1)%Z
  /\ side_in_effect (Some "B") [[1; 0]; [0; 0]]%Z = 1%Z
  /\ side_in_effect (Some "white") [[1; 0]; [0; 0]]%Z = 1%Z.
Proof. repeat split. Qed.

Example white_named_on_sample_board :
  option_map currentTurn
    match analyzePosition EngineSample.sample_env EngineSample.sample_board
            (mkOptions None (Some "B") None None (Some 4%nat)) with
    | Resolved r => Some r
    | Rejected _ => None
    end
  = Some TurnB.
Proof. vm_compute. reflexivity. Qed.

End EngineFacts.

(** ** The position-file emitter *)

Module SgfFacts.
Import Js Sgf SgfSpec.

Lemma mentions_app (c : ascii) (s1 s2 : string) :
  mentions c (s1 ++ s2) = mentions c s1 || mentions c s2.
Proof.
  induction s1 as [|d s1 IH]; cbn; [reflexivity|].
  rewrite IH. apply orb_assoc.
Qed.

(** A two-character needle does not occur in a string that lacks its second
    character. *)
Lemma occurrences_without_second (a b : ascii) (s : string) :
  mentions b s = false -> occurrences (String a (String b "")) s = 0%nat.
Proof.
  induction s as [|d s IH]; cbn [mentions occurrences starts_with];
    [reflexivity|].
  intros H. apply orb_false_elim in H. destruct H as [Hd Hs].
  rewrite (IH Hs). destruct s as [|e s']; cbn [starts_with].
  - now rewrite andb_false_r.
  - cbn [mentions] in Hs. apply orb_false_elim in Hs.
    rewrite (proj1 Hs). cbn. now rewrite andb_false_r.
Qed.

(** Nor in a string whose only occurrence of the second character follows a
    character other than the first. *)
Lemma occurrences_single_second (a b c : ascii) (s1 s2 : string) :
  mentions b s1 = false -> mentions b s2 = false ->
  Ascii.eqb a c = false -> Ascii.eqb b c = false ->
  occurrences (String a (String b "")) (s1 ++ String c (String b s2)) = 0%nat.
Proof.
  intros H1 H2 Hac Hbc. induction s1 as [|d s1 IH].
  - cbn [append occurrences starts_with]. rewrite Hac. cbn [andb].
    pose proof (occurrences_without_second a b s2 H2) as E.
    destruct s2 as [|e s2'].
    + cbn. now rewrite andb_false_r.
    + cbn [mentions] in H2. apply orb_false_elim in H2.
      cbn [occurrences starts_with] in E |- *.
      rewrite (proj1 H2) in *. cbn [andb] in *.
      rewrite andb_false_r in *. exact E.
  - cbn [mentions] in H1. apply orb_false_elim in H1. destruct H1 as [Hd H1].
    cbn [append occurrences]. rewrite (IH H1).
    cbn [starts_with]. destruct s1 as [|e s1']; cbn [append starts_with].
    + rewrite Hbc. now rewrite andb_false_r.
    + cbn [mentions] in H1. apply orb_false_elim in H1.
      rewrite (proj1 H1). now rewrite andb_false_r.
Qed.

Lemma string_of_uint_chars (c : ascii) (d : Decimal.uint) :
  not_decimal c -> mentions c (NilEmpty.string_of_uint d) = false.
Proof.
  unfold not_decimal. cbn [mentions]. intros H.
  repeat (apply orb_false_elim in H; destruct H as [? H]).
  induction d; cbn [NilEmpty.string_of_uint mentions];
    try rewrite IHd; try reflexivity;
    rewrite orb_false_r; assumption.
Qed.

Lemma show_Z_chars (c : ascii) (n : Z) :
  not_decimal c -> mentions c (show_Z n) = false.
Proof.
  intros H. unfold show_Z, NilZero.string_of_int.
  assert (U : forall d, mentions c (NilZero.string_of_uint d) = false).
  { intros d. unfold NilZero.string_of_uint.
    destruct d; try apply (string_of_uint_chars c _ H).
    revert H. unfold not_decimal. cbn [mentions]. intros H.
    repeat (apply orb_false_elim in H; destruct H as [? H]).
    cbn. rewrite orb_false_r. assumption. }
  destruct (Z.to_int n) as [d|d]; [apply U|].
  cbn [mentions]. rewrite U, orb_false_r.
  revert H. unfold not_decimal. cbn [mentions]. intros H.
  apply orb_false_elim in H. exact (proj1 H).
Qed.

(** The characters of a coordinate are lower-case letters, or come from
    "undefined" and "NaN": never [A], [B] or [W]. *)
Lemma ALPHA_at_chars (i : Z) (c : ascii) :
  ALPHA_at i = Some c ->
  Ascii.eqb "B" c = false /\ Ascii.eqb "W" c = false.
Proof.
  unfold ALPHA_at. destruct (0 <=? i)%Z; [|discriminate].
  intros H. apply nth_error_In in H. unfold ALPHA in H. cbn in H.
  repeat (destruct H as [<- | H]; [split; reflexivity|]).
  contradiction.
Qed.

Lemma coord_chars (col row : Z) :
  mentions "B" (coord col row) = false /\ mentions "W" (coord col row) = false.
Proof.
  unfold coord.
  destruct (ALPHA_at col) as [c|] eqn:Hc; destruct (ALPHA_at row) as [r|] eqn:Hr;
    try (apply ALPHA_at_chars in Hc; destruct Hc as [Hc1 Hc2]);
    try (apply ALPHA_at_chars in Hr; destruct Hr as [Hr1 Hr2]);
    cbn [mentions append]; rewrite ?Hc1, ?Hc2, ?Hr1, ?Hr2; split; reflexivity.
Qed.

Lemma entries_chars (l : list DetectedStone) :
  mentions "B" (join (entries l)) = false
  /\ mentions "W" (join (entries l)) = false.
Proof.
  induction l as [|s l [IHb IHw]]; [split; reflexivity|].
  cbn [entries map join fold_right]. fold (entries l). fold (join (entries l)).
  destruct (coord_chars (x s) (y s)) as [Hb Hw].
  rewrite !mentions_app. cbn [mentions append].
  rewrite ?mentions_app, Hb, Hw, IHb, IHw. split; reflexivity.
Qed.

Lemma letter_at_board (i : Z) :
  (0 <= i < 19)%Z -> ALPHA_at i = Some (letter i).
Proof.
  intros H. unfold ALPHA_at, letter.
  assert (E : (0 <=? i)%Z = true) by (apply Z.leb_le; lia). rewrite E.
  assert (Hk : (Z.to_nat i < 19)%nat) by lia.
  generalize dependent (Z.to_nat i). clear. intros k Hk.
  do 19 (destruct k as [|k]; [reflexivity|]). lia.
Qed.

Lemma letter_injective (i j : Z) :
  (0 <= i < 19)%Z -> (0 <= j < 19)%Z -> letter i = letter j -> i = j.
Proof.
  intros Hi Hj H. unfold letter in H.
  apply (f_equal nat_of_ascii) in H.
  rewrite !nat_ascii_embedding in H by lia. lia.
Qed.

Lemma coord_on_board (col row : Z) :
  (0 <= col < 19)%Z -> (0 <= row < 19)%Z -> coord col row = sgf_coord col row.
Proof.
  intros Hc Hr. unfold coord.
  now rewrite (letter_at_board col Hc), (letter_at_board row Hr).
Qed.

(** Every stone of the list contributes one entry: an entry occurs as often
    as there are stones at its coordinate. *)
Lemma entries_count (c : StoneColor) (col row : Z) (l : list DetectedStone) :
  Forall on_board l -> (0 <= col < 19)%Z -> (0 <= row < 19)%Z ->
  count_occ string_dec (entries (filter (is_color c) l))
            ("[" ++ sgf_coord col row ++ "]")
  = stones_at c col row l.
Proof.
  intros Hl Hc Hr. unfold stones_at.
  induction Hl as [|s l [Hx Hy] _ IH]; [reflexivity|].
  cbn [filter]. destruct (is_color c s); cbn [andb]; [|exact IH].
  cbn [entries map count_occ]. fold (entries (filter (is_color c) l)).
  rewrite (coord_on_board _ _ Hx Hy).
  destruct (string_dec _ _) as [E | NE].
  - injection E as E1 E2.
    apply (letter_injective _ _ Hx Hc) in E1.
    apply (letter_injective _ _ Hy Hr) in E2.
    subst. rewrite !Z.eqb_refl. cbn [List.length]. now rewrite IH.
  - destruct (Z.eqb_spec (x s) col) as [E1|]; cbn [andb]; [|exact IH].
    destruct (Z.eqb_spec (y s) row) as [E2|]; [|exact IH].
    exfalso. apply NE. now rewrite E1, E2.
Qed.

Lemma filter_nil_length {A : Type} (l : list A) :
  l = [] -> (0 <? List.length l)%nat = false.
Proof. now intros ->. Qed.

Lemma filter_cons_length {A : Type} (l : list A) :
  l <> [] -> (0 <? List.length l)%nat = true.
Proof. destruct l; [contradiction|reflexivity]. Qed.

Lemma append_to_right (s1 s2 s3 : string) :
  (s1 ++ s2) ++ s3 = s1 ++ (s2 ++ s3).
Proof. induction s1 as [|c s1 IH]; cbn; [reflexivity|now rewrite IH]. Qed.

(** The emitted record, with its concatenations nested to the right. *)
Lemma buildSGF_normal (boardSize : Z) (stones : list DetectedStone) :
  buildSGF boardSize stones
  = "(;GM[1]FF[4]SZ["
    ++ show_Z boardSize
    ++ "]AP[Kaya Board Recognition]"
    ++ block "AB" (filter (is_color black) stones)
    ++ block "AW" (filter (is_color white) stones)
    ++ newline ++ ")".
Proof.
  unfold buildSGF, block.
  destruct (0 <? List.length (filter (is_color black) stones))%nat,
           (0 <? List.length (filter (is_color white) stones))%nat;
    rewrite ?append_to_right; reflexivity.
Qed.

(** C8, as stated, fails: the emitter does not deduplicate.  A stone given
    twice is written twice. *)
Lemma duplicate_stone_is_written_twice :
  buildSGF 9 [mkStone 3 3 black; mkStone 3 3 black]
  = "(;GM[1]FF[4]SZ[9]AP[Kaya Board Recognition]AB[dd][dd]" ++ newline ++ ")"
  /\ occurrences "[dd]" (buildSGF 9 [mkStone 3 3 black; mkStone 3 3 black])
     = 2%nat.
Proof. split; reflexivity. Qed.

(** C8, amended.  For every board size and every list of stones on the board,
    the emitted record contains the size property with the board size; a
    colour without stones contributes no property block (neither "AB" nor
    "AW" occurs for it); a colour with stones contributes its tag followed by
    one bracketed coordinate per stone of that colour, in input order, with
    column then row as letters from 'a'; so a coordinate is written as many
    times as the input lists a stone of that colour there: once exactly when
    the input has it once. *)
Theorem position_file_contents (boardSize : Z) (stones : list DetectedStone) :
  Forall on_board stones ->
  let out := buildSGF boardSize stones in
  let blacks := filter (is_color black) stones in
  let whites := filter (is_color white) stones in
  (exists pre post, out = pre ++ "SZ[" ++ show_Z boardSize ++ "]" ++ post)
  /\ (blacks = [] -> occurrences "AB" out = 0%nat)
  /\ (whites = [] -> occurrences "AW" out = 0%nat)
  /\ (blacks <> [] ->
      exists pre post, out = pre ++ "AB" ++ join (entries blacks) ++ post)
  /\ (whites <> [] ->
      exists pre post, out = pre ++ "AW" ++ join (entries whites) ++ post)
  /\ (forall col row, (0 <= col < 19)%Z -> (0 <= row < 19)%Z ->
        count_occ string_dec (entries blacks) ("[" ++ sgf_coord col row ++ "]")
        = stones_at black col row stones
        /\ count_occ string_dec (entries whites) ("[" ++ sgf_coord col row ++ "]")
           = stones_at white col row stones).
Proof.
  intros Hon out blacks whites.
  assert (DB : mentions "B" (show_Z boardSize) = false)
    by (apply show_Z_chars; reflexivity).
  assert (DW : mentions "W" (show_Z boardSize) = false)
    by (apply show_Z_chars; reflexivity).
  destruct (entries_chars blacks) as [BB BW].
  destruct (entries_chars whites) as [WB WW].
  pose proof (buildSGF_normal boardSize stones) as E.
  fold out blacks whites in E.
  split; [|split; [|split; [|split; [|split]]]].
  - exists "(;GM[1]FF[4]". eexists. rewrite E. reflexivity.
  - intros Hb.
    set (tail := block "AW" whites ++ newline ++ ")").
    assert (Ht : mentions "B" tail = false).
    { unfold tail, block. destruct (0 <? List.length whites)%nat;
        rewrite ?mentions_app; cbn [mentions append]; rewrite ?WB; reflexivity. }
    assert (E' : out
                 = ("(;GM[1]FF[4]SZ[" ++ show_Z boardSize ++ "]AP[Kaya")
                   ++ String " " (String "B" ("oard Recognition]" ++ tail))).
    { rewrite E. unfold block at 1. rewrite (filter_nil_length blacks Hb).
      rewrite ?append_to_right. reflexivity. }
    rewrite E'. apply occurrences_single_second; try reflexivity.
    + rewrite !mentions_app, DB. reflexivity.
    + rewrite mentions_app, Ht. reflexivity.
  - intros Hw. rewrite E. unfold block at 2.
    rewrite (filter_nil_length whites Hw).
    apply occurrences_without_second.
    unfold block. destruct (0 <? List.length blacks)%nat;
      rewrite !mentions_app; cbn [mentions append];
      rewrite ?mentions_app, ?DW, ?BW; reflexivity.
  - intros Hb.
    exists ("(;GM[1]FF[4]SZ[" ++ show_Z boardSize ++ "]AP[Kaya Board Recognition]").
    eexists. rewrite E. unfold block at 1.
    rewrite (filter_cons_length blacks Hb).
    rewrite ?append_to_right. reflexivity.
  - intros Hw.
    exists ("(;GM[1]FF[4]SZ[" ++ show_Z boardSize ++ "]AP[Kaya Board Recognition]"
            ++ block "AB" blacks).
    exists (newline ++ ")"). rewrite E. unfold block at 2.
    rewrite (filter_cons_length whites Hw).
    rewrite ?append_to_right. reflexivity.
  - intros col row Hc Hr. split; apply entries_count; assumption.
Qed.

Lemma position_file_contents_witness :
  let stones := [mkStone 3 3 black; mkStone 5 5 white] in
  (exists pre post, buildSGF 9 stones = pre ++ "SZ[" ++ show_Z 9 ++ "]" ++ post)
  /\ (exists pre post, buildSGF 9 stones = pre ++ "AB[dd]" ++ post)
  /\ (exists pre post, buildSGF 9 stones = pre ++ "AW[ff]" ++ post).
Proof.
  cbv zeta.
  assert (Hon : Forall on_board [mkStone 3 3 black; mkStone 5 5 white]).
  { repeat constructor; cbn; lia. }
  destruct (position_file_contents 9 [mkStone 3 3 black; mkStone 5 5 white] Hon)
    as (Hsz & _ & _ & Hb & Hw & _).
  split; [exact Hsz|]. split.
  - destruct Hb as (pre & post & E); [discriminate|]. exists pre, post. exact E.
  - destruct Hw as (pre & post & E); [discriminate|]. exists pre, post. exact E.
Defined.

Example empty_board_has_no_blocks :
  buildSGF 19 [] = "(;GM[1]FF[4]SZ[19]AP[Kaya Board Recognition]" ++ newline ++ ")"
  /\ occurrences "AB" (buildSGF 19 []) = 0%nat
  /\ occurrences "AW" (buildSGF 19 []) = 0%nat.
Proof. repeat split. Qed.

End SgfFacts.

(** ** The perspective warp *)

Module PerspectiveFacts.
Import Perspective PerspectiveSpec ListFacts.

Local Open Scope list_scope.

Lemma store_at_end (pre rest : list Z) (old v : Z) :
  store (pre ++ old :: rest) (List.length pre) v = pre ++ v :: rest.
Proof. induction pre as [|b pre IH]; cbn; [reflexivity|now rewrite IH]. Qed.

Lemma store_shifted (pre rest : list Z) (k : nat) (v : Z) :
  store (pre ++ rest) (List.length pre + k) v = pre ++ store rest k v.
Proof. induction pre as [|b pre IH]; cbn; [reflexivity|now rewrite IH]. Qed.

(** Writing a pixel over four bytes that follow [pre]. *)
Lemma write_pixel_at (pre rest : list Z) (o0 o1 o2 o3 : Z) (px : Z * Z * Z * Z) :
  write_pixel (pre ++ o0 :: o1 :: o2 :: o3 :: rest) (List.length pre) px
  = pre ++ bytes px ++ rest.
Proof.
  destruct px as [[[r g] b] a]. unfold write_pixel.
  replace (S (S (S (List.length pre)))) with (List.length pre + 3)%nat by lia.
  replace (S (S (List.length pre))) with (List.length pre + 2)%nat by lia.
  replace (S (List.length pre)) with (List.length pre + 1)%nat by lia.
  rewrite store_at_end.
  rewrite (store_shifted pre), (store_shifted pre), (store_shifted pre).
  reflexivity.
Qed.

(** The inner loop fills one row of zeroes with the pixels of that row. *)
Lemma fill_row (f : nat -> Z * Z * Z * Z) (base : nat) :
  forall (m j : nat) (pre rest : list Z),
    List.length pre = ((base + j) * 4)%nat ->
    fold_left (fun out ox => write_pixel out ((base + ox) * 4) (f ox))
              (seq j m) (pre ++ repeat 0%Z (m * 4) ++ rest)
    = pre ++ flat_map (fun ox => bytes (f ox)) (seq j m) ++ rest.
Proof.
  induction m as [|m IH]; intros j pre rest Hpre; [reflexivity|].
  cbn [seq fold_left flat_map repeat Nat.mul Nat.add app].
  rewrite <- Hpre, write_pixel_at.
  replace (pre ++ bytes (f j) ++ repeat 0%Z (m * 4) ++ rest)
    with ((pre ++ bytes (f j)) ++ repeat 0%Z (m * 4) ++ rest)
    by (now rewrite <- app_assoc).
  rewrite IH.
  - now rewrite <- !app_assoc.
  - rewrite length_app, Hpre. destruct (f j) as [[[r g] b] a]. cbn. lia.
Qed.

Lemma flat_map_length_const {T : Type} (g : nat -> list T) (k : nat) (l : list nat) :
  (forall i, List.length (g i) = k) ->
  List.length (flat_map g l) = (List.length l * k)%nat.
Proof.
  intros H. induction l as [|i l IH]; [reflexivity|].
  cbn [flat_map List.length]. rewrite length_app, H, IH. lia.
Qed.

Lemma row_length (f : nat -> Z * Z * Z * Z) (j n : nat) :
  List.length (flat_map (fun ox => bytes (f ox)) (seq j n)) = (n * 4)%nat.
Proof.
  rewrite (flat_map_length_const _ 4).
  - now rewrite length_seq.
  - intros i. now destruct (f i) as [[[r g] b] a].
Qed.

(** The outer loop fills the rows one after the other. *)
Lemma fill_rows (f : nat -> nat -> Z * Z * Z * Z) (n : nat) :
  forall (m i : nat) (pre rest : list Z),
    List.length pre = (i * n * 4)%nat ->
    fold_left
      (fun out oy =>
         fold_left (fun out ox => write_pixel out ((oy * n + ox) * 4) (f ox oy))
                   (seq 0 n) out)
      (seq i m) (pre ++ repeat 0%Z (m * (n * 4)) ++ rest)
    = pre
      ++ flat_map (fun oy => flat_map (fun ox => bytes (f ox oy)) (seq 0 n))
                  (seq i m)
      ++ rest.
Proof.
  induction m as [|m IH]; intros i pre rest Hpre; [reflexivity|].
  cbn [seq fold_left flat_map Nat.mul].
  rewrite repeat_app, <- !app_assoc.
  rewrite (fill_row (fun ox => f ox i) (i * n) n 0 pre).
  - replace (pre ++ flat_map (fun ox => bytes (f ox i)) (seq 0 n)
                 ++ repeat 0%Z (m * (n * 4)) ++ rest)
      with ((pre ++ flat_map (fun ox => bytes (f ox i)) (seq 0 n))
              ++ repeat 0%Z (m * (n * 4)) ++ rest)
      by (now rewrite <- app_assoc).
    rewrite IH.
    + now rewrite <- !app_assoc.
    + rewrite length_app, Hpre, row_length. lia.
  - rewrite Hpre. lia.
Qed.

Lemma pixels_bytes (px : Z * Z * Z * Z) (rest : list Z) :
  pixels (bytes px ++ rest) = px :: pixels rest.
Proof. now destruct px as [[[r g] b] a]. Qed.

Lemma pixels_row (g : nat -> Z * Z * Z * Z) (l : list nat) (rest : list Z) :
  pixels (flat_map (fun ox => bytes (g ox)) l ++ rest)
  = map g l ++ pixels rest.
Proof.
  induction l as [|i l IH]; [reflexivity|].
  cbn [flat_map map app]. now rewrite <- app_assoc, pixels_bytes, IH.
Qed.

Lemma pixels_rows (f : nat -> nat -> Z * Z * Z * Z) (n : nat) (l : list nat) :
  pixels (flat_map (fun oy => flat_map (fun ox => bytes (f ox oy)) (seq 0 n)) l)
  = flat_map (fun oy => map (fun ox => f ox oy) (seq 0 n)) l.
Proof.
  induction l as [|i l IH]; [reflexivity|].
  cbn [flat_map]. now rewrite (pixels_row (fun ox => f ox i)), IH.
Qed.

(** In an array of whole pixels, the alpha byte of pixel [k] is the byte at
    index [4k + 3]. *)
Lemma alpha_byte (k : nat) :
  forall d, (k < List.length (pixels d))%nat ->
            nth (4 * k + 3) d 0%Z = alpha (nth k (pixels d) (0, 0, 0, 0)%Z).
Proof.
  induction k as [|k IH]; intros d Hk;
    destruct d as [|r [|g [|b [|a rest]]]]; try (cbn in Hk; lia).
  - reflexivity.
  - cbn [pixels List.length] in Hk.
    replace (4 * S k + 3)%nat with (S (S (S (S (4 * k + 3))))) by lia.
    cbn [nth pixels]. apply IH. lia.
Qed.

Section WarpFacts.
Variable A : Arith.

Lemma sample_alpha (img : RawImage) (sx sy : num A) :
  alpha (sample A img sx sy) = 255%Z.
Proof. unfold sample. destruct (_ || _); reflexivity. Qed.

(** The output array, as the pixels sampled for each output position. *)
Lemma warp_data (img : RawImage) (corners : BoardCorners A) (outSize : Z) :
  (0 <= outSize)%Z ->
  data (warpPerspective A img corners outSize)
  = flat_map
      (fun oy =>
         flat_map
           (fun ox =>
              bytes (let '(sx, sy) :=
                       source_of A (Hinv_of A corners outSize) img outSize ox oy in
                     sample A img sx sy))
           (seq 0 (Z.to_nat outSize)))
      (seq 0 (Z.to_nat outSize)).
Proof.
  intros Hn. unfold warpPerspective. cbn [data].
  set (n := Z.to_nat outSize).
  replace (Z.to_nat (outSize * outSize * 4)) with (n * (n * 4))%nat
    by (unfold n; rewrite !Z2Nat.inj_mul by nia; lia).
  pose proof (fill_rows
                (fun ox oy =>
                   let '(sx, sy) :=
                     source_of A (Hinv_of A corners outSize) img outSize ox oy in
                   sample A img sx sy) n n 0 [] [] eq_refl) as H.
  cbn [app] in H. rewrite !app_nil_r in H.
  etransitivity; [|exact H]. clear H.
  apply fold_left_pointwise. intros out oy.
  apply fold_left_pointwise. intros out' ox.
  now destruct (source_of A (Hinv_of A corners outSize) img outSize ox oy).
Qed.

Lemma warp_pixels (img : RawImage) (corners : BoardCorners A) (outSize : Z) :
  (0 <= outSize)%Z ->
  pixels (data (warpPerspective A img corners outSize))
  = row_major (Z.to_nat outSize)
      (fun ox oy =>
         let '(sx, sy) :=
           source_of A (Hinv_of A corners outSize) img outSize ox oy in
         sample A img sx sy).
Proof.
  intros Hn. rewrite (warp_data img corners outSize Hn).
  apply (pixels_rows
           (fun ox oy =>
              let '(sx, sy) :=
                source_of A (Hinv_of A corners outSize) img outSize ox oy in
              sample A img sx sy)).
Qed.

Lemma row_major_length {T : Type} (n : nat) (f : nat -> nat -> T) :
  List.length (row_major n f) = (n * n)%nat.
Proof.
  unfold row_major. rewrite (flat_map_length_const _ n).
  - now rewrite length_seq.
  - intros i. now rewrite length_map, length_seq.
Qed.

Lemma row_major_Forall {T : Type} (P : T -> Prop) (n : nat)
    (f : nat -> nat -> T) :
  (forall ox oy, P (f ox oy)) -> Forall P (row_major n f).
Proof.
  intros H. unfold row_major. apply Forall_flat_map.
  apply Forall_forall. intros oy _. apply Forall_map.
  apply Forall_forall. intros ox _. apply H.
Qed.

Lemma degenerate_Hinv (corners : BoardCorners A) (outSize : Z) :
  degenerate A corners outSize -> Hinv_of A corners outSize = None.
Proof.
  unfold degenerate, Hinv_of. intros [-> | (h & -> & Hh)]; [reflexivity|exact Hh].
Qed.

(** C9.  The warp always returns an image.  For every source image, every
    four corners and every positive output size, whatever the floating-point
    operations yield, [warpPerspective] returns an image of width and height
    [outSize] whose data holds [outSize * outSize] RGBA pixels, each with
    alpha byte 255; and when the corners are degenerate (the homography
    system is found singular or its matrix non-invertible) the pixels are
    those of the axis-aligned scaling of the whole source image. *)
Theorem warp_is_total (img : RawImage) (corners : BoardCorners A) (outSize : Z) :
  (0 < outSize)%Z ->
  let r := warpPerspective A img corners outSize in
  let n := Z.to_nat outSize in
  width r = outSize /\ height r = outSize
  /\ List.length (data r) = (n * n * 4)%nat
  /\ List.length (pixels (data r)) = (n * n)%nat
  /\ (forall k, (k < n * n)%nat -> nth (4 * k + 3) (data r) 0%Z = 255%Z)
  /\ (degenerate A corners outSize ->
      pixels (data r) = row_major n (scaled A img outSize)).
Proof.
  intros Hpos r n.
  assert (Hn : (0 <= outSize)%Z) by lia.
  pose proof (warp_pixels img corners outSize Hn) as Hpx. fold r n in Hpx.
  split; [reflexivity|]. split; [reflexivity|]. split; [|split; [|split]].
  - unfold r. rewrite (warp_data img corners outSize Hn). fold n.
    rewrite (flat_map_length_const _ (n * 4)).
    + rewrite length_seq. lia.
    + intros oy. apply row_length.
  - rewrite Hpx. apply row_major_length.
  - intros k Hk. rewrite alpha_byte by (rewrite Hpx, row_major_length; exact Hk).
    rewrite Hpx.
    set (f := fun ox oy => _).
    assert (F : Forall (fun px => alpha px = 255%Z) (row_major n f)).
    { apply row_major_Forall. intros ox oy. unfold f.
      destruct (source_of A _ img outSize ox oy). apply sample_alpha. }
    rewrite Forall_forall in F. apply F. apply nth_In.
    now rewrite row_major_length.
  - intros Hdeg. rewrite Hpx, (degenerate_Hinv corners outSize Hdeg).
    reflexivity.
Qed.

End WarpFacts.

Lemma warp_is_total_witness :
  let r := warpPerspective PerspectiveSample.rational PerspectiveSample.tiny
             PerspectiveSample.collapsed_corners 3 in
  width r = 3%Z /\ height r = 3%Z
  /\ List.length (data r) = 36%nat
  /\ List.length (pixels (data r)) = 9%nat
  /\ (forall k, (k < 9)%nat -> nth (4 * k + 3) (data r) 0%Z = 255%Z)
  /\ (degenerate PerspectiveSample.rational
                 PerspectiveSample.collapsed_corners 3 ->
      pixels (data r)
      = row_major 3 (scaled PerspectiveSample.rational PerspectiveSample.tiny 3)).
Proof.
  apply (warp_is_total PerspectiveSample.rational PerspectiveSample.tiny
           PerspectiveSample.collapsed_corners 3).
  lia.
Defined.

Example coincident_corners_are_degenerate :
  degenerate PerspectiveSample.rational PerspectiveSample.collapsed_corners 3
  /\ pixels (data (warpPerspective PerspectiveSample.rational
                     PerspectiveSample.tiny
                     PerspectiveSample.collapsed_corners 3))
     = [ (255, 0, 0, 255); (128, 128, 0, 255); (0, 255, 0, 255);
         (128, 0, 128, 255); (128, 128, 128, 255); (255, 255, 255, 255);
         (0, 0, 255, 255); (255, 255, 255, 255); (255, 255, 255, 255) ]%Z.
Proof. split; [left|]; vm_compute; reflexivity. Qed.

Example collinear_corners_are_degenerate :
  degenerate PerspectiveSample.rational
    (PerspectiveSample.pt 0 0, PerspectiveSample.pt 1 0,
     PerspectiveSample.pt 2 0, PerspectiveSample.pt 3 0) 3.
Proof. left. vm_compute. reflexivity. Qed.

End PerspectiveFacts.

(** ** Corner ordering *)

Module CornersFacts.
Import Js Corners CornersSpec ListFacts.

Local Open Scope list_scope.
Local Open Scope Q_scope.

(** *** Sorting *)

Section SortTransport.
Variables (I T : Type) (g : I -> T).
Variable cmpT : T -> T -> Z.
Variable cmpI : I -> I -> Z.
Hypothesis agree : forall a b, (cmpT (g a) (g b) <? 0)%Z = (cmpI a b <? 0)%Z.

Lemma sort_insert_map (x : I) (l : list I) :
  sort_insert cmpT (g x) (map g l) = map g (sort_insert cmpI x l).
Proof.
  induction l as [|y l IH]; cbn [map sort_insert]; [reflexivity|].
  rewrite agree. destruct (cmpI x y <? 0)%Z; cbn [map]; [reflexivity|].
  now rewrite IH.
Qed.

(** Sorting the images of a list sorts the list, when the two comparators
    agree. *)
Lemma sort_map (l : list I) : sort cmpT (map g l) = map g (sort cmpI l).
Proof.
  unfold sort. change (@nil T) with (map g []).
  generalize (@nil I) as acc. induction l as [|x l IH]; intros acc;
    cbn [map fold_left]; [reflexivity|].
  now rewrite sort_insert_map, IH.
Qed.

End SortTransport.

(** The four slots in any order sort to slot order. *)
Lemma sort_slots (l : list Slot) :
  Permutation l [slot0; slot1; slot2; slot3] ->
  sort by_rank l = [slot0; slot1; slot2; slot3].
Proof.
  intros H.
  assert (Hlen : List.length l = 4%nat) by exact (Permutation_length H).
  assert (Hin : forall s, existsb (slot_eqb s) l = true).
  { intros s. apply existsb_exists. exists s. split.
    - apply (Permutation_in s (Permutation_sym H)).
      destruct s; cbn; tauto.
    - now destruct s. }
  pose proof (Hin slot0) as H0. pose proof (Hin slot1) as H1.
  pose proof (Hin slot2) as H2. pose proof (Hin slot3) as H3.
  clear H Hin.
  destruct l as [|a [|b [|c [|d [|e l]]]]]; try discriminate Hlen.
  destruct a, b, c, d; try discriminate H0; try discriminate H1;
    try discriminate H2; try discriminate H3; reflexivity.
Qed.

(** *** The order of angles *)


Lemma sector_spec (y x : Q) : SectorSpec y x (sector y x).
Proof.
  unfold sector. destruct (Qcompare_spec y 0) as [E | L | G].
  - destruct (Qle_bool 0 x) eqn:Hx.
    + apply Sector_zero; [exact E|now apply Qle_bool_iff].
    + apply Sector_pi; [exact E|].
      apply Qnot_le_lt. intros H. apply Qle_bool_iff in H. congruence.
  - now apply Sector_lower.
  - now apply Sector_upper.
Qed.

Lemma Qcompare_0_Lt (c : Q) : Qcompare 0 c = Lt <-> 0 < c.
Proof. symmetry. apply Qlt_alt. Qed.

(** A counter-clockwise turn of less than half a circle that does not
    increase the angle crosses the negative x axis: it leaves the closed
    upper half plane for the open lower one. *)
Lemma atan2_compare_cut (y1 x1 y2 x2 : Q) :
  0 < x1 * y2 - y1 * x2 ->
  atan2_compare y1 x1 y2 x2 <> Lt ->
  y2 < 0 /\ 0 <= y1.
Proof.
  intros Hc Hn. unfold atan2_compare in Hn.
  destruct (sector_spec y1 x1) as [L1 | E1 P1 | G1 | E1 N1];
    destruct (sector_spec y2 x2) as [L2 | E2 P2 | G2 | E2 N2];
    cbn [Z.compare Z.eqb Pos.compare Pos.compare_cont Pos.eqb orb CompOpp] in Hn; try (exfalso; apply Hn; reflexivity);
    try (exfalso; apply Hn; now apply Qcompare_0_Lt);
    try (split; lra); exfalso;
    try rewrite E1 in Hc; try rewrite E2 in Hc; nra.
Qed.

Lemma atan2_compare_refl (y x : Q) : atan2_compare y x y x = Eq.
Proof.
  unfold atan2_compare. rewrite Z.compare_refl.
  destruct (_ || _); [reflexivity|]. apply Qeq_alt. ring.
Qed.

Lemma Qcompare_0_opp (c d : Q) : d == - c -> Qcompare 0 d = CompOpp (Qcompare 0 c).
Proof.
  intros E.
  destruct (Qcompare_spec 0 c); destruct (Qcompare_spec 0 d);
    cbn [CompOpp]; try reflexivity; exfalso; lra.
Qed.

Lemma atan2_compare_antisym (y1 x1 y2 x2 : Q) :
  atan2_compare y2 x2 y1 x1 = CompOpp (atan2_compare y1 x1 y2 x2).
Proof.
  unfold atan2_compare. rewrite (Z.compare_antisym (sector y1 x1) (sector y2 x2)).
  destruct (Z.compare_spec (sector y1 x1) (sector y2 x2)) as [E|L|G]; cbn [CompOpp];
    try reflexivity.
  rewrite E. destruct (_ || _); [reflexivity|].
  apply Qcompare_0_opp. ring.
Qed.

Lemma atan2_compare_trans (y1 x1 y2 x2 y3 x3 : Q) :
  atan2_compare y1 x1 y2 x2 = Lt -> atan2_compare y2 x2 y3 x3 = Lt ->
  atan2_compare y1 x1 y3 x3 = Lt.
Proof.
  unfold atan2_compare.
  assert (I : y2 * (x1 * y3 - y1 * x3)
              == y3 * (x1 * y2 - y1 * x2) + y1 * (x2 * y3 - y2 * x3)) by ring.
  destruct (sector_spec y1 x1) as [L1 | E1 P1 | G1 | E1 N1];
    destruct (sector_spec y2 x2) as [L2 | E2 P2 | G2 | E2 N2];
    destruct (sector_spec y3 x3) as [L3 | E3 P3 | G3 | E3 N3];
    cbn [Z.compare Z.eqb Pos.compare Pos.compare_cont Pos.eqb orb CompOpp]; try discriminate; try reflexivity;
    rewrite !Qcompare_0_Lt; intros A B; nra.
Qed.

(** *** Geometry *)

Lemma centroid_turn (a b c d : Point) (cx cy : Q) :
  cx * 4 == fst a + fst b + fst c + fst d ->
  cy * 4 == snd a + snd b + snd c + snd d ->
  0 < orient a b c -> 0 < orient d a b ->
  0 < (fst a - cx) * (snd b - cy) - (snd a - cy) * (fst b - cx).
Proof.
  unfold orient. intros Hx Hy H1 H2.
  assert (Ex : cx == (fst a + fst b + fst c + fst d) * (1 # 4)) by lra.
  assert (Ey : cy == (snd a + snd b + snd c + snd d) * (1 # 4)) by lra.
  rewrite Ex, Ey.
  assert (I : ((fst a - (fst a + fst b + fst c + fst d) * (1 # 4))
               * (snd b - (snd a + snd b + snd c + snd d) * (1 # 4))
               - (snd a - (snd a + snd b + snd c + snd d) * (1 # 4))
                 * (fst b - (fst a + fst b + fst c + fst d) * (1 # 4))) * 4
              == ((fst b - fst a) * (snd c - snd a) - (snd b - snd a) * (fst c - fst a))
                 + ((fst a - fst d) * (snd b - snd d) - (snd a - snd d) * (fst b - fst d)))
    by ring.
  lra.
Qed.

Lemma no_opposite_cuts (x0 y0 x1 y1 x2 y2 x3 y3 : Q) :
  0 < x0 * y1 - y0 * x1 -> 0 < x1 * y2 - y1 * x2 ->
  0 < x2 * y3 - y2 * x3 -> 0 < x3 * y0 - y3 * x0 ->
  0 <= y0 -> y1 < 0 -> 0 <= y2 -> y3 < 0 -> False.
Proof.
  intros F0 F1 F2 F3 H0 H1 H2 H3.
  assert (I1 : y1 * (x0 * y2 - y0 * x2)
               == y2 * (x0 * y1 - y0 * x1) + y0 * (x1 * y2 - y1 * x2)) by ring.
  assert (I2 : y3 * (x2 * y0 - y2 * x0)
               == y0 * (x2 * y3 - y2 * x3) + y2 * (x3 * y0 - y3 * x0)) by ring.
  assert (A1 : 0 <= y2 * (x0 * y1 - y0 * x1)) by (apply Qmult_le_0_compat; lra).
  assert (A2 : 0 <= y0 * (x1 * y2 - y1 * x2)) by (apply Qmult_le_0_compat; lra).
  assert (A3 : 0 <= y0 * (x2 * y3 - y2 * x3)) by (apply Qmult_le_0_compat; lra).
  assert (A4 : 0 <= y2 * (x3 * y0 - y3 * x0)) by (apply Qmult_le_0_compat; lra).
  set (C := x0 * y2 - y0 * x2) in *.
  assert (EC : x2 * y0 - y2 * x0 == - C) by (unfold C; ring).
  rewrite EC in I2.
  assert (B1 : C <= 0).
  { apply Qnot_lt_le. intros HC.
    assert (y1 * C < 0) by nra. lra. }
  assert (B2 : 0 <= C).
  { apply Qnot_lt_le. intros HC.
    assert (y3 * - C < 0) by nra. lra. }
  assert (C0 : C == 0) by lra.
  rewrite C0 in I1.
  assert (Z2 : y2 * (x0 * y1 - y0 * x1) == 0) by lra.
  assert (Z0 : y0 * (x1 * y2 - y1 * x2) == 0) by lra.
  assert (Y2 : y2 == 0).
  { apply Qmult_integral in Z2. destruct Z2 as [Z2|Z2]; [exact Z2|lra]. }
  assert (Y0 : y0 == 0).
  { apply Qmult_integral in Z0. destruct Z0 as [Z0|Z0]; [exact Z0|lra]. }
  rewrite Y0 in F0, F3.
  assert (P1 : 0 < x0 * y1) by lra.
  assert (P2 : 0 < - y3 * x0) by lra.
  nra.
Qed.

(** *** The cyclic order around the centroid *)


Section Around.
Variables cx cy : Q.

Lemma angle_lt_trans (a b c : Point) :
  angle_lt cx cy a b -> angle_lt cx cy b c -> angle_lt cx cy a c.
Proof. apply atan2_compare_trans. Qed.

Lemma angle_lt_irrefl (a : Point) : ~ angle_lt cx cy a a.
Proof. unfold angle_lt. now rewrite atan2_compare_refl. Qed.

Lemma turn_step (a b : Point) :
  turn cx cy a b ->
  angle_lt cx cy a b \/ (snd b - cy < 0 /\ 0 <= snd a - cy).
Proof.
  intros T. unfold angle_lt.
  destruct (atan2_compare (snd a - cy) (fst a - cx) (snd b - cy) (fst b - cx))
    eqn:E; [right|now left|right];
    apply (atan2_compare_cut _ _ _ _ T); rewrite E; discriminate.
Qed.

(** Four directions, each a counter-clockwise turn from the one before, are
    in increasing angle order from exactly one starting point. *)
Lemma cyclic_chain (q0 q1 q2 q3 : Point) :
  turn cx cy q0 q1 -> turn cx cy q1 q2 -> turn cx cy q2 q3 -> turn cx cy q3 q0 ->
  exists r0 r1 r2 r3,
    Rotation (q0, q1, q2, q3) (r0, r1, r2, r3)
    /\ angle_lt cx cy r0 r1 /\ angle_lt cx cy r1 r2 /\ angle_lt cx cy r2 r3.
Proof.
  intros T0 T1 T2 T3.
  destruct (turn_step _ _ T0) as [L0 | [C0 C0']];
    destruct (turn_step _ _ T1) as [L1 | [C1 C1']];
    destruct (turn_step _ _ T2) as [L2 | [C2 C2']];
    destruct (turn_step _ _ T3) as [L3 | [C3 C3']];
    try (exfalso; lra).
  - exfalso. apply (angle_lt_irrefl q0).
    eauto using angle_lt_trans.
  - exists q0, q1, q2, q3. cbn. tauto.
  - exists q3, q0, q1, q2. cbn. tauto.
  - exists q2, q3, q0, q1. cbn. tauto.
  - exfalso. exact (no_opposite_cuts _ _ _ _ _ _ _ _ T1 T2 T3 T0 C1' C1 C3' C3).
  - exists q1, q2, q3, q0. cbn. tauto.
  - exfalso. exact (no_opposite_cuts _ _ _ _ _ _ _ _ T0 T1 T2 T3 C0' C0 C2' C2).
Qed.

Lemma by_angle_lt (a b : Point) :
  (by_angle cx cy a b <? 0)%Z = true <-> angle_lt cx cy a b.
Proof.
  unfold by_angle, angle_lt.
  destruct (atan2_compare _ _ _ _); cbn; split; congruence.
Qed.

(** A chain of increasing angles compares like the positions in it. *)
Lemma chain_compares (r0 r1 r2 r3 : Point) :
  angle_lt cx cy r0 r1 -> angle_lt cx cy r1 r2 -> angle_lt cx cy r2 r3 ->
  forall a b : Slot,
    (by_angle cx cy (pick r0 r1 r2 r3 a) (pick r0 r1 r2 r3 b) <? 0)%Z
    = (by_rank a b <? 0)%Z.
Proof.
  intros L01 L12 L23.
  pose proof (angle_lt_trans _ _ _ L01 L12) as L02.
  pose proof (angle_lt_trans _ _ _ L12 L23) as L13.
  pose proof (angle_lt_trans _ _ _ L02 L23) as L03.
  assert (Fw : forall p q, angle_lt cx cy p q ->
                           (by_angle cx cy p q <? 0)%Z = true).
  { intros p q. apply by_angle_lt. }
  assert (Bw : forall p q, angle_lt cx cy p q ->
                           (by_angle cx cy q p <? 0)%Z = false).
  { intros p q H. unfold by_angle. unfold angle_lt in H.
    now rewrite atan2_compare_antisym, H. }
  assert (Rf : forall p, (by_angle cx cy p p <? 0)%Z = false).
  { intros p. unfold by_angle. now rewrite atan2_compare_refl. }
  intros a b; destruct a, b; cbn [pick by_rank slot_rank];
    first [ rewrite Rf; reflexivity
          | rewrite Fw by assumption; reflexivity
          | rewrite Bw by assumption; reflexivity ].
Qed.

Lemma sort_chain (pts : list Point) (r0 r1 r2 r3 : Point) :
  Permutation pts [r0; r1; r2; r3] ->
  angle_lt cx cy r0 r1 -> angle_lt cx cy r1 r2 -> angle_lt cx cy r2 r3 ->
  sort (by_angle cx cy) pts = [r0; r1; r2; r3].
Proof.
  intros Hp L01 L12 L23.
  change [r0; r1; r2; r3]
    with (map (pick r0 r1 r2 r3) [slot0; slot1; slot2; slot3]) in Hp |- *.
  apply Permutation_map_inv in Hp. destruct Hp as (slots & -> & Hs).
  rewrite (sort_map _ _ (pick r0 r1 r2 r3) (by_angle cx cy) by_rank
             (chain_compares r0 r1 r2 r3 L01 L12 L23)).
  now rewrite (sort_slots slots (Permutation_sym Hs)).
Qed.

End Around.

(** *** The centroid *)


Lemma fold_total (f : Point -> Q) (l : list Point) (acc : Q) :
  fold_left (fun s p => s + f p) l acc == acc + total f l.
Proof.
  revert acc. induction l as [|p l IH]; intros acc; cbn [fold_left total].
  - ring.
  - rewrite IH. ring.
Qed.

Lemma total_perm (f : Point -> Q) (l l' : list Point) :
  Permutation l l' -> total f l == total f l'.
Proof.
  induction 1; cbn [total]; try ring.
  - rewrite IHPermutation. reflexivity.
  - now rewrite IHPermutation1.
Qed.

Lemma centroid_of_four (f : Point -> Q) (pts : list Point) (q0 q1 q2 q3 : Point) :
  Permutation pts [q0; q1; q2; q3] ->
  fold_left (fun s p => s + f p) pts 0
  / inject_Z (Z.of_nat (List.length pts)) * 4
  == f q0 + f q1 + f q2 + f q3.
Proof.
  intros Hp. rewrite (Permutation_length Hp). cbn [List.length Z.of_nat].
  rewrite fold_total, (total_perm f _ _ Hp). cbn [total].
  change (inject_Z (Z.pos (Pos.of_succ_nat 3))) with 4. field.
Qed.

Lemma Rotation_ccw (q r : quad) :
  Rotation q r ->
  (let '(a, b, c, d) := q in ccw_convex a b c d) ->
  let '(a, b, c, d) := r in ccw_convex a b c d.
Proof.
  destruct q as [[[a b] c] d]. unfold Rotation, ccw_convex.
  intros [-> | [-> | [-> | ->]]]; tauto.
Qed.

Lemma Rotation_perm (q r : quad) :
  Rotation q r ->
  let '(a, b, c, d) := q in
  let '(a', b', c', d') := r in
  Permutation [a'; b'; c'; d'] [a; b; c; d].
Proof.
  destruct q as [[[a b] c] d]. unfold Rotation.
  intros [-> | [-> | [-> | ->]]].
  - reflexivity.
  - change (Permutation ([b; c; d] ++ [a]) ([a] ++ [b; c; d])).
    apply Permutation_app_comm.
  - change (Permutation ([c; d] ++ [a; b]) ([a; b] ++ [c; d])).
    apply Permutation_app_comm.
  - change (Permutation ([d] ++ [a; b; c]) ([a; b; c] ++ [d])).
    apply Permutation_app_comm.
Qed.

Lemma Rotation_trans (q r s : quad) : Rotation q r -> Rotation r s -> Rotation q s.
Proof.
  destruct q as [[[a b] c] d]. unfold Rotation at 1.
  intros [-> | [-> | [-> | ->]]]; unfold Rotation;
    intros [-> | [-> | [-> | ->]]]; tauto.
Qed.

Lemma Qle_bool_false (a b : Q) : Qle_bool a b = false -> b < a.
Proof.
  intros E. apply Qnot_le_lt. intros H. apply Qle_bool_iff in H. congruence.
Qed.

(** The rotation by the minimum-sum index. *)
Lemma rotate_to_min (r0 r1 r2 r3 : Point) :
  exists TL TR BR BL,
    map (fun i => nth_error [r0; r1; r2; r3]
                    ((min_sum_index [r0; r1; r2; r3] + i) mod 4)%nat)
        (seq 0 4)
    = [Some TL; Some TR; Some BR; Some BL]
    /\ Rotation (r0, r1, r2, r3) (TL, TR, BR, BL)
    /\ Forall (fun p => coord_sum TL <= coord_sum p) [r0; r1; r2; r3].
Proof.
  unfold min_sum_index, coord_sum.
  cbn [List.length seq combine fold_left fst snd negb].
  repeat match goal with
         | |- context [Qle_bool ?a ?b] =>
             let E := fresh "E" in
             destruct (Qle_bool a b) eqn:E;
             [ apply Qle_bool_iff in E
             | apply Qle_bool_false in E ];
             cbn [negb fst snd]
         end;
    do 4 eexists; (split; [reflexivity|]); (split; [cbn; tauto|]);
    repeat constructor; cbn [fst snd]; lra.
Qed.

(** C7, as stated, fails: the corner emitted first need not lie above the
    corner emitted last.  For the convex quadrilateral (0,20) (20,2) (40,0)
    (22,19), TL is (0,20) and BL is (22,19): TL.y = 20 > 19 = BL.y. *)
Lemma top_left_below_bottom_left :
  ccw_convex (0, 20) (20, 2) (40, 0) (22, 19)
  /\ orderCorners [(0, 20); (20, 2); (40, 0); (22, 19)]
     = [Some (0, 20); Some (20, 2); Some (40, 0); Some (22, 19)]
  /\ ~ snd (0, 20) <= snd (22, 19).
Proof.
  split; [|split].
  - unfold ccw_convex, orient. cbn [fst snd]. repeat split; reflexivity.
  - vm_compute. reflexivity.
  - cbn [snd]. apply Qlt_not_le. reflexivity.
Qed.

(** C7, amended.  For any four points forming a convex quadrilateral in
    general position, given in any order, [orderCorners] emits the four
    points as TL, TR, BR, BL such that TL has the least coordinate sum of the
    four (so TL.x+TL.y <= TR.x+TR.y) and the traversal TL, TR, BR, BL is
    counter-clockwise: every three consecutive corners have positive
    orientation in the coordinate system of the points.  (With the y axis
    pointing down, as in an image, this is the clockwise order on screen.)
    Nothing relates TL.y to BL.y. *)
Theorem corner_order (q0 q1 q2 q3 : Point) (pts : list Point) :
  ccw_convex q0 q1 q2 q3 ->
  Permutation pts [q0; q1; q2; q3] ->
  exists TL TR BR BL,
    orderCorners pts = [Some TL; Some TR; Some BR; Some BL]
    /\ Permutation [TL; TR; BR; BL] pts
    /\ Forall (fun p => coord_sum TL <= coord_sum p) pts
    /\ coord_sum TL <= coord_sum TR
    /\ ccw_convex TL TR BR BL.
Proof.
  intros Hc Hp. unfold orderCorners.
  set (cx := fold_left (fun s p => s + fst p) pts 0 / _).
  set (cy := fold_left (fun s p => s + snd p) pts 0 / _).
  assert (Hx : cx * 4 == fst q0 + fst q1 + fst q2 + fst q3)
    by exact (centroid_of_four fst pts q0 q1 q2 q3 Hp).
  assert (Hy : cy * 4 == snd q0 + snd q1 + snd q2 + snd q3)
    by exact (centroid_of_four snd pts q0 q1 q2 q3 Hp).
  clearbody cx cy.
  destruct Hc as (O0 & O1 & O2 & O3).
  assert (T0 : turn cx cy q0 q1) by (apply (centroid_turn q0 q1 q2 q3); assumption).
  assert (T1 : turn cx cy q1 q2) by (apply (centroid_turn q1 q2 q3 q0); try assumption; lra).
  assert (T2 : turn cx cy q2 q3) by (apply (centroid_turn q2 q3 q0 q1); try assumption; lra).
  assert (T3 : turn cx cy q3 q0) by (apply (centroid_turn q3 q0 q1 q2); try assumption; lra).
  destruct (cyclic_chain cx cy q0 q1 q2 q3 T0 T1 T2 T3)
    as (r0 & r1 & r2 & r3 & Hrot & L01 & L12 & L23).
  pose proof (Rotation_perm _ _ Hrot) as Hpr. cbn in Hpr.
  assert (Hpts : Permutation pts [r0; r1; r2; r3]).
  { now rewrite Hp, Hpr. }
  rewrite (sort_chain cx cy pts r0 r1 r2 r3 Hpts L01 L12 L23).
  destruct (rotate_to_min r0 r1 r2 r3) as (TL & TR & BR & BL & E & Hrot2 & Hmin).
  exists TL, TR, BR, BL. split; [exact E|].
  pose proof (Rotation_perm _ _ Hrot2) as Hp2. cbn in Hp2.
  assert (Hall : Forall (fun p => coord_sum TL <= coord_sum p) pts).
  { apply (Permutation_Forall (Permutation_sym Hpts)). exact Hmin. }
  split; [now rewrite Hp2, Hpts|]. split; [exact Hall|]. split.
  - rewrite Forall_forall in Hall. apply Hall.
    apply (Permutation_in TR (l := [TL; TR; BR; BL])).
    + now rewrite Hp2, Hpts.
    + cbn. tauto.
  - apply (Rotation_ccw (q0, q1, q2, q3) (TL, TR, BR, BL)).
    + exact (Rotation_trans _ _ _ Hrot Hrot2).
    + unfold ccw_convex. tauto.
Qed.

Lemma corner_order_witness :
  exists TL TR BR BL,
    orderCorners [(10, 10); (0, 10); (10, 0); (0, 0)]
    = [Some TL; Some TR; Some BR; Some BL]
    /\ Permutation [TL; TR; BR; BL] [(10, 10); (0, 10); (10, 0); (0, 0)]
    /\ Forall (fun p => coord_sum TL <= coord_sum p)
              [(10, 10); (0, 10); (10, 0); (0, 0)]
    /\ coord_sum TL <= coord_sum TR
    /\ ccw_convex TL TR BR BL.
Proof.
  apply (corner_order (0, 0) (10, 0) (10, 10) (0, 10)).
  - unfold ccw_convex, orient. cbn [fst snd]. repeat split; reflexivity.
  - apply (perm_trans (l' := [(10, 10); (0, 10); (0, 0); (10, 0)])).
    + do 2 apply perm_skip. apply perm_swap.
    + change (Permutation ([(10, 10); (0, 10)] ++ [(0, 0); (10, 0)])
                          ([(0, 0); (10, 0)] ++ [(10, 10); (0, 10)])).
      apply Permutation_app_comm.
Defined.

Example square_is_ordered :
  orderCorners [(10, 10); (0, 10); (10, 0); (0, 0)]
  = [Some (0, 0); Some (10, 0); Some (10, 10); Some (0, 10)].
Proof. vm_compute. reflexivity. Qed.

End CornersFacts.

(** ** The model rewriter: the conversion check *)

Module ScanFacts.
Import OnnxScan.
Local Open Scope list_scope.

Lemma same_byte_eq (a b : option byte) : same_byte a b = true <-> a = b.
Proof.
  destruct a as [x|], b as [y|]; cbn; split; try discriminate; try reflexivity.
  - intros H. f_equal. now apply Byte.byte_dec_bl.
  - intros [= ->]. now apply Byte.byte_dec_lb.
Qed.

Lemma matches_at_spec (bytes op : list byte) (i : nat) :
  matches_at bytes op i = true
  <-> forall j, (j < List.length op)%nat ->
        nth_error bytes (i + j) = nth_error op j.
Proof.
  unfold matches_at. rewrite forallb_forall. split.
  - intros H j Hj. apply same_byte_eq. apply H. apply in_seq. lia.
  - intros H j Hj. apply in_seq in Hj. apply same_byte_eq. apply H. lia.
Qed.

(** The scan finds exactly the occurrences that do not reach the end of the
    buffer. *)
Lemma scan_occurrences (bytes : list byte) (op : list byte) :
  existsb (matches_at bytes op) (seq 0 (List.length bytes - List.length op))
  = true
  <-> occurs_before_end op bytes.
Proof.
  rewrite existsb_exists. split.
  - intros (i & Hi & Hm). apply in_seq in Hi.
    rewrite matches_at_spec in Hm.
    exists (firstn i bytes), (skipn (List.length op) (skipn i bytes)). split.
    + rewrite <- (firstn_skipn i bytes) at 1. f_equal.
      rewrite <- (firstn_skipn (List.length op) (skipn i bytes)) at 1. f_equal.
      apply nth_error_ext. intros j.
      destruct (Nat.lt_ge_cases j (List.length op)) as [Hj|Hj].
      * rewrite nth_error_firstn.
        destruct (Nat.ltb_spec j (List.length op)); [|lia].
        rewrite nth_error_skipn. now apply Hm.
      * rewrite (proj2 (nth_error_None op j) Hj).
        apply nth_error_None. rewrite length_firstn. lia.
    + intros E. apply (f_equal (@List.length byte)) in E.
      rewrite !length_skipn in E. cbn in E. lia.
  - intros (pre & post & -> & Hpost). exists (List.length pre). split.
    + apply in_seq. rewrite !length_app.
      destruct post; [congruence|]. cbn. lia.
    + apply matches_at_spec. intros j Hj.
      rewrite nth_error_app2 by lia.
      replace (List.length pre + j - List.length pre)%nat with j by lia.
      now rewrite nth_error_app1.
Qed.

Lemma scanFor_spec (bytes : list byte) (opName : string) :
  scanFor bytes opName = true <-> occurs_before_end (encode_ascii opName) bytes.
Proof. apply scan_occurrences. Qed.

(** X1.  [checkModelNeedsConversion] lists an operator exactly when its name
    occurs in the buffer and is followed by at least one more byte; an
    occurrence that ends the buffer is not reported, so the buffer that holds
    only the bytes of [Softplus] has an empty report. *)
Theorem needs_conversion_report (modelBuffer : list byte) :
  (In softplus_issue (checkModelNeedsConversion modelBuffer)
   <-> occurs_before_end (encode_ascii "Softplus") modelBuffer)
  /\ (In logsoftmax_issue (checkModelNeedsConversion modelBuffer)
      <-> occurs_before_end (encode_ascii "LogSoftmax") modelBuffer)
  /\ checkModelNeedsConversion (encode_ascii "Softplus") = [].
Proof.
  unfold checkModelNeedsConversion.
  rewrite <- !scanFor_spec.
  split; [|split; [|reflexivity]].
  - destruct (scanFor modelBuffer "Softplus"), (scanFor modelBuffer "LogSoftmax");
      cbn; split; intros H; try discriminate; auto;
      repeat destruct H as [H|H]; try discriminate H; try contradiction.
  - destruct (scanFor modelBuffer "Softplus"), (scanFor modelBuffer "LogSoftmax");
      cbn; split; intros H; try discriminate; auto;
      repeat destruct H as [H|H]; try discriminate H; try contradiction.
Qed.

End ScanFacts.

(** ** The model rewriter: what a second run does, and what no change means *)

Module RewriteFacts.
Import Js Onnx OnnxSpec OnnxFacts RewriteSpec.
Local Open Scope list_scope.


(** *** A pass that reports nothing changes nothing *)

Lemma vi_with_dims_same (vi : ValueInfoProto) (ds : list Dimension) :
  vi_dims vi = Some ds -> vi_with_dims vi ds = vi.
Proof.
  unfold vi_dims, vi_with_dims.
  destruct vi as [n [[[[e [[ds']|]]|] den]|] doc]; cbn; try discriminate.
  now intros [= ->].
Qed.

Lemma makeStatic_with_silent (step : ValueInfoProto -> ValueInfoProto * list string)
    (l l' : list ValueInfoProto) :
  (forall vi vi', step vi = (vi', []) -> vi' = vi) ->
  makeStatic_with step l = (l', []) -> l' = l.
Proof.
  intros Hstep. revert l'. induction l as [|vi rest IH]; intros l'; cbn.
  - now intros [= <-].
  - destruct (step vi) as [vi' msgs] eqn:Hvi.
    destruct (makeStatic_with step rest) as [rest' msgs'].
    intros [= <- E]. apply app_eq_nil in E. destruct E as [-> ->].
    f_equal; [now apply Hstep|now apply IH].
Qed.

Lemma makeStaticGPU_vi_silent (b : Z) (label : string) (vi vi' : ValueInfoProto) :
  makeStaticGPU_vi b label vi = (vi', []) -> vi' = vi.
Proof.
  unfold makeStaticGPU_vi.
  destruct (vi_dims vi) as [[|d rest]|]; try now intros [= <-].
  destruct (makeStatic_firstDim b d) as [[d' old]|]; [discriminate|].
  now intros [= <-].
Qed.

Lemma makeStaticNN_dims_silent (b s : Z) (label viName : string)
    (ds ds' : list Dimension) :
  makeStaticNN_dims b s label viName ds = (ds', []) -> ds' = ds.
Proof.
  revert ds'. induction ds as [|d rest IH]; intros ds'; cbn.
  - now intros [= <-].
  - destruct (makeStaticNN_dim b s label viName d) as [d' msgs] eqn:Hd.
    destruct (makeStaticNN_dims b s label viName rest) as [rest' msgs'].
    intros [= <- E]. apply app_eq_nil in E. destruct E as [-> ->].
    f_equal; [|now apply IH].
    unfold makeStaticNN_dim in Hd.
    destruct (match dimParam d with
              | Some name =>
                  if truthy_string (Some name)
                  then match STATIC_DIMS b s name with
                       | Some p => Some (name, p)
                       | None => None
                       end
                  else None
              | None => None
              end) as [[name p]|]; [discriminate|].
    destruct (negb (truthy_string (dimParam d))
              && (negb (truthy_dimValue (dimValue d))
                  || dimValue_nonpositive (dimValue d))); [discriminate|].
    now injection Hd as <-.
Qed.

Lemma makeStaticNN_vi_silent (b s : Z) (label : string) (vi vi' : ValueInfoProto) :
  makeStaticNN_vi b s label vi = (vi', []) -> vi' = vi.
Proof.
  unfold makeStaticNN_vi.
  destruct (vi_dims vi) as [[|d rest]|] eqn:Hds; try now intros [= <-].
  destruct (makeStaticNN_dims b s label (vi_name vi) (d :: rest))
    as [ds' msgs] eqn:Hpass.
  intros [= <- ->]. apply makeStaticNN_dims_silent in Hpass. subst ds'.
  now apply vi_with_dims_same.
Qed.

(** The counters of the decomposition loop never decrease, and when they
    stay put the loop has copied every node. *)
Lemma decompose_fold_counts (nm : Names) (g : GraphProto) (nodes : list NodeProto)
    (st : PassState) :
  let st' := fold_left (decompose_node nm g) nodes st in
  (softplusCount st <= softplusCount st')%nat
  /\ (logsoftmaxCount st <= logsoftmaxCount st')%nat
  /\ (softplusCount st' = softplusCount st ->
      logsoftmaxCount st' = logsoftmaxCount st ->
      newNodes st' = newNodes st ++ nodes
      /\ newValueInfos st' = newValueInfos st
      /\ needsOneConst st' = needsOneConst st).
Proof.
  revert st. induction nodes as [|n rest IH]; intros st; cbn zeta.
  - cbn. rewrite app_nil_r. repeat split; lia.
  - cbn [fold_left]. specialize (IH (decompose_node nm g st n)). cbn zeta in IH.
    destruct IH as (Hs & Hl & Hsame).
    unfold decompose_node in Hs, Hl, Hsame |- *.
    destruct (opType n =? "Softplus")%string.
    + cbn [softplusCount logsoftmaxCount] in *. repeat split; try lia.
    + destruct (opType n =? "LogSoftmax")%string.
      * cbn [softplusCount logsoftmaxCount] in *. repeat split; try lia.
      * cbn [softplusCount logsoftmaxCount newNodes newValueInfos needsOneConst]
          in *.
        split; [exact Hs|]. split; [exact Hl|]. intros E1 E2.
        destruct (Hsame E1 E2) as (Hn & Hv & Hc).
        rewrite Hn, <- app_assoc. auto.
Qed.

Lemma decompose_silent (nm : Names) (isFp16 : bool) (g g' : GraphProto) :
  decompose nm isFp16 g = (g', []) -> g' = g.
Proof.
  unfold decompose.
  pose proof (decompose_fold_counts nm g (node g) initial_pass) as H.
  cbn zeta in H. destruct H as (_ & _ & Hsame).
  set (st := fold_left (decompose_node nm g) (node g) initial_pass) in *.
  intros [= <- E]. apply app_eq_nil in E. destruct E as [E1 E2].
  assert (Hs : softplusCount st = 0%nat).
  { destruct (softplusCount st); [reflexivity|discriminate E1]. }
  assert (Hl : logsoftmaxCount st = 0%nat).
  { destruct (logsoftmaxCount st); [reflexivity|discriminate E2]. }
  destruct (Hsame Hs Hl) as (Hn & Hv & Hc).
  rewrite Hn, Hv, Hc. cbn. rewrite app_nil_r. now destruct g.
Qed.

Lemma rewriteForWebGPU_silent (b : Z) (g g' : GraphProto) :
  rewriteForWebGPU b g = (g', []) -> g' = g.
Proof.
  unfold rewriteForWebGPU.
  destruct (makeStaticGPU b (g_input g) "input") as [ins c1] eqn:H1.
  destruct (makeStaticGPU b (g_output g) "output") as [outs c2] eqn:H2.
  destruct (makeStaticGPU b (valueInfo g) "value_info") as [vis c3] eqn:H3.
  destruct (decompose webgpu_names (detect_fp16 g)
              (mkGraph (node g) (g_name g) (initializer g) ins outs vis))
    as [g2 c4] eqn:H4.
  intros [= <- E].
  apply app_eq_nil in E. destruct E as [-> E].
  apply app_eq_nil in E. destruct E as [-> E].
  apply app_eq_nil in E. destruct E as [-> ->].
  apply decompose_silent in H4. subst g2.
  apply makeStatic_with_silent in H1; [|apply makeStaticGPU_vi_silent].
  apply makeStatic_with_silent in H2; [|apply makeStaticGPU_vi_silent].
  apply makeStatic_with_silent in H3; [|apply makeStaticGPU_vi_silent].
  subst. now destruct g.
Qed.

Lemma rewriteForWebNN_silent (b s : Z) (g g' : GraphProto) :
  rewriteForWebNN b s g = (g', []) -> g' = g.
Proof.
  unfold rewriteForWebNN.
  destruct (makeStaticNN b s (g_input g) "input") as [ins c1] eqn:H1.
  destruct (makeStaticNN b s (g_output g) "output") as [outs c2] eqn:H2.
  destruct (makeStaticNN b s (valueInfo g) "value_info") as [vis c3] eqn:H3.
  destruct (decompose webnn_names (detect_fp16 g)
              (mkGraph (node g) (g_name g) (initializer g) ins outs vis))
    as [g2 c4] eqn:H4.
  intros [= <- E].
  apply app_eq_nil in E. destruct E as [-> E].
  apply app_eq_nil in E. destruct E as [-> E].
  apply app_eq_nil in E. destruct E as [-> ->].
  apply decompose_silent in H4. subst g2.
  apply makeStatic_with_silent in H1; [|apply makeStaticNN_vi_silent].
  apply makeStatic_with_silent in H2; [|apply makeStaticNN_vi_silent].
  apply makeStatic_with_silent in H3; [|apply makeStaticNN_vi_silent].
  subst. now destruct g.
Qed.

Lemma finish_silent (pb : Codec) (model : ModelProto) (g : GraphProto) (b : Z)
    (r : GraphProto * list string) (res : ConversionResult) :
  graph model = Some g ->
  (forall g', r = (g', []) -> g' = g) ->
  finish pb model b r = Resolved res ->
  wasConverted res = false ->
  buffer res = encode pb model
  /\ changes res = [].
Proof.
  intros Hg Hsilent. destruct r as [g' c]. unfold finish, ModelProto_encode.
  destruct (model_writable _); [|discriminate]. intros [= <-]. cbn.
  destruct c as [|m c]; [|discriminate]. intros _.
  rewrite (Hsilent g' eq_refl). split; [|reflexivity].
  destruct model as [v p gr t f]. unfold with_graph. cbn in *. now rewrite Hg.
Qed.

(** X2.  When [convertModelForWebGPU] reports [wasConverted = false], the file it
    returns is the re-encoding of the very message it decoded: no declaration,
    node or initializer was touched. *)
Theorem webgpu_unconverted_is_untouched (pb : Codec) (buf : list byte)
    (options : option WebGPUOptions) (r : ConversionResult) :
  convertModelForWebGPU pb buf options = Resolved r ->
  wasConverted r = false ->
  exists model,
    decode pb buf = Resolved model
    /\ buffer r = encode pb model
    /\ changes r = [].
Proof.
  unfold convertModelForWebGPU.
  destruct (decode pb buf) as [model|msg]; [|discriminate].
  destruct (graph model) as [g|] eqn:Hg; [|discriminate].
  destruct (decompose_throws _); [discriminate|].
  intros Hfin Hw. exists model. split; [reflexivity|].
  refine (finish_silent pb model g _ _ r Hg _ Hfin Hw).
  intros g'. apply rewriteForWebGPU_silent.
Qed.

Lemma webgpu_unconverted_is_untouched_witness :
  exists model,
    decode RewriteSample.static_codec [] = Resolved model
    /\ buffer RewriteSample.static_result
       = encode RewriteSample.static_codec model
    /\ changes RewriteSample.static_result = [].
Proof.
  apply (webgpu_unconverted_is_untouched RewriteSample.static_codec [] None);
    reflexivity.
Defined.

(** X3.  When [convertModelForWebNN] reports [wasConverted = false], the
    file it returns is the re-encoding of the message it decoded, and the
    change log is empty. *)
Theorem webnn_unconverted_is_untouched (pb : Codec) (buf : list byte)
    (options : option WebNNOptions) (r : ConversionResult) :
  convertModelForWebNN pb buf options = Resolved r ->
  wasConverted r = false ->
  exists model,
    decode pb buf = Resolved model
    /\ buffer r = encode pb model
    /\ changes r = [].
Proof.
  unfold convertModelForWebNN.
  destruct (decode pb buf) as [model|msg]; [|discriminate].
  destruct (graph model) as [g|] eqn:Hg; [|discriminate].
  destruct (decompose_throws _); [discriminate|].
  intros Hfin Hw. exists model. split; [reflexivity|].
  refine (finish_silent pb model g _ _ r Hg _ Hfin Hw).
  intros g'. apply rewriteForWebNN_silent.
Qed.

Lemma webnn_unconverted_is_untouched_witness :
  exists model,
    decode RewriteSample.static_codec [] = Resolved model
    /\ buffer RewriteSample.static_result
       = encode RewriteSample.static_codec model
    /\ changes RewriteSample.static_result = [].
Proof.
  apply (webnn_unconverted_is_untouched RewriteSample.static_codec []
           (Some (mkNNOptions (Some 8) None)));
    reflexivity.
Defined.



(** *** Generic facts about the two loops *)

Lemma makeStatic_with_settled (step : ValueInfoProto -> ValueInfoProto * list string)
    (l : list ValueInfoProto) :
  Forall (fun vi => step vi = (vi, [])) l -> makeStatic_with step l = (l, []).
Proof.
  induction 1 as [|vi rest Hvi _ IH]; cbn; [reflexivity|].
  now rewrite Hvi, IH.
Qed.

Lemma makeStatic_with_Forall (step : ValueInfoProto -> ValueInfoProto * list string)
    (P : ValueInfoProto -> Prop) (l : list ValueInfoProto) :
  (forall vi, P (fst (step vi))) -> Forall P (fst (makeStatic_with step l)).
Proof.
  intros H. induction l as [|vi rest IH]; cbn; [constructor|].
  specialize (H vi). destruct (step vi) as [vi' msgs].
  destruct (makeStatic_with step rest) as [rest' msgs']. cbn in *.
  now constructor.
Qed.

Lemma decompose_fold_neither (nm : Names) (g : GraphProto) (nodes : list NodeProto)
    (st : PassState) :
  Forall neither nodes ->
  fold_left (decompose_node nm g) nodes st
  = mkPass (newNodes st ++ nodes) (newValueInfos st) (softplusCount st)
           (logsoftmaxCount st) (needsOneConst st).
Proof.
  intros H. revert st. induction H as [|n rest [Hs Hl] _ IH]; intros st.
  - cbn. rewrite app_nil_r. now destruct st.
  - cbn [fold_left]. rewrite IH. unfold decompose_node.
    unfold is_softplus in Hs. unfold is_logsoftmax in Hl. rewrite Hs, Hl.
    cbn. now rewrite <- app_assoc.
Qed.

Lemma decompose_neither (nm : Names) (isFp16 : bool) (g : GraphProto) :
  Forall neither (node g) -> decompose nm isFp16 g = (g, []).
Proof.
  intros H. unfold decompose. rewrite (decompose_fold_neither nm g _ _ H).
  cbn. rewrite app_nil_r. now destruct g.
Qed.

(** Every declaration the loop adds copies the type of a declaration of the
    graph. *)
Lemma new_valueInfos_types (g : GraphProto) (x : option string)
    (names : list string) (P : ValueInfoProto -> Prop) :
  (forall vi vi', vi_type vi' = vi_type vi -> P vi -> P vi') ->
  Forall P (valueInfo g ++ g_input g) ->
  Forall P (new_valueInfos g x names).
Proof.
  intros Hty Hall. unfold new_valueInfos, find_srcVi.
  destruct (find _ _) as [srcVi|] eqn:Hfind; [|constructor].
  apply find_some in Hfind. destruct Hfind as [Hin _].
  destruct (vi_type srcVi) as [t|] eqn:Ht; [|constructor].
  apply Forall_forall. intros vi Hvi. apply in_map_iff in Hvi.
  destruct Hvi as (n & <- & _).
  apply (Hty srcVi); [now rewrite Ht|].
  revert Hin. now apply Forall_forall.
Qed.

Lemma decompose_fold_valueInfos (nm : Names) (g : GraphProto)
    (P : ValueInfoProto -> Prop) (nodes : list NodeProto) (st : PassState) :
  (forall vi vi', vi_type vi' = vi_type vi -> P vi -> P vi') ->
  Forall P (valueInfo g ++ g_input g) ->
  Forall P (newValueInfos st) ->
  Forall P (newValueInfos (fold_left (decompose_node nm g) nodes st)).
Proof.
  intros Hty Hall. revert st.
  induction nodes as [|n rest IH]; intros st Hst; [exact Hst|].
  cbn [fold_left]. apply IH. unfold decompose_node.
  destruct (opType n =? "Softplus")%string;
    [|destruct (opType n =? "LogSoftmax")%string];
    cbn [newValueInfos]; try exact Hst;
    apply Forall_app; (split; [exact Hst|]);
    now apply new_valueInfos_types.
Qed.

(** The graph after the operator pass: no unsupported node is left, and
    every declaration satisfies what the declarations before it did. *)
Lemma decompose_result (nm : Names) (isFp16 : bool) (g : GraphProto)
    (P : ValueInfoProto -> Prop) :
  nm = webgpu_names \/ nm = webnn_names ->
  (forall vi vi', vi_type vi' = vi_type vi -> P vi -> P vi') ->
  Forall P (g_input g) -> Forall P (valueInfo g) ->
  let g' := fst (decompose nm isFp16 g) in
  Forall neither (node g')
  /\ g_input g' = g_input g /\ g_output g' = g_output g
  /\ Forall P (valueInfo g').
Proof.
  intros Hnm Hty Hin Hvi. unfold decompose. cbn [fst].
  destruct (decompose_fold nm g Hnm (node g) initial_pass)
    as (out & Hn & _ & Hf & _).
  cbn zeta in Hn. cbn [initial_pass newNodes app] in Hn.
  cbn [node g_input g_output valueInfo]. rewrite Hn.
  split; [exact Hf|]. split; [reflexivity|]. split; [reflexivity|].
  apply Forall_app. split; [exact Hvi|].
  apply decompose_fold_valueInfos; [exact Hty| |constructor].
  apply Forall_app. now split.
Qed.

(** *** The GPU profile *)

Lemma settled_decl_type (b : Z) (vi vi' : ValueInfoProto) :
  vi_type vi' = vi_type vi -> settled_decl b vi -> settled_decl b vi'.
Proof. unfold settled_decl, vi_dims. now intros ->. Qed.

Lemma settled_decl_step (b : Z) (label : string) (vi : ValueInfoProto) :
  settled_decl b vi -> makeStaticGPU_vi b label vi = (vi, []).
Proof.
  unfold settled_decl, makeStaticGPU_vi.
  destruct (vi_dims vi) as [[|d rest]|]; try reflexivity.
  now intros ->.
Qed.

Lemma makeStatic_firstDim_settles (b : Z) (d d' : Dimension) (old : string) :
  0 < b -> makeStatic_firstDim b d = Some (d', old) ->
  makeStatic_firstDim b d' = None.
Proof.
  intros Hb. unfold makeStatic_firstDim at 1.
  destruct (_ || _ || _); [|discriminate]. intros [= <- _].
  unfold makeStatic_firstDim. cbn.
  destruct (Z.eqb_spec b 0); [lia|]. destruct (Z.leb_spec b 0); [lia|].
  reflexivity.
Qed.

Lemma makeStaticGPU_vi_settles (b : Z) (label : string) (vi : ValueInfoProto) :
  0 < b -> settled_decl b (fst (makeStaticGPU_vi b label vi)).
Proof.
  intros Hb. unfold makeStaticGPU_vi.
  destruct (vi_dims vi) as [[|d rest]|] eqn:Hds;
    try (cbn [fst]; unfold settled_decl; now rewrite Hds).
  destruct (makeStatic_firstDim b d) as [[d' old]|] eqn:Hd; cbn [fst].
  - unfold settled_decl. rewrite (proj1 (vi_with_dims_dims vi _ _ Hds)).
    now apply (makeStatic_firstDim_settles b d d' old).
  - unfold settled_decl. now rewrite Hds.
Qed.

(** X4.  Rewriting a graph that the GPU profile has already rewritten, with the
    same positive batch size, returns it unchanged and reports no change. *)
Theorem webgpu_rewrite_idempotent (b : Z) (g : GraphProto) :
  0 < b ->
  rewriteForWebGPU b (fst (rewriteForWebGPU b g))
  = (fst (rewriteForWebGPU b g), []).
Proof.
  intros Hb. unfold rewriteForWebGPU at 2 3.
  pose proof (makeStatic_with_Forall (makeStaticGPU_vi b "input")
                (settled_decl b) (g_input g)
                (fun vi => makeStaticGPU_vi_settles b _ vi Hb)) as Hi.
  pose proof (makeStatic_with_Forall (makeStaticGPU_vi b "output")
                (settled_decl b) (g_output g)
                (fun vi => makeStaticGPU_vi_settles b _ vi Hb)) as Ho.
  pose proof (makeStatic_with_Forall (makeStaticGPU_vi b "value_info")
                (settled_decl b) (valueInfo g)
                (fun vi => makeStaticGPU_vi_settles b _ vi Hb)) as Hv.
  fold (makeStaticGPU b (g_input g) "input") in Hi.
  fold (makeStaticGPU b (g_output g) "output") in Ho.
  fold (makeStaticGPU b (valueInfo g) "value_info") in Hv.
  destruct (makeStaticGPU b (g_input g) "input") as [ins c1].
  destruct (makeStaticGPU b (g_output g) "output") as [outs c2].
  destruct (makeStaticGPU b (valueInfo g) "value_info") as [vis c3].
  cbn [fst] in Hi, Ho, Hv.
  set (g1 := mkGraph (node g) (g_name g) (initializer g) ins outs vis).
  pose proof (decompose_result webgpu_names (detect_fp16 g) g1 (settled_decl b)
                (or_introl eq_refl) (settled_decl_type b) Hi Hv) as H.
  cbn zeta in H.
  destruct (decompose webgpu_names (detect_fp16 g) g1) as [g2 c4].
  cbn [fst] in H |- *. destruct H as (Hn & Ei & Eo & Hv2).
  cbn [g1 g_input g_output] in Ei, Eo.
  unfold rewriteForWebGPU, makeStaticGPU.
  rewrite (makeStatic_with_settled _ (g_input g2)),
          (makeStatic_with_settled _ (g_output g2)),
          (makeStatic_with_settled _ (valueInfo g2)).
  - rewrite decompose_neither.
    + now destruct g2.
    + exact Hn.
  - revert Hv2. apply Forall_impl. intros vi. apply settled_decl_step.
  - rewrite Eo. revert Ho. apply Forall_impl. intros vi. apply settled_decl_step.
  - rewrite Ei. revert Hi. apply Forall_impl. intros vi. apply settled_decl_step.
Qed.

Lemma webgpu_rewrite_idempotent_witness :
  rewriteForWebGPU 8 (fst (rewriteForWebGPU 8 OnnxSample.sample_graph))
  = (fst (rewriteForWebGPU 8 OnnxSample.sample_graph), []).
Proof. apply webgpu_rewrite_idempotent. reflexivity. Defined.

(** With a batch size of zero the second run reports changes again. *)
Example zero_batch_is_reported_again :
  snd (rewriteForWebGPU 0 (fst (rewriteForWebGPU 0 OnnxSample.sample_graph)))
  <> [].
Proof. vm_compute. discriminate. Qed.

(** *** The coprocessor profile *)

Lemma STATIC_DIMS_own (b s v : Z) (name : string) :
  STATIC_DIMS b s name = Some (OwnNumber v) -> v = b \/ v = s.
Proof.
  unfold STATIC_DIMS.
  repeat match goal with
         | |- context [if ?c then _ else _] => destruct c
         end; intros [= <-] || discriminate; auto.
Qed.

Lemma makeStaticNN_dim_settles (b s : Z) (label viName : string) (d : Dimension) :
  0 < b -> 0 < s ->
  settled_dim b s (fst (makeStaticNN_dim b s label viName d)).
Proof.
  intros Hb Hs. unfold makeStaticNN_dim at 1.
  destruct (match dimParam d with
            | Some name =>
                if truthy_string (Some name)
                then match STATIC_DIMS b s name with
                     | Some p => Some (name, p)
                     | None => None
                     end
                else None
            | None => None
            end) as [[name p]|] eqn:Hstatic.
  - cbn [fst]. intros label' viName'. unfold makeStaticNN_dim. cbn.
    destruct p as [v|key]; cbn; [|reflexivity].
    assert (Hv : 0 < v).
    { destruct (dimParam d) as [nm|]; [|discriminate].
      destruct (truthy_string (Some nm)); [|discriminate].
      destruct (STATIC_DIMS b s nm) as [q|] eqn:Hq; [|discriminate].
      injection Hstatic as _ ->.
      destruct (STATIC_DIMS_own b s v nm Hq); lia. }
    destruct (Z.eqb_spec v 0); [lia|]. destruct (Z.leb_spec v 0); [lia|].
    reflexivity.
  - destruct (negb (truthy_string (dimParam d))
              && (negb (truthy_dimValue (dimValue d))
                  || dimValue_nonpositive (dimValue d))) eqn:Hc; cbn [fst].
    + intros label' viName'. unfold makeStaticNN_dim. cbn. reflexivity.
    + intros label' viName'. unfold makeStaticNN_dim. now rewrite Hstatic, Hc.
Qed.

Lemma makeStaticNN_dims_settled (b s : Z) (label viName : string)
    (ds : list Dimension) :
  Forall (settled_dim b s) ds ->
  makeStaticNN_dims b s label viName ds = (ds, []).
Proof.
  induction 1 as [|d rest Hd _ IH]; cbn; [reflexivity|].
  now rewrite Hd, IH.
Qed.

Lemma makeStaticNN_dims_settles (b s : Z) (label viName : string)
    (ds : list Dimension) :
  0 < b -> 0 < s ->
  Forall (settled_dim b s) (fst (makeStaticNN_dims b s label viName ds)).
Proof.
  intros Hb Hs. induction ds as [|d rest IH]; cbn; [constructor|].
  pose proof (makeStaticNN_dim_settles b s label viName d Hb Hs) as Hd.
  destruct (makeStaticNN_dim b s label viName d) as [d' msgs].
  destruct (makeStaticNN_dims b s label viName rest) as [rest' msgs'].
  cbn in *. now constructor.
Qed.

Lemma settled_dims_type (b s : Z) (vi vi' : ValueInfoProto) :
  vi_type vi' = vi_type vi -> settled_dims b s vi -> settled_dims b s vi'.
Proof. unfold settled_dims, vi_dims. now intros ->. Qed.

Lemma settled_dims_step (b s : Z) (label : string) (vi : ValueInfoProto) :
  settled_dims b s vi -> makeStaticNN_vi b s label vi = (vi, []).
Proof.
  unfold settled_dims, makeStaticNN_vi.
  destruct (vi_dims vi) as [[|d rest]|] eqn:Hds; try reflexivity.
  intros H. rewrite (makeStaticNN_dims_settled b s _ _ _ H).
  now rewrite (vi_with_dims_same vi _ Hds).
Qed.

Lemma makeStaticNN_vi_settles (b s : Z) (label : string) (vi : ValueInfoProto) :
  0 < b -> 0 < s -> settled_dims b s (fst (makeStaticNN_vi b s label vi)).
Proof.
  intros Hb Hs. unfold makeStaticNN_vi.
  destruct (vi_dims vi) as [[|d rest]|] eqn:Hds;
    try (cbn [fst]; unfold settled_dims; rewrite Hds; auto).
  pose proof (makeStaticNN_dims_settles b s label (vi_name vi) (d :: rest) Hb Hs)
    as H.
  destruct (makeStaticNN_dims b s label (vi_name vi) (d :: rest)) as [ds' msgs].
  cbn [fst] in *. unfold settled_dims.
  now rewrite (proj1 (vi_with_dims_dims vi _ _ Hds)).
Qed.

(** X5.  Rewriting a graph that the coprocessor profile has already
    rewritten returns it unchanged and reports no change, when the batch size and the board
    size are positive. *)
Theorem webnn_rewrite_idempotent (b s : Z) (g : GraphProto) :
  0 < b -> 0 < s ->
  rewriteForWebNN b s (fst (rewriteForWebNN b s g))
  = (fst (rewriteForWebNN b s g), []).
Proof.
  intros Hb Hs. unfold rewriteForWebNN at 2 3.
  pose proof (makeStatic_with_Forall (makeStaticNN_vi b s "input")
                (settled_dims b s) (g_input g)
                (fun vi => makeStaticNN_vi_settles b s _ vi Hb Hs)) as Hi.
  pose proof (makeStatic_with_Forall (makeStaticNN_vi b s "output")
                (settled_dims b s) (g_output g)
                (fun vi => makeStaticNN_vi_settles b s _ vi Hb Hs)) as Ho.
  pose proof (makeStatic_with_Forall (makeStaticNN_vi b s "value_info")
                (settled_dims b s) (valueInfo g)
                (fun vi => makeStaticNN_vi_settles b s _ vi Hb Hs)) as Hv.
  fold (makeStaticNN b s (g_input g) "input") in Hi.
  fold (makeStaticNN b s (g_output g) "output") in Ho.
  fold (makeStaticNN b s (valueInfo g) "value_info") in Hv.
  destruct (makeStaticNN b s (g_input g) "input") as [ins c1].
  destruct (makeStaticNN b s (g_output g) "output") as [outs c2].
  destruct (makeStaticNN b s (valueInfo g) "value_info") as [vis c3].
  cbn [fst] in Hi, Ho, Hv.
  set (g1 := mkGraph (node g) (g_name g) (initializer g) ins outs vis).
  pose proof (decompose_result webnn_names (detect_fp16 g) g1 (settled_dims b s)
                (or_intror eq_refl) (settled_dims_type b s) Hi Hv) as H.
  cbn zeta in H.
  destruct (decompose webnn_names (detect_fp16 g) g1) as [g2 c4].
  cbn [fst] in H |- *. destruct H as (Hn & Ei & Eo & Hv2).
  cbn [g1 g_input g_output] in Ei, Eo.
  unfold rewriteForWebNN, makeStaticNN.
  rewrite (makeStatic_with_settled _ (g_input g2)),
          (makeStatic_with_settled _ (g_output g2)),
          (makeStatic_with_settled _ (valueInfo g2)).
  - rewrite decompose_neither.
    + now destruct g2.
    + exact Hn.
  - revert Hv2. apply Forall_impl. intros vi. apply settled_dims_step.
  - rewrite Eo. revert Ho. apply Forall_impl. intros vi. apply settled_dims_step.
  - rewrite Ei. revert Hi. apply Forall_impl. intros vi. apply settled_dims_step.
Qed.

Lemma webnn_rewrite_idempotent_witness :
  rewriteForWebNN 1 19 (fst (rewriteForWebNN 1 19 OnnxSample.sample_graph))
  = (fst (rewriteForWebNN 1 19 OnnxSample.sample_graph), []).
Proof. apply webnn_rewrite_idempotent; reflexivity. Defined.

End RewriteFacts.

(** ** Sorting with a comparator *)

Module SortFacts.
Import Js.
Local Open Scope list_scope.

Section Sorting.
Context {A : Type}.
Variable cmp : A -> A -> Z.

Lemma sort_insert_perm (x : A) (l : list A) :
  Permutation (sort_insert cmp x l) (x :: l).
Proof.
  induction l as [|y rest IH]; cbn; [reflexivity|].
  destruct (cmp x y <? 0); [reflexivity|].
  rewrite IH. apply perm_swap.
Qed.

Lemma sort_from_perm (a acc : list A) :
  Permutation (fold_left (fun sorted x => sort_insert cmp x sorted) a acc)
              (acc ++ a).
Proof.
  revert acc. induction a as [|x a IH]; intros acc; cbn [fold_left].
  - now rewrite app_nil_r.
  - rewrite IH, sort_insert_perm. apply Permutation_middle.
Qed.

(** [a.sort(cmp)] rearranges [a]. *)
Lemma sort_perm (a : list A) : Permutation (sort cmp a) a.
Proof. unfold sort. now rewrite sort_from_perm. Qed.

(** For a comparator that follows a total preorder [le], the result is in
    order. *)
Variable le : A -> A -> Prop.
Hypothesis le_trans : forall x y z, le x y -> le y z -> le x z.
Hypothesis cmp_before : forall x y, (cmp x y <? 0) = true -> le x y.
Hypothesis cmp_after : forall x y, (cmp x y <? 0) = false -> le y x.

Lemma sort_insert_sorted (x : A) (l : list A) :
  StronglySorted le l -> StronglySorted le (sort_insert cmp x l).
Proof.
  induction 1 as [|y rest Hrest IH Hy]; cbn.
  - repeat constructor.
  - destruct (cmp x y <? 0) eqn:E.
    + constructor; [now constructor|].
      constructor; [now apply cmp_before|].
      revert Hy. apply Forall_impl. intros z. apply le_trans.
      now apply cmp_before.
    + constructor; [exact IH|].
      apply (Permutation_Forall (Permutation_sym (sort_insert_perm x rest))).
      constructor; [now apply cmp_after|exact Hy].
Qed.

Lemma sort_sorted (a : list A) : StronglySorted le (sort cmp a).
Proof.
  unfold sort.
  assert (H : forall acc, StronglySorted le acc ->
                StronglySorted le
                  (fold_left (fun sorted x => sort_insert cmp x sorted) a acc)).
  { induction a as [|x a IH]; intros acc Hacc; cbn [fold_left]; [exact Hacc|].
    apply IH. now apply sort_insert_sorted. }
  apply H. constructor.
Qed.

End Sorting.

(** The same when the comparator follows the preorder on the elements of
    the array only. *)
Section SortingOn.
Context {A : Type}.
Variable cmp : A -> A -> Z.
Variable le : A -> A -> Prop.
Variable a : list A.
Hypothesis le_trans :
  forall x y z, In x a -> In y a -> In z a -> le x y -> le y z -> le x z.
Hypothesis cmp_before :
  forall x y, In x a -> In y a -> (cmp x y <? 0) = true -> le x y.
Hypothesis cmp_after :
  forall x y, In x a -> In y a -> (cmp x y <? 0) = false -> le y x.

Lemma sort_insert_sorted_on (x : A) (l : list A) :
  In x a -> incl l a ->
  StronglySorted le l -> StronglySorted le (sort_insert cmp x l).
Proof.
  intros Hx Hl H. induction H as [|y rest Hrest IH Hy]; cbn.
  - repeat constructor.
  - assert (Hya : In y a) by (apply Hl; now left).
    assert (Hra : incl rest a) by (intros z Hz; apply Hl; now right).
    destruct (cmp x y <? 0) eqn:E.
    + constructor; [now constructor|].
      constructor; [now apply cmp_before|].
      apply Forall_forall. intros z Hz.
      apply (le_trans x y z);
        [exact Hx|exact Hya|now apply Hra|now apply cmp_before|].
      revert z Hz. now apply Forall_forall.
    + constructor; [apply IH; exact Hra|].
      apply (Permutation_Forall (Permutation_sym (sort_insert_perm cmp x rest))).
      constructor; [now apply cmp_after|exact Hy].
Qed.

Lemma sort_sorted_on : StronglySorted le (sort cmp a).
Proof.
  unfold sort.
  assert (H : forall l acc,
             incl l a -> incl acc a -> StronglySorted le acc ->
             StronglySorted le
               (fold_left (fun sorted x => sort_insert cmp x sorted) l acc)).
  { induction l as [|x l IH]; intros acc Hl Hacc Hs; cbn [fold_left];
      [exact Hs|].
    apply IH.
    - intros z Hz. apply Hl. now right.
    - intros z Hz.
      apply (Permutation_in z (sort_insert_perm cmp x acc)) in Hz.
      destruct Hz as [<-|Hz]; [apply Hl; now left|now apply Hacc].
    - apply sort_insert_sorted_on; auto. apply Hl. now left. }
  apply H; [apply incl_refl|intros z []|constructor].
Qed.

End SortingOn.

Lemma Forall_prefix {A : Type} (P : A -> Prop) (n : nat) (l : list A) :
  Forall P l -> Forall P (firstn n l).
Proof.
  intros H. revert n. induction H as [|x l Hx _ IH]; intros [|n]; cbn;
    constructor; auto.
Qed.

Lemma StronglySorted_prefix {A : Type} (R : A -> A -> Prop) (n : nat)
    (l : list A) :
  StronglySorted R l -> StronglySorted R (firstn n l).
Proof.
  intros H. revert n. induction H as [|x l Hl IH Hx]; intros [|n]; cbn;
    constructor.
  - apply IH.
  - now apply Forall_prefix.
Qed.

Lemma StronglySorted_map {A B : Type} (R : A -> A -> Prop) (S : B -> B -> Prop)
    (f : A -> B) (l : list A) :
  (forall x y, R x y -> S (f x) (f y)) ->
  StronglySorted R l -> StronglySorted S (map f l).
Proof.
  intros HRS. induction 1 as [|x l Hl IH Hx]; cbn; constructor.
  - exact IH.
  - apply Forall_map. revert Hx. apply Forall_impl. intros y. apply HRS.
Qed.

End SortFacts.

(** ** The inference engine: move strings *)

Module MoveFacts.
Import Js Engine.

(** *** [parseInt] reads back what a template literal prints *)

Ltac read_digit :=
  match goal with
  | |- context [digit_of ?c] =>
      let v := eval vm_compute in (digit_of c) in
      change (digit_of c) with v; cbv iota beta
  end.

Lemma parse_digits_positive (d : Decimal.uint) (p : positive) :
  parse_digits (NilEmpty.string_of_uint d) (Some (Z.pos p))
  = Some (Z.pos (Pos.of_uint_acc d p)).
Proof.
  revert p. induction d; intros p; cbn [NilEmpty.string_of_uint parse_digits];
    try reflexivity;
    read_digit; cbn [Pos.of_uint_acc]; rewrite <- IHd; do 2 f_equal; lia.
Qed.

Lemma parse_digits_zero (d : Decimal.uint) :
  parse_digits (NilEmpty.string_of_uint d) (Some 0)
  = Some (Z.of_N (Pos.of_uint d)).
Proof.
  induction d; cbn [NilEmpty.string_of_uint parse_digits Pos.of_uint];
    try reflexivity;
    read_digit;
    first [ exact IHd | apply (parse_digits_positive d) ].
Qed.

Lemma parse_digits_fresh (d : Decimal.uint) :
  d <> Decimal.Nil ->
  parse_digits (NilEmpty.string_of_uint d) None
  = Some (Z.of_N (Pos.of_uint d)).
Proof.
  destruct d; intros Hd; try congruence;
    cbn [NilEmpty.string_of_uint parse_digits Pos.of_uint];
    read_digit;
    first [ apply (parse_digits_zero d) | apply (parse_digits_positive d) ].
Qed.

Lemma parseInt_digits (d : Decimal.uint) :
  d <> Decimal.Nil ->
  parseInt (NilEmpty.string_of_uint d) = Some (Z.of_N (Pos.of_uint d)).
Proof.
  intros Hd. rewrite <- (parse_digits_fresh d Hd).
  destruct d; try congruence; reflexivity.
Qed.

Lemma parseInt_show_Z (p : positive) :
  parseInt (show_Z (Z.pos p)) = Some (Z.pos p).
Proof.
  unfold show_Z. cbn [Z.to_int NilZero.string_of_int].
  pose proof (DecimalPos.Unsigned.of_to p) as Hof.
  assert (Hd : Pos.to_uint p <> Decimal.Nil).
  { intros E. rewrite E in Hof. discriminate. }
  assert (E : NilZero.string_of_uint (Pos.to_uint p)
              = NilEmpty.string_of_uint (Pos.to_uint p)).
  { destruct (Pos.to_uint p); try reflexivity. congruence. }
  rewrite E, (parseInt_digits _ Hd), Hof. reflexivity.
Qed.

(** *** The letter of a column *)

Lemma letter_index (k : nat) :
  (k < 19)%nat ->
  exists c, index letters (Z.of_nat k) = Some c
            /\ indexOf_from (toUpperCase c) letters 0 = Z.of_nat k.
Proof.
  intros Hk.
  do 19 (destruct k as [|k]; [eexists; split; reflexivity|]). lia.
Qed.

(** A vertex string parses back to the vertex it was printed from. *)
Lemma vertex_string_parses (size x y : Z) :
  0 <= x < 19 -> 0 <= y < size ->
  _parseMoveStr (letter_at x ++ show_Z (size - y))%string size
  = Some (x, Some y).
Proof.
  intros Hx Hy.
  destruct (letter_index (Z.to_nat x)) as (c & Hc & Hi); [lia|].
  rewrite Z2Nat.id in Hc, Hi by lia.
  unfold letter_at. rewrite Hc. cbn [append].
  destruct (size - y) as [|p|p] eqn:Ep; try lia.
  pose proof (parseInt_show_Z p) as Hp.
  unfold _parseMoveStr.
  destruct (String c (show_Z (Z.pos p)) =? "PASS")%string eqn:Epass.
  - apply String.eqb_eq in Epass. injection Epass as _ Erest.
    rewrite Erest in Hp. discriminate Hp.
  - rewrite Hi, Hp. cbn [option_map].
    destruct (Z.ltb_spec x 0); [lia|].
    destruct (Z.ltb_spec (size - Z.pos p) 0); [lia|].
    destruct (Z.leb_spec size (size - Z.pos p)); [lia|].
    cbn [orb]. do 3 f_equal. lia.
Qed.

(** X6.  The ko vertex round trip.  When the position has a ko restriction
    for the side to move at a vertex on the board (column below 19, row below
    [size]), the string [_getKoVertex] prints for it is a vertex string that
    [_parseMoveStr] reads back as exactly that vertex. *)
Theorem ko_vertex_round_trip (board : GoBoard) (pla : Sign) (size : Z)
    (ko : KoInfo) :
  _koInfo board = Some ko ->
  ko_sign ko = pla ->
  0 <= fst (ko_vertex ko) < 19 ->
  0 <= snd (ko_vertex ko) < size ->
  exists s,
    _getKoVertex board pla size = Some s
    /\ _parseMoveStr s size
       = Some (fst (ko_vertex ko), Some (snd (ko_vertex ko))).
Proof.
  intros Hko Hsign Hx Hy. unfold _getKoVertex. rewrite Hko, Hsign.
  rewrite Z.eqb_refl. cbn [negb orb].
  destruct (Z.eqb_spec (fst (ko_vertex ko)) (-1)); [lia|].
  eexists. split; [reflexivity|].
  now apply vertex_string_parses.
Qed.

Lemma ko_vertex_round_trip_witness :
  exists s,
    _getKoVertex (mkBoard EngineSample.sample_board (Some (mkKo 1 (3, 5)))) 1 9
    = Some s
    /\ _parseMoveStr s 9 = Some (3, Some 5).
Proof.
  apply (ko_vertex_round_trip
           (mkBoard EngineSample.sample_board (Some (mkKo 1 (3, 5)))) 1 9
           (mkKo 1 (3, 5))); cbn; try reflexivity; lia.
Defined.

End MoveFacts.

(** ** The inference engine: the search tree *)

Module SearchFacts.
Import Js Engine EngineSpec SearchSpec SortFacts EngineFacts.
Local Open Scope list_scope.

(** *** Expansion *)

Lemma map_set_keys {V : Type} (m : list (string * V)) (k : string) (v : V) :
  forall k', In k' (map fst (map_set m k v)) <-> In k' (map fst m) \/ k' = k.
Proof.
  induction m as [|[k0 v0] rest IH]; intros k'; cbn.
  - intuition congruence.
  - destruct (String.eqb_spec k0 k) as [->|Hne]; cbn.
    + intuition congruence.
    + rewrite IH. tauto.
Qed.

Lemma map_set_NoDup {V : Type} (m : list (string * V)) (k : string) (v : V) :
  NoDup (map fst m) -> NoDup (map fst (map_set m k v)).
Proof.
  induction m as [|[k0 v0] rest IH]; cbn; intros H.
  - repeat constructor. intros [].
  - destruct (String.eqb_spec k0 k) as [->|Hne]; cbn; [exact H|].
    inversion H as [|? ? Hnot Hrest]; subst. constructor; [|now apply IH].
    rewrite map_set_keys. intros [Hin| ->]; [now apply Hnot|now apply Hne].
Qed.

Lemma map_set_Forall {V : Type} (Q : string * V -> Prop)
    (m : list (string * V)) (k : string) (v : V) :
  Q (k, v) -> Forall Q m -> Forall Q (map_set m k v).
Proof.
  intros Hk. induction 1 as [|[k0 v0] rest H0 Hrest IH]; cbn.
  - now repeat constructor.
  - destruct (String.eqb_spec k0 k) as [->|Hne]; constructor; auto.
Qed.

(** X7.  Expansion creates only legal children.  After [_expandNode], the
    node is marked expanded and keeps its counters; its children have
    pairwise different moves; each is a pass or a vertex string that reads
    as an empty intersection of the board other than the ko-forbidden one;
    and each is an unvisited, unexpanded node whose prior is the probability
    of a suggestion for that move. *)
Theorem expansion_is_legal (node : MCTSNode) (eval_ : AnalysisResult)
    (board : GoBoard) (pla : Sign) (size : Z) :
  let node' := _expandNode node eval_ board pla size in
  expanded node' = true
  /\ N node' = N node /\ W node' = W node /\ P node' = P node
  /\ exists ch,
       children node' = Some ch
       /\ NoDup (map fst ch)
       /\ Forall
            (fun kc =>
               legal_move board pla size (fst kc)
               /\ exists s,
                    In s (moveSuggestions eval_)
                    /\ move s = fst kc
                    /\ fresh_child (probability s) (snd kc))
            ch.
Proof.
  cbn zeta. unfold _expandNode. cbn [expanded N W P children].
  repeat (split; [reflexivity|]).
  eexists. split; [reflexivity|].
  set (step := fun ch suggestion => _).
  assert (H : forall l acc,
             incl l (moveSuggestions eval_) ->
             NoDup (map fst acc)
             /\ Forall
                  (fun kc =>
                     legal_move board pla size (fst kc)
                     /\ exists s,
                          In s (moveSuggestions eval_)
                          /\ move s = fst kc
                          /\ fresh_child (probability s) (snd kc))
                  acc ->
             NoDup (map fst (fold_left step l acc))
             /\ Forall
                  (fun kc =>
                     legal_move board pla size (fst kc)
                     /\ exists s,
                          In s (moveSuggestions eval_)
                          /\ move s = fst kc
                          /\ fresh_child (probability s) (snd kc))
                  (fold_left step l acc)).
  { induction l as [|s l IH]; intros acc Hl [Hnd Hall]; cbn [fold_left];
      [now split|].
    apply IH; [intros x Hx; apply Hl; now right|].
    unfold step.
    destruct (negb (move s =? "PASS")%string) eqn:Epass.
    - destruct (truthy_string (_getKoVertex board pla size)
                && strict_eq_string (move s) (_getKoVertex board pla size))
        eqn:Eko; [now split|].
      destruct (_parseMoveStr (move s) size) as [parsed|] eqn:Eparse;
        [|now split].
      destruct (get board parsed) as [[| |]|] eqn:Eget; try now split.
      split; [now apply map_set_NoDup|].
      apply map_set_Forall; [|exact Hall]. cbn [fst snd]. split.
      + right. exists parsed. split; [exact Eparse|]. split; [exact Eget|].
        intros Hko. rewrite Hko in Eko.
        rewrite (getKoVertex_truthy board pla size _ Hko) in Eko.
        cbn in Eko. now rewrite String.eqb_refl in Eko.
      + exists s. split; [apply Hl; now left|]. split; reflexivity.
    - split; [now apply map_set_NoDup|].
      apply map_set_Forall; [|exact Hall]. cbn [fst snd]. split.
      + left. apply negb_false_iff in Epass. now apply String.eqb_eq.
      + exists s. split; [apply Hl; now left|]. split; reflexivity. }
  apply H; [apply incl_refl|]. split; constructor.
Qed.

(** *** The suggestions of a search *)

Local Open Scope Q_scope.

Lemma child_visits_from (ch : list (string * MCTSNode)) (acc : nat) :
  fold_left (fun s c => (s + N (snd c))%nat) ch acc
  = (acc + child_visits ch)%nat.
Proof.
  unfold child_visits. revert acc.
  induction ch as [|c ch IH]; intros acc; cbn [fold_left]; [lia|].
  rewrite (IH (acc + N (snd c))%nat), (IH (0 + N (snd c))%nat). lia.
Qed.

Lemma child_visits_bound (ch : list (string * MCTSNode)) (c : string * MCTSNode) :
  In c ch -> (N (snd c) <= child_visits ch)%nat.
Proof.
  induction ch as [|d ch IH]; intros Hin; [contradiction|].
  unfold child_visits. cbn [fold_left]. rewrite child_visits_from.
  destruct Hin as [->|Hin]; [lia|]. specialize (IH Hin). lia.
Qed.

Lemma Q_of_nat_le (a b : nat) : (a <= b)%nat -> Q_of_nat a <= Q_of_nat b.
Proof.
  intros H. unfold Q_of_nat. rewrite <- Zle_Qle. lia.
Qed.

Lemma Q_of_nat_pos (a : nat) : (0 < a)%nat -> 0 < Q_of_nat a.
Proof.
  intros H. unfold Q_of_nat. change 0 with (inject_Z 0). rewrite <- Zlt_Qlt. lia.
Qed.

Lemma share_monotone (t a b : Q) : 0 < t -> a <= b -> a / t <= b / t.
Proof.
  intros Ht Hab. unfold Qdiv. apply Qmult_le_compat_r; [exact Hab|].
  apply Qlt_le_weak. now apply Qinv_lt_0_compat.
Qed.

(** X8.  The suggestions of a search are its most visited children.  The
    result lists the first ten children in an order of non-increasing visit
    count, each with its share of the child visits (its prior when no child
    was visited).  So there are at most ten suggestions, and once a child
    has been visited the probabilities are non-increasing and lie between 0
    and 1. *)
Theorem suggestions_are_top_visited (root : MCTSNode)
    (ch : list (string * MCTSNode)) :
  children root = Some ch ->
  exists ranked,
    Permutation ranked ch
    /\ StronglySorted (fun a b => (N (snd b) <= N (snd a))%nat) ranked
    /\ suggestions_of root = map (visit_share ch) (firstn 10 ranked)
    /\ (List.length (suggestions_of root) <= 10)%nat
    /\ ((0 < child_visits ch)%nat ->
        StronglySorted (fun s t => probability t <= probability s)
                       (suggestions_of root)
        /\ Forall (fun s => 0 <= probability s /\ probability s <= 1)
                  (suggestions_of root)).
Proof.
  intros Hch.
  set (cmp := fun a b : string * MCTSNode =>
                (Z.of_nat (N (snd b)) - Z.of_nat (N (snd a)))%Z).
  exists (sort cmp ch).
  assert (Hperm : Permutation (sort cmp ch) ch) by apply sort_perm.
  assert (Hsorted : StronglySorted (fun a b => (N (snd b) <= N (snd a))%nat)
                      (sort cmp ch)).
  { apply sort_sorted.
    - intros x y z Hxy Hyz. lia.
    - intros x y H. apply Z.ltb_lt in H. unfold cmp in H. lia.
    - intros x y H. apply Z.ltb_ge in H. unfold cmp in H. lia. }
  assert (Heq : suggestions_of root = map (visit_share ch) (firstn 10 (sort cmp ch))).
  { unfold suggestions_of. rewrite Hch.
    destruct ch as [|c ch']; [reflexivity|]. reflexivity. }
  split; [exact Hperm|]. split; [exact Hsorted|]. split; [exact Heq|].
  rewrite Heq. split.
  - rewrite length_map, length_firstn. lia.
  - intros Hpos. split.
    + apply (StronglySorted_map (fun a b => (N (snd b) <= N (snd a))%nat)).
      * intros x y Hxy. unfold visit_share. cbn [probability].
        apply Nat.ltb_lt in Hpos. rewrite Hpos. apply Nat.ltb_lt in Hpos.
        apply share_monotone; [now apply Q_of_nat_pos|now apply Q_of_nat_le].
      * now apply StronglySorted_prefix.
    + apply Forall_map. apply Forall_prefix.
      apply (Permutation_Forall (Permutation_sym Hperm)).
      apply Forall_forall. intros c Hc. unfold visit_share. cbn [probability].
      pose proof (child_visits_bound ch c Hc) as Hb.
      pose proof (Q_of_nat_pos _ Hpos) as Ht.
      apply Nat.ltb_lt in Hpos. rewrite Hpos. split.
      * apply Qle_shift_div_l; [exact Ht|]. rewrite Qmult_0_l.
        apply (Q_of_nat_le 0). lia.
      * apply Qle_shift_div_r; [exact Ht|]. rewrite Qmult_1_l.
        now apply Q_of_nat_le.
Qed.

Lemma suggestions_are_top_visited_witness :
  exists ranked,
    Permutation ranked SearchSample.visited_children
    /\ StronglySorted (fun a b => (N (snd b) <= N (snd a))%nat) ranked
    /\ suggestions_of SearchSample.visited_root
       = map (visit_share SearchSample.visited_children) (firstn 10 ranked)
    /\ (List.length (suggestions_of SearchSample.visited_root) <= 10)%nat
    /\ ((0 < child_visits SearchSample.visited_children)%nat ->
        StronglySorted (fun s t => probability t <= probability s)
                       (suggestions_of SearchSample.visited_root)
        /\ Forall (fun s => 0 <= probability s /\ probability s <= 1)
                  (suggestions_of SearchSample.visited_root)).
Proof.
  apply (suggestions_are_top_visited SearchSample.visited_root). reflexivity.
Defined.

Example visited_root_suggestions :
  map move (suggestions_of SearchSample.visited_root) = ["C7"; "D4"; "PASS"]%string.
Proof. reflexivity. Qed.

(** *** The reported win rate *)

Lemma averaged_children (n : nat) (w p : Q) (l : list (string * MCTSNode))
    (ex : bool) :
  averaged (mkMCTSNode n w p (Some l) ex)
  <-> ((n = 0%nat /\ w == 0) \/ (0 < w /\ w < Q_of_nat n))
      /\ Forall (fun kc => averaged (snd kc)) l.
Proof.
  cbn [averaged]. apply and_iff_compat_l.
  induction l as [|[k c] rest IH].
  - split; [constructor|trivial].
  - rewrite IH. split.
    + intros [Hc Hr]. now constructor.
    + intros H. inversion H; subst. now split.
Qed.

Lemma Q_of_nat_S (n : nat) : Q_of_nat (S n) == Q_of_nat n + 1.
Proof.
  unfold Q_of_nat. rewrite Nat2Z.inj_succ. unfold Z.succ.
  now rewrite inject_Z_plus.
Qed.

(** Adding a value strictly between 0 and 1 to a node keeps its total
    strictly between 0 and its visit count. *)
Lemma backup_keeps_average (n : nat) (w v : Q) :
  (n = 0%nat /\ w == 0) \/ (0 < w /\ w < Q_of_nat n) ->
  0 < v -> v < 1 ->
  0 < w + v /\ w + v < Q_of_nat (S n).
Proof.
  intros H Hv0 Hv1. rewrite Q_of_nat_S.
  destruct H as [[-> Hw]|[Hw0 Hwn]].
  - change (Q_of_nat 0) with 0. lra.
  - lra.
Qed.

Lemma running_average (n : nat) (w : Q) :
  (n = 0%nat /\ w == 0) \/ (0 < w /\ w < Q_of_nat n) ->
  let v := if (0 <? n)%nat then w / Q_of_nat n else 1 # 2 in
  0 < v /\ v < 1.
Proof.
  intros H. cbn zeta. destruct H as [[-> Hw]|[Hw0 Hwn]]; [cbn [Nat.ltb Nat.leb]; lra|].
  assert (Hn : 0 < Q_of_nat n) by lra.
  destruct (Nat.ltb_spec 0 n) as [_|Hz].
  - split.
    + apply Qlt_shift_div_l; [exact Hn|]. lra.
    + apply Qlt_shift_div_r; [exact Hn|]. lra.
  - replace n with 0%nat in Hn by lia. change (Q_of_nat 0) with 0 in Hn. lra.
Qed.

Lemma expand_children_unvisited (node : MCTSNode) (eval_ : AnalysisResult)
    (board : GoBoard) (pla : Sign) (size : Z) :
  exists ch,
    children (_expandNode node eval_ board pla size) = Some ch
    /\ Forall (fun kc => averaged (snd kc)) ch.
Proof.
  unfold _expandNode. cbn [children]. eexists. split; [reflexivity|].
  set (step := fun ch suggestion => _).
  assert (H : forall l acc,
             Forall (fun kc : string * MCTSNode => averaged (snd kc)) acc ->
             Forall (fun kc => averaged (snd kc)) (fold_left step l acc)).
  { induction l as [|s l IH]; intros acc Hacc; cbn [fold_left]; [exact Hacc|].
    apply IH. unfold step. destruct (if negb _ then _ else _); [exact Hacc|].
    apply map_set_Forall; [|exact Hacc]. cbn. split; [|trivial].
    left. split; [reflexivity|reflexivity]. }
  apply H. constructor.
Qed.

Section WinRate.
Variable env : Environment.
Variable komi : Q.
Variable size : Z.
Hypothesis exp_positive : forall x, 0 < exp env x.

Lemma decodeItem_winRate (results : RawOutputs) (pla : Sign) (sz : Z) (b : nat) :
  0 < winRate (decodeItem env results pla sz b)
  /\ winRate (decodeItem env results pla sz b) < 1.
Proof.
  unfold decodeItem. cbn [winRate fst snd].
  set (e0 := exp env _). set (e1 := exp env _). set (e2 := exp env _).
  assert (H0 : 0 < e0) by apply exp_positive.
  assert (H1 : 0 < e1) by apply exp_positive.
  assert (H2 : 0 < e2) by apply exp_positive.
  assert (Hs : 0 < e0 + e1 + e2) by lra.
  assert (Hw : 0 < e0 / (e0 + e1 + e2) /\ e0 / (e0 + e1 + e2) < 1).
  { split.
    - apply Qlt_shift_div_l; [exact Hs|]. lra.
    - apply Qlt_shift_div_r; [exact Hs|]. lra. }
  destruct (pla =? 1)%Z; lra.
Qed.

Lemma evaluateSingle_winRate (board : GoBoard) (pla : Sign) (hist : list Move)
    (r : AnalysisResult) :
  _evaluateSingle env board pla komi hist size = Resolved r ->
  0 < winRate r /\ winRate r < 1.
Proof.
  unfold _evaluateSingle. destruct (infer env _ _ _ _ _); [|discriminate].
  intros [= <-].
  destruct (filterKo_fields (processResults env a pla size) board pla size)
    as (_ & -> & _).
  apply decodeItem_winRate.
Qed.

Lemma visit_keeps_average :
  forall node,
    averaged node ->
    forall board pla hist node' v e,
      visit env komi size node board pla hist = Resolved (node', v, e) ->
      averaged node' /\ 0 < v /\ v < 1.
Proof.
  apply (node_induction
           (fun node =>
              averaged node ->
              forall board pla hist node' v e,
                visit env komi size node board pla hist = Resolved (node', v, e) ->
                averaged node' /\ 0 < v /\ v < 1)).
  intros n w p ch ex IHch Hav board pla hist node' v e.
  cbn [visit].
  match goal with
  | |- context [match ?b with Some _ => _ | None => _ end] =>
      destruct b as [[[l' v']|msg]|] eqn:Hbelow
  end.
  - (* the visit went into a child *)
    intros [= <- <- _].
    destruct (descend env size (mkMCTSNode n w p ch ex) board pla hist)
      as [|i newBoard newHist]; [discriminate|].
    destruct ch as [l|]; [|discriminate].
    apply averaged_children in Hav. destruct Hav as [Hroot Hall].
    assert (Hinto : Forall (fun kc => averaged (snd kc)) l' /\ 0 < v' /\ v' < 1).
    { clear Hroot. revert i l' Hbelow.
      induction l as [|[k c] rest IHl]; intros i l' Hbelow; [discriminate|].
      inversion Hall as [|? ? Hc Hrest]; subst.
      inversion IHch as [|? ? IHc IHrest]; subst.
      destruct i as [|i].
      - cbn [snd] in *.
        destruct (visit env komi size c newBoard (flip pla) newHist)
          as [[[c' vc] ec]|msg] eqn:Hvisit; [|discriminate].
        injection Hbelow as <- <-.
        destruct (IHc Hc _ _ _ _ _ _ Hvisit) as (Hc' & Hv0 & Hv1).
        split; [now constructor|now split].
      - match type of Hbelow with
        | match ?b with Some _ => _ | None => _ end = _ =>
            destruct b as [[[rest' vr]|msg]|] eqn:Hrec; try discriminate
        end.
        injection Hbelow as <- <-.
        destruct (IHl IHrest Hrest i rest' Hrec) as (Hr' & Hv0 & Hv1).
        split; [now constructor|now split]. }
    destruct Hinto as (Hl' & Hv0 & Hv1).
    split; [|now split]. apply averaged_children. split; [|exact Hl'].
    right. now apply backup_keeps_average.
  - discriminate.
  - (* the visit stopped at this node *)
    destruct (negb ex).
    + destruct (_evaluateSingle env board pla komi hist size) as [leafEval|msg]
        eqn:Heval; [|discriminate].
      intros [= <- <- _].
      destruct (evaluateSingle_winRate _ _ _ _ Heval) as [Hv0 Hv1].
      split; [|now split].
      destruct (expand_children_unvisited (mkMCTSNode n w p ch ex) leafEval
                  board pla size) as (ch' & Ech & Hch').
      unfold _expandNode in Ech. cbn [children] in Ech. injection Ech as Ech.
      rewrite Ech.
      apply averaged_children. split; [|exact Hch'].
      right. apply backup_keeps_average; try assumption.
      destruct ch; apply Hav.
    + intros [= <- <- _].
      assert (Hroot : (n = 0%nat /\ w == 0) \/ (0 < w /\ w < Q_of_nat n)).
      { destruct ch; apply Hav. }
      destruct (running_average n w Hroot) as [Hv0 Hv1].
      split; [|now split].
      assert (Hroot' : 0 < w + (if (0 <? n)%nat then w / Q_of_nat n else 1 # 2)
                       /\ w + (if (0 <? n)%nat then w / Q_of_nat n else 1 # 2)
                          < Q_of_nat (S n)).
      { now apply backup_keeps_average. }
      destruct ch as [l|].
      * apply averaged_children. apply averaged_children in Hav.
        split; [now right|apply Hav].
      * cbn [averaged]. split; [now right|trivial].
Qed.

Lemma search_keeps_average (iterations : nat) :
  forall board pla hist root root' rootEval rootEval',
    averaged root ->
    search env komi size iterations board pla hist root rootEval
    = Resolved (root', rootEval') ->
    averaged root'.
Proof.
  induction iterations as [|k IH]; intros board pla hist root root' re re' Hav;
    cbn [search].
  - now intros [= <- _].
  - destruct (visit env komi size root board pla hist) as [[[r1 v] e]|msg] eqn:Hv;
      [|discriminate].
    apply IH. now apply (visit_keeps_average root Hav _ _ _ _ _ _ Hv).
Qed.

Lemma search_rootEval_winRate (iterations : nat) :
  forall board pla hist root root' rootEval e,
    (forall e0, rootEval = Some e0 -> 0 < winRate e0 /\ winRate e0 < 1) ->
    search env komi size iterations board pla hist root rootEval
    = Resolved (root', Some e) ->
    0 < winRate e /\ winRate e < 1.
Proof.
  induction iterations as [|k IH]; intros board pla hist root root' re e Hre;
    cbn [search].
  - intros [= _ ->]. now apply Hre.
  - destruct (visit env komi size root board pla hist) as [[[r1 v] ev]|msg] eqn:Hv;
      [|discriminate].
    apply IH. intros e0 He0. destruct ev as [leafEval|].
    + injection He0 as <-. revert Hv. destruct root as [n w p ch ex].
      cbn [visit].
      match goal with
      | |- context [match ?b with Some _ => _ | None => _ end] =>
          destruct b as [[[l' v']|msg]|]
      end; try discriminate.
      destruct (negb ex); [|discriminate].
      destruct (_evaluateSingle env board pla komi hist size) as [le|msg]
        eqn:Heval; [|discriminate].
      intros [= _ _ <-]. now apply (evaluateSingle_winRate _ _ _ _ Heval).
    + now apply Hre.
Qed.

Lemma runMCTS_winRate (board : GoBoard) (pla : Sign) (hist : list Move)
    (numVisits : nat) (r : AnalysisResult) :
  _runMCTS env komi size board pla hist numVisits = Resolved r ->
  0 < winRate r /\ winRate r < 1.
Proof.
  unfold _runMCTS.
  destruct (search env komi size numVisits board pla hist root0 None)
    as [[root re]|msg] eqn:Hs; [|discriminate].
  assert (Hav : averaged root).
  { apply (search_keeps_average numVisits board pla hist root0 root None re);
      [|exact Hs].
    cbn. split; [|trivial]. left. split; reflexivity. }
  assert (Hre : forall e, match re with
                          | Some e => Resolved e
                          | None => _evaluateSingle env board pla komi hist size
                          end = Resolved e ->
                          0 < winRate e /\ winRate e < 1).
  { intros e. destruct re as [e0|].
    - intros [= <-].
      apply (search_rootEval_winRate _ _ _ _ _ _ _ _
               (fun e0 (H : None = Some e0) => ltac:(discriminate)) Hs).
    - apply evaluateSingle_winRate. }
  destruct (match re with Some e => _ | None => _ end) as [rootEval|msg];
    [|discriminate].
  intros [= <-]. cbn [winRate].
  destruct (Nat.ltb_spec 0 (N root)) as [Hpos|Hz].
  - destruct root as [n w p ch ex]. cbn [N W] in *.
    assert (Hroot : (n = 0%nat /\ w == 0) \/ (0 < w /\ w < Q_of_nat n)).
    { destruct ch; apply Hav. }
    pose proof (running_average n w Hroot) as Hr. cbn zeta in Hr.
    apply Nat.ltb_lt in Hpos. now rewrite Hpos in Hr.
  - now apply Hre.
Qed.

End WinRate.

(** X9.  The win rate of an analysis is a probability, in exact arithmetic.
    Numbers are rationals here and no operation rounds.  When the exponential
    is positive and the value head of every run of the network holds the
    three logits the decoder reads, every analysis that completes,
    single-pass or by tree search with any number of visits, reports a win
    rate strictly between 0 and 1: each evaluation's win rate is a softmax
    component, and the search only ever backs up such values and running
    averages of them.  (In doubles the softmax component rounds to exactly 0
    or 1 once the logits are far enough apart, and is [NaN] when an
    exponential overflows; the strict bounds are a property of the formulas,
    not of their rounded evaluation.) *)
Theorem win_rate_is_a_probability (env : Environment) (m : SignMap)
    (options : EngineAnalysisOptions) (r : AnalysisResult) :
  (forall x, 0 < exp env x) ->
  value_heads_read env ->
  analyzePosition env m options = Resolved r ->
  0 < winRate r /\ winRate r < 1.
Proof.
  intros Hexp _. unfold analyzePosition.
  destruct (negb (session env)); [discriminate|].
  destruct (1 <? _)%nat.
  - apply runMCTS_winRate. exact Hexp.
  - apply evaluateSingle_winRate. exact Hexp.
Qed.

Lemma square_nonneg (a : Q) : 0 <= a * a.
Proof. nra. Qed.

Lemma sample_exp_positive (x : Q) : 0 < EngineSample.sample_exp x.
Proof.
  unfold EngineSample.sample_exp.
  pose proof (square_nonneg (x * x + 2 * x)) as H1.
  pose proof (square_nonneg (2 * x + 3)) as H2.
  assert (E : 1 + x + x * x / 2 + x * x * x / 6 + x * x * x * x / 24
              == ((x * x + 2 * x) * (x * x + 2 * x)
                  + 2 * ((2 * x + 3) * (2 * x + 3)) + 6) * (1 # 24))
    by field.
  rewrite E. lra.
Qed.

Lemma win_rate_is_a_probability_witness :
  exists r,
    analyzePosition EngineSample.sample_env EngineSample.sample_board
      (EngineSample.sample_options 6) = Resolved r
    /\ 0 < winRate r /\ winRate r < 1.
Proof.
  eexists. split.
  - vm_compute. reflexivity.
  - apply (win_rate_is_a_probability EngineSample.sample_env
             EngineSample.sample_board (EngineSample.sample_options 6)).
    + exact sample_exp_positive.
    + intros board pla komi hist size raw [= <-]. vm_compute. lia.
    + vm_compute. reflexivity.
Defined.

End SearchFacts.

(** ** The inference engine: half-precision inputs *)

Module HalfFacts.
Import Js Half HalfSpec.

Lemma testbit_small (b k n : Z) :
  0 <= b < 2 ^ k -> k <= n -> Z.testbit b n = false.
Proof.
  intros Hb Hn. destruct (Z.eq_dec b 0) as [->|Hne]; [apply Z.bits_0|].
  apply Z.bits_above_log2; [lia|].
  assert (Z.log2 b < k); [|lia].
  apply Z.log2_lt_pow2; lia.
Qed.

(** Fields that do not overlap are joined by addition. *)
Lemma lor_fields (a b k : Z) :
  0 <= k -> 0 <= b < 2 ^ k -> Z.lor (a * 2 ^ k) b = a * 2 ^ k + b.
Proof.
  intros Hk Hb.
  rewrite <- Z.lxor_lor, <- Z.add_nocarry_lxor; try reflexivity;
    apply Z.bits_inj'; intros n Hn; rewrite Z.land_spec, Z.bits_0;
    destruct (Z.lt_ge_cases n k) as [Hlt|Hge];
    try (rewrite Z.mul_pow2_bits_low by lia; reflexivity);
    rewrite (testbit_small b k n Hb Hge); apply andb_false_r.
Qed.

Lemma to_int32_small (z : Z) : 0 <= z < 2 ^ 31 -> to_int32 z = z.
Proof.
  intros H. unfold to_int32, to_uint32. rewrite Z.mod_small by lia.
  destruct (Z.ltb_spec z (2 ^ 31)); lia.
Qed.

Lemma shr_small (a c : Z) :
  0 <= a < 2 ^ 31 -> 0 <= c < 32 -> shr a c = a / 2 ^ c.
Proof.
  intros Ha Hc. unfold shr. rewrite (to_int32_small a Ha).
  unfold to_uint32. rewrite (Z.mod_small c) by lia.
  rewrite (Z.mod_small c) by lia. apply Z.shiftr_div_pow2. lia.
Qed.

Lemma ushr_small (a c : Z) :
  0 <= a < 2 ^ 32 -> 0 <= c < 32 -> ushr a c = a / 2 ^ c.
Proof.
  intros Ha Hc. unfold ushr, to_uint32. rewrite (Z.mod_small a) by lia.
  rewrite (Z.mod_small c) by lia. rewrite (Z.mod_small c) by lia.
  apply Z.shiftr_div_pow2. lia.
Qed.

Lemma shl_small (a c : Z) :
  0 <= a -> 0 <= c < 32 -> a * 2 ^ c < 2 ^ 31 -> shl a c = a * 2 ^ c.
Proof.
  intros Ha Hc Hlt. unfold shl.
  assert (Ha' : a < 2 ^ 31).
  { assert (1 <= 2 ^ c) by (apply (Z.pow_le_mono_r 2 0 c); lia). nia. }
  rewrite (to_int32_small a) by lia.
  unfold to_uint32 at 1. rewrite (Z.mod_small c) by lia.
  rewrite (Z.mod_small c) by lia. rewrite Z.shiftl_mul_pow2 by lia.
  apply to_int32_small. nia.
Qed.

Lemma or32_fields (a b k : Z) :
  0 <= k -> 0 <= a -> 0 <= b < 2 ^ k -> a * 2 ^ k + b < 2 ^ 31 ->
  or32 (a * 2 ^ k) b = a * 2 ^ k + b.
Proof.
  intros Hk Ha Hb Hlt. unfold or32.
  assert (0 <= a * 2 ^ k) by nia.
  rewrite (to_int32_small (a * 2 ^ k)), (to_int32_small b) by lia.
  now apply lor_fields.
Qed.

Lemma and32_mask (a n : Z) :
  0 <= a < 2 ^ 31 -> 0 <= n < 31 -> and32 a (Z.ones n) = a mod 2 ^ n.
Proof.
  intros Ha Hn. unfold and32.
  assert (Hones : 0 <= Z.ones n < 2 ^ 31).
  { rewrite Z.ones_equiv.
    assert (2 ^ n < 2 ^ 31) by (apply Z.pow_lt_mono_r; lia).
    assert (0 < 2 ^ n) by (apply Z.pow_pos_nonneg; lia). lia. }
  rewrite (to_int32_small _ Hones), (to_int32_small _ Ha).
  apply Z.land_ones. lia.
Qed.

Section Fields.
Variables s e f : Z.
Hypothesis Hs : 0 <= s <= 1.
Hypothesis He : 0 <= e < 256.
Hypothesis Hf : 0 <= f < 2 ^ 23.

Lemma float32_bits_sum : float32_bits s e f = s * 2 ^ 31 + e * 2 ^ 23 + f.
Proof.
  unfold float32_bits. rewrite !Z.shiftl_mul_pow2 by lia.
  rewrite (lor_fields e f 23) by lia.
  replace (e * 2 ^ 23 + f) with (0 * 2 ^ 31 + (e * 2 ^ 23 + f)) at 1 by lia.
  rewrite (lor_fields s _ 31) by lia. lia.
Qed.

Lemma float32_bits_range : 0 <= float32_bits s e f < 2 ^ 32.
Proof. rewrite float32_bits_sum. lia. Qed.

Lemma sign_field : and32 (ushr (float32_bits s e f) 31) 1 = s.
Proof.
  rewrite ushr_small by (auto using float32_bits_range; lia).
  rewrite float32_bits_sum.
  replace ((s * 2 ^ 31 + e * 2 ^ 23 + f) / 2 ^ 31) with s.
  - change (and32 s 1) with (and32 s (Z.ones 1)). rewrite and32_mask by lia.
    apply Z.mod_small. lia.
  - apply (Z.div_unique_pos _ _ s (e * 2 ^ 23 + f)); lia.
Qed.

Lemma exponent_field : and32 (ushr (float32_bits s e f) 23) 255 = e.
Proof.
  rewrite ushr_small by (auto using float32_bits_range; lia).
  rewrite float32_bits_sum.
  replace ((s * 2 ^ 31 + e * 2 ^ 23 + f) / 2 ^ 23) with (s * 256 + e).
  - change (and32 (s * 256 + e) 255) with (and32 (s * 256 + e) (Z.ones 8)).
    rewrite and32_mask by lia.
    rewrite Z.add_comm, Z_mod_plus_full. apply Z.mod_small. lia.
  - apply (Z.div_unique_pos _ _ (s * 256 + e) f); lia.
Qed.

Lemma fraction_field : and32 (float32_bits s e f) 8388607 = f.
Proof.
  unfold and32. rewrite (to_int32_small 8388607) by lia.
  change 8388607 with (Z.ones 23). rewrite Z.land_ones by lia.
  unfold to_int32, to_uint32.
  rewrite (Z.mod_small (float32_bits s e f)) by apply float32_bits_range.
  rewrite float32_bits_sum.
  destruct (_ <? _).
  - replace (s * 2 ^ 31 + e * 2 ^ 23 + f) with (f + (s * 256 + e) * 2 ^ 23)
      by lia.
    rewrite Z_mod_plus_full. apply Z.mod_small. lia.
  - replace (s * 2 ^ 31 + e * 2 ^ 23 + f - 2 ^ 32)
      with (f + (s * 256 + e - 512) * 2 ^ 23) by lia.
    rewrite Z_mod_plus_full. apply Z.mod_small. lia.
Qed.

Lemma sign_shifted : shl s 15 = s * 2 ^ 15.
Proof. apply shl_small; lia. Qed.

(** The pattern computed for a single-precision number, by its fields. *)
Lemma half_of_fields :
  half_of (float32_bits s e f)
  = float16_bits s (half_exponent e) (half_fraction e f).
Proof.
  unfold half_of. rewrite sign_field, exponent_field, fraction_field.
  rewrite sign_shifted. unfold float16_bits, half_exponent, half_fraction.
  destruct (Z.eqb_spec e 0) as [E0|E0].
  { subst e. cbn. lia. }
  destruct (Z.eqb_spec e 255) as [E255|E255].
  { subst e. cbn [Z.leb Z.compare Pos.compare Pos.compare_cont].
    rewrite (or32_fields s 31744 15) by lia.
    replace (s * 2 ^ 15 + 31744) with ((s * 32 + 31) * 2 ^ 10) by lia.
    destruct (f =? 0); rewrite or32_fields by lia; lia. }
  destruct (Z.geb_spec (e - 127 + 15) 31) as [Hhi|Hhi].
  { destruct (Z.leb_spec e 112); [lia|].
    destruct (Z.leb_spec 143 e); [|lia].
    destruct (Z.leb_spec 113 e); [|lia].
    destruct (Z.leb_spec e 142); [lia|]. cbn [andb].
    rewrite (or32_fields s 31744 15) by lia. lia. }
  destruct (Z.leb_spec (e - 127 + 15) 0) as [Hlo|Hlo].
  { destruct (Z.leb_spec e 112); [|lia].
    destruct (Z.leb_spec 113 e); [lia|]. cbn [andb].
    destruct (Z.geb_spec (e - 127 + 15) (-10)) as [Hden|Hden]; [|lia].
    replace (or32 f 8388608) with (or32 (1 * 2 ^ 23) f)
      by (unfold or32; apply Z.lor_comm).
    rewrite (or32_fields 1 f 23) by lia.
    set (c := 1 - (e - 127 + 15) + 13).
    assert (Hc : 14 <= c <= 24) by (unfold c; lia).
    rewrite (shr_small (1 * 2 ^ 23 + f) c) by lia.
    assert (Hm : 0 <= (1 * 2 ^ 23 + f) / 2 ^ c < 2 ^ 10).
    { split; [apply Z.div_pos; lia|].
      apply Z.div_lt_upper_bound; [lia|].
      assert (2 ^ 14 <= 2 ^ c) by (apply Z.pow_le_mono_r; lia). lia. }
    rewrite shr_small by lia. rewrite (Z.div_small _ (2 ^ 10)) by lia.
    replace 0 with (0 * 2 ^ 15) at 1 by lia.
    unfold or32. rewrite !to_int32_small by lia. rewrite Z.lor_0_r. lia. }
  destruct (Z.leb_spec e 112); [lia|].
  destruct (Z.leb_spec 143 e); [lia|].
  destruct (Z.leb_spec 113 e); [|lia].
  destruct (Z.leb_spec e 142); [|lia]. cbn [andb].
  rewrite (shl_small (e - 127 + 15) 10) by lia.
  rewrite (shr_small f 13) by lia.
  assert (Hm : 0 <= f / 2 ^ 13 < 2 ^ 10).
  { split; [apply Z.div_pos; lia|]. apply Z.div_lt_upper_bound; lia. }
  replace ((e - 127 + 15) * 2 ^ 10) with (0 * 2 ^ 15 + (e - 127 + 15) * 2 ^ 10)
    by lia.
  rewrite (or32_fields s _ 15) by lia.
  replace (s * 2 ^ 15 + (0 * 2 ^ 15 + (e - 127 + 15) * 2 ^ 10))
    with ((s * 32 + (e - 127 + 15)) * 2 ^ 10) by lia.
  rewrite or32_fields by lia. lia.
Qed.

End Fields.

Lemma float16_bits_range (s e m : Z) :
  0 <= s <= 1 -> 0 <= e < 32 -> 0 <= m < 2 ^ 10 ->
  0 <= float16_bits s e m < 2 ^ 16.
Proof. unfold float16_bits. lia. Qed.

Lemma half_fields_range (e f : Z) :
  0 <= e < 256 -> 0 <= f < 2 ^ 23 ->
  0 <= half_exponent e < 32 /\ 0 <= half_fraction e f < 2 ^ 10.
Proof.
  intros He Hf. unfold half_exponent, half_fraction. split.
  - destruct (e <=? 112) eqn:E1; [lia|]. destruct (143 <=? e) eqn:E2; [lia|].
    apply Z.leb_gt in E1, E2. lia.
  - destruct (e =? 255); [destruct (f =? 0); lia|].
    destruct ((113 <=? e) && (e <=? 142)); [|lia].
    split; [apply Z.div_pos; lia|apply Z.div_lt_upper_bound; lia].
Qed.

(** X10.  [float32ToFloat16], field by field.  The element converted from
    the single-precision pattern with sign [s], exponent [e] and fraction [f]
    has the same sign; its exponent is 0 when [e <= 112], [e - 112] from 113
    to 142 and 31 from 143 on; its fraction is the ten leading bits of [f]
    (the thirteen low bits are dropped, not rounded) in the middle range, the
    quiet bit for a NaN and 0 otherwise.  In particular every number below
    the least normal half, [e <= 112], becomes a signed zero: no subnormal
    half is ever produced. *)
Theorem float32ToFloat16_fields (float32Array : list Z) (i : nat) (s e f : Z) :
  0 <= s <= 1 -> 0 <= e < 256 -> 0 <= f < 2 ^ 23 ->
  nth_error float32Array i = Some (float32_bits s e f) ->
  nth_error (float32ToFloat16 float32Array) i
  = Some (float16_bits s (half_exponent e) (half_fraction e f)).
Proof.
  intros Hs He Hf Hi. unfold float32ToFloat16.
  rewrite nth_error_map, Hi. cbn [option_map]. f_equal.
  rewrite (half_of_fields s e f Hs He Hf).
  destruct (half_fields_range e f He Hf) as [He' Hm'].
  unfold to_uint16. apply Z.mod_small.
  now apply float16_bits_range.
Qed.

Lemma float32ToFloat16_fields_witness :
  nth_error (float32ToFloat16 [float32_bits 0 127 0; float32_bits 1 100 5]) 1
  = Some (float16_bits 1 (half_exponent 100) (half_fraction 100 5)).
Proof.
  apply (float32ToFloat16_fields _ 1%nat 1 100 5); try lia. reflexivity.
Defined.

Lemma float32ToFloat16_head (s e f : Z) :
  0 <= s <= 1 -> 0 <= e < 256 -> 0 <= f < 2 ^ 23 ->
  float32ToFloat16 [float32_bits s e f]
  = [float16_bits s (half_exponent e) (half_fraction e f)].
Proof.
  intros Hs He Hf. unfold float32ToFloat16. cbn [map]. f_equal.
  rewrite (half_of_fields s e f Hs He Hf).
  destruct (half_fields_range e f He Hf) as [He' Hm'].
  unfold to_uint16. apply Z.mod_small.
  now apply float16_bits_range.
Qed.

(** X11.  Normal halves survive the conversion.  The single-precision
    number that holds exactly the normal half with sign [s], exponent [e]
    (1 to 30) and fraction [m] converts back to that half. *)
Theorem normal_half_round_trip (s e m : Z) :
  0 <= s <= 1 -> 1 <= e <= 30 -> 0 <= m < 2 ^ 10 ->
  float32ToFloat16 [widen s e m] = [float16_bits s e m].
Proof.
  intros Hs He Hm. unfold widen.
  assert (Hf : 0 <= m * 2 ^ 13 < 2 ^ 23) by lia.
  pose proof (float32ToFloat16_head s (e + 112) (m * 2 ^ 13)) as H.
  rewrite H by lia. do 2 f_equal.
  - unfold half_exponent.
    destruct (Z.leb_spec (e + 112) 112); [lia|].
    destruct (Z.leb_spec 143 (e + 112)); lia.
  - unfold half_fraction.
    destruct (Z.eqb_spec (e + 112) 255); [lia|].
    destruct (Z.leb_spec 113 (e + 112)); [|lia].
    destruct (Z.leb_spec (e + 112) 142); [|lia]. cbn [andb].
    apply Z.div_mul. lia.
Qed.

Lemma normal_half_round_trip_witness :
  float32ToFloat16 [widen 0 15 0] = [float16_bits 0 15 0].
Proof. apply normal_half_round_trip; lia. Defined.

(** One is 0x3C00, and the largest subnormal half is flushed to zero. *)
Example one_as_half : float32ToFloat16 [float32_bits 0 127 0] = [15360].
Proof. reflexivity. Qed.

Example subnormal_half_is_flushed :
  float32ToFloat16 [float32_bits 0 112 8380416] = [0].
Proof. reflexivity. Qed.

End HalfFacts.

(** ** The inference engine: decoding the policy head *)

Module PolicyFacts.
Import Js Engine Policy PolicySpec ListFacts RoundingFacts SortFacts MoveFacts.
Local Open Scope list_scope.
Local Open Scope Q_scope.

(** *** Loops over indices *)

Lemma map_indices {A B : Type} (f : A -> B) (d : B) (l : list A) (k : nat) :
  map (fun i => match nth_error l i with Some x => f x | None => d end)
      (seq 0 k)
  = map f (firstn k l) ++ repeat d (k - List.length l).
Proof.
  revert k. induction l as [|x l IH]; intros k.
  - rewrite firstn_nil, Nat.sub_0_r. cbn [map app List.length].
    rewrite (map_ext _ (fun _ => d)) by (intros i; now destruct i).
    now rewrite map_const, length_seq.
  - destruct k as [|k]; [reflexivity|].
    cbn [seq map nth_error firstn List.length Nat.sub app].
    rewrite <- seq_shift, map_map. cbn [nth_error]. now rewrite IH.
Qed.

Lemma Qsum_from (f : Q -> Q) (l : list Q) (acc : Q) :
  fold_left (fun s p => s + f p) l acc == acc + Qsum (map f l).
Proof.
  revert acc. induction l as [|p l IH]; intros acc; cbn [fold_left map Qsum].
  - ring.
  - rewrite IH. ring.
Qed.

Lemma Qsum_perm (l l' : list Q) : Permutation l l' -> Qsum l == Qsum l'.
Proof.
  induction 1 as [|x l l' _ IH|x y l|l l' l'' _ IH1 _ IH2]; cbn [Qsum].
  - reflexivity.
  - now rewrite IH.
  - ring.
  - now rewrite IH1.
Qed.

Lemma Qsum_scaled (f : Q -> Q) (t : Q) (l : list Q) :
  Qsum (map (fun p => f p / t) l) == Qsum (map f l) / t.
Proof.
  induction l as [|p l IH]; cbn [map Qsum].
  - unfold Qdiv. ring.
  - rewrite IH. unfold Qdiv. ring.
Qed.

Lemma Qsum_bounds (f : Q -> Q) (l : list Q) :
  (forall p, 0 < f p) ->
  0 <= Qsum (map f l) /\ forall p, In p l -> f p <= Qsum (map f l).
Proof.
  intros Hf. induction l as [|q l [IH0 IH]]; cbn [map Qsum].
  - split; [lra|intros p []].
  - pose proof (Hf q). split; [lra|].
    intros p [->|Hp]; [lra|]. specialize (IH p Hp). lra.
Qed.

Lemma Qsum_ext (f g : Q -> Q) (l : list Q) :
  (forall p, In p l -> f p == g p) -> Qsum (map f l) == Qsum (map g l).
Proof.
  induction l as [|p l IH]; intros H; cbn [map Qsum]; [reflexivity|].
  rewrite (H p (or_introl eq_refl)), IH; [reflexivity|].
  intros q Hq. apply H. now right.
Qed.

Lemma Qsum_nonneg (f : Q -> Q) (l : list Q) :
  (forall p, 0 <= f p) ->
  0 <= Qsum (map f l) /\ forall p, In p l -> f p <= Qsum (map f l).
Proof.
  intros Hf. induction l as [|q l [IH0 IH]]; cbn [map Qsum].
  - split; [lra|intros p []].
  - pose proof (Hf q). split; [lra|].
    intros p [->|Hp]; [lra|]. specialize (IH p Hp). lra.
Qed.

Section Decoded.
Variable exp : Q -> Q.
Hypothesis exp_nonneg : forall x, 0 <= exp x.
Hypothesis exp_zero : forall x, x == 0 -> exp x == 1.
Variable fround : Q -> Q.
Hypothesis fround_rounding : rounding fround.
Variable policy : list Q.
Hypothesis nonempty : policy <> [].

(** The greatest logit is one of the logits. *)
Lemma maxLogit_finite :
  exists m, maxLogit policy (List.length policy) = Some m /\ In m policy.
Proof.
  unfold maxLogit.
  rewrite (fold_indices
             (fun m o =>
                match o with
                | Some p =>
                    match m with
                    | None => Some p
                    | Some q => if Qltb q p then Some p else Some q
                    end
                | None => m
                end)).
  destruct policy as [|p0 rest]; [congruence|]. cbn [fold_left].
  clear nonempty.
  assert (H : forall l q,
             exists m,
               fold_left
                 (fun (m : option Q) (o : Q) =>
                    match m with
                    | Some q => if Qltb q o then Some o else Some q
                    | None => Some o
                    end) l (Some q) = Some m
               /\ (m = q \/ In m l)).
  { induction l as [|p l IH]; intros q; cbn [fold_left].
    - exists q. split; [reflexivity|now left].
    - destruct (Qltb q p).
      + destruct (IH p) as (m & Hm & Hor). exists m. split; [exact Hm|].
        right. destruct Hor as [->|Hin]; [now left|now right].
      + destruct (IH q) as (m & Hm & Hor). exists m. split; [exact Hm|].
        destruct Hor as [->|Hin]; [now left|right; now right]. }
  destruct (H rest p0) as (m & Hm & Hin). exists m. split; [exact Hm|].
  destruct Hin as [->|Hin]; [now left|now right].
Qed.

Variable m : Q.
Hypothesis maxLogit_is : maxLogit policy (List.length policy) = Some m.
Hypothesis maxLogit_in : In m policy.

Let u (p : Q) : Q := fround (exp (p - m)).
Let total : Q := fold_left (fun s p => s + u p) policy 0.

Lemma sumProbs_value :
  sumProbs exp fround policy (List.length policy) = Some total.
Proof.
  unfold sumProbs, unnormalised.
  rewrite (fold_indices
             (fun s o =>
                nan2 Qplus s
                  match o, maxLogit policy (List.length policy) with
                  | Some p, Some m => Some (fround (exp (p - m)))
                  | _, _ => None
                  end)).
  rewrite maxLogit_is. unfold total.
  assert (H : forall l acc,
             fold_left (fun s x => nan2 Qplus s (Some (fround (exp (x - m)))))
                       l (Some acc)
             = Some (fold_left (fun s p => s + u p) l acc)).
  { induction l as [|p l IH]; intros acc; cbn [fold_left]; [reflexivity|].
    apply IH. }
  apply H.
Qed.

Lemma stored_nonneg (p : Q) : 0 <= u p.
Proof.
  destruct fround_rounding as (Hmono & H0 & _).
  unfold u. rewrite <- H0. apply Hmono, exp_nonneg.
Qed.

(** The entry of the greatest logit is stored as 1, so the sum is at least
    1. *)
Lemma total_positive : 1 <= total.
Proof.
  assert (Hu : u m == 1).
  { unfold u. destruct fround_rounding as (_ & _ & H1). rewrite <- H1.
    apply (rounding_proper fround _ _ fround_rounding).
    apply exp_zero. ring. }
  unfold total. rewrite Qsum_from, Qplus_0_l.
  destruct (Qsum_nonneg u policy stored_nonneg) as [_ Hle].
  rewrite <- Hu. now apply Hle.
Qed.

Lemma probs_value (i : nat) (p : Q) :
  nth_error policy i = Some p ->
  probs exp fround policy (List.length policy) i
  = Some (fround (u p / total)).
Proof.
  intros Hp. unfold probs.
  assert (Hi : (i < List.length policy)%nat).
  { apply nth_error_Some. congruence. }
  apply Nat.ltb_lt in Hi. rewrite Hi.
  unfold unnormalised. now rewrite Hp, maxLogit_is, sumProbs_value.
Qed.

Lemma weight_value (i : nat) (p : Q) :
  nth_error policy i = Some p ->
  weight exp fround policy i = fround (u p / total).
Proof. intros Hp. unfold weight. now rewrite (probs_value i p Hp). Qed.

Lemma share_range (p : Q) :
  In p policy -> 0 <= u p / total /\ u p / total <= 1.
Proof.
  intros Hp. pose proof total_positive as Ht.
  assert (Ht0 : 0 < total) by lra. split.
  - apply Qle_shift_div_l; [exact Ht0|]. rewrite Qmult_0_l. apply stored_nonneg.
  - apply Qle_shift_div_r; [exact Ht0|]. rewrite Qmult_1_l.
    unfold total. rewrite Qsum_from, Qplus_0_l.
    now apply (Qsum_nonneg u policy stored_nonneg).
Qed.

Lemma weight_range (i : nat) :
  (i < List.length policy)%nat ->
  probs exp fround policy (List.length policy) i
  = Some (weight exp fround policy i)
  /\ 0 <= weight exp fround policy i /\ weight exp fround policy i <= 1.
Proof.
  intros Hi. destruct (nth_error policy i) as [p|] eqn:Hp;
    [|apply nth_error_None in Hp; lia].
  rewrite (weight_value i p Hp), (probs_value i p Hp).
  split; [reflexivity|].
  destruct (share_range p (nth_error_In _ _ Hp)) as [Hlo Hhi].
  destruct fround_rounding as (Hmono & H0 & H1).
  apply Hmono in Hlo, Hhi. rewrite H0 in Hlo. rewrite H1 in Hhi. now split.
Qed.

(** Without rounding, and with a positive exponential, the probabilities
    are positive and sum to 1. *)
Lemma weights_total :
  (forall q, fround q == q) -> (forall x, 0 < exp x) ->
  Forall (fun idx => 0 < weight exp fround policy idx)
         (seq 0 (List.length policy))
  /\ Qsum (map (weight exp fround policy) (seq 0 (List.length policy))) == 1.
Proof.
  intros Hexact Hpos. pose proof total_positive as Ht.
  assert (Ht0 : 0 < total) by lra. split.
  - apply Forall_forall. intros i Hi. apply in_seq in Hi.
    destruct (nth_error policy i) as [p|] eqn:Hp;
      [|apply nth_error_None in Hp; lia].
    rewrite (weight_value i p Hp), Hexact.
    apply Qlt_shift_div_l; [exact Ht0|]. rewrite Qmult_0_l.
    unfold u. rewrite Hexact. apply Hpos.
  - assert (E : map (weight exp fround policy) (seq 0 (List.length policy))
                = map (fun p => fround (u p / total)) policy).
    { apply nth_error_ext. intros i.
      rewrite !nth_error_map.
      destruct (Nat.lt_ge_cases i (List.length policy)) as [Hi|Hi].
      - rewrite nth_error_seq. apply Nat.ltb_lt in Hi. rewrite Hi.
        apply Nat.ltb_lt in Hi. cbn [option_map Nat.add].
        destruct (nth_error policy i) as [p|] eqn:Hp;
          [|apply nth_error_None in Hp; lia].
        cbn [option_map]. now rewrite (weight_value i p Hp).
      - rewrite (proj2 (nth_error_None policy i) Hi).
        rewrite (proj2 (nth_error_None _ i)); [reflexivity|].
        now rewrite length_seq. }
    rewrite E.
    rewrite (Qsum_ext (fun p => fround (u p / total)) (fun p => u p / total))
      by (intros p _; apply Hexact).
    rewrite Qsum_scaled.
    assert (Hs : Qsum (map u policy) == total).
    { unfold total. rewrite Qsum_from. ring. }
    rewrite Hs. field. lra.
Qed.

Lemma by_probability_lt (a b : nat) :
  (a < List.length policy)%nat -> (b < List.length policy)%nat ->
  (by_probability exp fround policy (List.length policy) a b <? 0)%Z = true
  <-> weight exp fround policy b < weight exp fround policy a.
Proof.
  intros Ha Hb. unfold by_probability.
  destruct (weight_range a Ha) as (-> & _). destruct (weight_range b Hb) as (-> & _).
  cbn [nan2 sign_of].
  destruct (Qltb (weight exp fround policy b - weight exp fround policy a) 0)
    eqn:E1.
  - apply EngineFacts.Qltb_lt in E1. split; [lra|reflexivity].
  - destruct (Qltb 0 (weight exp fround policy b - weight exp fround policy a))
      eqn:E2.
    + apply EngineFacts.Qltb_lt in E2. split; [discriminate|lra].
    + split; [discriminate|]. intros H.
      assert (Hlt : weight exp fround policy b - weight exp fround policy a < 0)
        by lra.
      apply EngineFacts.Qltb_lt in Hlt. congruence.
Qed.

Lemma indices_ranked :
  Permutation (indices exp fround policy (List.length policy))
              (seq 0 (List.length policy))
  /\ StronglySorted
       (fun a b => weight exp fround policy b <= weight exp fround policy a)
       (indices exp fround policy (List.length policy)).
Proof.
  split; [apply sort_perm|].
  apply sort_sorted_on.
  - intros x y z _ _ _ Hxy Hyz. lra.
  - intros x y Hx Hy H. apply in_seq in Hx, Hy.
    apply by_probability_lt in H; [lra|lia|lia].
  - intros x y Hx Hy H. apply in_seq in Hx, Hy.
    destruct (Qlt_le_dec (weight exp fround policy y) (weight exp fround policy x))
      as [Hlt|Hle]; [|exact Hle].
    apply by_probability_lt in Hlt; [congruence|lia|lia].
Qed.

End Decoded.

(** X12.  The decoded policy.  [fround] is the store into the [Float32Array]
    of probabilities: any rounding that is monotone and leaves 0 and 1 as
    they are.  For an exponential that is never negative and is 1 at 0, and a
    policy with at least one entry, the ten suggestions are the first ten
    policy indices in an order of non-increasing stored probability, each
    with its move string and its stored probability, padded with the move
    [undefinedNaN] of undefined probability when the policy has fewer than
    ten entries.  Every stored probability is a number within [0, 1]; a
    small one may be stored as 0.  Only for a store that does not round and
    a positive exponential are all of them positive, with sum 1. *)
Theorem top_moves_are_ranked (exp fround : Q -> Q) (policy : list Q)
    (size : Z) :
  (forall x, 0 <= exp x) -> (forall x, x == 0 -> exp x == 1) ->
  rounding fround -> policy <> [] ->
  exists ranked,
    Permutation ranked (seq 0 (List.length policy))
    /\ StronglySorted
         (fun a b => weight exp fround policy b <= weight exp fround policy a)
         ranked
    /\ topMoves exp fround policy (List.length policy) size
       = map (entry exp fround policy size) (firstn 10 ranked)
         ++ repeat (mkRawSuggestion "undefinedNaN" None)
                   (10 - List.length policy)
    /\ Forall (fun idx =>
                 probs exp fround policy (List.length policy) idx
                 = Some (weight exp fround policy idx)
                 /\ 0 <= weight exp fround policy idx
                 /\ weight exp fround policy idx <= 1)
              ranked
    /\ ((forall q, fround q == q) -> (forall x, 0 < exp x) ->
        Forall (fun idx => 0 < weight exp fround policy idx) ranked
        /\ Qsum (map (weight exp fround policy) ranked) == 1).
Proof.
  intros Hexp Hzero Hround Hne.
  destruct (maxLogit_finite policy Hne) as (m & Hm & Hin).
  destruct (indices_ranked exp Hexp Hzero fround Hround policy m Hm Hin)
    as [Hperm Hsorted].
  exists (indices exp fround policy (List.length policy)).
  split; [exact Hperm|]. split; [exact Hsorted|]. split; [|split].
  - unfold topMoves, suggestion.
    rewrite (map_indices (entry exp fround policy size)
               (mkRawSuggestion "undefinedNaN" None)).
    now rewrite (Permutation_length Hperm), length_seq.
  - apply (Permutation_Forall (Permutation_sym Hperm)).
    apply Forall_forall. intros idx Hidx. apply in_seq in Hidx.
    apply (weight_range exp Hexp Hzero fround Hround policy m Hm Hin). lia.
  - intros Hexact Hpos.
    destruct (weights_total exp Hexp Hzero fround Hround policy m Hm Hin
                Hexact Hpos) as [Hall Hsum].
    split.
    + exact (Permutation_Forall (Permutation_sym Hperm) Hall).
    + now rewrite (Qsum_perm _ _ (Permutation_map (weight exp fround policy) Hperm)).
Qed.

Lemma sample_exp_zero (x : Q) : x == 0 -> EngineSample.sample_exp x == 1.
Proof. intros H. unfold EngineSample.sample_exp. rewrite H. reflexivity. Qed.

Lemma top_moves_are_ranked_witness :
  exists ranked,
    Permutation ranked (seq 0 (List.length PolicySample.logits))
    /\ StronglySorted
         (fun a b =>
            weight EngineSample.sample_exp to_float32 PolicySample.logits b
            <= weight EngineSample.sample_exp to_float32 PolicySample.logits a)
         ranked
    /\ topMoves EngineSample.sample_exp to_float32 PolicySample.logits
                (List.length PolicySample.logits) 3
       = map (entry EngineSample.sample_exp to_float32 PolicySample.logits 3)
             (firstn 10 ranked)
         ++ repeat (mkRawSuggestion "undefinedNaN" None)
                   (10 - List.length PolicySample.logits)
    /\ Forall (fun idx =>
                 probs EngineSample.sample_exp to_float32 PolicySample.logits
                       (List.length PolicySample.logits) idx
                 = Some (weight EngineSample.sample_exp to_float32
                                PolicySample.logits idx)
                 /\ 0 <= weight EngineSample.sample_exp to_float32
                                PolicySample.logits idx
                 /\ weight EngineSample.sample_exp to_float32
                           PolicySample.logits idx <= 1)
              ranked.
Proof.
  destruct (top_moves_are_ranked EngineSample.sample_exp to_float32
              PolicySample.logits 3) as (ranked & Hperm & Hsorted & Htop & Hall & _).
  - intros x. apply Qlt_le_weak, SearchFacts.sample_exp_positive.
  - exact sample_exp_zero.
  - exact float32_rounding.
  - discriminate.
  - exists ranked. auto.
Defined.

Example sample_top_moves :
  map raw_move
      (topMoves EngineSample.sample_exp to_float32 PolicySample.logits 10 3)
  = ["PASS"; "A2"; "B3"; "A1"; "A3"; "C3"; "B2"; "C2"; "B1"; "C1"]%string.
Proof. vm_compute. reflexivity. Qed.

(** A policy shorter than ten entries is padded. *)
Example short_policy_is_padded :
  map raw_move (topMoves EngineSample.sample_exp to_float32 [0; 1] 2 1)
  = ["PASS"; "A1"; "undefinedNaN"; "undefinedNaN"; "undefinedNaN";
     "undefinedNaN"; "undefinedNaN"; "undefinedNaN"; "undefinedNaN";
     "undefinedNaN"]%string.
Proof. vm_compute. reflexivity. Qed.

(** A probability too small for a float32 is stored as 0.  The exponential
    of this example is 1 at 0 and 2^-200 elsewhere. *)
Example small_probability_is_stored_as_zero :
  let tiny (x : Q) : Q := if Qeq_bool x 0 then 1 else pow2 (-200) in
  map (fun i => option_map Qred (probs tiny to_float32 [0; -(1)] 2 i))
      [0; 1]%nat
  = [Some 1; Some 0]
  /\ exists q, probs tiny (fun q => q) [0; -(1)] 2 1 = Some q /\ 0 < q.
Proof.
  cbv zeta. split; [vm_compute; reflexivity|].
  eexists. split; [reflexivity|]. vm_compute. reflexivity.
Qed.

(** X13.  Suggested moves are understood by the search.  On a grid of size
    1 to 19, the move string the decoder prints for a policy index below
    [size * size] is read back by [_parseMoveStr] as column [idx mod size]
    and row [idx / size]; the index [size * size] is printed as [PASS]. *)
Theorem suggested_move_parses (size : Z) (idx : nat) :
  (0 < size <= 19)%Z -> (Z.of_nat idx < size * size)%Z ->
  _parseMoveStr (moveStr size idx) size
  = Some ((Z.of_nat idx mod size)%Z, Some (Z.of_nat idx / size)%Z)
  /\ moveStr size (Z.to_nat (size * size)) = "PASS"%string.
Proof.
  intros Hsize Hidx. split.
  - unfold moveStr.
    destruct (Z.eqb_spec (Z.of_nat idx) (size * size)); [lia|].
    destruct (Z.eqb_spec size 0); [lia|].
    rewrite Z.rem_mod_nonneg by lia.
    apply vertex_string_parses.
    + pose proof (Z.mod_pos_bound (Z.of_nat idx) size). lia.
    + split; [apply Z.div_pos; lia|].
      apply Z.div_lt_upper_bound; lia.
  - unfold moveStr. rewrite Z2Nat.id by nia. now rewrite Z.eqb_refl.
Qed.

Lemma suggested_move_parses_witness :
  _parseMoveStr (moveStr 9 30) 9 = Some ((30 mod 9)%Z, Some (30 / 9)%Z)
  /\ moveStr 9 (Z.to_nat (9 * 9)) = "PASS"%string.
Proof. apply (suggested_move_parses 9 30); cbn; lia. Defined.

End PolicyFacts.

(** ** Board recognition: lines of the Hough transform *)

Module LinesFacts.
Import Lines.
Local Open Scope Q_scope.

(** X14.  [intersectLines] returns a point of both lines.  The result is
    [None] exactly when the determinant of the two normals is below 1e-10 in
    absolute value: a [None] comes with a determinant below the bound, a
    point with a determinant of at least the bound.  The point [(x, y)]
    returned satisfies the normal form of both lines,
    [x cos t + y sin t = rho]. *)
Theorem intersection_is_on_both_lines (cos sin : Q -> Q)
    (theta1 rho1 theta2 rho2 : Q) :
  match intersectLines cos sin theta1 rho1 theta2 rho2 with
  | Some (x, y) =>
      1 # 10000000000
      <= Qabs (cos theta1 * sin theta2 - cos theta2 * sin theta1)
      /\ x * cos theta1 + y * sin theta1 == rho1
      /\ x * cos theta2 + y * sin theta2 == rho2
  | None =>
      Qabs (cos theta1 * sin theta2 - cos theta2 * sin theta1)
      < 1 # 10000000000
  end.
Proof.
  unfold intersectLines.
  set (det := cos theta1 * sin theta2 - cos theta2 * sin theta1).
  destruct (Engine.Qltb (Qabs det) (1 # 10000000000)) eqn:E.
  - now apply EngineFacts.Qltb_lt.
  - assert (Hge : 1 # 10000000000 <= Qabs det).
    { apply Qnot_lt_le. intros Hlt.
      apply EngineFacts.Qltb_lt in Hlt. congruence. }
    assert (Hdet : ~ det == 0).
    { intros H0. rewrite H0 in Hge. now apply Hge. }
    split; [exact Hge|].
    split; field_simplify_eq; try exact Hdet; unfold det; ring.
Qed.

Example parallel_lines_do_not_meet :
  intersectLines (fun _ => 1) (fun _ => 0) 0 1 0 2 = None
  /\ intersectLines (fun t => 1 - t) (fun t => t) 0 3 1 4 = Some (3 / 1, 4 / 1).
Proof. split; reflexivity. Qed.

End LinesFacts.


(** ** Board recognition: the homography over the rationals *)

Module HomographyFacts.
Import Perspective PerspectiveExact.
Local Open Scope list_scope.
Local Open Scope Q_scope.

(** *** Finite sums *)

Lemma sum_ext (n : nat) (f g : nat -> Q) :
  (forall k, (k < n)%nat -> f k == g k) -> sum n f == sum n g.
Proof.
  induction n as [|n IH]; intros H; cbn [sum]; [reflexivity|].
  rewrite IH, (H n) by auto with arith. reflexivity.
Qed.

Lemma sum_plus (n : nat) (f g : nat -> Q) :
  sum n (fun k => f k + g k) == sum n f + sum n g.
Proof. induction n as [|n IH]; cbn [sum]; [ring|]. rewrite IH. ring. Qed.

Lemma sum_scale (n : nat) (c : Q) (f : nat -> Q) :
  sum n (fun k => c * f k) == c * sum n f.
Proof. induction n as [|n IH]; cbn [sum]; [ring|]. rewrite IH. ring. Qed.

Lemma sum_zero (n : nat) (f : nat -> Q) :
  (forall k, (k < n)%nat -> f k == 0) -> sum n f == 0.
Proof.
  induction n as [|n IH]; intros H; cbn [sum]; [reflexivity|].
  rewrite IH, (H n) by auto with arith. ring.
Qed.

Lemma sum_single (n i : nat) (f : nat -> Q) :
  (i < n)%nat -> (forall k, (k < n)%nat -> k <> i -> f k == 0) ->
  sum n f == f i.
Proof.
  induction n as [|n IH]; intros Hi H; [lia|]. cbn [sum].
  destruct (Nat.eq_dec i n) as [->|Hne].
  - rewrite sum_zero; [ring|]. intros k Hk. apply H; lia.
  - rewrite IH, (H n) by (try lia; intros; apply H; lia). ring.
Qed.

(** *** Rows of the matrix *)

Lemma nth_map_seq {B : Type} (f : nat -> B) (len r : nat) (d : B) :
  (r < len)%nat -> nth r (map f (seq 0 len)) d = f r.
Proof.
  intros Hr. rewrite (nth_indep _ d (f 0%nat)) by now rewrite length_map, length_seq.
  rewrite (map_nth f (seq 0 len) 0%nat r), seq_nth by exact Hr. reflexivity.
Qed.

Lemma matrix_row_length (n : nat) (M : list (list Q)) (r : nat) :
  well_formed n M -> (r < n)%nat -> List.length (nth r M []) = S n.
Proof.
  intros [Hlen Hrows] Hr.
  apply (proj1 (Forall_forall _ _) Hrows). apply nth_In. lia.
Qed.

Lemma below_epsilon (x : Q) :
  ltb exact (abs exact x) (epsilon exact) = false -> ~ x == 0.
Proof.
  cbn [ltb abs epsilon exact]. intros H H0.
  apply negb_false_iff, Qle_bool_iff in H.
  rewrite H0 in H. apply Qle_not_lt in H. apply H. reflexivity.
Qed.

Lemma swap_rows_row (n : nat) (M : list (list Q)) (i j r : nat) :
  well_formed n M -> (r < n)%nat ->
  @nth (list Q) r (swap_rows exact M i j) []
  = nth (if (r =? i)%nat then j else if (r =? j)%nat then i else r) M [].
Proof.
  intros [Hlen _] Hr. unfold swap_rows. cbn [num exact].
  rewrite nth_map_seq; [|lia].
  destruct (r =? i)%nat; [reflexivity|]. now destruct (r =? j)%nat.
Qed.

Lemma swap_rows_wf (n : nat) (M : list (list Q)) (i j : nat) :
  well_formed n M -> (i < n)%nat -> (j < n)%nat ->
  well_formed n (swap_rows exact M i j).
Proof.
  intros Hwf Hi Hj. pose proof Hwf as [Hlen Hrows]. split.
  - unfold swap_rows. now rewrite length_map, length_seq.
  - apply Forall_forall. intros row Hrow.
    apply In_nth with (d := []) in Hrow. destruct Hrow as (r & Hr & <-).
    cbn [num exact] in *.
    assert (Hr' : (r < n)%nat).
    { unfold swap_rows in Hr. rewrite length_map, length_seq in Hr.
      cbn [num exact] in *. lia. }
    rewrite (swap_rows_row n M i j r Hwf Hr').
    apply (matrix_row_length n M _ Hwf).
    destruct (r =? i)%nat; [exact Hj|]. now destruct (r =? j)%nat.
Qed.

Lemma eliminate_row_entry (n col k : nat) (pivot row : list Q) :
  (k < List.length row)%nat ->
  @nth Q k (eliminate_row exact n col pivot row) 0
  = if ((col <=? k) && (k <=? n))%nat
    then nth k row 0 - nth col row 0 / nth col pivot 0 * nth k pivot 0
    else nth k row 0.
Proof.
  intros Hk. unfold eliminate_row. rewrite nth_map_seq; [|exact Hk].
  reflexivity.
Qed.

Lemma eliminate_row_of (n : nat) (M : list (list Q)) (col r : nat) :
  well_formed n M -> (r < n)%nat ->
  @nth (list Q) r (eliminate exact M n col) []
  = if (r =? col)%nat then nth r M []
    else eliminate_row exact n col (nth col M []) (nth r M []).
Proof.
  intros [Hlen _] Hr. unfold eliminate. cbn [num exact].
  rewrite nth_map_seq; [|lia].
  reflexivity.
Qed.

Lemma eliminate_wf (n : nat) (M : list (list Q)) (col : nat) :
  well_formed n M -> well_formed n (eliminate exact M n col).
Proof.
  intros Hwf. pose proof Hwf as [Hlen Hrows]. split.
  - unfold eliminate. now rewrite length_map, length_seq.
  - apply Forall_forall. intros row Hrow.
    apply In_nth with (d := []) in Hrow. destruct Hrow as (r & Hr & <-).
    cbn [num exact] in *.
    assert (Hr' : (r < n)%nat).
    { unfold eliminate in Hr. rewrite length_map, length_seq in Hr.
      cbn [num exact] in *. lia. }
    rewrite (eliminate_row_of n M col r Hwf Hr').
    destruct (r =? col)%nat; [now apply matrix_row_length|].
    unfold eliminate_row. rewrite length_map, length_seq.
    now apply matrix_row_length.
Qed.

Lemma pivot_row_range (M : list (list Q)) (n col : nat) :
  (col < n)%nat -> (col <= pivot_row exact M n col < n)%nat.
Proof.
  intros Hcol. unfold pivot_row.
  assert (H : forall rows start,
             (col <= start < n)%nat ->
             Forall (fun r => (col <= r < n)%nat) rows ->
             (col <= fold_left
                       (fun maxRow row =>
                          if ltb exact (abs exact (entry exact M maxRow col))
                                       (abs exact (entry exact M row col))
                          then row else maxRow)
                       rows start < n)%nat).
  { induction rows as [|r rows IH]; intros start Hs Hrows; cbn [fold_left];
      [exact Hs|].
    inversion Hrows; subst. apply IH; [|assumption].
    now destruct (ltb exact _ _). }
  apply H; [lia|]. apply Forall_forall. intros r Hr. apply in_seq in Hr. lia.
Qed.

(** *** One column of the elimination *)

Ltac as_rationals := unfold entry, cell in *; cbn [num exact nan] in *.

Lemma swap_entry (n : nat) (M : list (list Q)) (i j r k : nat) :
  well_formed n M -> (r < n)%nat ->
  entry exact (swap_rows exact M i j) r k
  = entry exact M (if (r =? i)%nat then j else if (r =? j)%nat then i else r) k.
Proof.
  intros Hwf Hr. unfold entry. cbn [num exact].
  now rewrite (swap_rows_row n M i j r Hwf Hr).
Qed.

Lemma eliminate_entry (n : nat) (M : list (list Q)) (col r k : nat) :
  well_formed n M -> (r < n)%nat -> (k <= n)%nat ->
  entry exact (eliminate exact M n col) r k
  = if (r =? col)%nat then entry exact M r k
    else if ((col <=? k) && (k <=? n))%nat
         then entry exact M r k
              - entry exact M r col / entry exact M col col * entry exact M col k
         else entry exact M r k.
Proof.
  intros Hwf Hr Hk. unfold entry, cell. cbn [num exact nan].
  rewrite (eliminate_row_of n M col r Hwf Hr).
  destruct (r =? col)%nat; [reflexivity|].
  apply eliminate_row_entry. rewrite (matrix_row_length n M r Hwf Hr). lia.
Qed.

Lemma swap_keeps_reduced (n c p : nat) (M : list (list Q)) :
  reduced n c M -> (c <= p < n)%nat -> reduced n c (swap_rows exact M c p).
Proof.
  intros (Hwf & Hzero & Hdiag) Hp. split; [|split].
  - apply swap_rows_wf; [exact Hwf|lia|lia].
  - intros r k Hr Hk Hne. rewrite (swap_entry n M c p r k Hwf Hr).
    destruct (Nat.eqb_spec r c); [apply Hzero; lia|].
    destruct (Nat.eqb_spec r p); apply Hzero; lia.
  - intros i Hi. rewrite (swap_entry n M c p i i Hwf) by lia.
    destruct (Nat.eqb_spec i c); [lia|].
    destruct (Nat.eqb_spec i p); [lia|]. now apply Hdiag.
Qed.

Lemma eliminate_reduces (n c : nat) (M : list (list Q)) :
  reduced n c M -> (c < n)%nat -> ~ entry exact M c c == 0 ->
  reduced n (S c) (eliminate exact M n c).
Proof.
  intros (Hwf & Hzero & Hdiag) Hc Hpivot. split; [|split].
  - now apply eliminate_wf.
  - intros r k Hr Hk Hne. rewrite (eliminate_entry n M c r k Hwf Hr) by lia.
    destruct (Nat.eqb_spec r c) as [->|Hrc]; [apply Hzero; lia|].
    destruct (Nat.leb_spec c k) as [Hck|Hck]; cbn [andb].
    + assert (k = c) by lia. subst k.
      destruct (Nat.leb_spec c n); [|lia]. as_rationals. field. exact Hpivot.
    + apply Hzero; lia.
  - intros i Hi. rewrite (eliminate_entry n M c i i Hwf) by lia.
    destruct (Nat.eqb_spec i c) as [->|Hic]; [exact Hpivot|].
    destruct (Nat.leb_spec c i) as [Hci|Hci]; cbn [andb]; [lia|].
    apply Hdiag. lia.
Qed.

Lemma dot_entries (n : nat) (M : list (list Q)) (r : nat) (x : list Q) :
  dot n (nth r M []) x = sum n (fun k => entry exact M r k * nth k x 0).
Proof. reflexivity. Qed.

(** A solution of the system after the elimination of column [c] is a
    solution of the system before it. *)
Lemma eliminate_keeps_solutions (n c : nat) (M : list (list Q)) (x : list Q) :
  reduced n c M -> (c < n)%nat -> ~ entry exact M c c == 0 ->
  solves n (eliminate exact M n c) x -> solves n M x.
Proof.
  intros (Hwf & Hzero & Hdiag) Hc Hpivot Hx r Hr.
  pose proof (Hx c Hc) as Hrow_c. rewrite dot_entries in Hrow_c.
  assert (Ec : forall k, (k <= n)%nat ->
                 entry exact (eliminate exact M n c) c k = entry exact M c k).
  { intros k Hk. rewrite (eliminate_entry n M c c k Hwf Hc Hk).
    now rewrite Nat.eqb_refl. }
  change (nth n (nth c (eliminate exact M n c) []) 0)
    with (entry exact (eliminate exact M n c) c n) in Hrow_c.
  rewrite (Ec n (le_n n)) in Hrow_c.
  rewrite (sum_ext n _ (fun k => entry exact M c k * nth k x 0)) in Hrow_c
    by (intros k Hk; rewrite Ec by lia; reflexivity).
  destruct (Nat.eq_dec r c) as [->|Hrc].
  { rewrite dot_entries. exact Hrow_c. }
  pose proof (Hx r Hr) as Hrow_r. rewrite dot_entries in Hrow_r.
  change (nth n (nth r (eliminate exact M n c) []) 0)
    with (entry exact (eliminate exact M n c) r n) in Hrow_r.
  set (f := entry exact M r c / entry exact M c c).
  assert (Er : forall k, (k <= n)%nat ->
                 entry exact M r k
                 == entry exact (eliminate exact M n c) r k
                    + f * entry exact M c k).
  { intros k Hk. rewrite (eliminate_entry n M c r k Hwf Hr Hk).
    destruct (Nat.eqb_spec r c); [contradiction|].
    destruct (Nat.leb_spec c k) as [Hck|Hck]; cbn [andb].
    - destruct (Nat.leb_spec k n); [|lia]. unfold f. as_rationals. ring.
    - rewrite (Hzero c k Hc Hck) by lia. as_rationals. ring. }
  rewrite dot_entries.
  rewrite (sum_ext n _
             (fun k => entry exact (eliminate exact M n c) r k * nth k x 0
                       + f * (entry exact M c k * nth k x 0))).
  - rewrite sum_plus, sum_scale, Hrow_r, Hrow_c.
    change (nth n (nth r M []) 0) with (entry exact M r n).
    rewrite (Er n (le_n n)). reflexivity.
  - intros k Hk. rewrite (Er k) by lia. as_rationals. ring.
Qed.

Lemma swap_keeps_solutions (n c p : nat) (M : list (list Q)) (x : list Q) :
  well_formed n M -> (c < n)%nat -> (p < n)%nat ->
  solves n (swap_rows exact M c p) x -> solves n M x.
Proof.
  intros Hwf Hc Hp Hx r Hr.
  set (s := if (r =? c)%nat then p else if (r =? p)%nat then c else r).
  assert (Hs : (s < n)%nat).
  { unfold s. destruct (r =? c)%nat; [exact Hp|]. now destruct (r =? p)%nat. }
  pose proof (Hx s Hs) as H. cbn [num exact] in H.
  rewrite (swap_rows_row n M c p s Hwf Hs) in H.
  replace (if (s =? c)%nat then p else if (s =? p)%nat then c else s) with r in H;
    [exact H|].
  unfold s.
  destruct (Nat.eqb_spec r c) as [->|Hrc].
  - destruct (Nat.eqb_spec p c) as [->|Hpc]; [reflexivity|].
    now rewrite Nat.eqb_refl.
  - destruct (Nat.eqb_spec r p) as [->|Hrp].
    + now rewrite Nat.eqb_refl.
    + destruct (Nat.eqb_spec r c); [contradiction|].
      now destruct (Nat.eqb_spec r p).
Qed.

(** *** The whole elimination *)

Lemma elimination_loop (n : nat) :
  forall k c M M',
    (c + k = n)%nat -> reduced n c M ->
    solve_columns exact M n (seq c k) = Some M' ->
    reduced n n M' /\ forall x, solves n M' x -> solves n M x.
Proof.
  induction k as [|k IH]; intros c M M' Hck Hred; cbn [seq solve_columns].
  - intros [= <-]. assert (c = n) by lia. subst c. now split.
  - set (p := pivot_row exact M n c).
    destruct (ltb exact (abs exact (entry exact (swap_rows exact M c p) c c))
                  (epsilon exact)) eqn:Etest; [discriminate|].
    intros Hrest.
    assert (Hp : (c <= p < n)%nat) by (apply pivot_row_range; lia).
    pose proof (swap_keeps_reduced n c p M Hred Hp) as Hred1.
    pose proof (below_epsilon _ Etest) as Hpivot.
    assert (Hc : (c < n)%nat) by lia.
    pose proof (eliminate_reduces n c _ Hred1 Hc Hpivot) as Hred2.
    destruct (IH (S c) _ M' ltac:(lia) Hred2 Hrest) as [Hfinal Hback].
    split; [exact Hfinal|]. intros x Hx.
    apply (swap_keeps_solutions n c p M x); [apply Hred|lia|lia|].
    apply (eliminate_keeps_solutions n c _ x Hred1 Hc Hpivot).
    now apply Hback.
Qed.

Lemma diagonal_solution (n : nat) (M : list (list Q)) :
  reduced n n M ->
  solves n M (map (fun i => entry exact M i n / entry exact M i i) (seq 0 n)).
Proof.
  intros (Hwf & Hzero & Hdiag) r Hr. rewrite dot_entries.
  rewrite (sum_single n r).
  - rewrite nth_map_seq by exact Hr.
    change (nth n (nth r M []) 0) with (entry exact M r n).
    specialize (Hdiag r Hr). as_rationals. field. exact Hdiag.
  - exact Hr.
  - intros k Hk Hne. rewrite (Hzero r k Hr Hk) by auto. ring.
Qed.

Lemma elimination_solves (n : nat) (M M' : list (list Q)) :
  well_formed n M ->
  solve_columns exact M n (seq 0 n) = Some M' ->
  solves n M (map (fun i => entry exact M' i n / entry exact M' i i) (seq 0 n)).
Proof.
  intros Hwf Hloop.
  assert (Hred : reduced n 0 M).
  { split; [exact Hwf|]. split; intros; lia. }
  destruct (elimination_loop n n 0%nat M M' eq_refl Hred Hloop)
    as [Hfinal Hback].
  apply Hback, diagonal_solution, Hfinal.
Qed.

Lemma solveLinear_length (a : list (list Q)) (b h : list Q) :
  solveLinear exact a b = Some h -> List.length h = List.length a.
Proof.
  unfold solveLinear. destruct (solve_columns exact _ _ _); [|discriminate].
  intros [= <-]. now rewrite length_map, length_seq.
Qed.

(** X15.  [solveLinear] returns a solution.  For a square system, a matrix
    [a] of [n] rows of [n] coefficients and [n] right-hand sides [b], a
    result [h] other than [null] satisfies every equation: row [r] of [a]
    times [h] is [b[r]]. *)
Theorem solveLinear_solves (a : list (list Q)) (b h : list Q) :
  Forall (fun row => List.length row = List.length a) a ->
  List.length b = List.length a ->
  solveLinear exact a b = Some h ->
  forall r, (r < List.length a)%nat ->
    dot (List.length a) (nth r a []) h == nth r b 0.
Proof.
  intros Hrows Hb. unfold solveLinear.
  cbv zeta. change (num exact) with Q. set (n := List.length a).
  match goal with
  | |- context [solve_columns exact ?M _ _] => set (M0 := M)
  end.
  destruct (solve_columns exact M0 n (seq 0 n)) as [M'|] eqn:Hloop;
    [|discriminate].
  intros [= <-] r Hr.
  assert (Hrow0 : forall i, (i < n)%nat ->
                    @nth (list Q) i M0 [] = nth i a [] ++ [nth i b 0]).
  { intros i Hi. unfold M0. cbn [num exact].
    rewrite nth_map_seq; [reflexivity|exact Hi]. }
  assert (Hwf : well_formed n M0).
  { split.
    - unfold M0. now rewrite length_map, length_seq.
    - apply Forall_forall. intros row Hrow.
      apply In_nth with (d := []) in Hrow. destruct Hrow as (i & Hi & <-).
      assert (Hi' : (i < n)%nat).
      { unfold M0 in Hi. now rewrite length_map, length_seq in Hi. }
      cbn [num exact] in *. rewrite (Hrow0 i Hi'), length_app. cbn [List.length].
      rewrite (proj1 (Forall_forall _ _) Hrows (nth i a [])); [fold n; lia|].
      apply nth_In. exact Hi'. }
  pose proof (elimination_solves n M0 M' Hwf Hloop r Hr) as H.
  rewrite (Hrow0 r Hr) in H.
  assert (Hlen : List.length (nth r a []) = n).
  { apply (proj1 (Forall_forall _ _) Hrows). now apply nth_In. }
  rewrite app_nth2, Hlen, Nat.sub_diag in H by lia. cbn [nth] in H.
  rewrite <- H. apply sum_ext. intros k Hk.
  rewrite app_nth1 by lia. reflexivity.
Qed.

Lemma solveLinear_solves_witness :
  exists h,
    solveLinear exact system_a system_b = Some h
    /\ forall r, (r < 2)%nat ->
         dot 2 (nth r system_a []) h == nth r system_b 0.
Proof.
  destruct (solveLinear exact system_a system_b) as [h|] eqn:E.
  - exists h. split; [reflexivity|].
    apply (solveLinear_solves system_a system_b h).
    + repeat constructor.
    + reflexivity.
    + exact E.
  - assert (Hsome : is_some (solveLinear exact system_a system_b) = true)
      by (vm_compute; reflexivity).
    rewrite E in Hsome. discriminate.
Defined.

(** The solution of the sample system in lowest terms, and a singular
    system, which has no pivot in its second column. *)
Example sample_system_solution :
  option_map (map Qred) (solveLinear exact system_a system_b) = Some [1; 3].
Proof. vm_compute. reflexivity. Qed.

Example singular_system_is_rejected :
  solveLinear exact singular_a system_b = None.
Proof. vm_compute. reflexivity. Qed.

(** X16.  [invertMatrix3] returns the inverse.  For a matrix of nine
    entries, a result other than [null] is a two-sided inverse: both
    products with the argument are the identity matrix. *)
Theorem invertMatrix3_inverts (m inv : list Q) :
  List.length m = 9%nat ->
  invertMatrix3 exact m = Some inv ->
  Forall2 Qeq (mul3 m inv) identity3 /\ Forall2 Qeq (mul3 inv m) identity3.
Proof.
  intros Hlen.
  do 9 (destruct m as [|? m]; [discriminate|]).
  destruct m; [|discriminate]. clear Hlen.
  unfold invertMatrix3. cbn [cell nth].
  match goal with
  | |- context [ltb exact (abs exact ?d) (epsilon exact)] =>
      set (det := d); destruct (ltb exact (abs exact det) (epsilon exact)) eqn:E
  end; [discriminate|].
  apply below_epsilon in E. intros [= <-].
  unfold mul3, identity3. cbn [map sum fst snd Nat.mul Nat.add nth].
  unfold det in *. cbn [num exact add sub mul div of_Z] in *.
  split; repeat constructor; field; exact E.
Qed.

Lemma invertMatrix3_inverts_witness :
  exists inv,
    invertMatrix3 exact matrix3 = Some inv
    /\ Forall2 Qeq (mul3 matrix3 inv) identity3
    /\ Forall2 Qeq (mul3 inv matrix3) identity3.
Proof.
  destruct (invertMatrix3 exact matrix3) as [inv|] eqn:E.
  - exists inv. split; [reflexivity|].
    apply invertMatrix3_inverts; [reflexivity|exact E].
  - assert (Hsome : is_some (invertMatrix3 exact matrix3) = true)
      by (vm_compute; reflexivity).
    rewrite E in Hsome. discriminate.
Defined.

Example sample_inverse :
  option_map (map Qred) (invertMatrix3 exact matrix3)
  = Some [1 # 2; - (1 # 4); 1; 0; 1 # 4; 0; 0; - (1 # 8); 1].
Proof. vm_compute. reflexivity. Qed.

Lemma corner_equations (sx sy dx dy h0 h1 h2 h3 h4 h5 h6 h7 : Q) :
  sx * h0 + sy * h1 + 1 * h2 + 0 * h3 + 0 * h4 + 0 * h5
  + - dx * sx * h6 + - dx * sy * h7 == dx ->
  0 * h0 + 0 * h1 + 0 * h2 + sx * h3 + sy * h4 + 1 * h5
  + - dy * sx * h6 + - dy * sy * h7 == dy ->
  ~ h6 * sx + h7 * sy + 1 == 0 ->
  (h0 * sx + h1 * sy + h2) / (h6 * sx + h7 * sy + 1) == dx
  /\ (h3 * sx + h4 * sy + h5) / (h6 * sx + h7 * sy + 1) == dy.
Proof.
  intros Hx Hy Hw.
  assert (Ex : h0 * sx + h1 * sy + h2 == dx * (h6 * sx + h7 * sy + 1)).
  { lra. }
  assert (Ey : h3 * sx + h4 * sy + h5 == dy * (h6 * sx + h7 * sy + 1)).
  { lra. }
  split; [rewrite Ex|rewrite Ey]; field; exact Hw.
Qed.

(** X17.  The homography maps the corners.  When [computeHomography]
    succeeds, applying the matrix it returns to each source corner gives the
    corresponding destination corner, provided the projective denominator
    is not zero there. *)
Theorem homography_maps_corners (src dst : BoardCorners exact) (H : list Q) :
  computeHomography exact src dst = Some H ->
  Forall2
    (fun s d =>
       ~ denominator H s == 0 ->
       same_point (applyHomography exact H (fst s) (snd s)) d)
    (corner_list exact src) (corner_list exact dst).
Proof.
  destruct src as [[[[s0x s0y] [s1x s1y]] [s2x s2y]] [s3x s3y]].
  destruct dst as [[[[d0x d0y] [d1x d1y]] [d2x d2y]] [d3x d3y]].
  unfold computeHomography, corner_list.
  cbn [combine flat_map app map fst snd].
  unfold solveLinear. cbn [List.length seq map nth app cell num exact].
  match goal with
  | |- context [solve_columns exact ?M ?n ?cs] =>
      set (M0 := M);
      destruct (solve_columns exact M0 n cs) as [M'|] eqn:Hloop
  end; [|discriminate].
  intros [= <-].
  assert (Hwf : well_formed 8 M0) by (split; repeat constructor).
  pose proof (elimination_solves 8 M0 M' Hwf Hloop) as Heq.
  cbn [map seq] in Heq. cbn [div exact].
  set (h0 := entry exact M' 0 8 / _) in *.
  set (h1 := entry exact M' 1 8 / _) in *.
  set (h2 := entry exact M' 2 8 / _) in *.
  set (h3 := entry exact M' 3 8 / _) in *.
  set (h4 := entry exact M' 4 8 / _) in *.
  set (h5 := entry exact M' 5 8 / _) in *.
  set (h6 := entry exact M' 6 8 / _) in *.
  set (h7 := entry exact M' 7 8 / _) in *.
  clearbody h0 h1 h2 h3 h4 h5 h6 h7.
  pose proof (Heq 0%nat ltac:(lia)) as E0.
  pose proof (Heq 1%nat ltac:(lia)) as E1.
  pose proof (Heq 2%nat ltac:(lia)) as E2.
  pose proof (Heq 3%nat ltac:(lia)) as E3.
  pose proof (Heq 4%nat ltac:(lia)) as E4.
  pose proof (Heq 5%nat ltac:(lia)) as E5.
  pose proof (Heq 6%nat ltac:(lia)) as E6.
  pose proof (Heq 7%nat ltac:(lia)) as E7.
  clear Heq Hloop Hwf.
  unfold dot in *.
  cbn [M0 List.length nth sum num exact of_Z mul neg] in *.
  change (inject_Z 1) with 1 in *. change (inject_Z 0) with 0 in *.
  repeat apply Forall2_cons; try apply Forall2_nil; intros Hw;
    unfold same_point, applyHomography, denominator, cell in *;
    cbn [app nth fst snd num exact of_Z nan add mul div] in *;
    change (inject_Z 1) with 1 in *.
  all: apply corner_equations; solve [lra | exact Hw].
Qed.

Lemma homography_maps_corners_witness :
  exists H,
    computeHomography exact trapezoid square4 = Some H
    /\ Forall2
         (fun s d =>
            ~ denominator H s == 0 ->
            same_point (applyHomography exact H (fst s) (snd s)) d)
         (corner_list exact trapezoid) (corner_list exact square4).
Proof.
  destruct (computeHomography exact trapezoid square4) as [H|] eqn:E.
  - exists H. split; [reflexivity|].
    apply homography_maps_corners. exact E.
  - assert (Hsome : is_some (computeHomography exact trapezoid square4) = true)
      by (vm_compute; reflexivity).
    rewrite E in Hsome. discriminate.
Defined.

(** The matrix found for the trapezoid, in lowest terms. *)
Example trapezoid_matrix :
  option_map (map Qred) (computeHomography exact trapezoid square4)
  = Some [2; 1; -2; 0; 4; 0; 0; 1 # 2; 1].
Proof. vm_compute. reflexivity. Qed.

End HomographyFacts.

(** ** Board recognition: peaks of the Hough accumulator *)

Module HoughFacts.
Import Js Hough HoughSpec.
Local Open Scope list_scope.
Local Open Scope Z_scope.

Lemma store_length (out : list Z) (i : nat) (v : Z) :
  List.length (Perspective.store out i v) = List.length out.
Proof.
  revert i. induction out as [|b out IH]; intros [|i]; cbn; auto.
Qed.

Lemma store_same (out : list Z) (i : nat) (v : Z) :
  (i < List.length out)%nat -> nth i (Perspective.store out i v) 0 = v.
Proof.
  revert i. induction out as [|b out IH]; intros [|i]; cbn; try lia; auto.
  intros H. apply IH. lia.
Qed.

Lemma store_other (out : list Z) (i j : nat) (v : Z) :
  i <> j -> nth j (Perspective.store out i v) 0 = nth j out 0.
Proof.
  revert i j. induction out as [|b out IH]; intros [|i] [|j]; cbn; try congruence.
  intros H. apply IH. congruence.
Qed.

Lemma in_range (lo hi v : Z) : In v (range lo hi) <-> lo <= v <= hi.
Proof.
  unfold range. rewrite in_map_iff. split.
  - intros (k & <- & Hk). apply in_seq in Hk. lia.
  - intros H. exists (Z.to_nat (v - lo)). split; [lia|].
    apply in_seq. lia.
Qed.

Lemma wrap_mod (n x : Z) : 0 < n -> wrap n x = x mod n.
Proof.
  intros Hn. unfold wrap.
  pose proof (Z.quot_rem' x n) as Hq.
  assert (Hr : - n < Z.rem x n < n).
  { pose proof (Z.rem_bound_abs x n ltac:(lia)). lia. }
  rewrite Z.rem_mod_nonneg by lia.
  replace (Z.rem x n + n) with (x + (1 - Z.quot x n) * n) by lia.
  apply Z.mod_add. lia.
Qed.

(** Marking never clears a cell, and sets the cells it names. *)
Lemma mark_length (s : list Z) (i : Z) : List.length (mark s i) = List.length s.
Proof. unfold mark. destruct (0 <=? i); [apply store_length|reflexivity]. Qed.

Lemma mark_keeps (s : list Z) (i : Z) (j : nat) :
  nth j s 0 <> 0 -> nth j (mark s i) 0 <> 0.
Proof.
  unfold mark. destruct (0 <=? i); [|auto].
  destruct (Nat.eq_dec (Z.to_nat i) j) as [<-|Hne].
  - intros H. rewrite store_same; [lia|].
    destruct (Nat.lt_ge_cases (Z.to_nat i) (List.length s)); [assumption|].
    now rewrite nth_overflow in H.
  - now rewrite store_other.
Qed.

Lemma mark_sets (s : list Z) (i : Z) :
  0 <= i < Z.of_nat (List.length s) -> nth (Z.to_nat i) (mark s i) 0 <> 0.
Proof.
  intros H. unfold mark. destruct (0 <=? i) eqn:E; [|lia].
  rewrite store_same; lia.
Qed.

Lemma ForallOrdPairs_snoc {A : Type} (R : A -> A -> Prop) (l : list A) (x : A) :
  ForallOrdPairs R l -> Forall (fun y => R y x) l -> ForallOrdPairs R (l ++ [x]).
Proof.
  induction 1 as [|y l Hy Hl IH]; intros Hx; cbn.
  - repeat constructor.
  - inversion Hx; subst. constructor; [|now apply IH].
    apply Forall_app. split; [exact Hy|now constructor].
Qed.

Lemma ForallOrdPairs_on {A : Type} (P : A -> Prop) (R S : A -> A -> Prop)
    (l : list A) :
  (forall x y, P x -> P y -> R x y -> S x y) ->
  Forall P l -> ForallOrdPairs R l -> ForallOrdPairs S l.
Proof.
  intros HRS HP. induction 1 as [|x l Hx Hl IH]; [constructor|].
  inversion HP as [|? ? Px Pl]; subst. constructor; [|now apply IH].
  rewrite Forall_forall in *. intros y Hy. apply HRS; auto.
Qed.

Lemma StronglySorted_snoc {A : Type} (R : A -> A -> Prop) (l : list A) (x : A) :
  StronglySorted R l -> Forall (fun y => R y x) l -> StronglySorted R (l ++ [x]).
Proof.
  induction 1 as [|y l Hl IH Hy]; intros Hx; cbn.
  - repeat constructor.
  - inversion Hx; subst. constructor; [now apply IH|].
    apply Forall_app. split; [exact Hy|now constructor].
Qed.

(** The window is symmetric. *)
Lemma in_window_sym (numTheta : nat) (mT mR : Z) (p q : HoughPeak) :
  0 <= thetaIdx p < Z.of_nat numTheta ->
  in_window numTheta mT mR p q -> in_window numTheta mT mR q p.
Proof.
  intros Hp (dt & dr & Hdt & Hdr & Ht & Hr).
  exists (- dt), (- dr). repeat split; try lia.
  rewrite Ht, Zplus_mod_idemp_l.
  replace (thetaIdx p + dt + - dt) with (thetaIdx p) by lia.
  symmetry. apply Z.mod_small. exact Hp.
Qed.

Section PeaksFacts.
Variable accumulator : list Z.
Variables numTheta numRho : nat.
Variables D DEG : Q.
Variable topN : nat.
Variables minDistTheta minDistRho : Z.

Let cells : nat := (numTheta * numRho)%nat.

Lemma suppress_row_length (t r dt : Z) (s : list Z) :
  List.length (suppress_row numTheta numRho minDistRho t r dt s) = List.length s.
Proof.
  unfold Hough.suppress_row. generalize (range (- minDistRho) minDistRho).
  intros drs. revert s.
  induction drs as [|dr drs IH]; intros s; cbn [fold_left]; [reflexivity|].
  rewrite IH. destruct (_ && _); [apply mark_length|reflexivity].
Qed.

Lemma suppress_row_keeps (t r dt : Z) (s : list Z) (j : nat) :
  nth j s 0 <> 0 -> nth j (suppress_row numTheta numRho minDistRho t r dt s) 0 <> 0.
Proof.
  unfold Hough.suppress_row. generalize (range (- minDistRho) minDistRho).
  intros drs. revert s.
  induction drs as [|dr drs IH]; intros s Hs; cbn [fold_left]; [exact Hs|].
  apply IH. destruct (_ && _); [now apply mark_keeps|exact Hs].
Qed.

Lemma suppress_row_sets (t r dt dr : Z) (s : list Z) :
  - minDistRho <= dr <= minDistRho ->
  0 <= r + dr < Z.of_nat numRho ->
  0 <= wrap (Z.of_nat numTheta) (t + dt) * Z.of_nat numRho + (r + dr)
    < Z.of_nat (List.length s) ->
  nth (Z.to_nat (wrap (Z.of_nat numTheta) (t + dt) * Z.of_nat numRho + (r + dr)))
      (suppress_row numTheta numRho minDistRho t r dt s) 0 <> 0.
Proof.
  intros Hin Hr. apply in_range in Hin. unfold Hough.suppress_row.
  revert Hin. generalize (range (- minDistRho) minDistRho). intros drs Hin.
  revert s.
  induction drs as [|dr' drs IH]; intros s Hs; [destruct Hin|].
  cbn [fold_left]. destruct Hin as [->|Hin].
  - replace ((0 <=? r + dr) && (r + dr <? Z.of_nat numRho)) with true
      by (symmetry; apply andb_true_iff; split; lia).
    assert (Hkeep : forall l s' j, nth j s' 0 <> 0 ->
              nth j (fold_left
                       (fun s0 dr0 =>
                          if (0 <=? r + dr0) && (r + dr0 <? Z.of_nat numRho)
                          then mark s0 (wrap (Z.of_nat numTheta) (t + dt)
                                        * Z.of_nat numRho + (r + dr0))
                          else s0) l s') 0 <> 0).
    { induction l as [|x l IHl]; intros s' j Hj; cbn [fold_left]; [exact Hj|].
      apply IHl. destruct (_ && _); [now apply mark_keeps|exact Hj]. }
    apply Hkeep. now apply mark_sets.
  - apply IH; [exact Hin|].
    destruct (_ && _); [now rewrite mark_length|exact Hs].
Qed.

Lemma suppress_length (s : list Z) (t r : Z) :
  List.length (suppress numTheta numRho minDistTheta minDistRho s t r) = List.length s.
Proof.
  unfold Hough.suppress. generalize (range (- minDistTheta) minDistTheta).
  intros dts. revert s.
  induction dts as [|dt dts IH]; intros s; cbn [fold_left]; [reflexivity|].
  rewrite IH. apply suppress_row_length.
Qed.

Lemma suppress_rows_keep (t r : Z) (dts : list Z) (s : list Z) (j : nat) :
  nth j s 0 <> 0 ->
  nth j (fold_left (fun s dt => suppress_row numTheta numRho minDistRho t r dt s) dts s) 0 <> 0.
Proof.
  revert s.
  induction dts as [|dt dts IH]; intros s Hs; cbn [fold_left]; [exact Hs|].
  apply IH. now apply suppress_row_keeps.
Qed.

Lemma suppress_keeps (s : list Z) (t r : Z) (j : nat) :
  nth j s 0 <> 0 -> nth j (suppress numTheta numRho minDistTheta minDistRho s t r) 0 <> 0.
Proof. apply suppress_rows_keep. Qed.

(** After the loops, every cell of the window that lies in the accumulator
    is suppressed. *)
Lemma suppress_sets (s : list Z) (t r dt dr : Z) :
  List.length s = cells ->
  0 <= t < Z.of_nat numTheta ->
  - minDistTheta <= dt <= minDistTheta ->
  - minDistRho <= dr <= minDistRho ->
  0 <= r + dr < Z.of_nat numRho ->
  nth (Z.to_nat (((t + dt) mod Z.of_nat numTheta) * Z.of_nat numRho + (r + dr)))
      (suppress numTheta numRho minDistTheta minDistRho s t r) 0 <> 0.
Proof.
  intros Hlen Ht Hdt Hdr Hr.
  rewrite <- wrap_mod by lia.
  assert (Hcell : 0 <= wrap (Z.of_nat numTheta) (t + dt) * Z.of_nat numRho + (r + dr)
                  < Z.of_nat cells).
  { rewrite wrap_mod by lia.
    pose proof (Z.mod_pos_bound (t + dt) (Z.of_nat numTheta) ltac:(lia)) as Hm.
    unfold cells. nia. }
  apply in_range in Hdt. unfold Hough.suppress.
  revert Hdt. generalize (range (- minDistTheta) minDistTheta). intros dts Hin.
  revert s Hlen.
  induction dts as [|dt' dts IH]; intros s Hlen; [destruct Hin|].
  cbn [fold_left]. destruct Hin as [->|Hin].
  - apply suppress_rows_keep, suppress_row_sets; [exact Hdr|exact Hr|].
    now rewrite Hlen.
  - apply IH; [exact Hin|]. now rewrite suppress_row_length.
Qed.

(** The cell of an index. *)
Lemma index_cell (idx : nat) :
  (idx < cells)%nat ->
  let t := Z.of_nat idx / Z.of_nat numRho in
  let r := Z.rem (Z.of_nat idx) (Z.of_nat numRho) in
  0 <= t < Z.of_nat numTheta /\ 0 <= r < Z.of_nat numRho
  /\ Z.to_nat (t * Z.of_nat numRho + r) = idx.
Proof.
  intros Hidx. unfold cells in Hidx. cbv zeta.
  assert (Hn : 0 < Z.of_nat numRho) by nia.
  rewrite Z.rem_mod_nonneg by lia.
  pose proof (Z.div_mod (Z.of_nat idx) (Z.of_nat numRho) ltac:(lia)) as Hdm.
  pose proof (Z.mod_pos_bound (Z.of_nat idx) (Z.of_nat numRho) Hn) as Hm.
  assert (Hd : 0 <= Z.of_nat idx / Z.of_nat numRho) by (apply Z.div_pos; lia).
  split; [split; [exact Hd|]|split; [exact Hm|]].
  - apply Z.div_lt_upper_bound; [exact Hn|]. nia.
  - rewrite (Z.mul_comm _ (Z.of_nat numRho)), <- Hdm. apply Nat2Z.id.
Qed.

Let in_grid (p : HoughPeak) : Prop :=
  0 <= thetaIdx p < Z.of_nat numTheta /\ 0 <= rhoIdx p < Z.of_nat numRho.

(** The window of [p] is suppressed. *)
Let covered (suppressed : list Z) (p : HoughPeak) : Prop :=
  forall dt dr,
    - minDistTheta <= dt <= minDistTheta ->
    - minDistRho <= dr <= minDistRho ->
    0 <= rhoIdx p + dr < Z.of_nat numRho ->
    nth (Z.to_nat (((thetaIdx p + dt) mod Z.of_nat numTheta) * Z.of_nat numRho
                   + (rhoIdx p + dr)))
        suppressed 0 <> 0.

Lemma scan_in_grid (idxs : list nat) :
  Forall (fun i => (i < cells)%nat) idxs ->
  forall suppressed peaks,
    Forall in_grid peaks ->
    Forall in_grid
      (scan accumulator numTheta numRho D DEG topN minDistTheta minDistRho
            idxs suppressed peaks).
Proof.
  induction 1 as [|idx idxs Hidx Hrest IH]; intros suppressed peaks Hg;
    cbn [scan]; [exact Hg|].
  destruct (topN <=? List.length peaks)%nat; [exact Hg|].
  destruct (_ || _); [now apply IH|].
  apply IH. apply Forall_app. split; [exact Hg|].
  constructor; [|constructor].
  destruct (index_cell idx Hidx) as (Ht & Hr & _). split; assumption.
Qed.

Lemma scan_separated (idxs : list nat) :
  Forall (fun i => (i < cells)%nat) idxs ->
  forall suppressed peaks,
    List.length suppressed = cells ->
    Forall in_grid peaks ->
    Forall (covered suppressed) peaks ->
    ForallOrdPairs (fun p q => ~ in_window numTheta minDistTheta minDistRho p q)
                   peaks ->
    ForallOrdPairs (fun p q => ~ in_window numTheta minDistTheta minDistRho p q)
      (scan accumulator numTheta numRho D DEG topN minDistTheta minDistRho
            idxs suppressed peaks).
Proof.
  induction 1 as [|idx idxs Hidx Hrest IH]; intros suppressed peaks Hlen Hg Hc Hs;
    cbn [scan]; [exact Hs|].
  destruct (topN <=? List.length peaks)%nat; [exact Hs|].
  destruct (negb (nth idx suppressed 0 =? 0) || no_votes accumulator idx)
    eqn:Eskip; [now apply IH|].
  apply orb_false_iff in Eskip. destruct Eskip as [Efree _].
  apply negb_false_iff, Z.eqb_eq in Efree.
  destruct (index_cell idx Hidx) as (Ht & Hr & Hcell).
  set (t := Z.of_nat idx / Z.of_nat numRho) in *.
  set (r := Z.rem (Z.of_nat idx) (Z.of_nat numRho)) in *.
  apply IH.
  - now rewrite suppress_length.
  - apply Forall_app. split; [exact Hg|]. repeat constructor; cbn; lia.
  - apply Forall_app. split.
    + revert Hc. apply Forall_impl. intros p Hp dt dr Hdt Hdr Hin.
      apply suppress_keeps. now apply Hp.
    + constructor; [|constructor]. intros dt dr Hdt Hdr Hin. cbn in *.
      now apply suppress_sets.
  - apply ForallOrdPairs_snoc; [exact Hs|].
    revert Hc. apply Forall_impl.
    intros p Hp (dt & dr & Hdt & Hdr & Etheta & Erho). cbn in Etheta, Erho.
    apply (Hp dt dr Hdt Hdr); [lia|].
    rewrite <- Etheta, <- Erho, Hcell. exact Efree.
Qed.

Lemma indices_in_range :
  Forall (fun i => (i < cells)%nat) (indices accumulator numTheta numRho).
Proof.
  unfold indices.
  apply (Permutation_Forall (Permutation_sym (SortFacts.sort_perm _ _))).
  apply Forall_forall. intros i Hi. apply in_seq in Hi. unfold cells. lia.
Qed.

Lemma scan_count (idxs : list nat) (suppressed : list Z) (peaks : list HoughPeak) :
  (List.length peaks <= topN)%nat ->
  (List.length
     (scan accumulator numTheta numRho D DEG topN minDistTheta minDistRho
           idxs suppressed peaks) <= topN)%nat.
Proof.
  revert suppressed peaks.
  induction idxs as [|idx idxs IH]; intros suppressed peaks Hn; cbn [scan];
    [exact Hn|].
  destruct (topN <=? List.length peaks)%nat eqn:E; [exact Hn|].
  apply Nat.leb_gt in E.
  destruct (_ || _); apply IH; [exact Hn|].
  rewrite length_app. cbn. lia.
Qed.

Hypothesis accumulator_size : List.length accumulator = cells.

Lemma scan_cells (idxs : list nat) :
  Forall (fun i => (i < cells)%nat) idxs ->
  forall suppressed peaks,
    Forall (is_cell accumulator numTheta numRho) peaks ->
    Forall (is_cell accumulator numTheta numRho)
      (scan accumulator numTheta numRho D DEG topN minDistTheta minDistRho
            idxs suppressed peaks).
Proof.
  induction 1 as [|idx idxs Hidx Hrest IH]; intros suppressed peaks Hg;
    cbn [scan]; [exact Hg|].
  destruct (topN <=? List.length peaks)%nat; [exact Hg|].
  destruct (negb (nth idx suppressed 0 =? 0) || no_votes accumulator idx)
    eqn:Eskip; [now apply IH|].
  apply orb_false_iff in Eskip. destruct Eskip as [_ Evotes].
  apply IH. apply Forall_app. split; [exact Hg|].
  constructor; [|constructor].
  destruct (index_cell idx Hidx) as (Ht & Hr & Hcell).
  unfold is_cell. cbn [thetaIdx rhoIdx votes]. rewrite Hcell.
  split; [exact Ht|]. split; [exact Hr|].
  unfold no_votes in Evotes.
  destruct (nth_error accumulator idx) as [v|] eqn:Ev.
  - exists v. repeat split. lia.
  - apply nth_error_None in Ev. lia.
Qed.

Let acc (i : nat) : Z := nth i accumulator 0.

Lemma indices_sorted :
  StronglySorted (fun i j => acc j <= acc i)
                 (indices accumulator numTheta numRho).
Proof.
  unfold indices. apply SortFacts.sort_sorted_on.
  - intros x y z _ _ _. lia.
  - intros x y Hx Hy. apply in_seq in Hx, Hy. unfold by_votes, acc.
    rewrite (nth_error_nth' accumulator 0), (nth_error_nth' accumulator 0)
      by (rewrite accumulator_size; unfold cells; lia).
    lia.
  - intros x y Hx Hy. apply in_seq in Hx, Hy. unfold by_votes, acc.
    rewrite (nth_error_nth' accumulator 0), (nth_error_nth' accumulator 0)
      by (rewrite accumulator_size; unfold cells; lia).
    lia.
Qed.

Lemma scan_sorted (idxs : list nat) :
  StronglySorted (fun i j => acc j <= acc i) idxs ->
  forall suppressed peaks,
    Forall (fun p => Forall (fun i => acc i <= votes_of p) idxs) peaks ->
    StronglySorted (fun p q => votes_of q <= votes_of p) peaks ->
    StronglySorted (fun p q => votes_of q <= votes_of p)
      (scan accumulator numTheta numRho D DEG topN minDistTheta minDistRho
            idxs suppressed peaks).
Proof.
  induction 1 as [|idx idxs Hrest IH Hidx]; intros suppressed peaks Hb Hs;
    cbn [scan]; [exact Hs|].
  assert (Hb' : Forall (fun p => Forall (fun i => acc i <= votes_of p) idxs) peaks).
  { revert Hb. apply Forall_impl. intros p Hp. now inversion Hp. }
  destruct (topN <=? List.length peaks)%nat; [exact Hs|].
  destruct (_ || _); [now apply IH|].
  assert (Hv : forall t r th rh,
             votes_of (mkHoughPeak t r (nth_error accumulator idx) th rh)
             = acc idx).
  { intros. unfold votes_of, acc. cbn [votes].
    destruct (nth_error accumulator idx) as [v|] eqn:Ev.
    - symmetry. now apply nth_error_nth.
    - apply nth_error_None in Ev. now rewrite nth_overflow. }
  apply IH.
  - apply Forall_app. split; [exact Hb'|].
    constructor; [|constructor]. rewrite Hv. exact Hidx.
  - apply StronglySorted_snoc; [exact Hs|].
    revert Hb. apply Forall_impl. intros p Hp. rewrite Hv. now inversion Hp.
Qed.

End PeaksFacts.

(** X18.  Non-maximum suppression separates the peaks.  No peak returned by
    [findHoughPeaks] lies in the suppression window of another one: two
    peaks are never at most [minDistTheta] rows (counted cyclically) and at
    most [minDistRho] columns apart.  This holds for every accumulator and
    every choice of the sizes and distances. *)
Theorem peaks_are_separated (accumulator : list Z) (numTheta numRho : nat)
    (D DEG : Q) (topN : nat) (minDistTheta minDistRho : Z) :
  ForallOrdPairs
    (fun p q =>
       ~ in_window numTheta minDistTheta minDistRho p q
       /\ ~ in_window numTheta minDistTheta minDistRho q p)
    (findHoughPeaks accumulator numTheta numRho D DEG topN
                    minDistTheta minDistRho).
Proof.
  unfold findHoughPeaks.
  apply (ForallOrdPairs_on
           (fun p => 0 <= thetaIdx p < Z.of_nat numTheta
                     /\ 0 <= rhoIdx p < Z.of_nat numRho)
           (fun p q => ~ in_window numTheta minDistTheta minDistRho p q)).
  - intros p q Hp Hq Hpq. split; [exact Hpq|].
    intros Hqp. apply Hpq. apply in_window_sym; [apply Hq|exact Hqp].
  - apply scan_in_grid; [apply indices_in_range|constructor].
  - apply scan_separated.
    + apply indices_in_range.
    + apply repeat_length.
    + constructor.
    + constructor.
    + constructor.
Qed.

(** X19.  The peaks are the best cells, in order.  For an accumulator of
    [numTheta * numRho] cells, [findHoughPeaks] returns at most [topN]
    peaks; each one names a cell of the accumulator and carries its votes,
    which are positive; and the votes never increase along the result. *)
Theorem peaks_are_ranked (accumulator : list Z) (numTheta numRho : nat)
    (D DEG : Q) (topN : nat) (minDistTheta minDistRho : Z) :
  List.length accumulator = (numTheta * numRho)%nat ->
  let peaks :=
    findHoughPeaks accumulator numTheta numRho D DEG topN
                   minDistTheta minDistRho in
  (List.length peaks <= topN)%nat
  /\ Forall (is_cell accumulator numTheta numRho) peaks
  /\ StronglySorted (fun p q => votes_of q <= votes_of p) peaks.
Proof.
  intros Hsize peaks. unfold peaks, findHoughPeaks. split; [|split].
  - apply scan_count. cbn. lia.
  - apply scan_cells; [exact Hsize|apply indices_in_range|constructor].
  - apply scan_sorted.
    + now apply indices_sorted.
    + constructor.
    + constructor.
Qed.

Lemma peaks_are_ranked_witness :
  (List.length HoughSample.peaks <= 3)%nat
  /\ Forall (is_cell HoughSample.accumulator 2 4) HoughSample.peaks
  /\ StronglySorted (fun p q => votes_of q <= votes_of p) HoughSample.peaks.
Proof.
  apply (peaks_are_ranked HoughSample.accumulator 2 4 0 (1 # 60) 3 0 1).
  reflexivity.
Defined.

(** The sample accumulator: the cell with 7 votes suppresses its two
    neighbours, and the search stops at three peaks. *)
Example sample_peaks :
  map (fun p => (thetaIdx p, rhoIdx p, votes p)) HoughSample.peaks
  = [(1, 1, Some 7); (0, 2, Some 5); (1, 3, Some 4)].
Proof. vm_compute. reflexivity. Qed.

(** A cell past the end of the accumulator is reported with votes
    [undefined]. *)
Example short_accumulator_gives_undefined_votes :
  map votes (findHoughPeaks [4] 1 2 0 (1 # 60) 5 0 0) = [Some 4; None].
Proof. vm_compute. reflexivity. Qed.

End HoughFacts.

(** ** Board recognition: medians and the three brightness clusters *)

Module StatsFacts.
Import Js Engine Stats StatsSpec.
Local Open Scope list_scope.
Local Open Scope Q_scope.

Lemma ascending_before (a b : Q) : (ascending a b <? 0)%Z = true -> a <= b.
Proof.
  unfold ascending, Policy.sign_of.
  destruct (Qltb (a - b) 0) eqn:E1.
  - apply EngineFacts.Qltb_lt in E1. intros _. lra.
  - destruct (Qltb 0 (a - b)); discriminate.
Qed.

Lemma ascending_after (a b : Q) : (ascending a b <? 0)%Z = false -> b <= a.
Proof.
  unfold ascending, Policy.sign_of.
  destruct (Qltb (a - b) 0) eqn:E1; [discriminate|].
  intros _. apply Qnot_lt_le. intros H.
  assert (Hlt : a - b < 0) by lra.
  apply EngineFacts.Qltb_lt in Hlt. congruence.
Qed.

Lemma sorted_ascending (values : list Q) :
  StronglySorted Qle (sort ascending values).
Proof.
  apply SortFacts.sort_sorted.
  - intros x y z. apply Qle_trans.
  - apply ascending_before.
  - apply ascending_after.
Qed.

Lemma sorted_length (values : list Q) :
  List.length (sort ascending values) = List.length values.
Proof. apply Permutation_length, SortFacts.sort_perm. Qed.

(** In a sorted list, a later element is at least an earlier one. *)
Lemma sorted_nth (l : list Q) :
  StronglySorted Qle l ->
  forall i j, (i <= j < List.length l)%nat -> nth i l 0 <= nth j l 0.
Proof.
  induction 1 as [|x l Hl IH Hx]; intros i j Hij; cbn in Hij; [lia|].
  destruct i as [|i], j as [|j]; cbn [nth]; try lia.
  - apply Qle_refl.
  - rewrite Forall_forall in Hx. apply Hx, nth_In. lia.
  - apply IH. lia.
Qed.

Lemma part_of_half (n : nat) : part_of n (1 # 2) = (n / 2)%nat.
Proof.
  unfold part_of, Qfloor, Qmult, inject_Z. cbn [Qnum Qden].
  rewrite Z.mul_1_r. change (Z.pos (1 * 2)) with (Z.of_nat 2).
  rewrite <- Nat2Z.inj_div. apply Nat2Z.id.
Qed.

Lemma count_le_perm (m : Q) (l l' : list Q) :
  Permutation l l' -> count_le m l = count_le m l'.
Proof.
  unfold count_le. induction 1 as [|x l l' _ IH|x y l|l l' l'' _ IH1 _ IH2];
    cbn [filter]; try reflexivity.
  - destruct (Qle_bool x m); cbn [List.length]; now rewrite IH.
  - destruct (Qle_bool x m), (Qle_bool y m); reflexivity.
  - now rewrite IH1.
Qed.

Lemma count_ge_perm (m : Q) (l l' : list Q) :
  Permutation l l' -> count_ge m l = count_ge m l'.
Proof.
  unfold count_ge. induction 1 as [|x l l' _ IH|x y l|l l' l'' _ IH1 _ IH2];
    cbn [filter]; try reflexivity.
  - destruct (Qle_bool m x); cbn [List.length]; now rewrite IH.
  - destruct (Qle_bool m x), (Qle_bool m y); reflexivity.
  - now rewrite IH1.
Qed.

(** The first [k] elements are at most [m]. *)
Lemma count_le_prefix (m : Q) (l : list Q) (k : nat) :
  (k <= List.length l)%nat ->
  (forall i, (i < k)%nat -> nth i l 0 <= m) ->
  (k <= count_le m l)%nat.
Proof.
  unfold count_le. revert k.
  induction l as [|x l IH]; intros k Hk Hle; cbn in Hk; [lia|].
  destruct k as [|k]; [lia|]. cbn [filter].
  assert (Hx : Qle_bool x m = true) by (apply Qle_bool_iff, (Hle 0%nat); lia).
  rewrite Hx. cbn [List.length]. apply le_n_S, IH; [lia|].
  intros i Hi. apply (Hle (S i)). lia.
Qed.

(** The elements from position [k] on are at least [m]. *)
Lemma count_ge_suffix (m : Q) (l : list Q) (k : nat) :
  (forall i, (k <= i < List.length l)%nat -> m <= nth i l 0) ->
  (List.length l - k <= count_ge m l)%nat.
Proof.
  unfold count_ge. revert k.
  induction l as [|x l IH]; intros k Hge; cbn [List.length filter]; [lia|].
  destruct k as [|k].
  - assert (Hx : Qle_bool m x = true)
      by (apply Qle_bool_iff, (Hge 0%nat); cbn; lia).
    rewrite Hx. cbn [List.length].
    specialize (IH 0%nat). rewrite Nat.sub_0_r in *.
    apply le_n_S, IH. intros i Hi. apply (Hge (S i)). cbn. lia.
  - transitivity (List.length (filter (fun v => Qle_bool m v) l)).
    + cbn [Nat.sub]. apply IH. intros i Hi. apply (Hge (S i)). cbn. lia.
    + destruct (Qle_bool m x); cbn [List.length]; lia.
Qed.

(** X20.  The median splits the values in halves.  For a non-empty array,
    at least half of the values are at most [median(values)], and at least
    half of them are at least that. *)
Theorem median_splits_in_halves (values : list Q) :
  values <> [] ->
  (List.length values <= 2 * count_le (median values) values)%nat
  /\ (List.length values <= 2 * count_ge (median values) values)%nat.
Proof.
  intros Hne. unfold median.
  destruct (List.length values =? 0)%nat eqn:E0.
  { apply Nat.eqb_eq in E0. destruct values; [congruence|discriminate]. }
  apply Nat.eqb_neq in E0.
  pose proof (SortFacts.sort_perm ascending values) as Hperm.
  pose proof (sorted_ascending values) as Hsorted.
  pose proof (sorted_length values) as Hlen.
  pose proof (sorted_nth _ Hsorted) as Hnth.
  set (sorted := sort ascending values) in *. cbv zeta.
  rewrite part_of_half, Hlen.
  set (n := List.length values) in *.
  pose proof (Nat.div_mod_eq n 2) as Hdiv.
  destruct (Nat.even n) eqn:Eeven.
  - apply Nat.even_spec in Eeven. destruct Eeven as [k Hk].
    assert (Hmid : (n / 2 = k)%nat) by (rewrite Hk, Nat.mul_comm; now apply Nat.div_mul).
    rewrite Hmid.
    set (m := (nth (k - 1) sorted 0 + nth k sorted 0) / 2).
    assert (Hlow : nth (k - 1) sorted 0 <= nth k sorted 0) by (apply Hnth; lia).
    assert (Em : m == (nth (k - 1) sorted 0 + nth k sorted 0) * (1 # 2))
      by (unfold m; field).
    assert (Hm1 : nth (k - 1) sorted 0 <= m) by lra.
    assert (Hm2 : m <= nth k sorted 0) by lra.
    rewrite <- (count_le_perm m _ _ Hperm), <- (count_ge_perm m _ _ Hperm).
    split.
    + enough (k <= count_le m sorted)%nat by lia.
      apply count_le_prefix; [lia|]. intros i Hi.
      apply (Qle_trans _ (nth (k - 1) sorted 0)); [apply Hnth; lia|exact Hm1].
    + enough (List.length sorted - k <= count_ge m sorted)%nat by lia.
      apply count_ge_suffix. intros i Hi.
      apply (Qle_trans _ (nth k sorted 0)); [exact Hm2|apply Hnth; lia].
  - assert (Hodd : Nat.odd n = true) by (unfold Nat.odd; now rewrite Eeven).
    apply Nat.odd_spec in Hodd. destruct Hodd as [k Hk].
    assert (Hmid : (n / 2 = k)%nat).
    { rewrite Hk, Nat.mul_comm. rewrite Nat.div_add_l by lia. cbn. lia. }
    rewrite Hmid. set (m := nth k sorted 0).
    rewrite <- (count_le_perm m _ _ Hperm), <- (count_ge_perm m _ _ Hperm).
    split.
    + enough (S k <= count_le m sorted)%nat by lia.
      apply count_le_prefix; [lia|]. intros i Hi. apply Hnth. lia.
    + enough (List.length sorted - k <= count_ge m sorted)%nat by lia.
      apply count_ge_suffix. intros i Hi. apply Hnth. lia.
Qed.

Lemma median_splits_in_halves_witness :
  (List.length StatsSample.brightness
   <= 2 * count_le (median StatsSample.brightness) StatsSample.brightness)%nat
  /\ (List.length StatsSample.brightness
      <= 2 * count_ge (median StatsSample.brightness) StatsSample.brightness)%nat.
Proof.
  apply (median_splits_in_halves StatsSample.brightness). discriminate.
Defined.

Example sample_median : median StatsSample.brightness = 0.
Proof. vm_compute. reflexivity. Qed.

Example median_of_two : median [3; 1] == 2.
Proof. vm_compute. reflexivity. Qed.

Example median_of_nothing : median [] = 128.
Proof. reflexivity. Qed.

(** *** The three clusters *)

Lemma part_of_lt (n : nat) (f : Q) :
  (0 < n)%nat -> f < 1 -> (part_of n f < n)%nat.
Proof.
  intros Hn Hf. unfold part_of.
  set (x := inject_Z (Z.of_nat n) * f).
  assert (Hx : x < inject_Z (Z.of_nat n)).
  { unfold x. assert (0 < inject_Z (Z.of_nat n)).
    { change 0 with (inject_Z 0). rewrite <- Zlt_Qlt. lia. }
    nra. }
  pose proof (Qfloor_le x) as Hfl.
  assert (Hlt : (Qfloor x < Z.of_nat n)%Z).
  { rewrite Zlt_Qlt. lra. }
  lia.
Qed.

Lemma Q_of_S (n : nat) :
  inject_Z (Z.of_nat (S n)) == inject_Z (Z.of_nat n) + 1.
Proof. rewrite Nat2Z.inj_succ, <- Z.add_1_r, inject_Z_plus. reflexivity. Qed.

(** Each sum lies between its count times the bounds. *)
Lemma assign_bounds (lo hi c0 c1 c2 : Q) (values : list Q) :
  Forall (within lo hi) values ->
  let t := assign c0 c1 c2 values in
  let count (n : nat) := inject_Z (Z.of_nat n) in
  (lo * count (n0 t) <= s0 t /\ s0 t <= hi * count (n0 t))
  /\ (lo * count (n1 t) <= s1 t /\ s1 t <= hi * count (n1 t))
  /\ (lo * count (n2 t) <= s2 t /\ s2 t <= hi * count (n2 t)).
Proof.
  intros Hv. cbv zeta. unfold assign.
  set (inv := fun t : Tally =>
    (lo * inject_Z (Z.of_nat (n0 t)) <= s0 t
     /\ s0 t <= hi * inject_Z (Z.of_nat (n0 t)))
    /\ (lo * inject_Z (Z.of_nat (n1 t)) <= s1 t
        /\ s1 t <= hi * inject_Z (Z.of_nat (n1 t)))
    /\ (lo * inject_Z (Z.of_nat (n2 t)) <= s2 t
        /\ s2 t <= hi * inject_Z (Z.of_nat (n2 t)))).
  change (inv (fold_left
    (fun t v =>
       let d0 := Qabs (v - c0) in
       let d1 := Qabs (v - c1) in
       let d2 := Qabs (v - c2) in
       if Qle_bool d0 d1 && Qle_bool d0 d2
       then mkTally (s0 t + v) (s1 t) (s2 t) (S (n0 t)) (n1 t) (n2 t)
       else if Qle_bool d1 d2
       then mkTally (s0 t) (s1 t + v) (s2 t) (n0 t) (S (n1 t)) (n2 t)
       else mkTally (s0 t) (s1 t) (s2 t + v) (n0 t) (n1 t) (S (n2 t)))
    values (mkTally 0 0 0 0 0 0))).
  assert (Hstart : inv (mkTally 0 0 0 0 0 0)).
  { unfold inv. cbn [s0 s1 s2 n0 n1 n2 Z.of_nat].
    change (inject_Z 0) with 0. repeat split; lra. }
  revert Hstart. generalize (mkTally 0 0 0 0 0 0).
  induction Hv as [|v values [Hlo Hhi] _ IH]; intros t Ht; cbn [fold_left];
    [exact Ht|].
  apply IH. unfold inv in *. destruct Ht as ((A0 & B0) & (A1 & B1) & (A2 & B2)).
  destruct (_ && _); [|destruct (Qle_bool _ _)];
    cbn [s0 s1 s2 n0 n1 n2]; rewrite Q_of_S; repeat split; lra.
Qed.

Lemma centre_within (lo hi s c : Q) (n : nat) :
  lo * inject_Z (Z.of_nat n) <= s -> s <= hi * inject_Z (Z.of_nat n) ->
  within lo hi c -> within lo hi (centre s n c).
Proof.
  intros Hlo Hhi Hc. unfold centre.
  destruct (0 <? n)%nat eqn:E; [|exact Hc].
  apply Nat.ltb_lt in E.
  assert (Hn : 0 < inject_Z (Z.of_nat n)).
  { change 0 with (inject_Z 0). rewrite <- Zlt_Qlt. lia. }
  split.
  - apply Qle_shift_div_l; [exact Hn|exact Hlo].
  - apply Qle_shift_div_r; [exact Hn|exact Hhi].
Qed.

Lemma iterate_within (lo hi : Q) (values : list Q) (left : nat) :
  Forall (within lo hi) values ->
  forall c0 c1 c2,
    within lo hi c0 -> within lo hi c1 -> within lo hi c2 ->
    let '(a, b, c) := iterate values left c0 c1 c2 in
    within lo hi a /\ within lo hi b /\ within lo hi c.
Proof.
  intros Hv. induction left as [|left IH]; intros c0 c1 c2 H0 H1 H2;
    cbn [iterate]; [auto|].
  destruct (assign_bounds lo hi c0 c1 c2 values Hv)
    as ((A0 & B0) & (A1 & B1) & (A2 & B2)).
  destruct (Qltb _ _); [auto|].
  apply IH; apply centre_within; assumption.
Qed.

(** X21.  The three centres are ordered and lie among the values.  For at
    least three values, all within [lo, hi], [kmeans3] returns centres
    [a <= b <= c] that lie within [lo, hi] as well, whatever the number of
    iterations. *)
Theorem kmeans3_centres (values : list Q) (maxIter : nat) (lo hi : Q) :
  (3 <= List.length values)%nat ->
  Forall (within lo hi) values ->
  let '(a, b, c) := kmeans3 values maxIter in
  a <= b /\ b <= c /\ lo <= a /\ c <= hi.
Proof.
  intros Hlen Hv. unfold kmeans3.
  destruct (List.length values <? 3)%nat eqn:E; [apply Nat.ltb_lt in E; lia|].
  pose proof (SortFacts.sort_perm ascending values) as Hperm.
  pose proof (sorted_length values) as Hn.
  set (sorted := sort ascending values) in *. cbv zeta.
  assert (Hs : Forall (within lo hi) sorted)
    by (apply (Permutation_Forall (Permutation_sym Hperm)); exact Hv).
  assert (Hstart : forall f, f < 1 ->
            within lo hi (nth (part_of (List.length sorted) f) sorted 0)).
  { intros f Hf. rewrite Forall_forall in Hs. apply Hs, nth_In.
    apply part_of_lt; [lia|exact Hf]. }
  pose proof (iterate_within lo hi values maxIter Hv _ _ _
                (Hstart (1 # 10) eq_refl) (Hstart (1 # 2) eq_refl)
                (Hstart (9 # 10) eq_refl)) as Hit.
  destruct (iterate values maxIter _ _ _) as [[c0 c1] c2].
  destruct Hit as (H0 & H1 & H2).
  pose proof (SortFacts.sort_perm ascending [c0; c1; c2]) as Hp3.
  pose proof (sorted_ascending [c0; c1; c2]) as Hs3.
  pose proof (sorted_length [c0; c1; c2]) as Hn3.
  pose proof (sorted_nth _ Hs3) as Hnth.
  set (cs := sort ascending [c0; c1; c2]) in *. cbn [List.length] in Hn3.
  assert (Hcs : Forall (within lo hi) cs).
  { apply (Permutation_Forall (Permutation_sym Hp3)).
    repeat (apply Forall_cons; [assumption|]). apply Forall_nil. }
  rewrite Forall_forall in Hcs.
  split; [apply Hnth; lia|]. split; [apply Hnth; lia|]. split.
  - apply (Hcs (nth 0 cs 0)), nth_In. lia.
  - apply (Hcs (nth 2 cs 0)), nth_In. lia.
Qed.

Lemma kmeans3_centres_witness :
  let '(a, b, c) := kmeans3 StatsSample.brightness 20 in
  a <= b /\ b <= c /\ - (42) <= a /\ c <= 41.
Proof.
  apply (kmeans3_centres StatsSample.brightness 20 (- (42)) 41).
  - cbn. lia.
  - unfold within, StatsSample.brightness.
    repeat (apply Forall_cons; [split; discriminate|]). apply Forall_nil.
Defined.

(** The sample: the dark, the empty and the light intersections. *)
Example sample_centres :
  let '(a, b, c) := kmeans3 StatsSample.brightness 20 in
  a == - (41) /\ b == 1 # 5 /\ c == 79 # 2.
Proof. vm_compute. repeat split. Qed.

Example too_few_values : kmeans3 [5; 7] 20 = (0, 0, 0).
Proof. reflexivity. Qed.

End StatsFacts.

(** ** Board recognition: grey levels, saturation and masks *)

Module MaskFacts.
Import Js Engine Perspective Mask MaskSpec.
Local Open Scope list_scope.
Local Open Scope Z_scope.

(** *** Writes to a typed array *)

Lemma write_length (a : list Z) (i v : Z) :
  List.length (write a i v) = List.length a.
Proof.
  unfold write. destruct (0 <=? i); [apply HoughFacts.store_length|reflexivity].
Qed.

Lemma write_same (a : list Z) (j : nat) (v : Z) :
  (j < List.length a)%nat -> nth j (write a (Z.of_nat j) v) 0 = v.
Proof.
  intros Hj. unfold write.
  destruct (0 <=? Z.of_nat j) eqn:E; [|lia].
  rewrite Nat2Z.id. now apply HoughFacts.store_same.
Qed.

Lemma write_other (a : list Z) (i v : Z) (j : nat) :
  i <> Z.of_nat j -> nth j (write a i v) 0 = nth j a 0.
Proof.
  intros Hne. unfold write. destruct (0 <=? i) eqn:E; [|reflexivity].
  apply HoughFacts.store_other. lia.
Qed.

Lemma apply_writes_length (ws : list (Z * Z)) (out : list Z) :
  List.length (apply_writes ws out) = List.length out.
Proof.
  unfold apply_writes. revert out.
  induction ws as [|w ws IH]; intros out; cbn [fold_left]; [reflexivity|].
  rewrite IH. apply write_length.
Qed.

(** A cell that no write names keeps its value. *)
Lemma apply_writes_untouched (ws : list (Z * Z)) (out : list Z) (j : nat) :
  (forall w, In w ws -> fst w <> Z.of_nat j) ->
  nth j (apply_writes ws out) 0 = nth j out 0.
Proof.
  unfold apply_writes. revert out.
  induction ws as [|w ws IH]; intros out Hw; cbn [fold_left]; [reflexivity|].
  rewrite IH by (intros w' Hw'; apply Hw; now right).
  apply write_other. apply Hw. now left.
Qed.

(** A cell that is written, and always with the same value, holds it. *)
Lemma apply_writes_value (ws : list (Z * Z)) (out : list Z) (j : nat) (v0 : Z) :
  (j < List.length out)%nat ->
  (exists w, In w ws /\ fst w = Z.of_nat j) ->
  (forall w, In w ws -> fst w = Z.of_nat j -> snd w = v0) ->
  nth j (apply_writes ws out) 0 = v0.
Proof.
  intros Hj Hex Hall.
  assert (H : forall ws out,
             (j < List.length out)%nat ->
             (forall w, In w ws -> fst w = Z.of_nat j -> snd w = v0) ->
             nth j out 0 = v0 \/ (exists w, In w ws /\ fst w = Z.of_nat j) ->
             nth j (apply_writes ws out) 0 = v0).
  { clear. unfold apply_writes.
    induction ws as [|w ws IH]; intros out Hj Hall Hor; cbn [fold_left].
    - destruct Hor as [H|(w & [] & _)]. exact H.
    - apply IH.
      + now rewrite write_length.
      + intros w' Hw'. apply Hall. now right.
      + destruct (Z.eq_dec (fst w) (Z.of_nat j)) as [E|E].
        * left. rewrite E, write_same by exact Hj. apply Hall; [now left|exact E].
        * rewrite write_other by exact E.
          destruct Hor as [H|(w' & [<-|Hw'] & E')]; [now left|congruence|].
          right. now exists w'. }
  apply H; auto.
Qed.

(** Nested loops as one sequence of steps. *)
Lemma fold_left_flat_map_ext {A B C : Type} (F : A -> B -> A) (f : A -> C -> A)
    (g : B -> list C) (l : list B) (a : A) :
  (forall a x, In x l -> F a x = fold_left f (g x) a) ->
  fold_left F l a = fold_left f (flat_map g l) a.
Proof.
  revert a. induction l as [|x l IH]; intros a H; cbn [fold_left flat_map];
    [reflexivity|].
  rewrite fold_left_app, <- (H a x) by now left.
  apply IH. intros a' x' Hx'. apply H. now right.
Qed.

(** In an image of width [w], the index determines the pixel. *)
Lemma pixel_of_index (w x y x' y' : Z) :
  0 <= x < w -> 0 <= x' < w -> y * w + x = y' * w + x' -> x = x' /\ y = y'.
Proof.
  intros Hx Hx' E.
  assert (y = y') by nia. subst. lia.
Qed.

Lemma index_in_image (w h x y : Z) :
  in_image w h x y -> 0 <= y * w + x < w * h.
Proof. unfold in_image. intros [Hx Hy]. nia. Qed.

Lemma set_at_is_set (mask : list Z) (w x y : Z) :
  0 <= y * w + x ->
  set_at mask (y * w + x) = true <-> is_set mask w x y.
Proof.
  intros H. unfold set_at, is_set.
  rewrite andb_true_iff, negb_true_iff, Z.eqb_neq, Z.leb_le. tauto.
Qed.

Lemma fold_left_over_map {A B C : Type} (f : A -> C -> A) (g : B -> C)
    (l : list B) (a : A) :
  fold_left (fun a x => f a (g x)) l a = fold_left f (map g l) a.
Proof.
  revert a. induction l as [|x l IH]; intros a; cbn [fold_left map]; auto.
Qed.

(** *** Erosion *)

(** The writes of [erodeMask], in order. *)
Lemma erodeMask_writes (mask : list Z) (w h r : Z) :
  erodeMask mask w h r
  = apply_writes
      (flat_map
         (fun y =>
            map (fun x => (y * w + x, if all_set mask w r x y then 1 else 0))
                (Hough.range r (w - r - 1)))
         (Hough.range r (h - r - 1)))
      (repeat 0 (Z.to_nat (w * h))).
Proof.
  unfold erodeMask, apply_writes.
  apply fold_left_flat_map_ext. intros a y _.
  apply (fold_left_over_map (fun o w => write o (fst w) (snd w))
           (fun x => (y * w + x, if all_set mask w r x y then 1 else 0))).
Qed.

Lemma all_set_window (mask : list Z) (w r x y : Z) :
  0 <= r -> r <= x -> r <= y -> 0 <= w ->
  all_set mask w r x y = true
  <-> forall x' y', near r x y x' y' -> is_set mask w x' y'.
Proof.
  intros Hr Hx Hy Hw. unfold all_set. rewrite forallb_forall. split.
  - intros H x' y' [Hx' Hy'].
    specialize (H (y' - y)). rewrite HoughFacts.in_range in H.
    specialize (H ltac:(lia)). rewrite forallb_forall in H.
    specialize (H (x' - x)). rewrite HoughFacts.in_range in H.
    specialize (H ltac:(lia)).
    replace (y + (y' - y)) with y' in H by lia.
    replace (x + (x' - x)) with x' in H by lia.
    apply set_at_is_set in H; [exact H|nia].
  - intros H dy Hdy. apply HoughFacts.in_range in Hdy.
    apply forallb_forall. intros dx Hdx. apply HoughFacts.in_range in Hdx.
    apply set_at_is_set; [nia|]. apply H. unfold near. lia.
Qed.

(** X22.  Erosion keeps the pixels with a full window.  For a radius
    [r >= 0], a pixel of the image is set in [erodeMask(mask, w, h, r)]
    exactly when it lies at least [r] from every border and every pixel of
    its (2r+1) x (2r+1) window is set in [mask]; in particular a pixel that
    survives was set. *)
Theorem erosion_keeps_full_windows (mask : list Z) (w h r x y : Z) :
  0 <= r ->
  in_image w h x y ->
  is_set (erodeMask mask w h r) w x y
  <-> (r <= x < w - r /\ r <= y < h - r
       /\ forall x' y', near r x y x' y' -> is_set mask w x' y').
Proof.
  intros Hr Himg. pose proof (index_in_image w h x y Himg) as Hidx.
  destruct Himg as [Hx Hy]. unfold is_set at 1. rewrite erodeMask_writes.
  set (ws := flat_map _ _).
  assert (Hws : forall c, In c ws ->
            exists x0 y0,
              r <= x0 <= w - r - 1 /\ r <= y0 <= h - r - 1
              /\ c = (y0 * w + x0, if all_set mask w r x0 y0 then 1 else 0)).
  { intros c Hc. apply in_flat_map in Hc. destruct Hc as (y0 & Hy0 & Hc).
    apply in_map_iff in Hc. destruct Hc as (x0 & <- & Hx0).
    apply HoughFacts.in_range in Hx0, Hy0. now exists x0, y0. }
  assert (Hinside : (r <= x < w - r /\ r <= y < h - r)
                    \/ ~ (r <= x < w - r /\ r <= y < h - r)) by lia.
  destruct Hinside as [[Hxi Hyi]|Hout].
  - rewrite (apply_writes_value ws _ _
               (if all_set mask w r x y then 1 else 0)).
    + rewrite <- (all_set_window mask w r x y) by lia.
      destruct (all_set mask w r x y); split; intros H; try tauto; try lia;
        destruct H as (_ & _ & H); discriminate.
    + rewrite repeat_length. lia.
    + exists (y * w + x, if all_set mask w r x y then 1 else 0). split.
      * apply in_flat_map. exists y. split; [apply HoughFacts.in_range; lia|].
        apply in_map_iff. exists x. split; [reflexivity|].
        apply HoughFacts.in_range. lia.
      * cbn [fst]. lia.
    + intros c Hc Efst. destruct (Hws c Hc) as (x0 & y0 & Hx0 & Hy0 & ->).
      cbn [fst snd] in *. rewrite Z2Nat.id in Efst by lia.
      destruct (pixel_of_index w x0 y0 x y ltac:(lia) ltac:(lia) Efst) as [-> ->].
      reflexivity.
  - rewrite apply_writes_untouched.
    + rewrite nth_repeat. split; [congruence|tauto].
    + intros c Hc Efst. destruct (Hws c Hc) as (x0 & y0 & Hx0 & Hy0 & ->).
      cbn [fst] in Efst. rewrite Z2Nat.id in Efst by lia.
      destruct (pixel_of_index w x0 y0 x y ltac:(lia) ltac:(lia) Efst) as [-> ->].
      lia.
Qed.

Lemma erosion_keeps_full_windows_witness :
  is_set (erodeMask MaskSample.block 5 5 1) 5 2 2
  <-> (1 <= 2 < 5 - 1 /\ 1 <= 2 < 5 - 1
       /\ forall x' y', near 1 2 2 x' y' -> is_set MaskSample.block 5 x' y').
Proof.
  apply (erosion_keeps_full_windows MaskSample.block 5 5 1 2 2).
  - lia.
  - unfold in_image. lia.
Defined.

(** *** Dilation *)

(** A cell that changed was written. *)
Lemma apply_writes_source (ws : list (Z * Z)) (out : list Z) (j : nat) :
  nth j (apply_writes ws out) 0 <> nth j out 0 ->
  exists w, In w ws /\ fst w = Z.of_nat j.
Proof.
  unfold apply_writes. revert out.
  induction ws as [|w ws IH]; intros out H; cbn [fold_left] in H; [congruence|].
  destruct (Z.eq_dec (fst w) (Z.of_nat j)) as [E|E].
  - exists w. split; [now left|exact E].
  - destruct (IH (write out (fst w) (snd w))) as (w' & Hw' & E').
    + now rewrite write_other.
    + exists w'. split; [now right|exact E'].
Qed.

(** The writes of [dilate], in order. *)
Lemma dilate_writes (mask : list Z) (w h r : Z) :
  dilate mask w h r
  = apply_writes
      (flat_map
         (fun y =>
            flat_map
              (fun x =>
                 if set_at mask (y * w + x)
                 then
                   flat_map
                     (fun dy =>
                        if (y + dy <? 0) || (h <=? y + dy) then []
                        else
                          flat_map
                            (fun dx =>
                               if (x + dx <? 0) || (w <=? x + dx) then []
                               else [((y + dy) * w + (x + dx), 1)])
                            (Hough.range (- r) r))
                     (Hough.range (- r) r)
                 else [])
              (Hough.range 0 (w - 1)))
         (Hough.range 0 (h - 1)))
      (repeat 0 (Z.to_nat (w * h))).
Proof.
  unfold dilate, apply_writes.
  apply fold_left_flat_map_ext. intros a y _.
  apply fold_left_flat_map_ext. intros a1 x _.
  destruct (set_at mask (y * w + x)); [|reflexivity].
  apply fold_left_flat_map_ext. intros a2 dy _. cbv zeta.
  destruct ((y + dy <? 0) || (h <=? y + dy)); [reflexivity|].
  apply fold_left_flat_map_ext. intros a3 dx _. cbv zeta.
  destruct ((x + dx <? 0) || (w <=? x + dx)); reflexivity.
Qed.

(** A pixel is set after dilation exactly when a set pixel of the mask lies
    in its window. *)
Lemma dilate_reach (mask : list Z) (w h r x' y' : Z) :
  in_image w h x' y' ->
  is_set (dilate mask w h r) w x' y'
  <-> exists x y, in_image w h x y /\ is_set mask w x y /\ near r x y x' y'.
Proof.
  intros Himg. pose proof (index_in_image w h x' y' Himg) as Hidx.
  destruct Himg as [Hx' Hy']. unfold is_set at 1. rewrite dilate_writes.
  set (ws := flat_map _ _).
  assert (Hws : forall c, In c ws <->
            exists x y dx dy,
              in_image w h x y /\ is_set mask w x y
              /\ - r <= dx <= r /\ - r <= dy <= r
              /\ in_image w h (x + dx) (y + dy)
              /\ c = ((y + dy) * w + (x + dx), 1)).
  { intros c. unfold ws. rewrite in_flat_map. split.
    - intros (y & Hy & Hc). apply HoughFacts.in_range in Hy.
      apply in_flat_map in Hc. destruct Hc as (x & Hx & Hc).
      apply HoughFacts.in_range in Hx.
      destruct (set_at mask (y * w + x)) eqn:Eset; [|destruct Hc].
      apply set_at_is_set in Eset; [|nia].
      apply in_flat_map in Hc. destruct Hc as (dy & Hdy & Hc).
      apply HoughFacts.in_range in Hdy.
      destruct ((y + dy <? 0) || (h <=? y + dy)) eqn:Ey; [destruct Hc|].
      apply orb_false_iff in Ey. destruct Ey as [Ey1 Ey2].
      apply Z.ltb_ge in Ey1. apply Z.leb_gt in Ey2.
      apply in_flat_map in Hc. destruct Hc as (dx & Hdx & Hc).
      apply HoughFacts.in_range in Hdx.
      destruct ((x + dx <? 0) || (w <=? x + dx)) eqn:Ex; [destruct Hc|].
      apply orb_false_iff in Ex. destruct Ex as [Ex1 Ex2].
      apply Z.ltb_ge in Ex1. apply Z.leb_gt in Ex2.
      destruct Hc as [<-|[]].
      exists x, y, dx, dy. unfold in_image. repeat split; try lia. exact Eset.
    - intros (x & y & dx & dy & [Hx Hy] & Hset & Hdx & Hdy & [Hnx Hny] & ->).
      exists y. split; [apply HoughFacts.in_range; lia|].
      apply in_flat_map. exists x. split; [apply HoughFacts.in_range; lia|].
      apply set_at_is_set in Hset; [|nia]. rewrite Hset.
      apply in_flat_map. exists dy. split; [now apply HoughFacts.in_range|].
      replace ((y + dy <? 0) || (h <=? y + dy)) with false
        by (symmetry; apply orb_false_iff; split;
            [apply Z.ltb_ge|apply Z.leb_gt]; lia).
      apply in_flat_map. exists dx. split; [now apply HoughFacts.in_range|].
      replace ((x + dx <? 0) || (w <=? x + dx)) with false
        by (symmetry; apply orb_false_iff; split;
            [apply Z.ltb_ge|apply Z.leb_gt]; lia).
      now left. }
  split.
  - intros Hset.
    destruct (apply_writes_source ws (repeat 0 (Z.to_nat (w * h)))
                (Z.to_nat (y' * w + x'))) as (c & Hc & Efst).
    { now rewrite nth_repeat. }
    apply Hws in Hc.
    destruct Hc as (x & y & dx & dy & Hxy & Hm & Hdx & Hdy & [Hnx Hny] & ->).
    cbn [fst] in Efst. rewrite Z2Nat.id in Efst by lia.
    destruct (pixel_of_index w _ _ _ _ Hnx Hx' Efst) as [E1 E2].
    exists x, y. split; [exact Hxy|]. split; [exact Hm|]. unfold near. lia.
  - intros (x & y & Hxy & Hm & [Hnx Hny]).
    rewrite (apply_writes_value ws _ _ 1); [lia| | |].
    + rewrite repeat_length. lia.
    + exists (y' * w + x', 1). split; [|cbn [fst]; lia].
      apply Hws. exists x, y, (x' - x), (y' - y).
      replace (x + (x' - x)) with x' by lia.
      replace (y + (y' - y)) with y' by lia.
      split; [exact Hxy|]. split; [exact Hm|].
      unfold in_image. repeat split; lia.
    + intros c Hc _. apply Hws in Hc.
      destruct Hc as (? & ? & ? & ? & _ & _ & _ & _ & _ & ->). reflexivity.
Qed.

Lemma initial_mask_set (fround : Q -> Q) (img : RawImage)
    (gray : list (option Q)) (opts : MaskOptions) (x y : Z) :
  in_image (width img) (height img) x y ->
  is_set (initial_mask fround img gray opts) (width img) x y
  <-> board_coloured opts (computeSaturation fround img) gray
        (Z.to_nat (y * width img + x)) = true.
Proof.
  intros Himg. pose proof (index_in_image _ _ x y Himg) as Hidx.
  unfold is_set, initial_mask, pixels.
  set (i := Z.to_nat (y * width img + x)).
  assert (Hi : (i < Z.to_nat (width img * height img))%nat) by (unfold i; lia).
  rewrite (HomographyFacts.nth_map_seq _ _ i 0 Hi).
  destruct (board_coloured _ _ _ _); split; intros H; try reflexivity;
    try discriminate.
  now elim H.
Qed.

(** The saturation array holds, for each pixel, the stored quotient. *)
Lemma computeSaturation_at (fround : Q -> Q) (img : RawImage) (i : nat) :
  (i < Z.to_nat (width img * height img))%nat ->
  nth_error (computeSaturation fround img) i
  = Some (fround (saturation img i)).
Proof.
  intros Hi. unfold computeSaturation, pixels.
  rewrite nth_error_map, nth_error_seq.
  apply Nat.ltb_lt in Hi. now rewrite Hi.
Qed.

(** X23.  The board mask is the dilated set of board-coloured pixels.
    [fround] is the store into the [Float32Array] of saturations.  A pixel of
    the image is set in [boardMask(img, gray, opts)] exactly when some pixel
    of the image is board-coloured and at most [dilateRadius] columns and
    rows away (with a radius of zero or less, exactly when the pixel itself
    is board-coloured).  A pixel is board-coloured when the float32 stored
    for its saturation, [fround ((max - min) / max)], exceeds [satThreshold]
    and its grey level is a number strictly between [brightMin] and
    [brightMax].  The comparison is made on the stored number: a saturation
    of exactly one tenth is stored as a float32 above the default threshold
    0.1, and the pixel is marked. *)
Theorem board_mask_reach (fround : Q -> Q) (img : RawImage)
    (gray : list (option Q)) (opts : MaskOptions) (x' y' : Z) :
  in_image (width img) (height img) x' y' ->
  is_set (boardMask fround img gray opts) (width img) x' y'
  <-> exists x y g,
        in_image (width img) (height img) x y
        /\ nth_error gray (Z.to_nat (y * width img + x)) = Some (Some g)
        /\ (satThreshold opts
            < fround (saturation img (Z.to_nat (y * width img + x))))%Q
        /\ (brightMin opts < g)%Q /\ (g < brightMax opts)%Q
        /\ near (Z.max 0 (dilateRadius opts)) x y x' y'.
Proof.
  intros Himg.
  assert (Hcol : forall x y,
             in_image (width img) (height img) x y ->
             board_coloured opts (computeSaturation fround img) gray
               (Z.to_nat (y * width img + x)) = true
             <-> exists g,
                   nth_error gray (Z.to_nat (y * width img + x)) = Some (Some g)
                   /\ (satThreshold opts
                       < fround (saturation img (Z.to_nat (y * width img + x))))%Q
                   /\ (brightMin opts < g)%Q /\ (g < brightMax opts)%Q).
  { intros x y Hxy. pose proof (index_in_image _ _ x y Hxy) as Hidx.
    unfold board_coloured.
    rewrite computeSaturation_at by lia.
    destruct (nth_error gray (Z.to_nat (y * width img + x))) as [[g|]|].
    - rewrite !andb_true_iff, !EngineFacts.Qltb_lt. split.
      + intros [[Hs Hmax] Hmin]. exists g. auto.
      + intros (g' & [= <-] & Hs & Hmin & Hmax). auto.
    - split; [discriminate|]. intros (g & Hg & _). discriminate.
    - split; [discriminate|]. intros (g & Hg & _). discriminate. }
  unfold boardMask. cbv zeta.
  destruct (0 <? dilateRadius opts) eqn:Er.
  - apply Z.ltb_lt in Er. rewrite Z.max_r by lia.
    rewrite dilate_reach by exact Himg. split.
    + intros (x & y & Hxy & Hm & Hnear).
      apply initial_mask_set in Hm; [|exact Hxy].
      apply Hcol in Hm; [|exact Hxy].
      destruct Hm as (g & Hg & Hs & Hmin & Hmax).
      exists x, y, g. auto 7.
    + intros (x & y & g & Hxy & Hg & Hs & Hmin & Hmax & Hnear).
      exists x, y. split; [exact Hxy|]. split; [|exact Hnear].
      apply initial_mask_set; [exact Hxy|]. apply Hcol; [exact Hxy|].
      exists g. auto.
  - apply Z.ltb_ge in Er. rewrite Z.max_l by lia.
    rewrite initial_mask_set by exact Himg. rewrite Hcol by exact Himg. split.
    + intros (g & Hg & Hs & Hmin & Hmax). exists x', y', g.
      split; [exact Himg|]. repeat (split; [assumption|]).
      unfold near. lia.
    + intros (x & y & g & _ & Hg & Hs & Hmin & Hmax & [Hx Hy]).
      assert (x = x') by lia. assert (y = y') by lia. subst.
      exists g. auto.
Qed.

Lemma board_mask_reach_witness :
  is_set (boardMask to_float32 MaskSample.strip
            (toGrayscale to_float32 MaskSample.strip) default_options) 3 2 0
  <-> exists x y g,
        in_image 3 1 x y
        /\ nth_error (toGrayscale to_float32 MaskSample.strip)
                     (Z.to_nat (y * 3 + x)) = Some (Some g)
        /\ (satThreshold default_options
            < to_float32 (saturation MaskSample.strip (Z.to_nat (y * 3 + x))))%Q
        /\ (brightMin default_options < g)%Q
        /\ (g < brightMax default_options)%Q
        /\ near (Z.max 0 5) x y 2 0.
Proof.
  apply (board_mask_reach to_float32 MaskSample.strip
           (toGrayscale to_float32 MaskSample.strip) default_options 2 0).
  unfold in_image. cbn. lia.
Defined.

(** With the default radius the wood pixel of the sample spreads over the
    whole strip. *)
Example sample_mask_dilated :
  boardMask to_float32 MaskSample.strip
    (toGrayscale to_float32 MaskSample.strip) default_options
  = [1; 1; 1].
Proof. vm_compute. reflexivity. Qed.

(** The comparison with the threshold is made on the stored float32.  The
    two left pixels of [MaskSample.tenth] have a saturation of exactly one
    tenth: the float32 stored for it is above the double 0.1 and they are
    marked; a comparison of the exact quotient would leave them out. *)
Example tenth_is_above_the_threshold :
  map (saturation MaskSample.tenth) [0; 1; 2]%nat
  = [20 / 200; 25 / 250; 0 / 100]%Q
  /\ (to_double (1 # 10) < to_float32 (1 # 10))%Q
  /\ boardMask to_float32 MaskSample.tenth
       (toGrayscale to_float32 MaskSample.tenth)
       (mkMaskOptions (to_double (1 # 10)) 235 35 0)
     = [1; 1; 0]
  /\ boardMask (fun q => q) MaskSample.tenth
       (toGrayscale to_float32 MaskSample.tenth)
       (mkMaskOptions (1 # 10) 235 35 0)
     = [0; 0; 0].
Proof. vm_compute. repeat split; reflexivity. Qed.

(** *** Grey levels and saturation *)

Lemma channel_byte (img : RawImage) (i k : nat) (v : Z) :
  Forall (fun b => 0 <= b <= 255) (data img) ->
  channel img i k = Some v -> 0 <= v <= 255.
Proof.
  intros Hb E. unfold channel in E. apply nth_error_In in E.
  rewrite Forall_forall in Hb. now apply Hb.
Qed.

Lemma byte_as_Q (v : Z) :
  0 <= v <= 255 -> (0 <= inject_Z v /\ inject_Z v <= 255)%Q.
Proof.
  intros [H0 H1]. split.
  - change 0%Q with (inject_Z 0). now rewrite <- Zle_Qle.
  - change 255%Q with (inject_Z 255). now rewrite <- Zle_Qle.
Qed.

Lemma luma_range (img : RawImage) (i : nat) (v : Q) :
  Forall (fun b => 0 <= b <= 255) (data img) ->
  luma img i = Some v -> (0 <= v /\ v <= 255)%Q.
Proof.
  intros Hb. unfold luma.
  destruct (channel img i 0) as [r|] eqn:Er; [|discriminate].
  destruct (channel img i 1) as [g|] eqn:Eg; [|discriminate].
  destruct (channel img i 2) as [b|] eqn:Eb; [|discriminate].
  destruct (byte_as_Q r (channel_byte img i 0 r Hb Er)).
  destruct (byte_as_Q g (channel_byte img i 1 g Hb Eg)).
  destruct (byte_as_Q b (channel_byte img i 2 b Hb Eb)).
  intros [= <-]. split; lra.
Qed.

Lemma saturation_range (img : RawImage) (i : nat) :
  Forall (fun b => 0 <= b <= 255) (data img) ->
  (0 <= saturation img i /\ saturation img i <= 1)%Q.
Proof.
  intros Hb. unfold saturation.
  destruct (channel img i 0) as [r|] eqn:Er; [|split; lra].
  destruct (channel img i 1) as [g|] eqn:Eg; [|split; lra].
  destruct (channel img i 2) as [b|] eqn:Eb; [|split; lra].
  pose proof (channel_byte img i 0 r Hb Er).
  pose proof (channel_byte img i 1 g Hb Eg).
  pose proof (channel_byte img i 2 b Hb Eb).
  cbv zeta. set (mx := Z.max (Z.max r g) b). set (mn := Z.min (Z.min r g) b).
  destruct (0 <? mx) eqn:Emx; [|split; lra].
  apply Z.ltb_lt in Emx.
  assert (Hmx : (0 < inject_Z mx)%Q).
  { change 0%Q with (inject_Z 0). now rewrite <- Zlt_Qlt. }
  assert (Hlo : (0 <= inject_Z (mx - mn))%Q).
  { change 0%Q with (inject_Z 0). rewrite <- Zle_Qle. unfold mx, mn. lia. }
  assert (Hhi : (inject_Z (mx - mn) <= inject_Z mx)%Q).
  { rewrite <- Zle_Qle. unfold mx, mn. lia. }
  split.
  - apply Qle_shift_div_l; [exact Hmx|]. lra.
  - apply Qle_shift_div_r; [exact Hmx|]. lra.
Qed.

(** X24.  Grey levels and saturations are in range.  [fround] is the store
    into a [Float32Array]: any rounding that is monotone and leaves 0, 1 and
    255 as they are (the float32 store is one, and so is exact arithmetic).
    For an image whose data are bytes, every sample of [toGrayscale] that is
    a number lies within [0, 255] (and with all [4 * width * height] bytes
    present every sample is a number), and every sample of
    [computeSaturation] lies within [0, 1]; both arrays have
    [width * height] samples. *)
Theorem levels_in_range (fround : Q -> Q) (img : RawImage) :
  rounding fround -> (fround 255 == 255)%Q ->
  Forall (fun b => 0 <= b <= 255) (data img) ->
  List.length (toGrayscale fround img) = Z.to_nat (width img * height img)
  /\ Forall (fun g => match g with
                      | Some v => (0 <= v /\ v <= 255)%Q
                      | None => True
                      end) (toGrayscale fround img)
  /\ (4 * Z.to_nat (width img * height img) <= List.length (data img)
      -> Forall (fun g => g <> None) (toGrayscale fround img))%nat
  /\ List.length (computeSaturation fround img)
     = Z.to_nat (width img * height img)
  /\ Forall (fun s => (0 <= s /\ s <= 1)%Q) (computeSaturation fround img).
Proof.
  intros (Hmono & H0 & H1) H255 Hb. unfold toGrayscale, computeSaturation, pixels.
  rewrite !length_map, !length_seq.
  split; [reflexivity|]. split; [|split; [|split; [reflexivity|]]].
  - apply Forall_map, Forall_forall. intros i _.
    destruct (luma img i) as [v|] eqn:Ev; [|exact I]. cbn [option_map].
    destruct (luma_range img i v Hb Ev) as [Hlo Hhi].
    apply Hmono in Hlo, Hhi. rewrite H0 in Hlo. rewrite H255 in Hhi.
    now split.
  - intros Hlen. apply Forall_map, Forall_forall. intros i Hi.
    apply in_seq in Hi. unfold luma, channel.
    destruct (nth_error (data img) (i * 4 + 0)) eqn:E0;
      [|apply nth_error_None in E0; lia].
    destruct (nth_error (data img) (i * 4 + 1)) eqn:E1;
      [|apply nth_error_None in E1; lia].
    destruct (nth_error (data img) (i * 4 + 2)) eqn:E2;
      [|apply nth_error_None in E2; lia].
    discriminate.
  - apply Forall_map, Forall_forall. intros i _.
    destruct (saturation_range img i Hb) as [Hlo Hhi].
    apply Hmono in Hlo, Hhi. rewrite H0 in Hlo. rewrite H1 in Hhi.
    now split.
Qed.

Lemma levels_in_range_witness :
  List.length (toGrayscale to_float32 MaskSample.strip) = Z.to_nat (3 * 1)
  /\ Forall (fun g => match g with
                      | Some v => (0 <= v /\ v <= 255)%Q
                      | None => True
                      end) (toGrayscale to_float32 MaskSample.strip)
  /\ (4 * Z.to_nat (3 * 1) <= 12
      -> Forall (fun g => g <> None) (toGrayscale to_float32 MaskSample.strip))%nat
  /\ List.length (computeSaturation to_float32 MaskSample.strip)
     = Z.to_nat (3 * 1)
  /\ Forall (fun s => (0 <= s /\ s <= 1)%Q)
            (computeSaturation to_float32 MaskSample.strip).
Proof.
  apply (levels_in_range to_float32 MaskSample.strip).
  - exact RoundingFacts.float32_rounding.
  - apply RoundingFacts.to_float32_exact.
  - unfold MaskSample.strip. cbn [data].
    repeat (apply Forall_cons; [lia|]). apply Forall_nil.
Defined.

Example sample_levels :
  map (option_map Qred) (toGrayscale (fun q => q) MaskSample.strip)
  = [Some (15697 # 100); Some 250%Q; Some 10%Q]
  /\ map Qred (computeSaturation (fun q => q) MaskSample.strip)
     = [3 # 5; 0; 0]%Q
  /\ map Qred (computeSaturation to_float32 MaskSample.strip)
     = [5033165 # 8388608; 0; 0]%Q.
Proof. vm_compute. repeat split; reflexivity. Qed.

(** A grey pixel keeps its level. *)
Example grey_pixel_level :
  map (option_map Qred) (toGrayscale to_float32 (mkImage [77; 77; 77; 255] 1 1))
  = [Some 77%Q].
Proof. vm_compute. reflexivity. Qed.

(** A truncated image has samples that are not numbers. *)
Example truncated_image_level :
  toGrayscale to_float32 (mkImage [77; 77] 1 1) = [None].
Proof. vm_compute. reflexivity. Qed.

Example sample_erosion :
  erodeMask MaskSample.block 5 5 1
  = [0; 0; 0; 0; 0;
     0; 0; 0; 0; 0;
     0; 0; 1; 0; 0;
     0; 0; 0; 0; 0;
     0; 0; 0; 0; 0].
Proof. vm_compute. reflexivity. Qed.

Example sample_dilation :
  dilate (erodeMask MaskSample.block 5 5 1) 5 5 1 = MaskSample.block.
Proof. vm_compute. reflexivity. Qed.

Example sample_mask :
  boardMask to_float32 MaskSample.strip (toGrayscale to_float32 MaskSample.strip)
            (mkMaskOptions (to_double (1 # 10)) 235 35 0)
  = [1; 0; 0].
Proof. vm_compute. reflexivity. Qed.

End MaskFacts.

(** ** Board recognition: the quadrilateral of the board mask *)

Module QuadrilateralFacts.
Import Js Engine Perspective Corners CornersSpec Mask MaskSpec.
Import Quadrilateral QuadrilateralSpec.
Local Open Scope list_scope.
Local Open Scope Z_scope.

(** *** [orderCorners] on any four points *)

Lemma orderCorners_four (p0 p1 p2 p3 : Point) :
  exists TL TR BR BL,
    orderCorners [p0; p1; p2; p3] = [Some TL; Some TR; Some BR; Some BL]
    /\ Permutation [TL; TR; BR; BL] [p0; p1; p2; p3]
    /\ Forall (fun p => (coord_sum TL <= coord_sum p)%Q) [p0; p1; p2; p3].
Proof.
  unfold orderCorners.
  set (cx := (fold_left (fun s p => s + fst p) [p0; p1; p2; p3] 0 / _)%Q).
  set (cy := (fold_left (fun s p => s + snd p) [p0; p1; p2; p3] 0 / _)%Q).
  pose proof (SortFacts.sort_perm (by_angle cx cy) [p0; p1; p2; p3]) as Hperm.
  pose proof (Permutation_length Hperm) as Hlen.
  destruct (sort (by_angle cx cy) [p0; p1; p2; p3])
    as [|r0 [|r1 [|r2 [|r3 [|r4 rest]]]]]; try discriminate.
  destruct (CornersFacts.rotate_to_min r0 r1 r2 r3)
    as (TL & TR & BR & BL & E & Hrot & Hmin).
  exists TL, TR, BR, BL. split; [exact E|].
  pose proof (CornersFacts.Rotation_perm _ _ Hrot) as Hp. cbn in Hp.
  split; [now rewrite Hp|].
  apply (Permutation_Forall Hperm). exact Hmin.
Qed.

(** *** The scan *)

Lemma scan_boundary_pixels (mask : list Z) (w h : Z) :
  scan mask w h
  = fold_left (fun e p => visit e (fst p) (snd p))
              (boundary_pixels mask w h) start.
Proof.
  unfold scan, boundary_pixels.
  apply MaskFacts.fold_left_flat_map_ext. intros e y _.
  apply MaskFacts.fold_left_flat_map_ext. intros e1 x _.
  destruct (boundary mask w x y); reflexivity.
Qed.

Lemma in_boundary_pixels (mask : list Z) (w h : Z) (p : Z * Z) :
  In p (boundary_pixels mask w h) <-> is_boundary mask w h p.
Proof.
  unfold boundary_pixels, is_boundary. rewrite in_flat_map. split.
  - intros (y & Hy & Hp). apply HoughFacts.in_range in Hy.
    apply in_flat_map in Hp. destruct Hp as (x & Hx & Hp).
    apply HoughFacts.in_range in Hx.
    destruct (boundary mask w x y) eqn:E; [|destruct Hp].
    destruct Hp as [<-|[]]. cbn [fst snd]. auto.
  - destruct p as [x y]. cbn [fst snd]. intros (Hx & Hy & E).
    exists y. split; [now apply HoughFacts.in_range|].
    apply in_flat_map. exists x. split; [now apply HoughFacts.in_range|].
    rewrite E. now left.
Qed.

Lemma visit_count (e : Extremes) (x y : Z) :
  boundaryCount (visit e x y) = S (boundaryCount e).
Proof.
  unfold visit. cbv zeta.
  destruct (below (x + y) (tlScore e)); cbn [brScore trScore blScore];
    destruct (above (x + y) (brScore e)); cbn [brScore trScore blScore];
    destruct (above (x - y) (trScore e)); cbn [brScore trScore blScore];
    destruct (below (x - y) (blScore e)); reflexivity.
Qed.

Lemma visit_tl (e : Extremes) (x y : Z) :
  tlScore (visit e x y)
  = (if below (sum_of (x, y)) (tlScore e) then Some (sum_of (x, y)) else tlScore e)
  /\ tl (visit e x y) = (if below (sum_of (x, y)) (tlScore e) then (x, y) else tl e).
Proof.
  unfold visit, sum_of. cbv zeta. cbn [fst snd].
  destruct (below (x + y) (tlScore e)); cbn [brScore trScore blScore];
    destruct (above (x + y) (brScore e)); cbn [brScore trScore blScore];
    destruct (above (x - y) (trScore e)); cbn [brScore trScore blScore];
    destruct (below (x - y) (blScore e)); split; reflexivity.
Qed.

Lemma visit_br (e : Extremes) (x y : Z) :
  brScore (visit e x y)
  = (if above (sum_of (x, y)) (brScore e) then Some (sum_of (x, y)) else brScore e)
  /\ br (visit e x y) = (if above (sum_of (x, y)) (brScore e) then (x, y) else br e).
Proof.
  unfold visit, sum_of. cbv zeta. cbn [fst snd].
  destruct (below (x + y) (tlScore e)); cbn [brScore trScore blScore];
    destruct (above (x + y) (brScore e)); cbn [brScore trScore blScore];
    destruct (above (x - y) (trScore e)); cbn [brScore trScore blScore];
    destruct (below (x - y) (blScore e)); split; reflexivity.
Qed.

Lemma visit_tr (e : Extremes) (x y : Z) :
  trScore (visit e x y)
  = (if above (diff_of (x, y)) (trScore e) then Some (diff_of (x, y)) else trScore e)
  /\ tr (visit e x y) = (if above (diff_of (x, y)) (trScore e) then (x, y) else tr e).
Proof.
  unfold visit, diff_of. cbv zeta. cbn [fst snd].
  destruct (below (x + y) (tlScore e)); cbn [brScore trScore blScore];
    destruct (above (x + y) (brScore e)); cbn [brScore trScore blScore];
    destruct (above (x - y) (trScore e)); cbn [brScore trScore blScore];
    destruct (below (x - y) (blScore e)); split; reflexivity.
Qed.

Lemma visit_bl (e : Extremes) (x y : Z) :
  blScore (visit e x y)
  = (if below (diff_of (x, y)) (blScore e) then Some (diff_of (x, y)) else blScore e)
  /\ bl (visit e x y) = (if below (diff_of (x, y)) (blScore e) then (x, y) else bl e).
Proof.
  unfold visit, diff_of. cbv zeta. cbn [fst snd].
  destruct (below (x + y) (tlScore e)); cbn [brScore trScore blScore];
    destruct (above (x + y) (brScore e)); cbn [brScore trScore blScore];
    destruct (above (x - y) (trScore e)); cbn [brScore trScore blScore];
    destruct (below (x - y) (blScore e)); split; reflexivity.
Qed.

(** A score and its pixel that follow the least, or the greatest, key. *)
Section Tracking.
Variable score : Extremes -> option Z.
Variable pixel : Extremes -> Z * Z.
Variable key : Z * Z -> Z.
Hypothesis score_start : score start = None.

Let run (bs : list (Z * Z)) : Extremes :=
  fold_left (fun e p => visit e (fst p) (snd p)) bs start.

Lemma track_least :
  (forall e x y,
     score (visit e x y)
     = (if below (key (x, y)) (score e) then Some (key (x, y)) else score e)
     /\ pixel (visit e x y)
        = (if below (key (x, y)) (score e) then (x, y) else pixel e)) ->
  forall bs,
    match bs with
    | [] => score (run bs) = None
    | _ =>
        In (pixel (run bs)) bs
        /\ score (run bs) = Some (key (pixel (run bs)))
        /\ Forall (fun p => key (pixel (run bs)) <= key p) bs
    end.
Proof.
  intros Hstep bs. induction bs as [|[x y] bs IH] using rev_ind;
    [exact score_start|].
  assert (Hne : bs ++ [(x, y)] <> []) by (now destruct bs).
  destruct (bs ++ [(x, y)]) as [|q qs] eqn:Ebs; [congruence|].
  rewrite <- Ebs. clear Hne Ebs q qs.
  unfold run. rewrite fold_left_app. cbn [fold_left fst snd]. fold (run bs).
  destruct (Hstep (run bs) x y) as [Hs Hp]. rewrite Hs, Hp.
  destruct bs as [|b bs'].
  - rewrite IH. cbn [below app]. repeat split; [now left|].
    repeat constructor. lia.
  - destruct IH as (Hin & Hscore & Hall). rewrite Hscore. cbn [below].
    destruct (key (x, y) <? key (pixel (run (b :: bs')))) eqn:E.
    + apply Z.ltb_lt in E. split; [apply in_or_app; right; now left|].
      split; [reflexivity|]. apply Forall_app. split.
      * revert Hall. apply Forall_impl. intros p Hp'. lia.
      * repeat constructor. lia.
    + apply Z.ltb_ge in E. split; [apply in_or_app; now left|].
      split; [reflexivity|]. apply Forall_app. split; [exact Hall|].
      repeat constructor. exact E.
Qed.

Lemma track_greatest :
  (forall e x y,
     score (visit e x y)
     = (if above (key (x, y)) (score e) then Some (key (x, y)) else score e)
     /\ pixel (visit e x y)
        = (if above (key (x, y)) (score e) then (x, y) else pixel e)) ->
  forall bs,
    match bs with
    | [] => score (run bs) = None
    | _ =>
        In (pixel (run bs)) bs
        /\ score (run bs) = Some (key (pixel (run bs)))
        /\ Forall (fun p => key p <= key (pixel (run bs))) bs
    end.
Proof.
  intros Hstep bs. induction bs as [|[x y] bs IH] using rev_ind;
    [exact score_start|].
  assert (Hne : bs ++ [(x, y)] <> []) by (now destruct bs).
  destruct (bs ++ [(x, y)]) as [|q qs] eqn:Ebs; [congruence|].
  rewrite <- Ebs. clear Hne Ebs q qs.
  unfold run. rewrite fold_left_app. cbn [fold_left fst snd]. fold (run bs).
  destruct (Hstep (run bs) x y) as [Hs Hp]. rewrite Hs, Hp.
  destruct bs as [|b bs'].
  - rewrite IH. cbn [above app]. repeat split; [now left|].
    repeat constructor. lia.
  - destruct IH as (Hin & Hscore & Hall). rewrite Hscore. cbn [above].
    destruct (key (pixel (run (b :: bs'))) <? key (x, y)) eqn:E.
    + apply Z.ltb_lt in E. split; [apply in_or_app; right; now left|].
      split; [reflexivity|]. apply Forall_app. split.
      * revert Hall. apply Forall_impl. intros p Hp'. lia.
      * repeat constructor. lia.
    + apply Z.ltb_ge in E. split; [apply in_or_app; now left|].
      split; [reflexivity|]. apply Forall_app. split; [exact Hall|].
      repeat constructor. exact E.
Qed.

Lemma track_least_nonempty :
  (forall e x y,
     score (visit e x y)
     = (if below (key (x, y)) (score e) then Some (key (x, y)) else score e)
     /\ pixel (visit e x y)
        = (if below (key (x, y)) (score e) then (x, y) else pixel e)) ->
  forall bs,
    bs <> [] ->
    In (pixel (run bs)) bs /\ Forall (fun p => key (pixel (run bs)) <= key p) bs.
Proof.
  intros Hstep bs Hne. pose proof (track_least Hstep bs) as H.
  destruct bs; [congruence|]. tauto.
Qed.

Lemma track_greatest_nonempty :
  (forall e x y,
     score (visit e x y)
     = (if above (key (x, y)) (score e) then Some (key (x, y)) else score e)
     /\ pixel (visit e x y)
        = (if above (key (x, y)) (score e) then (x, y) else pixel e)) ->
  forall bs,
    bs <> [] ->
    In (pixel (run bs)) bs /\ Forall (fun p => key p <= key (pixel (run bs))) bs.
Proof.
  intros Hstep bs Hne. pose proof (track_greatest Hstep bs) as H.
  destruct bs; [congruence|]. tauto.
Qed.

End Tracking.

Lemma boundary_count (bs : list (Z * Z)) :
  boundaryCount (fold_left (fun e p => visit e (fst p) (snd p)) bs start)
  = List.length bs.
Proof.
  induction bs as [|p bs IH] using rev_ind; [reflexivity|].
  rewrite fold_left_app, length_app. cbn [fold_left List.length].
  rewrite visit_count, IH. lia.
Qed.

Lemma coord_sum_pixel (c : Z * Z) :
  (coord_sum (as_point c) == inject_Z (sum_of c))%Q.
Proof.
  unfold coord_sum, as_point, sum_of. cbn [fst snd].
  now rewrite inject_Z_plus.
Qed.

(** X25.  The corners of the board are extreme boundary pixels.  When
    [findBoardQuadrilateral] returns corners, the mask has at least 20
    boundary pixels (set pixels off the image border with a 4-neighbour that
    is not set); the four corners returned are boundary pixels; the first
    one has the least [x + y] of all boundary pixels; and for every boundary
    pixel some corner has an [x + y] at least as great, some corner an
    [x - y] at least as great, and some corner an [x - y] at most as
    great. *)
Theorem quadrilateral_corners (mask : list Z) (w h : Z)
    (r : list (option Point)) :
  findBoardQuadrilateral mask w h = Some r ->
  exists c0 c1 c2 c3,
    r = map (fun c => Some (as_point c)) [c0; c1; c2; c3]
    /\ Forall (is_boundary mask w h) [c0; c1; c2; c3]
    /\ (20 <= List.length (boundary_pixels mask w h))%nat
    /\ forall p,
         is_boundary mask w h p ->
         sum_of c0 <= sum_of p
         /\ (exists c, In c [c0; c1; c2; c3] /\ sum_of p <= sum_of c)
         /\ (exists c, In c [c0; c1; c2; c3] /\ diff_of p <= diff_of c)
         /\ (exists c, In c [c0; c1; c2; c3] /\ diff_of c <= diff_of p).
Proof.
  unfold findBoardQuadrilateral. cbv zeta.
  rewrite scan_boundary_pixels.
  set (bs := boundary_pixels mask w h).
  set (e := fold_left _ bs start).
  destruct (boundaryCount e <? 20)%nat eqn:Ecount; [discriminate|].
  apply Nat.ltb_ge in Ecount. unfold e in Ecount. rewrite boundary_count in Ecount.
  destruct (Qltb _ _); [discriminate|]. intros [= <-].
  assert (Hne : bs <> []).
  { intros E0. rewrite E0 in Ecount. cbn in Ecount. lia. }
  destruct (track_least_nonempty tlScore tl sum_of eq_refl visit_tl bs Hne)
    as (Itl & Mtl).
  destruct (track_greatest_nonempty brScore br sum_of eq_refl visit_br bs Hne)
    as (Ibr & Mbr).
  destruct (track_greatest_nonempty trScore tr diff_of eq_refl visit_tr bs Hne)
    as (Itr & Mtr).
  destruct (track_least_nonempty blScore bl diff_of eq_refl visit_bl bs Hne)
    as (Ibl & Mbl).
  fold e in Itl, Mtl, Ibr, Mbr, Itr, Mtr, Ibl, Mbl. clearbody e.
  destruct (orderCorners_four (as_point (tl e)) (as_point (tr e))
              (as_point (br e)) (as_point (bl e)))
    as (TL & TR & BR & BL & E & Hperm & Hmin).
  rewrite E.
  change [as_point (tl e); as_point (tr e); as_point (br e); as_point (bl e)]
    with (map as_point [tl e; tr e; br e; bl e]) in Hperm.
  apply Permutation_map_inv in Hperm. destruct Hperm as (cs & Ecs & Hcs).
  pose proof (Permutation_length Hcs) as Hlen.
  destruct cs as [|c0 [|c1 [|c2 [|c3 [|c4 rest]]]]]; try discriminate.
  injection Ecs as -> -> -> ->.
  exists c0, c1, c2, c3. split; [reflexivity|].
  assert (Hfour : Forall (fun c => In c bs) [tl e; tr e; br e; bl e])
    by (repeat constructor; assumption).
  split; [|split; [exact Ecount|]].
  - apply (Permutation_Forall Hcs). revert Hfour. apply Forall_impl.
    intros c Hc. unfold bs in Hc. now apply in_boundary_pixels.
  - intros p Hp. apply in_boundary_pixels in Hp. fold bs in Hp.
    assert (Hcorner : forall c, In c [tl e; tr e; br e; bl e] ->
                                In c [c0; c1; c2; c3])
      by (intros c; apply Permutation_in; exact Hcs).
    rewrite Forall_forall in Mtl, Mbr, Mtr, Mbl.
    split; [|split; [|split]].
    + transitivity (sum_of (tl e)); [|now apply Mtl].
      rewrite Forall_forall in Hmin.
      specialize (Hmin (as_point (tl e)) ltac:(now left)).
      rewrite !coord_sum_pixel, <- Zle_Qle in Hmin. exact Hmin.
    + exists (br e). split; [apply Hcorner; cbn; tauto|now apply Mbr].
    + exists (tr e). split; [apply Hcorner; cbn; tauto|now apply Mtr].
    + exists (bl e). split; [apply Hcorner; cbn; tauto|now apply Mbl].
Qed.

Lemma quadrilateral_corners_witness :
  exists c0 c1 c2 c3,
    [Some (2, 2); Some (9, 2); Some (9, 9); Some (2, 9)]%Q
    = map (fun c => Some (as_point c)) [c0; c1; c2; c3]
    /\ Forall (is_boundary QuadrilateralSample.block 12 12) [c0; c1; c2; c3]
    /\ (20 <= List.length (boundary_pixels QuadrilateralSample.block 12 12))%nat
    /\ forall p,
         is_boundary QuadrilateralSample.block 12 12 p ->
         sum_of c0 <= sum_of p
         /\ (exists c, In c [c0; c1; c2; c3] /\ sum_of p <= sum_of c)
         /\ (exists c, In c [c0; c1; c2; c3] /\ diff_of p <= diff_of c)
         /\ (exists c, In c [c0; c1; c2; c3] /\ diff_of c <= diff_of p).
Proof.
  apply (quadrilateral_corners QuadrilateralSample.block 12 12).
  vm_compute. reflexivity.
Defined.

(** An image that is white all over has no board. *)
Example no_board_on_a_blank_image :
  findBoardCorners to_float32 (mkImage (repeat 255 64) 4 4) = None.
Proof. vm_compute. reflexivity. Qed.

Example sample_quadrilateral :
  findBoardQuadrilateral QuadrilateralSample.block 12 12
  = Some [Some (2, 2); Some (9, 2); Some (9, 9); Some (2, 9)]%Q.
Proof. vm_compute. reflexivity. Qed.

Example small_mask_has_no_quadrilateral :
  findBoardQuadrilateral MaskSample.block 5 5 = None.
Proof. vm_compute. reflexivity. Qed.

End QuadrilateralFacts.

(** ** Board recognition: stones at the intersections *)

Module StonesFacts.
Import Js Engine Corners Stats StatsSpec Sgf Stones StonesSpec.
Local Open Scope list_scope.
Local Open Scope Z_scope.

(** *** Lists built by nested loops *)

Lemma StronglySorted_app {A : Type} (R : A -> A -> Prop) (l1 l2 : list A) :
  StronglySorted R l1 -> StronglySorted R l2 ->
  (forall a b, In a l1 -> In b l2 -> R a b) ->
  StronglySorted R (l1 ++ l2).
Proof.
  intros H1 H2 H12. induction H1 as [|a l1 Hl1 IH Ha]; cbn; [exact H2|].
  constructor.
  - apply IH. intros x y Hx Hy. apply H12; [now right|exact Hy].
  - apply Forall_app. split; [exact Ha|].
    apply Forall_forall. intros y Hy. apply H12; [now left|exact Hy].
Qed.

Lemma StronglySorted_flat_map {A B : Type} (R : B -> B -> Prop)
    (g : A -> list B) (l : list A) :
  (forall a, In a l -> StronglySorted R (g a)) ->
  StronglySorted (fun a b => forall s t, In s (g a) -> In t (g b) -> R s t) l ->
  StronglySorted R (flat_map g l).
Proof.
  intros Hg Hl. induction Hl as [|a l Hl IH Ha]; cbn [flat_map]; [constructor|].
  apply StronglySorted_app.
  - apply Hg. now left.
  - apply IH. intros b Hb. apply Hg. now right.
  - intros s t Hs Ht. apply in_flat_map in Ht. destruct Ht as (b & Hb & Ht).
    rewrite Forall_forall in Ha. now apply (Ha b Hb).
Qed.

Lemma StronglySorted_weaken {A : Type} (R S : A -> A -> Prop) (l : list A) :
  (forall a b, R a b -> S a b) -> StronglySorted R l -> StronglySorted S l.
Proof.
  intros HRS. induction 1 as [|a l Hl IH Ha]; constructor; [exact IH|].
  revert Ha. apply Forall_impl. intros b. apply HRS.
Qed.

Lemma range_sorted (lo hi : Z) : StronglySorted Z.lt (Hough.range lo hi).
Proof.
  unfold Hough.range.
  apply (SortFacts.StronglySorted_map lt Z.lt (fun k => lo + Z.of_nat k)).
  - intros a b Hab. lia.
  - generalize (Z.to_nat (hi - lo + 1)). generalize 0%nat.
    intros s n. revert s. induction n as [|n IH]; intros s; cbn [seq];
      constructor.
    + apply IH.
    + apply Forall_forall. intros k Hk. apply in_seq in Hk. lia.
Qed.

(** *** The stones of a grid *)

Lemma one_stone_at (f : Z -> Z -> list DetectedStone) (row col : Z)
    (s : DetectedStone) :
  one_stone f -> In s (f row col) -> x s = col /\ y s = row.
Proof.
  intros Hf Hs. destruct (Hf row col) as [E|[c E]]; rewrite E in Hs.
  - destruct Hs.
  - destruct Hs as [<-|[]]. split; reflexivity.
Qed.

Lemma in_lines (boardSize v : Z) : In v (lines boardSize) <-> 0 <= v < boardSize.
Proof. unfold lines. rewrite HoughFacts.in_range. lia. Qed.

Lemma over_grid_on_grid (f : Z -> Z -> list DetectedStone) (boardSize : Z) :
  one_stone f -> Forall (on_grid boardSize) (over_grid f boardSize).
Proof.
  intros Hf. apply Forall_forall. intros s Hs. unfold over_grid in Hs.
  apply in_flat_map in Hs. destruct Hs as (row & Hrow & Hs).
  apply in_flat_map in Hs. destruct Hs as (col & Hcol & Hs).
  apply in_lines in Hrow, Hcol.
  destruct (one_stone_at f row col s Hf Hs) as [Hx Hy]. unfold on_grid. lia.
Qed.

Lemma over_grid_sorted (f : Z -> Z -> list DetectedStone) (boardSize : Z) :
  one_stone f -> StronglySorted row_major (over_grid f boardSize).
Proof.
  intros Hf. unfold over_grid. apply StronglySorted_flat_map.
  - intros row _. apply StronglySorted_flat_map.
    + intros col _. destruct (Hf row col) as [E|[c E]]; rewrite E;
        repeat constructor.
    + generalize (range_sorted 0 (boardSize - 1)). unfold lines.
      apply StronglySorted_weaken.
      intros c1 c2 Hc s t Hs Ht.
      destruct (one_stone_at f row c1 s Hf Hs) as [Hx1 Hy1].
      destruct (one_stone_at f row c2 t Hf Ht) as [Hx2 Hy2].
      right. lia.
  - generalize (range_sorted 0 (boardSize - 1)). unfold lines.
    apply StronglySorted_weaken.
    intros r1 r2 Hr s t Hs Ht.
    apply in_flat_map in Hs, Ht.
    destruct Hs as (c1 & _ & Hs). destruct Ht as (c2 & _ & Ht).
    destruct (one_stone_at f r1 c1 s Hf Hs) as [Hx1 Hy1].
    destruct (one_stone_at f r2 c2 t Hf Ht) as [Hx2 Hy2].
    left. lia.
Qed.

(** In a list in row-major order no intersection occurs twice. *)
Lemma sorted_once (l : list DetectedStone) (col row : Z) :
  StronglySorted row_major l ->
  (List.length (filter (at_position col row) l) <= 1)%nat.
Proof.
  induction 1 as [|s l Hl IH Hs]; cbn [filter List.length]; [lia|].
  destruct (at_position col row s) eqn:E; [|exact IH].
  cbn [List.length].
  enough (Hnone : filter (at_position col row) l = []) by (rewrite Hnone; cbn; lia).
  unfold at_position in E. apply andb_true_iff in E. destruct E as [Ex Ey].
  apply Z.eqb_eq in Ex, Ey.
  clear IH Hl. induction Hs as [|t l Ht _ IH]; cbn [filter]; [reflexivity|].
  destruct (at_position col row t) eqn:Et; [|exact IH].
  unfold at_position in Et. apply andb_true_iff in Et. destruct Et as [Etx Ety].
  apply Z.eqb_eq in Etx, Ety. unfold row_major in Ht. lia.
Qed.

Lemma by_levels_one_stone (l : Levels) (s : Samples) (boardSize : Z)
    (margin : Z -> Z -> Q) :
  one_stone (fun row col => by_levels l s boardSize (margin row col) row col).
Proof.
  intros row col. unfold by_levels. cbv zeta.
  destruct (hasBlack l && _).
  - destruct (_ || _); [right; now exists black|now left].
  - destruct (hasWhite l && _); [|now left].
    destruct (_ || _); [right; now exists white|now left].
Qed.

(** X26.  One stone per intersection, in row-major order.  Whatever the
    image, [classifyIntersections] returns stones that lie on intersections
    of the board (so on the 19 x 19 board of the position record when
    [boardSize <= 19]), in row-major order; no intersection carries two
    stones. *)
Theorem classified_stones_on_grid (sqrt : Q -> Q) (hypot : Q -> Q -> Q)
    (gray : GrayImage) (boardSize : Z)
    (gridCorners : option (Point * Point * Point * Point)) :
  let stones := classifyIntersections sqrt hypot gray boardSize gridCorners in
  Forall (on_grid boardSize) stones
  /\ StronglySorted row_major stones
  /\ (forall col row,
        (List.length (filter (at_position col row) stones) <= 1)%nat)
  /\ (boardSize <= 19 -> Forall SgfSpec.on_board stones).
Proof.
  cbv zeta. unfold classifyIntersections. cbv zeta.
  destruct (kmeans3 _ 20) as [[blackC boardC] whiteC].
  set (s := sampleGrid sqrt hypot gray boardSize gridCorners).
  set (l := levels blackC boardC whiteC 5 (15 # 100) (variances s)).
  set (margin := fun row col : Z =>
         if (row =? 0) || (row =? boardSize - 1) || (col =? 0)
            || (col =? boardSize - 1)
         then (totalSpread l * (1 # 10))%Q else 0%Q).
  change (flat_map _ (lines boardSize))
    with (over_grid (fun row col =>
                       by_levels l s boardSize (margin row col) row col)
                    boardSize).
  pose proof (by_levels_one_stone l s boardSize margin) as Hone.
  pose proof (over_grid_on_grid _ boardSize Hone) as Hgrid.
  pose proof (over_grid_sorted _ boardSize Hone) as Hsorted.
  split; [exact Hgrid|]. split; [exact Hsorted|]. split.
  - intros col row. now apply sorted_once.
  - intros Hsize. revert Hgrid. apply Forall_impl.
    intros t [Hx Hy]. unfold SgfSpec.on_board. lia.
Qed.

(** *** Hints *)

Lemma show_Z_inj (a b : Z) : show_Z a = show_Z b -> a = b.
Proof.
  unfold show_Z. intros E.
  assert (Hnz : forall z, Z.to_int z <> Decimal.Pos Decimal.Nil
                          /\ Z.to_int z <> Decimal.Neg Decimal.Nil).
  { intros [|p|p]; cbn; split; try discriminate;
      intros [= Hp]; pose proof (DecimalPos.Unsigned.of_to p) as H;
      rewrite Hp in H; discriminate. }
  pose proof (NilZero.isi (Z.to_int a) (proj1 (Hnz a)) (proj2 (Hnz a))) as Ha.
  pose proof (NilZero.isi (Z.to_int b) (proj1 (Hnz b)) (proj2 (Hnz b))) as Hb.
  rewrite E, Hb in Ha. injection Ha as Ha.
  rewrite <- (DecimalZ.of_to a), <- (DecimalZ.of_to b). now rewrite Ha.
Qed.

(** Two strings without a comma, each followed by a comma and a rest. *)
Lemma comma_separates (a a' b b' : string) :
  SgfSpec.mentions "," a = false -> SgfSpec.mentions "," a' = false ->
  (a ++ "," ++ b = a' ++ "," ++ b')%string -> a = a' /\ b = b'.
Proof.
  revert a'. induction a as [|c a IH]; intros [|c' a'] Ha Ha' E;
    cbn [append SgfSpec.mentions] in *.
  - injection E as E. now split.
  - injection E as <- E. cbn in Ha'. discriminate.
  - injection E as -> E. cbn in Ha. discriminate.
  - injection E as <- E.
    apply orb_false_iff in Ha, Ha'. destruct Ha as [_ Ha], Ha' as [_ Ha'].
    destruct (IH a' Ha Ha' E) as [-> ->]. now split.
Qed.

Lemma key_eqb (a b c d : Z) :
  (key a b =? key c d)%string = (a =? c) && (b =? d).
Proof.
  destruct ((a =? c) && (b =? d)) eqn:E.
  - apply andb_true_iff in E. destruct E as [E1 E2].
    apply Z.eqb_eq in E1, E2. subst. apply String.eqb_refl.
  - apply String.eqb_neq. intros Hk. unfold key in Hk.
    apply comma_separates in Hk;
      try (apply SgfFacts.show_Z_chars; reflexivity).
    destruct Hk as [H1 H2]. apply show_Z_inj in H1, H2. subst.
    rewrite !Z.eqb_refl in E. discriminate.
Qed.

Lemma map_get_set {V : Type} (m : list (string * V)) (k q : string) (v : V) :
  map_get (map_set m k v) q
  = if (k =? q)%string then Some v else map_get m q.
Proof.
  induction m as [|[k' v'] m IH]; cbn [map_set map_get].
  - reflexivity.
  - destruct (k' =? k)%string eqn:Ek; cbn [map_get].
    + apply String.eqb_eq in Ek. subst k'. now destruct (k =? q)%string.
    + rewrite IH. destruct (k' =? q)%string eqn:Eq; [|reflexivity].
      apply String.eqb_eq in Eq. subst q. now rewrite String.eqb_sym, Ek.
Qed.

Lemma find_last {A : Type} (p : A -> bool) (l : list A) (a : A) :
  find p (rev (a :: l)) = match find p (rev l) with
                          | Some b => Some b
                          | None => if p a then Some a else None
                          end.
Proof.
  cbn [rev]. generalize (rev l). intros r.
  induction r as [|b r IH]; cbn [app find]; [reflexivity|].
  destruct (p b); [reflexivity|exact IH].
Qed.

(** The map of the hints holds, for a position, the last hint given. *)
Lemma hint_map_get (hints : list CalibrationHint) (col row : Z) :
  map_get (fold_left (fun m h => map_set m (key (hint_x h) (hint_y h)) h)
                     hints [])
          (key col row)
  = hint_for hints col row.
Proof.
  unfold hint_for.
  assert (H : forall m,
             map_get (fold_left
                        (fun m h => map_set m (key (hint_x h) (hint_y h)) h)
                        hints m) (key col row)
             = match find (fun h => (hint_x h =? col) && (hint_y h =? row))
                          (rev hints) with
               | Some h => Some h
               | None => map_get m (key col row)
               end).
  { induction hints as [|h hints IH]; intros m; cbn [fold_left];
      [reflexivity|].
    rewrite IH, find_last, map_get_set, key_eqb.
    destruct (find _ (rev hints)); [reflexivity|].
    destruct ((hint_x h =? col) && (hint_y h =? row)); reflexivity. }
  rewrite H. now destruct (find _ (rev hints)).
Qed.

Lemma sorted_NoDup (l : list Z) : StronglySorted Z.lt l -> NoDup l.
Proof.
  induction 1 as [|a l Hl IH Ha]; constructor; [|exact IH].
  intros Hin. rewrite Forall_forall in Ha. specialize (Ha a Hin). lia.
Qed.

Lemma flat_map_empty {A B : Type} (g : A -> list B) (l : list A) :
  (forall a, In a l -> g a = []) -> flat_map g l = [].
Proof.
  induction l as [|a l IH]; intros H; cbn [flat_map]; [reflexivity|].
  rewrite (H a) by now left. apply IH. intros b Hb. apply H. now right.
Qed.

Lemma flat_map_single {A B : Type} (g : A -> list B) (l : list A) (a : A) :
  NoDup l -> In a l ->
  (forall b, In b l -> b <> a -> g b = []) ->
  flat_map g l = g a.
Proof.
  intros Hnd. induction Hnd as [|b l Hb Hnd IH]; intros Hin Hg; [destruct Hin|].
  cbn [flat_map]. destruct Hin as [->|Hin].
  - rewrite flat_map_empty; [apply app_nil_r|].
    intros c Hc. apply Hg; [now right|congruence].
  - rewrite (Hg b); [|now left|congruence].
    apply IH; [exact Hin|]. intros c Hc. apply Hg. now right.
Qed.

Lemma filter_flat_map {A B : Type} (p : B -> bool) (g : A -> list B)
    (l : list A) :
  filter p (flat_map g l) = flat_map (fun a => filter p (g a)) l.
Proof.
  induction l as [|a l IH]; cbn [flat_map]; [reflexivity|].
  now rewrite filter_app, IH.
Qed.

(** The stones at an intersection of the board are the ones given for it. *)
Lemma filter_over_grid (f : Z -> Z -> list DetectedStone)
    (boardSize col row : Z) :
  one_stone f ->
  0 <= col < boardSize -> 0 <= row < boardSize ->
  filter (at_position col row) (over_grid f boardSize) = f row col.
Proof.
  intros Hf Hcol Hrow. unfold over_grid.
  pose proof (sorted_NoDup _ (range_sorted 0 (boardSize - 1))) as Hnd.
  fold (lines boardSize) in Hnd.
  assert (Hcell : forall r c,
            filter (at_position col row) (f r c)
            = if (c =? col) && (r =? row) then f r c else []).
  { intros r c. unfold at_position.
    destruct (Hf r c) as [E|[k E]]; rewrite E; cbn [filter x y];
      destruct ((c =? col) && (r =? row)); reflexivity. }
  rewrite filter_flat_map.
  rewrite (flat_map_single _ (lines boardSize) row Hnd);
    [|now apply in_lines|].
  - rewrite filter_flat_map.
    rewrite (flat_map_single _ (lines boardSize) col Hnd);
      [|now apply in_lines|].
    + now rewrite Hcell, !Z.eqb_refl.
    + intros c _ Hc. rewrite Hcell.
      apply Z.eqb_neq in Hc. now rewrite Hc.
  - intros r _ Hr. rewrite filter_flat_map.
    apply flat_map_empty. intros c _. rewrite Hcell.
    apply Z.eqb_neq in Hr. rewrite Hr. now rewrite andb_false_r.
Qed.

(** X27.  Hints override the classifier.  At an intersection of the board
    for which hints were given, [classifyWithHints] follows the last of
    them: it returns exactly one stone there, of the hinted colour, or no
    stone when the hint says 'empty', whatever the image shows. *)
Theorem hints_override (sqrt : Q -> Q) (hypot : Q -> Q -> Q)
    (gray : GrayImage) (boardSize : Z) (hints : list CalibrationHint)
    (gridCorners : option (Point * Point * Point * Point))
    (col row : Z) (h : CalibrationHint) :
  0 <= col < boardSize -> 0 <= row < boardSize ->
  hint_for hints col row = Some h ->
  filter (at_position col row)
         (classifyWithHints sqrt hypot gray boardSize hints gridCorners)
  = match hint_color h with
    | Some c => [mkStone col row c]
    | None => []
    end.
Proof.
  intros Hcol Hrow Hhint. unfold classifyWithHints. cbv zeta.
  destruct (kmeans3 _ 20) as [[kmBlack kmBoard] kmWhite].
  set (s := sampleGrid sqrt hypot gray boardSize gridCorners).
  set (hintMap := fold_left _ hints []).
  match goal with
  | |- context [by_levels ?lv s boardSize 0] => set (l := lv)
  end.
  set (f := fun row col : Z =>
         match map_get hintMap (key col row) with
         | Some hint =>
             match hint_color hint with
             | Some c => [mkStone col row c]
             | None => []
             end
         | None => by_levels l s boardSize 0 row col
         end).
  change (flat_map _ (lines boardSize)) with (over_grid f boardSize).
  assert (Hone : one_stone f).
  { intros r c. unfold f. destruct (map_get hintMap (key c r)) as [hint|].
    - destruct (hint_color hint) as [k|]; [right; now exists k|now left].
    - apply (by_levels_one_stone l s boardSize (fun _ _ => 0%Q)). }
  rewrite (filter_over_grid f boardSize col row Hone Hcol Hrow).
  unfold f, hintMap. now rewrite hint_map_get, Hhint.
Qed.

Lemma hints_override_witness :
  filter (at_position 2 2)
         (classifyWithHints StonesSample.sqrt_sample StonesSample.hypot_sample
            StonesSample.picture 3
            [mkHint 2 2 (Some black); mkHint 1 1 None; mkHint 2 2 (Some white)]
            None)
  = [mkStone 2 2 white].
Proof.
  apply (hints_override StonesSample.sqrt_sample StonesSample.hypot_sample
           StonesSample.picture 3
           [mkHint 2 2 (Some black); mkHint 1 1 None; mkHint 2 2 (Some white)]
           None 2 2 (mkHint 2 2 (Some white))).
  - lia.
  - lia.
  - reflexivity.
Defined.

(** With the hints of the sample only the hinted white stone is left. *)
Example sample_hints :
  classifyWithHints StonesSample.sqrt_sample StonesSample.hypot_sample
    StonesSample.picture 3
    [mkHint 2 2 (Some black); mkHint 1 1 None; mkHint 2 2 (Some white)] None
  = [mkStone 2 2 white].
Proof. vm_compute. reflexivity. Qed.

(** *** The mean of a disc *)

Lemma disc_in_image (cx cy radius : Q) (w h : Z) (p : Z * Z) :
  In p (disc cx cy radius w h) ->
  0 <= fst p < w /\ 0 <= snd p < h.
Proof.
  unfold disc. cbv zeta. intros Hp.
  apply in_flat_map in Hp. destruct Hp as (y & Hy & Hp).
  apply in_flat_map in Hp. destruct Hp as (x & Hx & Hp).
  apply HoughFacts.in_range in Hx, Hy.
  destruct (Qle_bool _ _); [|destruct Hp].
  destruct Hp as [<-|[]]. cbn [fst snd]. lia.
Qed.

Lemma disc_sum_bounds (data : list Q) (w : Z) (lo hi : Q) (ps : list (Z * Z)) :
  Forall (fun p => within lo hi (sample_at data w (fst p) (snd p))) ps ->
  forall sum count,
    (lo * inject_Z (Z.of_nat count) <= sum
     /\ sum <= hi * inject_Z (Z.of_nat count))%Q ->
    let sc :=
      fold_left
        (fun sc p => ((fst sc + sample_at data w (fst p) (snd p))%Q, S (snd sc)))
        ps (sum, count) in
    snd sc = (count + List.length ps)%nat
    /\ (lo * inject_Z (Z.of_nat (snd sc)) <= fst sc
        /\ fst sc <= hi * inject_Z (Z.of_nat (snd sc)))%Q.
Proof.
  induction 1 as [|p ps [Hlo Hhi] _ IH]; intros sum count Hb; cbn [fold_left].
  - cbn [fst snd List.length]. split; [lia|exact Hb].
  - cbn [fst snd]. destruct (IH (sum + sample_at data w (fst p) (snd p))%Q
                               (S count)) as [Hc Hs].
    + rewrite StatsFacts.Q_of_S. split; lra.
    + split; [cbn [List.length]; lia|exact Hs].
Qed.

(** X28.  The brightness of a disc is a mean of samples.  For an image
    with [width * height] samples, all within [lo, hi], [sampleDisc] returns
    0 when no pixel of the image lies in the disc, and otherwise a value
    within [lo, hi]. *)
Theorem disc_mean_in_range (data : list Q) (cx cy radius : Q) (w h : Z)
    (lo hi : Q) :
  List.length data = Z.to_nat (w * h) ->
  Forall (within lo hi) data ->
  (disc cx cy radius w h = [] -> sampleDisc data cx cy radius w h = 0%Q)
  /\ (disc cx cy radius w h <> [] ->
      within lo hi (sampleDisc data cx cy radius w h)).
Proof.
  intros Hlen Hdata. unfold sampleDisc.
  assert (Hps : Forall (fun p => within lo hi (sample_at data w (fst p) (snd p)))
                       (disc cx cy radius w h)).
  { apply Forall_forall. intros p Hp. apply disc_in_image in Hp.
    rewrite Forall_forall in Hdata. apply Hdata. unfold sample_at.
    apply nth_In. rewrite Hlen.
    pose proof (MaskFacts.index_in_image w h (fst p) (snd p) Hp). lia. }
  destruct (disc_sum_bounds data w lo hi _ Hps 0%Q 0%nat) as [Hc Hs].
  { change (inject_Z (Z.of_nat 0)) with 0%Q. split; lra. }
  destruct (fold_left _ (disc cx cy radius w h) (0%Q, 0%nat)) as [sum count].
  cbn [fst snd] in Hc, Hs. rewrite Nat.add_0_l in Hc. split.
  - intros E. rewrite E in Hc. cbn in Hc. subst count. reflexivity.
  - intros Hne.
    assert (Hpos : (0 < count)%nat).
    { rewrite Hc. destruct (disc cx cy radius w h); [congruence|cbn; lia]. }
    replace (0 <? count)%nat with true by (symmetry; now apply Nat.ltb_lt).
    assert (Hn : (0 < inject_Z (Z.of_nat count))%Q).
    { change 0%Q with (inject_Z 0). rewrite <- Zlt_Qlt. lia. }
    destruct Hs as [Hlo Hhi]. split.
    + apply Qle_shift_div_l; [exact Hn|exact Hlo].
    + apply Qle_shift_div_r; [exact Hn|exact Hhi].
Qed.

Lemma disc_mean_in_range_witness :
  (disc 4 4 (3 # 2) 9 9 = [] ->
   sampleDisc (gray_data StonesSample.picture) 4 4 (3 # 2) 9 9 = 0%Q)
  /\ (disc 4 4 (3 # 2) 9 9 <> [] ->
      within 20 240 (sampleDisc (gray_data StonesSample.picture) 4 4 (3 # 2) 9 9)).
Proof.
  apply (disc_mean_in_range (gray_data StonesSample.picture) 4 4 (3 # 2) 9 9
           20 240).
  - reflexivity.
  - apply Forall_forall. intros v Hv. cbn [gray_data StonesSample.picture] in Hv.
    apply in_map_iff in Hv. destruct Hv as (i & <- & _). unfold within.
    destruct (i =? 40)%nat; [split; discriminate|].
    destruct (i =? 0)%nat; split; discriminate.
Defined.

(** The disc of radius 3/2 around the dark pixel of the sample: nine pixels,
    eight of them of the board. *)
Example sample_disc :
  disc 4 4 (3 # 2) 9 9
  = [(3, 3); (4, 3); (5, 3); (3, 4); (4, 4); (5, 4); (3, 5); (4, 5); (5, 5)]
  /\ (sampleDisc (gray_data StonesSample.picture) 4 4 (3 # 2) 9 9 == 116)%Q.
Proof. vm_compute. split; reflexivity. Qed.

(** A disc outside the image has no pixel. *)
Example disc_outside_image :
  sampleDisc (gray_data StonesSample.picture) (-(5)) 4 1 9 9 = 0%Q.
Proof. vm_compute. reflexivity. Qed.

Example sample_classification :
  classifyIntersections StonesSample.sqrt_sample StonesSample.hypot_sample
                        StonesSample.picture 3 None
  = [mkStone 0 0 white; mkStone 1 1 black].
Proof. vm_compute. reflexivity. Qed.

End StonesFacts.

(** ** Board recognition: the Hough transform *)

Module TransformFacts.
Import Js Engine Mask MaskSpec Transform TransformSpec.
Local Open Scope list_scope.
Local Open Scope Z_scope.

Lemma bump_length (acc : list Z) (i : Z) :
  List.length (bump acc i) = List.length acc.
Proof. apply MaskFacts.write_length. Qed.

Lemma apply_bumps_length (is_ : list Z) (acc : list Z) :
  List.length (apply_bumps is_ acc) = List.length acc.
Proof.
  unfold apply_bumps. revert acc.
  induction is_ as [|i is_ IH]; intros acc; cbn [fold_left]; [reflexivity|].
  rewrite IH. apply bump_length.
Qed.

(** A cell counts the increments that name it, as long as the count stays
    below 2^31. *)
Lemma apply_bumps_counts (is_ : list Z) (acc : list Z) (j : nat) :
  (j < List.length acc)%nat ->
  0 <= nth j acc 0 ->
  nth j acc 0 + Z.of_nat (count_occ Z.eq_dec is_ (Z.of_nat j)) < 2 ^ 31 ->
  nth j (apply_bumps is_ acc) 0
  = nth j acc 0 + Z.of_nat (count_occ Z.eq_dec is_ (Z.of_nat j)).
Proof.
  unfold apply_bumps. revert acc.
  induction is_ as [|i is_ IH]; intros acc Hj H0 Hmax; cbn [fold_left count_occ].
  - cbn. lia.
  - cbn [count_occ] in Hmax.
    destruct (Z.eq_dec i (Z.of_nat j)) as [->|Hne].
    + rewrite IH.
      * unfold bump. rewrite Nat2Z.id, MaskFacts.write_same by exact Hj.
        rewrite HalfFacts.to_int32_small by lia. lia.
      * now rewrite bump_length.
      * unfold bump. rewrite Nat2Z.id, MaskFacts.write_same by exact Hj.
        rewrite HalfFacts.to_int32_small by lia. lia.
      * unfold bump. rewrite Nat2Z.id, MaskFacts.write_same by exact Hj.
        rewrite HalfFacts.to_int32_small by lia. lia.
    + assert (E : nth j (bump acc i) 0 = nth j acc 0)
        by (unfold bump; now apply MaskFacts.write_other).
      rewrite IH; rewrite ?bump_length, ?E; auto.
Qed.

Lemma count_flat_map {A : Type} (g : A -> list Z) (P : A -> bool)
    (l : list A) (j : Z) :
  (forall a, In a l -> count_occ Z.eq_dec (g a) j = if P a then 1%nat else 0%nat) ->
  count_occ Z.eq_dec (flat_map g l) j = List.length (filter P l).
Proof.
  induction l as [|a l IH]; intros H; cbn [flat_map filter]; [reflexivity|].
  rewrite count_occ_app, (H a) by now left.
  rewrite IH by (intros b Hb; apply H; now right).
  destruct (P a); reflexivity.
Qed.

Lemma flat_map_nested {A B C : Type} (f : A -> list B) (g : B -> list C)
    (l : list A) :
  flat_map g (flat_map f l) = flat_map (fun a => flat_map g (f a)) l.
Proof.
  induction l as [|a l IH]; cbn [flat_map]; [reflexivity|].
  now rewrite flat_map_app, IH.
Qed.

Section VotingFacts.
Variable sqrt cos sin : Q -> Q.
Variable DEG : Q.
Variable edges : list Z.
Variables width height : Z.
Variable thetaStepDeg : Q.

Let nRho : Z := rho_count sqrt width height.
Let nTheta : Z := theta_count thetaStepDeg.
Let rhoIdx (x y t : Z) : Z :=
  rho_index sqrt cos sin DEG width height thetaStepDeg x y t.

(** The cells that an edge pixel votes for, in order. *)
Let votes_of (p : Z * Z) : list Z :=
  flat_map
    (fun t =>
       if (0 <=? rhoIdx (fst p) (snd p) t) && (rhoIdx (fst p) (snd p) t <? nRho)
       then [t * nRho + rhoIdx (fst p) (snd p) t] else [])
    (Hough.range 0 (nTheta - 1)).

Lemma houghTransform_votes :
  accumulator
    (houghTransform sqrt cos sin DEG edges width height thetaStepDeg)
  = apply_bumps (flat_map votes_of (edge_pixels edges width height))
                (repeat 0 (Z.to_nat (nTheta * nRho))).
Proof.
  unfold houghTransform, apply_bumps, edge_pixels. cbn [accumulator].
  rewrite flat_map_nested.
  apply MaskFacts.fold_left_flat_map_ext. intros a y _.
  rewrite flat_map_nested.
  apply MaskFacts.fold_left_flat_map_ext. intros a1 x _.
  destruct (set_at edges (y * width + x)); [|reflexivity].
  cbn [flat_map]. rewrite app_nil_r. unfold votes_of. cbn [fst snd].
  apply MaskFacts.fold_left_flat_map_ext. intros a2 t _. cbv zeta.
  fold nRho. fold (rhoIdx x y t).
  destruct ((0 <=? rhoIdx x y t) && (rhoIdx x y t <? nRho)); reflexivity.
Qed.

(** An edge pixel votes once for the cell of its line at each angle. *)
Lemma votes_of_cell (p : Z * Z) (t r : Z) :
  0 <= t < nTheta -> 0 <= r < nRho ->
  count_occ Z.eq_dec (votes_of p) (t * nRho + r)
  = if rhoIdx (fst p) (snd p) t =? r then 1%nat else 0%nat.
Proof.
  intros Ht Hr. unfold votes_of.
  set (cell := fun t' =>
         if (0 <=? rhoIdx (fst p) (snd p) t')
            && (rhoIdx (fst p) (snd p) t' <? nRho)
         then [t' * nRho + rhoIdx (fst p) (snd p) t'] else []).
  rewrite (count_flat_map cell (fun t' => (t' =? t) && (rhoIdx (fst p) (snd p) t' =? r))).
  - pose proof (StonesFacts.sorted_NoDup _ (StonesFacts.range_sorted 0 (nTheta - 1)))
      as Hnd.
    assert (Hin : In t (Hough.range 0 (nTheta - 1)))
      by (apply HoughFacts.in_range; lia).
    revert Hnd Hin. generalize (Hough.range 0 (nTheta - 1)). intros l Hnd.
    induction Hnd as [|t' l Hnot Hnd IH]; intros Hin; [destruct Hin|].
    cbn [filter]. destruct Hin as [->|Hin].
    + rewrite Z.eqb_refl. cbn [andb].
      assert (Hrest : filter (fun t' => (t' =? t) && (rhoIdx (fst p) (snd p) t' =? r)) l = []).
      { clear IH Hnd. induction l as [|b l IHl]; cbn [filter]; [reflexivity|].
        destruct (Z.eqb_spec b t) as [->|Hb]; [elim Hnot; now left|].
        cbn [andb]. apply IHl. intros Hl. apply Hnot. now right. }
      rewrite Hrest. now destruct (rhoIdx (fst p) (snd p) t =? r).
    + destruct (Z.eqb_spec t' t) as [->|Hne]; [contradiction|].
      cbn [andb]. now apply IH.
  - intros t' _. unfold cell.
    destruct ((0 <=? rhoIdx (fst p) (snd p) t')
              && (rhoIdx (fst p) (snd p) t' <? nRho)) eqn:Ein; cbn [count_occ].
    + apply andb_true_iff in Ein. destruct Ein as [E0 E1].
      apply Z.leb_le in E0. apply Z.ltb_lt in E1.
      destruct (Z.eq_dec (t' * nRho + rhoIdx (fst p) (snd p) t') (t * nRho + r))
        as [E|E].
      * destruct (MaskFacts.pixel_of_index nRho (rhoIdx (fst p) (snd p) t') t'
                    r t (conj E0 E1) Hr E) as [Er Et].
        subst t'. rewrite Er. now rewrite !Z.eqb_refl.
      * destruct (Z.eqb_spec t' t) as [->|Ht']; [|reflexivity].
        destruct (Z.eqb_spec (rhoIdx (fst p) (snd p) t) r) as [Er|Er];
          [|reflexivity].
        elim E. now rewrite Er.
    + destruct (Z.eqb_spec t' t) as [->|Ht']; [|reflexivity].
      destruct (Z.eqb_spec (rhoIdx (fst p) (snd p) t) r) as [Er|Er];
        [|reflexivity].
      rewrite Er in Ein. apply andb_false_iff in Ein.
      destruct Ein as [Ein|Ein]; [apply Z.leb_gt in Ein|apply Z.ltb_ge in Ein];
        lia.
Qed.

End VotingFacts.

(** X29.  The accumulator counts the edge pixels of each line.  With fewer
    than 2^31 edge pixels, the accumulator of [houghTransform] has
    [numTheta * numRho] cells, and the cell of angle index [t] and distance
    index [r] holds the number of edge pixels [(x, y)] of the image for
    which [Math.round(rho + D)] at that angle is [r]. *)
Theorem votes_are_counted (sqrt cos sin : Q -> Q) (DEG : Q) (edges : list Z)
    (width height : Z) (thetaStepDeg : Q) :
  let H := houghTransform sqrt cos sin DEG edges width height thetaStepDeg in
  Z.of_nat (List.length (edge_pixels edges width height)) < 2 ^ 31 ->
  List.length (accumulator H) = Z.to_nat (numTheta H * numRho H)
  /\ forall t r,
       0 <= t < numTheta H -> 0 <= r < numRho H ->
       nth (Z.to_nat (t * numRho H + r)) (accumulator H) 0
       = Z.of_nat
           (List.length
              (filter
                 (fun p =>
                    rho_index sqrt cos sin DEG width height thetaStepDeg
                              (fst p) (snd p) t =? r)
                 (edge_pixels edges width height))).
Proof.
  intros H Hfew. unfold H. rewrite houghTransform_votes.
  cbn [numTheta numRho houghTransform].
  set (nRho := rho_count sqrt width height).
  set (nTheta := theta_count thetaStepDeg).
  split; [now rewrite apply_bumps_length, repeat_length|].
  intros t r Ht Hr.
  assert (Hcell : 0 <= t * nRho + r < nTheta * nRho) by nia.
  assert (Hcount :
    count_occ Z.eq_dec
      (flat_map
         (fun p =>
            flat_map
              (fun t0 =>
                 if (0 <=? rho_index sqrt cos sin DEG width height thetaStepDeg
                             (fst p) (snd p) t0)
                    && (rho_index sqrt cos sin DEG width height thetaStepDeg
                          (fst p) (snd p) t0 <? nRho)
                 then [t0 * nRho
                       + rho_index sqrt cos sin DEG width height thetaStepDeg
                           (fst p) (snd p) t0]
                 else [])
              (Hough.range 0 (nTheta - 1)))
         (edge_pixels edges width height))
      (t * nRho + r)
    = List.length
        (filter
           (fun p =>
              rho_index sqrt cos sin DEG width height thetaStepDeg
                        (fst p) (snd p) t =? r)
           (edge_pixels edges width height))).
  { apply count_flat_map. intros p _.
    apply (votes_of_cell sqrt cos sin DEG width height thetaStepDeg p t r Ht Hr). }
  pose proof (filter_length_le
                (fun p =>
                   rho_index sqrt cos sin DEG width height thetaStepDeg
                             (fst p) (snd p) t =? r)
                (edge_pixels edges width height)) as Hle.
  rewrite apply_bumps_counts.
  - rewrite nth_repeat, Z2Nat.id by lia. rewrite Hcount. lia.
  - rewrite repeat_length. lia.
  - rewrite nth_repeat. lia.
  - rewrite nth_repeat, Z2Nat.id by lia. rewrite Hcount. lia.
Qed.

Lemma votes_are_counted_witness :
  let H :=
    houghTransform TransformSample.sqrt_sample TransformSample.cos_sample
      TransformSample.sin_sample (1 # 90) TransformSample.edges 3 3 90 in
  List.length (accumulator H) = Z.to_nat (numTheta H * numRho H)
  /\ forall t r,
       0 <= t < numTheta H -> 0 <= r < numRho H ->
       nth (Z.to_nat (t * numRho H + r)) (accumulator H) 0
       = Z.of_nat
           (List.length
              (filter
                 (fun p =>
                    rho_index TransformSample.sqrt_sample
                      TransformSample.cos_sample TransformSample.sin_sample
                      (1 # 90) 3 3 90 (fst p) (snd p) t =? r)
                 (edge_pixels TransformSample.edges 3 3))).
Proof.
  apply (votes_are_counted TransformSample.sqrt_sample
           TransformSample.cos_sample TransformSample.sin_sample (1 # 90)
           TransformSample.edges 3 3 90).
  vm_compute. reflexivity.
Defined.

(** The sample: at angle 0 the three pixels of the vertical line fall in one
    cell; at the quarter turn they fall in three. *)
Example sample_transform :
  accumulator
    (houghTransform TransformSample.sqrt_sample TransformSample.cos_sample
       TransformSample.sin_sample (1 # 90) TransformSample.edges 3 3 90)
  = [0; 0; 0; 0; 0; 3; 0; 0; 0; 0; 0; 0;
     0; 0; 0; 0; 1; 1; 1; 0; 0; 0; 0; 0].
Proof. vm_compute. reflexivity. Qed.

End TransformFacts.

(** ** Inference engine: the input planes *)

Module FeaturizeFacts.
Import Js Engine Mask MaskSpec Featurize FeaturizeSpec.
Local Open Scope list_scope.
Local Open Scope Z_scope.

Lemma apply_writes_app (ws1 ws2 : list (Z * Z)) (out : list Z) :
  apply_writes (ws1 ++ ws2) out = apply_writes ws2 (apply_writes ws1 out).
Proof. unfold apply_writes. apply fold_left_app. Qed.

(** The index of a plane cell determines the plane and the cell. *)
Lemma cell_index_inj (s c h w c' h' w' : Z) :
  0 <= h < s -> 0 <= w < s -> 0 <= h' < s -> 0 <= w' < s ->
  c * s * s + h * s + w = c' * s * s + h' * s + w' ->
  c = c' /\ h = h' /\ w = w'.
Proof.
  intros Hh Hw Hh' Hw' E.
  destruct (MaskFacts.pixel_of_index s w (c * s + h) w' (c' * s + h') Hw Hw')
    as [Ew E1]; [lia|].
  destruct (MaskFacts.pixel_of_index s h c h' c' Hh Hh' E1) as [Eh Ec].
  auto.
Qed.

Section PlanesFacts.
Variable getChain : GoBoard -> Z * Z -> list (Z * Z).
Variable board : GoBoard.
Variable pla : Sign.
Variable komi : Q.
Variable history : list Move.
Variable size : Z.
Variable batchIndex : Z.

Lemma stone_planes_writes (b : list Z) (x y : Z) :
  stone_planes getChain board pla size batchIndex b x y
  = apply_writes (stone_writes getChain board pla size batchIndex x y) b.
Proof.
  unfold stone_planes, stone_writes, set_plane, cell. cbv zeta.
  destruct (is_sign (sign_at board x y) pla);
    [|destruct (is_sign (sign_at board x y) (opp pla))];
    (destruct (is_sign (sign_at board x y) 0); [reflexivity|]);
    destruct (_ =? 1); destruct (_ =? 2); destruct (_ =? 3); reflexivity.
Qed.

Lemma ko_plane_writes (b : list Z) :
  ko_plane board pla size batchIndex b
  = apply_writes (ko_writes board pla size batchIndex) b.
Proof.
  unfold ko_plane, ko_writes. destruct (_koInfo board) as [ko|]; [|reflexivity].
  destruct (_ && _); reflexivity.
Qed.

Lemma setHistory_writes (b : list Z) (k : nat) (f : Z) :
  setHistory history size batchIndex b k f
  = apply_writes (history_writes history size batchIndex k f) b.
Proof.
  unfold setHistory, history_writes.
  destruct (earlier history k) as [m|]; [|reflexivity].
  destruct (my m) as [y|]; [|reflexivity].
  destruct (_ && _); reflexivity.
Qed.

Lemma featurizeToBuffer_writes (bin_input : list Z) (global_input : list Q) :
  fst (featurizeToBuffer getChain board pla komi history size batchIndex
                         bin_input global_input)
  = apply_writes (bin_writes getChain board pla history size batchIndex)
                 bin_input.
Proof.
  unfold featurizeToBuffer, bin_writes. cbn [fst].
  rewrite !apply_writes_app, !setHistory_writes, ko_plane_writes.
  do 6 f_equal. unfold apply_writes.
  apply MaskFacts.fold_left_flat_map_ext. intros b y _.
  apply MaskFacts.fold_left_flat_map_ext. intros b1 x _.
  apply stone_planes_writes.
Qed.

(** Every write sets a cell of the board in some plane to 1; the planes 1
    and 2 are written only for stones of the side to move and of the other
    side. *)
Lemma bin_writes_shape (c : Z * Z) :
  ko_on_board board size ->
  In c (bin_writes getChain board pla history size batchIndex) ->
  exists k h w,
    c = cell size batchIndex k h w
    /\ 0 <= h < size /\ 0 <= w < size
    /\ (k = 0
        \/ (k = 1 /\ is_sign (sign_at board w h) pla = true)
        \/ (k = 2 /\ is_sign (sign_at board w h) pla = false
            /\ is_sign (sign_at board w h) (opp pla) = true)
        \/ 3 <= k).
Proof.
  intros Hko Hc. unfold bin_writes in Hc.
  assert (Hhist : forall k f, 3 <= f ->
            In c (history_writes history size batchIndex k f) ->
            exists k h w,
              c = cell size batchIndex k h w
              /\ 0 <= h < size /\ 0 <= w < size
              /\ (k = 0
                  \/ (k = 1 /\ is_sign (sign_at board w h) pla = true)
                  \/ (k = 2 /\ is_sign (sign_at board w h) pla = false
                      /\ is_sign (sign_at board w h) (opp pla) = true)
                  \/ 3 <= k)).
  { intros k f Hf Hin. unfold history_writes in Hin.
    destruct (earlier history k) as [m|]; [|destruct Hin].
    destruct (my m) as [y|]; [|destruct Hin].
    destruct ((0 <=? mx m) && (mx m <? size) && (0 <=? y) && (y <? size))
      eqn:E; [|destruct Hin].
    destruct Hin as [<-|[]].
    repeat (apply andb_true_iff in E; destruct E as [E ?]).
    exists f, y, (mx m).
    split; [reflexivity|]. split; [lia|]. split; [lia|]. tauto. }
  repeat (apply in_app_or in Hc; destruct Hc as [Hc|Hc]);
    try (eapply Hhist; [|exact Hc]; lia).
  - apply in_flat_map in Hc. destruct Hc as (y & Hy & Hc).
    apply in_flat_map in Hc. destruct Hc as (x & Hx & Hc).
    apply HoughFacts.in_range in Hx, Hy.
    unfold stone_writes in Hc. cbv zeta in Hc.
    apply in_app_or in Hc. destruct Hc as [[<-|[]]|Hc].
    { exists 0, y, x.
      split; [reflexivity|]. split; [lia|]. split; [lia|]. now left. }
    apply in_app_or in Hc. destruct Hc as [Hc|Hc].
    + destruct (is_sign (sign_at board x y) pla) eqn:Epla.
      * destruct Hc as [<-|[]]. exists 1, y, x.
        split; [reflexivity|]. split; [lia|]. split; [lia|].
        right. left. now split.
      * destruct (is_sign (sign_at board x y) (opp pla)) eqn:Eopp;
          [|destruct Hc].
        destruct Hc as [<-|[]]. exists 2, y, x.
        split; [reflexivity|]. split; [lia|]. split; [lia|].
        right. right. left. auto.
    + destruct (is_sign (sign_at board x y) 0); [destruct Hc|].
      repeat (apply in_app_or in Hc; destruct Hc as [Hc|Hc]);
        match type of Hc with
        | In _ (if ?b then _ else _) => destruct b; [|destruct Hc]
        end;
        destruct Hc as [<-|[]];
        [exists 3, y, x|exists 4, y, x|exists 5, y, x];
        (split; [reflexivity|]); (split; [lia|]); (split; [lia|]);
        right; right; right; lia.
  - unfold ko_writes in Hc. unfold ko_on_board in Hko.
    destruct (_koInfo board) as [ko|]; [|destruct Hc].
    destruct (_ && _); [|destruct Hc]. destruct Hc as [<-|[]].
    exists 6, (snd (ko_vertex ko)), (fst (ko_vertex ko)).
    split; [reflexivity|]. split; [lia|]. split; [lia|].
    right; right; right; lia.
Qed.

Lemma stone_writes_in (x y : Z) (c : Z * Z) :
  0 <= x < size -> 0 <= y < size ->
  In c (stone_writes getChain board pla size batchIndex x y) ->
  In c (bin_writes getChain board pla history size batchIndex).
Proof.
  intros Hx Hy Hc. unfold bin_writes. apply in_or_app. left.
  apply in_flat_map. exists y. split; [apply HoughFacts.in_range; lia|].
  apply in_flat_map. exists x. split; [apply HoughFacts.in_range; lia|].
  exact Hc.
Qed.

End PlanesFacts.

(** X30.  The stone planes show the position from the side to move.  For
    a board with [size] rows whose chains and ko vertex lie on the board,
    [featurize] returns [22 * size * size] plane cells; at every
    intersection plane 0 holds 1, plane 1 holds 1 exactly where the board
    has a stone of the side to move [pla], and plane 2 holds 1 exactly where
    it has a stone of the other side; all other cells of these planes hold
    0, so that no intersection is marked in both planes. *)
Theorem stone_planes_encode (getChain : GoBoard -> Z * Z -> list (Z * Z))
    (board : GoBoard) (pla : Sign) (komi : Q) (history : list Move)
    (size : Z) :
  size <= Z.of_nat (List.length (signMap board)) ->
  (forall x y, 0 <= x < size -> 0 <= y < size ->
     Forall (on_board size) (getChain board (x, y))) ->
  ko_on_board board size ->
  let bin := fst (featurize getChain board pla komi history size) in
  List.length bin = Z.to_nat (22 * size * size)
  /\ forall x y,
       0 <= x < size -> 0 <= y < size ->
       plane_at bin size 0 x y = 1
       /\ plane_at bin size 1 x y = indicator (is_sign (sign_at board x y) pla)
       /\ plane_at bin size 2 x y
          = indicator (is_sign (sign_at board x y) (opp pla))
       /\ (plane_at bin size 1 x y = 0 \/ plane_at bin size 2 x y = 0).
Proof.
  intros _ _ Hko bin. unfold bin, featurize.
  rewrite featurizeToBuffer_writes.
  set (ws := bin_writes getChain board pla history size 0).
  split; [now rewrite MaskFacts.apply_writes_length, repeat_length|].
  intros x y Hx Hy.
  assert (Hshape : forall c, In c ws ->
            exists k h w,
              c = (k * size * size + h * size + w, 1)
              /\ 0 <= h < size /\ 0 <= w < size
              /\ (k = 0
                  \/ (k = 1 /\ is_sign (sign_at board w h) pla = true)
                  \/ (k = 2 /\ is_sign (sign_at board w h) pla = false
                      /\ is_sign (sign_at board w h) (opp pla) = true)
                  \/ 3 <= k)).
  { intros c Hc.
    destruct (bin_writes_shape getChain board pla history size 0 c Hko Hc)
      as (k & h & w & -> & Hh & Hw & Hk).
    exists k, h, w. split; [|auto]. unfold cell, batchOffset. f_equal; lia. }
  assert (Hin : forall c,
            In c (stone_writes getChain board pla size 0 x y) -> In c ws).
  { intros c. now apply stone_writes_in. }
  assert (Hcell : forall k, cell size 0 k y x = (k * size * size + y * size + x, 1)).
  { intros k. unfold cell, batchOffset. f_equal; lia. }
  assert (Hvalue : forall k (b : bool),
            0 <= k < 3 ->
            (b = true -> In (k * size * size + y * size + x, 1) ws) ->
            (forall c h w, In c ws ->
               c = (k * size * size + h * size + w, 1) ->
               0 <= h < size -> 0 <= w < size -> h = y -> w = x -> b = true) ->
            plane_at (apply_writes ws (repeat 0 (Z.to_nat (22 * size * size))))
                     size k x y
            = indicator b).
  { intros k b Hk Hexists Honly. unfold plane_at.
    assert (Hrange : 0 <= k * size * size + y * size + x < 22 * size * size)
      by nia.
    destruct b; cbn [indicator].
    - apply MaskFacts.apply_writes_value.
      + rewrite repeat_length. lia.
      + exists (k * size * size + y * size + x, 1). split; [now apply Hexists|].
        cbn [fst]. lia.
      + intros c Hc _. destruct (Hshape c Hc) as (? & ? & ? & -> & _).
        reflexivity.
    - rewrite MaskFacts.apply_writes_untouched; [apply nth_repeat|].
      intros c Hc Efst.
      destruct (Hshape c Hc) as (k' & h & w & Ec & Hh & Hw & _).
      subst c. cbn [fst] in Efst. rewrite Z2Nat.id in Efst by lia.
      destruct (cell_index_inj size k' h w k y x Hh Hw Hy Hx Efst)
        as (-> & -> & ->).
      discriminate (Honly _ y x Hc eq_refl Hy Hx eq_refl eq_refl). }
  assert (H0 : plane_at (apply_writes ws (repeat 0 (Z.to_nat (22 * size * size))))
                        size 0 x y = 1).
  { apply (Hvalue 0 true); [lia| |auto].
    intros _. apply Hin. unfold stone_writes. cbv zeta.
    apply in_or_app. left. left. apply Hcell. }
  assert (H1 : plane_at (apply_writes ws (repeat 0 (Z.to_nat (22 * size * size))))
                        size 1 x y
               = indicator (is_sign (sign_at board x y) pla)).
  { apply Hvalue; [lia| |].
    - intros E. apply Hin. unfold stone_writes. cbv zeta.
      apply in_or_app. right. apply in_or_app. left.
      rewrite E. left. apply Hcell.
    - intros c h w Hc Ec Hh Hw -> ->.
      destruct (Hshape c Hc) as (k' & h' & w' & Ec' & Hh' & Hw' & Hk).
      rewrite Ec in Ec'. injection Ec' as Ec'.
      destruct (cell_index_inj size 1 y x k' h' w' Hy Hx Hh' Hw' Ec')
        as (<- & <- & <-).
      destruct Hk as [Hk|[[_ Hk]|[[Hk _]|Hk]]]; try lia. exact Hk. }
  assert (H2 : plane_at (apply_writes ws (repeat 0 (Z.to_nat (22 * size * size))))
                        size 2 x y
               = indicator (is_sign (sign_at board x y) (opp pla))).
  { apply Hvalue; [lia| |].
    - intros E. apply Hin. unfold stone_writes. cbv zeta.
      apply in_or_app. right. apply in_or_app. left.
      assert (Epla : is_sign (sign_at board x y) pla = false).
      { unfold is_sign in *. destruct (sign_at board x y) as [v|]; [|reflexivity].
        apply Z.eqb_eq in E. subst v. apply Z.eqb_neq. unfold opp.
        destruct (Z.eqb_spec pla 1); lia. }
      rewrite Epla, E. left. apply Hcell.
    - intros c h w Hc Ec Hh Hw -> ->.
      destruct (Hshape c Hc) as (k' & h' & w' & Ec' & Hh' & Hw' & Hk).
      rewrite Ec in Ec'. injection Ec' as Ec'.
      destruct (cell_index_inj size 2 y x k' h' w' Hy Hx Hh' Hw' Ec')
        as (<- & <- & <-).
      destruct Hk as [Hk|[[Hk _]|[[_ [_ Hk]]|Hk]]]; try lia. exact Hk. }
  split; [exact H0|]. split; [exact H1|]. split; [exact H2|].
  rewrite H1, H2. unfold is_sign, opp, indicator.
  destruct (sign_at board x y) as [v|]; [|now left].
  destruct (Z.eqb_spec v pla) as [->|Hne]; [|now left].
  right. destruct (Z.eqb_spec pla 1) as [->|H1']; [reflexivity|].
  destruct (Z.eqb_spec pla 1); [lia|reflexivity].
Qed.


Lemma stone_planes_encode_witness :
  let bin :=
    fst (featurize FeaturizeSample.single FeaturizeSample.position 1 (13 # 2)
           [mkMove 1 0 (Some 0)] 3) in
  List.length bin = Z.to_nat (22 * 3 * 3)
  /\ forall x y,
       0 <= x < 3 -> 0 <= y < 3 ->
       plane_at bin 3 0 x y = 1
       /\ plane_at bin 3 1 x y
          = indicator (is_sign (sign_at FeaturizeSample.position x y) 1)
       /\ plane_at bin 3 2 x y
          = indicator (is_sign (sign_at FeaturizeSample.position x y) (opp 1))
       /\ (plane_at bin 3 1 x y = 0 \/ plane_at bin 3 2 x y = 0).
Proof.
  apply (stone_planes_encode FeaturizeSample.single FeaturizeSample.position 1
           (13 # 2) [mkMove 1 0 (Some 0)] 3).
  - cbn. lia.
  - intros x y Hx Hy. unfold FeaturizeSample.single.
    constructor; [|constructor]. unfold on_board. cbn [fst snd]. lia.
  - exact I.
Defined.

(** The first six planes of the sample: ones, the stone of Black to move,
    the stone of White, no stone with one liberty, Black's stone with two
    liberties, no stone with three. *)
Example sample_planes :
  firstn 54
    (fst (featurize FeaturizeSample.single FeaturizeSample.position 1 (13 # 2)
            [mkMove 1 0 (Some 0)] 3))
  = [1; 1; 1; 1; 1; 1; 1; 1; 1;
     1; 0; 0; 0; 0; 0; 0; 0; 0;
     0; 0; 0; 0; 1; 0; 0; 0; 0;
     0; 0; 0; 0; 0; 0; 0; 0; 0;
     1; 0; 0; 0; 0; 0; 0; 0; 0;
     0; 0; 0; 0; 0; 0; 0; 0; 0].
Proof. vm_compute. reflexivity. Qed.

(** The last move of the history in plane 9, and the komi in the global
    input. *)
Example sample_history_and_komi :
  plane_at
    (fst (featurize FeaturizeSample.single FeaturizeSample.position 1 (13 # 2)
            [mkMove 1 0 (Some 0)] 3)) 3 9 0 0 = 1
  /\ map Qred
        (snd (featurize FeaturizeSample.single FeaturizeSample.position 1
                (13 # 2) [mkMove 1 0 (Some 0)] 3))
     = [0; 0; 0; 0; 0; 13 # 40; 0; 0; 0; 0; 0; 0; 0; 0; 0; 0; 0; 0; 0]%Q.
Proof. vm_compute. split; reflexivity. Qed.

End FeaturizeFacts.
